(** * nginx 1.6.2 core: memory pool (ngx_palloc.c) and radix tree
      (ngx_radix_tree.c)

    A shallow embedding of the two C files and the properties of their
    specification.  Pointers are addresses in [Z] with [NULL = 0]; the
    chain of pool blocks and the list of large allocations are the Rocq
    lists of their entries in link order.  The entries of the cleanup
    stack lie in memory that the pool hands out, and hands out again after
    a reset: they are words in a finite map from addresses to values,
    linked by their [next] fields.  The nodes of the radix tree live in a
    finite map from addresses to node records, so that parent pointers,
    the free list threaded through [right] and accesses through a null
    pointer are what they are in the C code. *)

From Stdlib Require Import ZArith Lia.
From stdpp Require Import base option list gmap.

Local Open Scope Z_scope.

(** ** Outcomes of a call *)

Abbreviation ptr := Z (only parsing).
Definition NULL : ptr := 0.

(** A call returns ([Done]), accesses memory through a pointer that holds
    no object ([Segv], with the offending address: undefined behaviour in
    C), or is cut off by the step budget of the model ([OutOfFuel]). *)
Inductive res (A : Type) : Type :=
  | Done (a : A)
  | Segv (p : ptr)
  | OutOfFuel.
Arguments Done {A} a.
Arguments Segv {A} p.
Arguments OutOfFuel {A}.

Definition res_bind {A B} (f : A -> res B) (r : res A) : res B :=
  match r with
  | Done a => f a
  | Segv p => Segv p
  | OutOfFuel => OutOfFuel
  end.

#[global] Instance res_mbind : MBind res := @res_bind.
#[global] Instance res_mret : MRet res := @Done.

(** Return codes of ngx_core.h that the two files use. *)
Inductive ngx_int_t : Type := NGX_OK | NGX_ERROR | NGX_BUSY | NGX_DECLINED.

#[global] Instance ngx_int_t_eq_dec : EqDecision ngx_int_t.
Proof. solve_decision. Defined.

(** ** Platform constants

    Modelled from the spec: the header files (ngx_palloc.h, ngx_config.h,
    ngx_alloc.h) are not part of the sources; the constants are those of
    the amd64 build the comments of ngx_radix_tree.c refer to (64-bit
    pointers, 4K pages), with [NGX_MAX_ALLOC_FROM_POOL = page_size - 1]
    and pool alignment 16 as the specification gives them. *)
Definition ngx_pagesize : Z := 4096.
Definition NGX_MAX_ALLOC_FROM_POOL : Z := ngx_pagesize - 1.
Definition NGX_POOL_ALIGNMENT : Z := 16.
Definition NGX_ALIGNMENT : Z := 8.
Definition size_max : Z := 2 ^ 64.
Definition sizeof_ngx_pool_data_t : Z := 32.
Definition sizeof_ngx_pool_t : Z := 80.
Definition sizeof_ngx_pool_large_t : Z := 16.
Definition sizeof_ngx_pool_cleanup_t : Z := 24.
Definition sizeof_ngx_radix_node_t : Z := 32.
Definition sizeof_ngx_radix_tree_t : Z := 40.

(** [ngx_align_ptr(p, a)]: [(p + (a - 1)) & ~(a - 1)]. *)
Definition ngx_align_ptr (p a : Z) : Z := Z.land (p + (a - 1)) (Z.lnot (a - 1)).

(** ** The underlying allocator and the observable events

    Modelled from the spec: ngx_alloc, ngx_memalign and ngx_free
    (src/os/unix/ngx_alloc.c) are external collaborators of which only the
    contract is known: they hand out fresh blocks, may fail, and take
    blocks back.  The model hands out addresses in increasing order from
    [brk], fails when a block would end beyond [limit] (no limit: never),
    and records every [ngx_free] and every cleanup handler call in
    [trace], oldest first. *)
Inductive event : Type :=
  | EFree (p : ptr)
  | ERun (handler : Z) (data : ptr).

Record world : Type := mk_world {
  brk : Z;
  limit : option Z;
  trace : list event
}.

Definition fits (e : Z) (w : world) : bool :=
  match limit w with
  | None => true
  | Some l => e <=? l
  end.

Definition ngx_memalign (alignment size : Z) (w : world) : ptr * world :=
  let a := ngx_align_ptr (brk w) alignment in
  if fits (a + size) w
  then (a, mk_world (a + size) (limit w) (trace w))
  else (NULL, w).

Definition ngx_alloc (size : Z) (w : world) : ptr * world :=
  ngx_memalign NGX_POOL_ALIGNMENT size w.

Definition ngx_free (p : ptr) (w : world) : world :=
  mk_world (brk w) (limit w) (trace w ++ [EFree p]).

Definition run_handler (h : Z) (data : ptr) (w : world) : world :=
  mk_world (brk w) (limit w) (trace w ++ [ERun h data]).

(** ** The pool: ngx_palloc.c *)

Module Pool.

(** A block of the pool: [ngx_pool_data_t], at address [d_self].  The
    [next] link is the order of the blocks in the chain. *)
Record ngx_pool_data_t : Type := mk_data {
  d_self : ptr;
  d_last : ptr;
  d_end : ptr;
  d_failed : Z
}.

(** [ngx_pool_large_t], at address [l_self] inside the pool. *)
Record ngx_pool_large_t : Type := mk_large {
  l_self : ptr;
  l_alloc : ptr
}.

(** [ngx_pool_cleanup_t] at address [c], in memory obtained from the
    pool: the addresses of its fields.

    Modelled from the spec: the layout is that of ngx_palloc.h, which is
    not part of the sources: [handler] (a function pointer, [NULL] for
    none), [data] and [next], a word of 8 bytes each. *)
Definition c_handler (c : ptr) : ptr := c.
Definition c_data (c : ptr) : ptr := c + 8.
Definition c_next (c : ptr) : ptr := c + 16.

(** [ngx_pool_t]: the handle is the head of the first block ([d]);
    [d_next] is the rest of the chain, reached through [d.next].
    [cleanup] is the address of the cleanup entry registered last, and
    [words] holds what the cleanup functions and the caller of
    ngx_pool_cleanup_add wrote into the fields of cleanup entries, by
    address: an entry is memory of the pool like any other allocation, so
    that two entries at the same address are one.  What a caller writes
    into memory it allocated for itself is not part of the model. *)
Record ngx_pool_t : Type := mk_pool {
  d : ngx_pool_data_t;
  d_next : list ngx_pool_data_t;
  max : Z;
  current : ptr;
  chain : ptr;
  large : list ngx_pool_large_t;
  cleanup : ptr;
  log : ptr;
  words : gmap Z Z
}.

Definition blocks (pool : ngx_pool_t) : list ngx_pool_data_t :=
  d pool :: d_next pool.

Definition set_blocks (pool : ngx_pool_t) (l : list ngx_pool_data_t) : ngx_pool_t :=
  match l with
  | [] => pool
  | b :: r =>
      mk_pool b r (max pool) (current pool) (chain pool) (large pool)
        (cleanup pool) (log pool) (words pool)
  end.

Definition set_current (pool : ngx_pool_t) (c : ptr) : ngx_pool_t :=
  mk_pool (d pool) (d_next pool) (max pool) c (chain pool) (large pool)
    (cleanup pool) (log pool) (words pool).

Definition set_large (pool : ngx_pool_t) (l : list ngx_pool_large_t) : ngx_pool_t :=
  mk_pool (d pool) (d_next pool) (max pool) (current pool) (chain pool) l
    (cleanup pool) (log pool) (words pool).

Definition set_cleanup (pool : ngx_pool_t) (c : ptr) : ngx_pool_t :=
  mk_pool (d pool) (d_next pool) (max pool) (current pool) (chain pool)
    (large pool) c (log pool) (words pool).

(** A write of [v] into the field of a cleanup entry at address [a]. *)
Definition store (pool : ngx_pool_t) (a : ptr) (v : Z) : ngx_pool_t :=
  mk_pool (d pool) (d_next pool) (max pool) (current pool) (chain pool)
    (large pool) (cleanup pool) (log pool) (<[a := v]> (words pool)).

(** [c] points into memory that the pool holds: into one of its blocks,
    or at a large allocation that has not been freed. *)
Definition holds (pool : ngx_pool_t) (c : ptr) : bool :=
  existsb (fun b => (d_self b <=? c) && (c <? d_end b)) (blocks pool)
  || existsb (fun e => l_alloc e =? c) (large pool).

(** A read of the field at address [a] of the cleanup entry at [c]: the
    value written there last.  Reading through a pointer to memory that
    the pool does not hold, or a field that was never written, has no
    defined result. *)
Definition load (pool : ngx_pool_t) (c a : ptr) : res Z :=
  if holds pool c then
    match words pool !! a with
    | Some v => Done v
    | None => Segv a
    end
  else Segv a.

Definition set_last (b : ngx_pool_data_t) (l : ptr) : ngx_pool_data_t :=
  mk_data (d_self b) l (d_end b) (d_failed b).

Definition set_failed (b : ngx_pool_data_t) (f : Z) : ngx_pool_data_t :=
  mk_data (d_self b) (d_last b) (d_end b) f.

Definition set_alloc (e : ngx_pool_large_t) (p : ptr) : ngx_pool_large_t :=
  mk_large (l_self e) p.

(** The blocks before the one at address [c], and the chain from it on. *)
Fixpoint split_at (c : ptr) (l : list ngx_pool_data_t)
  : list ngx_pool_data_t * list ngx_pool_data_t :=
  match l with
  | [] => ([], [])
  | b :: r =>
      if d_self b =? c then ([], l)
      else let '(pre, suf) := split_at c r in (b :: pre, suf)
  end.

Definition ngx_create_pool (size : Z) (log : ptr) (w : world)
  : option ngx_pool_t * world :=
  let '(p, w) := ngx_memalign NGX_POOL_ALIGNMENT size w in
  if p =? NULL then (None, w)
  else
    let rest := (size - sizeof_ngx_pool_t) mod size_max in
    (Some (mk_pool (mk_data p (p + sizeof_ngx_pool_t) (p + size) 0) []
             (if rest <? NGX_MAX_ALLOC_FROM_POOL then rest
              else NGX_MAX_ALLOC_FROM_POOL)
             p NULL [] NULL log ∅), w).

(** The [do ... while (p)] search of ngx_palloc ([aligned]) and
    ngx_pnalloc: the first block from [current] on whose free tail holds
    [size] bytes.  The comparison is the unsigned one of the C code. *)
Fixpoint palloc_search (aligned : bool) (size : Z) (l : list ngx_pool_data_t)
  : option (ptr * list ngx_pool_data_t) :=
  match l with
  | [] => None
  | p :: r =>
      let m := if aligned then ngx_align_ptr (d_last p) NGX_ALIGNMENT
               else d_last p in
      if size <=? (d_end p - m) mod size_max
      then Some (m, set_last p (m + size) :: r)
      else match palloc_search aligned size r with
           | Some (a, r') => Some (a, p :: r')
           | None => None
           end
  end.

(** The [for (p = current; p->d.next; p = p->d.next)] loop of
    ngx_palloc_block over the chain from [current] on: every block that
    has a successor gets [failed++], and [current] moves to the successor
    when the value before the increment was above 4. *)
Fixpoint block_walk (l : list ngx_pool_data_t) (current : ptr)
  : list ngx_pool_data_t * ptr :=
  match l with
  | p :: ((q :: _) as r) =>
      let current := if d_failed p >? 4 then d_self q else current in
      let '(r', c) := block_walk r current in
      (set_failed p (d_failed p + 1) :: r', c)
  | _ => (l, current)
  end.

Definition ngx_palloc_block (pool : ngx_pool_t) (size : Z) (w : world)
  : res (ptr * ngx_pool_t * world) :=
  let psize := d_end (d pool) - d_self (d pool) in
  let '(m, w) := ngx_memalign NGX_POOL_ALIGNMENT psize w in
  if m =? NULL then Done (NULL, pool, w)
  else
    let m' := ngx_align_ptr (m + sizeof_ngx_pool_data_t) NGX_ALIGNMENT in
    let new := mk_data m (m' + size) (m + psize) 0 in
    let '(pre, suf) := split_at (current pool) (blocks pool) in
    match suf with
    | [] => Segv (current pool)
    | _ =>
        let '(suf', c) := block_walk suf (current pool) in
        let pool := set_blocks pool (pre ++ suf' ++ [new]) in
        Done (m', set_current pool (if c =? NULL then m else c), w)
    end.

(** The scan of ngx_palloc_large for an entry to reuse, [n] being the
    counter of the C loop. *)
Fixpoint large_reuse (n : Z) (l : list ngx_pool_large_t) (p : ptr)
  : option (list ngx_pool_large_t) :=
  match l with
  | [] => None
  | e :: r =>
      if l_alloc e =? NULL then Some (set_alloc e p :: r)
      else if n >? 3 then None
      else match large_reuse (n + 1) r p with
           | Some r' => Some (e :: r')
           | None => None
           end
  end.

(** ngx_palloc and ngx_palloc_large call each other; [fuel] bounds the
    depth of that recursion. *)
Fixpoint ngx_palloc (fuel : nat) (pool : ngx_pool_t) (size : Z) (w : world)
  : res (ptr * ngx_pool_t * world) :=
  match fuel with
  | O => OutOfFuel
  | S fuel =>
      if size <=? max pool then
        let '(pre, suf) := split_at (current pool) (blocks pool) in
        match suf with
        | [] => Segv (current pool)
        | _ =>
            match palloc_search true size suf with
            | Some (m, suf') => Done (m, set_blocks pool (pre ++ suf'), w)
            | None => ngx_palloc_block pool size w
            end
        end
      else ngx_palloc_large fuel pool size w
  end
with ngx_palloc_large (fuel : nat) (pool : ngx_pool_t) (size : Z) (w : world)
  : res (ptr * ngx_pool_t * world) :=
  match fuel with
  | O => OutOfFuel
  | S fuel =>
      let '(p, w) := ngx_alloc size w in
      if p =? NULL then Done (NULL, pool, w)
      else
        match large_reuse 0 (large pool) p with
        | Some l => Done (p, set_large pool l, w)
        | None =>
            '(lg, pool, w) ← ngx_palloc fuel pool sizeof_ngx_pool_large_t w;
            if lg =? NULL then Done (NULL, pool, ngx_free p w)
            else Done (p, set_large pool (mk_large lg p :: large pool), w)
        end
  end.

Definition ngx_pnalloc (fuel : nat) (pool : ngx_pool_t) (size : Z) (w : world)
  : res (ptr * ngx_pool_t * world) :=
  if size <=? max pool then
    let '(pre, suf) := split_at (current pool) (blocks pool) in
    match suf with
    | [] => Segv (current pool)
    | _ =>
        match palloc_search false size suf with
        | Some (m, suf') => Done (m, set_blocks pool (pre ++ suf'), w)
        | None => ngx_palloc_block pool size w
        end
    end
  else ngx_palloc_large fuel pool size w.

Definition ngx_pmemalign (fuel : nat) (pool : ngx_pool_t) (size alignment : Z)
    (w : world) : res (ptr * ngx_pool_t * world) :=
  let '(p, w) := ngx_memalign alignment size w in
  if p =? NULL then Done (NULL, pool, w)
  else
    '(lg, pool, w) ← ngx_palloc fuel pool sizeof_ngx_pool_large_t w;
    if lg =? NULL then Done (NULL, pool, ngx_free p w)
    else Done (p, set_large pool (mk_large lg p :: large pool), w).

(** The walk of ngx_pfree over the large list. *)
Fixpoint pfree_walk (l : list ngx_pool_large_t) (p : ptr)
  : option (list ngx_pool_large_t) :=
  match l with
  | [] => None
  | e :: r =>
      if p =? l_alloc e then Some (set_alloc e NULL :: r)
      else match pfree_walk r p with
           | Some r' => Some (e :: r')
           | None => None
           end
  end.

Definition ngx_pfree (pool : ngx_pool_t) (p : ptr) (w : world)
  : ngx_int_t * ngx_pool_t * world :=
  match pfree_walk (large pool) p with
  | Some l => (NGX_OK, set_large pool l, ngx_free p w)
  | None => (NGX_DECLINED, pool, w)
  end.

(** The end of ngx_pool_cleanup_add: [c->handler = NULL],
    [c->next = p->cleanup], [p->cleanup = c]. *)
Definition push_cleanup (p : ngx_pool_t) (c : ptr) : ngx_pool_t :=
  let p := store p (c_handler c) NULL in
  let p := store p (c_next c) (cleanup p) in
  set_cleanup p c.

(** The entry is the memory that ngx_palloc returns for it, and
    [c->data] is written before the test of the second allocation. *)
Definition ngx_pool_cleanup_add (fuel : nat) (p : ngx_pool_t) (size : Z)
    (w : world) : res (ptr * ngx_pool_t * world) :=
  '(c, p, w) ← ngx_palloc fuel p sizeof_ngx_pool_cleanup_t w;
  if c =? NULL then Done (NULL, p, w)
  else if size =? 0 then
    Done (c, push_cleanup (store p (c_data c) NULL) c, w)
  else
    '(data, p, w) ← ngx_palloc fuel p size w;
    let p := store p (c_data c) data in
    if data =? NULL then Done (NULL, p, w)
    else Done (c, push_cleanup p c, w).

(** What a caller does with the entry it got from ngx_pool_cleanup_add:
    [c->handler = h]. *)
Definition set_handler (p : ngx_pool_t) (c : ptr) (h : Z) : ngx_pool_t :=
  store p (c_handler c) h.

(** The first loop of ngx_destroy_pool,
    [for (c = pool->cleanup; c; c = c->next)]; [fuel] bounds the number of
    entries visited, and a list that is closed on itself uses up any
    fuel. *)
Fixpoint run_cleanups (fuel : nat) (pool : ngx_pool_t) (c : ptr) (w : world)
  : res world :=
  match fuel with
  | O => OutOfFuel
  | S fuel =>
      if c =? NULL then Done w
      else
        h ← load pool c (c_handler c);
        w ← (if h =? NULL then Done w
             else data ← load pool c (c_data c); Done (run_handler h data w));
        n ← load pool c (c_next c);
        run_cleanups fuel pool n w
  end.

Definition free_large (l : list ngx_pool_large_t) (w : world) : world :=
  fold_left (fun w e => if l_alloc e =? NULL then w else ngx_free (l_alloc e) w)
    l w.

Definition free_blocks (l : list ngx_pool_data_t) (w : world) : world :=
  fold_left (fun w b => ngx_free (d_self b) w) l w.

Definition ngx_destroy_pool (fuel : nat) (pool : ngx_pool_t) (w : world)
  : res world :=
  w ← run_cleanups fuel pool (cleanup pool) w;
  let w := free_large (large pool) w in
  Done (free_blocks (blocks pool) w).

Definition reset_block (b : ngx_pool_data_t) : ngx_pool_data_t :=
  mk_data (d_self b) (d_self b + sizeof_ngx_pool_t) (d_end b) 0.

Definition ngx_reset_pool (pool : ngx_pool_t) (w : world) : ngx_pool_t * world :=
  let w := free_large (large pool) w in
  (mk_pool (reset_block (d pool)) (map reset_block (d_next pool)) (max pool)
     (d_self (d pool)) NULL [] (cleanup pool) (log pool) (words pool), w).

(** ngx_pool_run_cleanup_file.  [file_handler] is the address of
    ngx_pool_cleanup_file.  The function reads [cf->fd] through the data
    pointer of an entry: [fds] is that memory, the [fd] field of the file
    record a data pointer refers to, and reading where no record lies is a
    fault.  The walk stops at the first entry that matches; [fuel] bounds
    the number of entries visited. *)
Fixpoint run_cleanup_file_walk (fuel : nat) (file_handler : Z) (fds : gmap Z Z)
    (p : ngx_pool_t) (c : ptr) (fd : Z) (w : world)
  : res (ngx_pool_t * world) :=
  match fuel with
  | O => OutOfFuel
  | S fuel =>
      if c =? NULL then Done (p, w)
      else
        h ← load p c (c_handler c);
        if h =? file_handler then
          cf ← load p c (c_data c);
          match fds !! cf with
          | None => Segv cf
          | Some f =>
              if f =? fd
              then Done (store p (c_handler c) NULL, run_handler h cf w)
              else n ← load p c (c_next c);
                   run_cleanup_file_walk fuel file_handler fds p n fd w
          end
        else n ← load p c (c_next c);
             run_cleanup_file_walk fuel file_handler fds p n fd w
  end.

Definition ngx_pool_run_cleanup_file (fuel : nat) (file_handler : Z)
    (fds : gmap Z Z) (p : ngx_pool_t) (fd : Z) (w : world)
  : res (ngx_pool_t * world) :=
  run_cleanup_file_walk fuel file_handler fds p (cleanup p) fd w.

End Pool.

(** ** Vocabulary of the pool properties *)

Module PoolSpec.

Import Pool.

(** One more failed allocation counted on a block. *)
Definition bump (b : ngx_pool_data_t) : ngx_pool_data_t :=
  set_failed b (d_failed b + 1).

(** A large entry that holds an allocation (not a tombstone). *)
Definition live (e : ngx_pool_large_t) : Prop := l_alloc e <> NULL.

(** A cleanup entry as the loops of ngx_destroy_pool and
    ngx_pool_run_cleanup_file read it: its address, its handler and its
    data. *)
Record entry : Type := mk_entry {
  e_self : ptr;
  e_handler : Z;
  e_data : ptr
}.

(** The cleanup stack from the entry at [c] on is the list [l], in link
    order: each entry lies in memory that the pool holds, its three
    fields have been written, and the last link is [NULL]. *)
Fixpoint listed (pool : ngx_pool_t) (c : ptr) (l : list entry) : Prop :=
  match l with
  | [] => c = NULL
  | e :: r =>
      c <> NULL /\ e_self e = c /\ holds pool c = true /\
      words pool !! c_handler c = Some (e_handler e) /\
      words pool !! c_data c = Some (e_data e) /\
      exists n, words pool !! c_next c = Some n /\ listed pool n r
  end.

(** Two entries at [a] and [b] that share no byte, and a list of
    addresses of which no two share one. *)
Definition apart (a b : ptr) : Prop :=
  a + sizeof_ngx_pool_cleanup_t <= b \/ b + sizeof_ngx_pool_cleanup_t <= a.

Fixpoint separate (l : list ptr) : Prop :=
  match l with
  | [] => True
  | a :: r => Forall (apart a) r /\ separate r
  end.

(** The events of destruction: the handler calls of a list of cleanup
    entries, and the frees of the large list and of the blocks. *)
Definition handler_runs (l : list entry) : list event :=
  map (fun c => ERun (e_handler c) (e_data c))
    (filter (fun c => e_handler c <> NULL) l).

Definition large_frees (l : list ngx_pool_large_t) : list event :=
  map (fun e => EFree (l_alloc e)) (filter (fun e => l_alloc e <> NULL) l).

Definition block_frees (l : list ngx_pool_data_t) : list event :=
  map (fun b => EFree (d_self b)) l.

(** What the tree needs of its pool: the allocator hands out addresses
    above 0, an entry of the large list fits the small path, [current]
    is one of the blocks, and the cursors are above 0. *)
Definition pool_sane (pool : ngx_pool_t) (w : world) : Prop :=
  0 < brk w /\
  sizeof_ngx_pool_large_t <= max pool /\
  0 <= d_end (d pool) - d_self (d pool) /\
  current pool ∈ map d_self (blocks pool) /\
  Forall (fun b => 0 < d_last b) (blocks pool).

(** The bytes of a block, header included: from its address to its end. *)
Definition extent (b : ngx_pool_data_t) : Z * Z := (d_self b, d_end b).

(** [p] points into one of the blocks of the pool. *)
Definition in_block (pool : ngx_pool_t) (p : ptr) : Prop :=
  exists x, x ∈ map extent (blocks pool) /\ x.1 <= p < x.2.

(** A block as the pool functions keep it: aligned at both ends, with
    room for a header, its cursor inside, and below the allocator's
    [brk]. *)
Definition block_ok (top : Z) (b : ngx_pool_data_t) : Prop :=
  d_self b mod NGX_ALIGNMENT = 0 /\ d_end b mod NGX_ALIGNMENT = 0 /\
  0 < d_self b /\ d_self b <= d_last b <= d_end b /\ d_end b <= top /\
  sizeof_ngx_pool_t <= d_end b - d_self b.

(** An entry of the large list: a tombstone, or an allocation that lies
    outside the blocks. *)
Definition large_ok (top : Z) (exts : list (Z * Z)) (e : ngx_pool_large_t)
  : Prop :=
  l_alloc e = NULL \/
  (l_alloc e < top /\ forall x, x ∈ exts -> ~ (x.1 <= l_alloc e < x.2)).

(** Blocks and large allocations apart: what the allocator's handing out
    fresh memory gives the pool. *)
Definition pool_apart (pool : ngx_pool_t) (w : world) : Prop :=
  max pool + sizeof_ngx_pool_t <= d_end (d pool) - d_self (d pool) /\
  Forall (block_ok (brk w)) (blocks pool) /\
  Forall (large_ok (brk w) (map extent (blocks pool))) (large pool).

(** The path of ngx_palloc ([aligned]) and ngx_pnalloc for sizes up to
    [max]: the search from [current] on, then ngx_palloc_block. *)
Definition small_path (aligned : bool) (pool : ngx_pool_t) (size : Z) (w : world)
  : res (ptr * ngx_pool_t * world) :=
  let '(pre, suf) := split_at (current pool) (blocks pool) in
  match suf with
  | [] => Segv (current pool)
  | _ =>
      match palloc_search aligned size suf with
      | Some (m, suf') => Done (m, set_blocks pool (pre ++ suf'), w)
      | None => ngx_palloc_block pool size w
      end
  end.

(** The end of ngx_palloc_large and of ngx_pmemalign: an entry for the
    allocation [p] from the small path, pushed on the large list. *)
Definition push_large (fuel : nat) (pool : ngx_pool_t) (p : ptr) (w : world)
  : res (ptr * ngx_pool_t * world) :=
  '(lg, pool, w) ← ngx_palloc fuel pool sizeof_ngx_pool_large_t w;
  if lg =? NULL then Done (NULL, pool, ngx_free p w)
  else Done (p, set_large pool (mk_large lg p :: large pool), w).

(** A pool as the functions of ngx_palloc.c keep it. *)
Definition pool_ok (pool : ngx_pool_t) (w : world) : Prop :=
  pool_sane pool w /\ pool_apart pool w.

(** Calls on a pool, and a caller that makes them one after the other. *)
Inductive pool_call : Type :=
  | Palloc (size : Z)
  | Pnalloc (size : Z)
  | Pmemalign (size alignment : Z)
  | Pfree (p : ptr)
  | Preset.

Definition pool_step (fuel : nat) (pool : ngx_pool_t) (w : world) (c : pool_call)
  : res (ngx_pool_t * world) :=
  match c with
  | Palloc size => '(_, pool, w) ← ngx_palloc fuel pool size w; Done (pool, w)
  | Pnalloc size => '(_, pool, w) ← ngx_pnalloc fuel pool size w; Done (pool, w)
  | Pmemalign size alignment =>
      '(_, pool, w) ← ngx_pmemalign fuel pool size alignment w; Done (pool, w)
  | Pfree p => let '(_, pool, w) := ngx_pfree pool p w in Done (pool, w)
  | Preset => Done (ngx_reset_pool pool w)
  end.

Fixpoint pool_run (fuel : nat) (pool : ngx_pool_t) (w : world)
    (cs : list pool_call) : res (ngx_pool_t * world) :=
  match cs with
  | [] => Done (pool, w)
  | c :: cs => '(pool, w) ← pool_step fuel pool w c; pool_run fuel pool w cs
  end.

(** Sizes are not negative; an aligned allocation has a size above 0 and
    a power of two for its alignment. *)
Definition call_ok (c : pool_call) : Prop :=
  match c with
  | Palloc size | Pnalloc size => 0 <= size
  | Pmemalign size alignment =>
      0 < size /\ exists k, 0 <= k /\ alignment = 2 ^ k
  | Pfree _ | Preset => True
  end.

(** A caller that allocates [n] times [size] bytes. *)
Fixpoint palloc_n (n fuel : nat) (pool : ngx_pool_t) (size : Z) (w : world)
  : res (ngx_pool_t * world) :=
  match n with
  | O => Done (pool, w)
  | S n =>
      '(_, pool, w) ← ngx_palloc fuel pool size w;
      palloc_n n fuel pool size w
  end.

(** A caller that registers a cleanup and installs its handler. *)
Definition register (fuel : nat) (pool : ngx_pool_t) (size h : Z) (w : world)
  : res (ptr * ngx_pool_t * world) :=
  '(c, pool, w) ← ngx_pool_cleanup_add fuel pool size w;
  if c =? NULL then Done (NULL, pool, w)
  else Done (c, set_handler pool c h, w).

(** A world to run examples in: nothing allocated yet, no limit. *)
Definition world0 : world := mk_world 4096 None [].

(** A pool of 112-byte blocks after [n] allocations of 32 bytes. *)
Definition pool112 (n : nat) : res (ngx_pool_t * world) :=
  match ngx_create_pool 112 NULL world0 with
  | (Some p, w) => palloc_n n 3 p 32 w
  | (None, _) => Segv NULL
  end.

(** A pool of 256 bytes with five large allocations of which the first,
    at 4352, was freed. *)
Definition five_large_one_freed : res (ngx_pool_t * world) :=
  match ngx_create_pool 256 NULL world0 with
  | (Some p, w) =>
      '(p, w) ← palloc_n 5 3 p 4096 w;
      let '(_, p, w) := ngx_pfree p 4352 w in Done (p, w)
  | (None, _) => Segv NULL
  end.

(** A pool of 256 bytes with three cleanups registered. *)
Definition three_cleanups : res (ngx_pool_t * world) :=
  match ngx_create_pool 256 NULL world0 with
  | (Some p, w) =>
      '(_, p, w) ← register 2 p 0 101 w;
      '(_, p, w) ← register 2 p 8 102 w;
      '(_, p, w) ← register 2 p 0 103 w;
      Done (p, w)
  | (None, _) => Segv NULL
  end.

(** A pool of 256 bytes on which two cleanups are registered, which is
    then reset, and on which a third cleanup is registered: the three
    entries, the pool and the allocator at the end. *)
Definition cleanups_around_reset : res (ptr * ptr * ptr * ngx_pool_t * world) :=
  match ngx_create_pool 256 NULL world0 with
  | (Some p, w) =>
      '(c1, p, w) ← register 2 p 0 101 w;
      '(c2, p, w) ← register 2 p 8 102 w;
      let '(p, w) := ngx_reset_pool p w in
      '(c3, p, w) ← register 2 p 0 103 w;
      Done (c1, c2, c3, p, w)
  | (None, _) => Segv NULL
  end.

(** *** Pools in use *)

(** The bytes of the blocks below the cursors, from the address of a
    block to its [last]: the header and what the block has given out since
    the pool was created or last reset.  ngx_reset_pool rewinds the
    cursors, so that bytes given out before a reset are above them
    again. *)
Definition below_cursor (pool : ngx_pool_t) (q : Z) : Prop :=
  exists b, b ∈ blocks pool /\ d_self b <= q < d_last b.

(** The large allocations that the pool holds. *)
Definition live_allocs (pool : ngx_pool_t) : list ptr :=
  filter (fun p => p <> NULL) (map l_alloc (large pool)).

(** Blocks in address order, one after the end of the other. *)
Fixpoint ascending (l : list (Z * Z)) : Prop :=
  match l with
  | [] => True
  | x :: r => Forall (fun y => x.2 <= y.1) r /\ ascending r
  end.

Definition pool_tidy (pool : ngx_pool_t) (w : world) : Prop :=
  pool_ok pool w /\ ascending (map extent (blocks pool)) /\
  NoDup (live_allocs pool).

(** Every block keeps its header: the cursor is past the
    [ngx_pool_data_t] at the start of the block. *)
Definition headed (pool : ngx_pool_t) : Prop :=
  Forall (fun b => d_self b + sizeof_ngx_pool_data_t <= d_last b) (blocks pool).

(** The size of the blocks of the pool fits a [size_t]. *)
Definition sized (pool : ngx_pool_t) : Prop :=
  d_end (d pool) - d_self (d pool) < size_max.

(** What a caller does with a pool: the calls above, and registering a
    cleanup with its handler. *)
Inductive pool_op : Type :=
  | Call (c : pool_call)
  | Register (size h : Z).

Definition op_step (fuel : nat) (pool : ngx_pool_t) (w : world) (o : pool_op)
  : res (ngx_pool_t * world) :=
  match o with
  | Call c => pool_step fuel pool w c
  | Register size h => '(_, pool, w) ← register fuel pool size h w; Done (pool, w)
  end.

Fixpoint pool_ops (fuel : nat) (pool : ngx_pool_t) (w : world)
    (os : list pool_op) : res (ngx_pool_t * world) :=
  match os with
  | [] => Done (pool, w)
  | o :: os => '(pool, w) ← op_step fuel pool w o; pool_ops fuel pool w os
  end.

Definition pool_op_ok (o : pool_op) : Prop :=
  match o with
  | Call c => call_ok c
  | Register size _ => 0 <= size
  end.

(** A pool as a caller can have it: created with a size that holds the
    header and an entry of the large list and keeps the end aligned, and
    taken through allocations, frees, resets and registrations. *)
Definition pool_reachable (fuel : nat) (pool : ngx_pool_t) (w : world) : Prop :=
  exists size lg w0 pool0 w1 os,
    0 < brk w0 /\
    sizeof_ngx_pool_t + sizeof_ngx_pool_large_t <= size < size_max /\
    size mod NGX_ALIGNMENT = 0 /\
    ngx_create_pool size lg w0 = (Some pool0, w1) /\
    Forall pool_op_ok os /\ pool_ops fuel pool0 w1 os = Done (pool, w).

(** *** The cleanup stack of a pool that was not reset *)

(** The cleanup entry at [c] is allotted: all its bytes are below the
    cursor of a block, given out and not recycled. *)
Definition allotted (pool : ngx_pool_t) (c : ptr) : Prop :=
  forall q, c <= q < c + sizeof_ngx_pool_cleanup_t -> below_cursor pool q.

(** A pool that keeps its cleanup stack: the pool is tidy and its blocks
    have their headers, a cleanup entry fits the small path, and the
    stack is the list [l] of entries, all of them allotted and no two of
    them sharing a byte. *)
Definition stack_ok (pool : ngx_pool_t) (w : world) (l : list entry) : Prop :=
  pool_tidy pool w /\ headed pool /\
  sizeof_ngx_pool_cleanup_t <= max pool /\
  listed pool (cleanup pool) l /\
  Forall (fun e => allotted pool (e_self e)) l /\
  separate (map e_self l).

(** A pool as a caller can have it without ngx_reset_pool: created with a
    size that holds the header and a cleanup entry and keeps the end
    aligned, and taken through allocations, frees and registrations. *)
Definition pool_unreset (fuel : nat) (pool : ngx_pool_t) (w : world) : Prop :=
  exists size lg w0 pool0 w1 os,
    0 < brk w0 /\
    sizeof_ngx_pool_t + sizeof_ngx_pool_cleanup_t <= size < size_max /\
    size mod NGX_ALIGNMENT = 0 /\
    ngx_create_pool size lg w0 = (Some pool0, w1) /\
    Forall pool_op_ok os /\ (Call Preset ∉ os) /\
    pool_ops fuel pool0 w1 os = Done (pool, w).

End PoolSpec.

(** ** The radix tree: ngx_radix_tree.c *)

Module Radix.

Import Pool.

(** [NGX_RADIX_NO_VALUE] is [(uintptr_t) -1]. *)
Definition NGX_RADIX_NO_VALUE : Z := size_max - 1.

Record ngx_radix_node_t : Type := mk_node {
  n_right : ptr;
  n_left : ptr;
  n_parent : ptr;
  n_value : Z
}.

(** [ngx_radix_tree_t]; the pool the handle points to is held by the
    machine state below. *)
Record ngx_radix_tree_t : Type := mk_tree {
  root : ptr;
  free : ptr;
  start : ptr;
  size : Z
}.

(** The memory a tree works on: its handle, the nodes by address, its
    pool and the allocator under the pool. *)
Record state : Type := mk_state {
  tree : ngx_radix_tree_t;
  mem : gmap Z ngx_radix_node_t;
  pool : ngx_pool_t;
  os : world
}.

Definition set_mem (st : state) (m : gmap Z ngx_radix_node_t) : state :=
  mk_state (tree st) m (pool st) (os st).

Definition set_tree (st : state) (t : ngx_radix_tree_t) : state :=
  mk_state t (mem st) (pool st) (os st).

Definition set_free (t : ngx_radix_tree_t) (f : ptr) : ngx_radix_tree_t :=
  mk_tree (root t) f (start t) (size t).

(** An access through [p]: there must be a node at [p], and never is at
    the null address. *)
Definition load (m : gmap Z ngx_radix_node_t) (p : ptr) : res ngx_radix_node_t :=
  if p =? NULL then Segv p
  else
    match m !! p with
    | Some n => Done n
    | None => Segv p
    end.

Definition store_right (m : gmap Z ngx_radix_node_t) (p v : ptr)
  : res (gmap Z ngx_radix_node_t) :=
  n ← load m p; Done (<[p := mk_node v (n_left n) (n_parent n) (n_value n)]> m).

Definition store_left (m : gmap Z ngx_radix_node_t) (p v : ptr)
  : res (gmap Z ngx_radix_node_t) :=
  n ← load m p; Done (<[p := mk_node (n_right n) v (n_parent n) (n_value n)]> m).

Definition store_value (m : gmap Z ngx_radix_node_t) (p : ptr) (v : Z)
  : res (gmap Z ngx_radix_node_t) :=
  n ← load m p; Done (<[p := mk_node (n_right n) (n_left n) (n_parent n) v]> m).

(** The child the C code takes for [key & bit]. *)
Definition child (key bit : Z) (n : ngx_radix_node_t) : ptr :=
  if Z.land key bit =? 0 then n_left n else n_right n.

(** ngx_radix_alloc: a node from the free list, or the next one of the
    current page, a new page being taken from the pool when the current
    one is used up. *)
Definition ngx_radix_alloc (fuel : nat) (st : state) : res (ptr * state) :=
  let t := tree st in
  if negb (free t =? NULL) then
    n ← load (mem st) (free t);
    Done (free t, set_tree st (set_free t (n_right n)))
  else if size t <? sizeof_ngx_radix_node_t then
    '(p, pl, w) ← ngx_pmemalign fuel (pool st) ngx_pagesize ngx_pagesize (os st);
    if p =? NULL then
      Done (NULL, mk_state (mk_tree (root t) (free t) NULL (size t)) (mem st) pl w)
    else
      Done (p, mk_state
                 (mk_tree (root t) (free t) (p + sizeof_ngx_radix_node_t)
                    (ngx_pagesize - sizeof_ngx_radix_node_t))
                 (mem st) pl w)
  else
    Done (start t,
          set_tree st (mk_tree (root t) (free t)
                         (start t + sizeof_ngx_radix_node_t)
                         (size t - sizeof_ngx_radix_node_t))).

(** First loop of ngx_radix32tree_insert: [while (bit & mask)], leaving
    through [break] when the child is null.  Yields [bit], [node] and
    [next] as the loop leaves them. *)
Fixpoint insert_descend (fuel : nat) (m : gmap Z ngx_radix_node_t)
    (key mask bit : Z) (node next : ptr) : res (Z * ptr * ptr) :=
  if Z.land bit mask =? 0 then Done (bit, node, next)
  else
    match fuel with
    | O => OutOfFuel
    | S fuel =>
        n ← load m node;
        let next := child key bit n in
        if next =? NULL then Done (bit, node, next)
        else insert_descend fuel m key mask (Z.shiftr bit 1) next next
    end.

(** Second loop of ngx_radix32tree_insert: new nodes for the rest of the
    mask.  [None]: ngx_radix_alloc returned NULL. *)
Fixpoint insert_extend (fuel n : nat) (st : state) (key mask bit : Z)
    (node : ptr) : res (option ptr * state) :=
  if Z.land bit mask =? 0 then Done (Some node, st)
  else
    match n with
    | O => OutOfFuel
    | S n =>
        '(next, st) ← ngx_radix_alloc fuel st;
        if next =? NULL then Done (None, st)
        else
          let m := <[next := mk_node NULL NULL node NGX_RADIX_NO_VALUE]> (mem st) in
          m ← (if negb (Z.land key bit =? 0) then store_right m node next
               else store_left m node next);
          insert_extend fuel n (set_mem st m) key mask (Z.shiftr bit 1) next
    end.

Definition ngx_radix32tree_insert (fuel : nat) (st : state) (key mask value : Z)
  : res (ngx_int_t * state) :=
  let bit := 0x80000000 in
  '(bit, node, next) ←
    insert_descend fuel (mem st) key mask bit (root (tree st)) (root (tree st));
  if negb (next =? NULL) then
    n ← load (mem st) node;
    if negb (n_value n =? NGX_RADIX_NO_VALUE) then Done (NGX_BUSY, st)
    else
      m ← store_value (mem st) node value;
      Done (NGX_OK, set_mem st m)
  else
    '(r, st) ← insert_extend fuel fuel st key mask bit node;
    match r with
    | None => Done (NGX_ERROR, st)
    | Some node =>
        m ← store_value (mem st) node value;
        Done (NGX_OK, set_mem st m)
    end.

(** First loop of ngx_radix32tree_delete: [while (node && (bit & mask))]. *)
Fixpoint delete_descend (fuel : nat) (m : gmap Z ngx_radix_node_t)
    (key mask bit : Z) (node : ptr) : res ptr :=
  if (node =? NULL) || (Z.land bit mask =? 0) then Done node
  else
    match fuel with
    | O => OutOfFuel
    | S fuel =>
        n ← load m node;
        delete_descend fuel m key mask (Z.shiftr bit 1) (child key bit n)
    end.

(** The [for ( ;; )] loop of ngx_radix32tree_delete, statement by
    statement: unlink [node] from its parent, push it on the free list,
    go up, and leave at a node with a child, with a value, or without a
    parent. *)
Fixpoint delete_prune (fuel : nat) (st : state) (node : ptr) : res state :=
  match fuel with
  | O => OutOfFuel
  | S fuel =>
      n ← load (mem st) node;
      pn ← load (mem st) (n_parent n);
      m ← (if n_right pn =? node then store_right (mem st) (n_parent n) NULL
           else store_left (mem st) (n_parent n) NULL);
      m ← store_right m node (free (tree st));
      let st := mk_state (set_free (tree st) node) m (pool st) (os st) in
      n ← load m node;
      let node := n_parent n in
      n ← load m node;
      if negb (n_right n =? NULL) || negb (n_left n =? NULL) then Done st
      else if negb (n_value n =? NGX_RADIX_NO_VALUE) then Done st
      else if n_parent n =? NULL then Done st
      else delete_prune fuel st node
  end.

Definition ngx_radix32tree_delete (fuel : nat) (st : state) (key mask : Z)
  : res (ngx_int_t * state) :=
  node ← delete_descend fuel (mem st) key mask 0x80000000 (root (tree st));
  if node =? NULL then Done (NGX_ERROR, st)
  else
    n ← load (mem st) node;
    if negb (n_right n =? NULL) || negb (n_left n =? NULL) then
      if negb (n_value n =? NGX_RADIX_NO_VALUE) then
        m ← store_value (mem st) node NGX_RADIX_NO_VALUE;
        Done (NGX_OK, set_mem st m)
      else Done (NGX_ERROR, st)
    else
      st ← delete_prune fuel st node;
      Done (NGX_OK, st).

(** The loop of ngx_radix32tree_find. *)
Fixpoint find_loop (fuel : nat) (m : gmap Z ngx_radix_node_t)
    (key bit value : Z) (node : ptr) : res Z :=
  if node =? NULL then Done value
  else
    match fuel with
    | O => OutOfFuel
    | S fuel =>
        n ← load m node;
        let value :=
          if negb (n_value n =? NGX_RADIX_NO_VALUE) then n_value n else value in
        find_loop fuel m key (Z.shiftr bit 1) value (child key bit n)
    end.

Definition ngx_radix32tree_find (fuel : nat) (st : state) (key : Z) : res Z :=
  find_loop fuel (mem st) key 0x80000000 NGX_RADIX_NO_VALUE (root (tree st)).

(** The [do ... while (key)] loop of ngx_radix_tree_create: one level of
    preallocated nodes.  [None]: an insertion did not return NGX_OK. *)
Fixpoint prealloc_level (fuel n : nat) (st : state) (key mask inc : Z)
  : res (option state) :=
  match n with
  | O => OutOfFuel
  | S n =>
      '(rc, st) ← ngx_radix32tree_insert fuel st key mask NGX_RADIX_NO_VALUE;
      if negb (bool_decide (rc = NGX_OK)) then Done None
      else
        let key := (key + inc) mod 2 ^ 32 in
        if key =? 0 then Done (Some st)
        else prealloc_level fuel n st key mask inc
  end.

(** The [while (preallocate--)] loop of ngx_radix_tree_create. *)
Fixpoint prealloc_levels (fuel n : nat) (st : state) (preallocate mask inc : Z)
  : res (option state) :=
  if preallocate =? 0 then Done (Some st)
  else
    match n with
    | O => OutOfFuel
    | S n =>
        let preallocate := preallocate - 1 in
        let mask := Z.lor (Z.shiftr mask 1) 0x80000000 in
        r ← prealloc_level fuel fuel st 0 mask inc;
        match r with
        | None => Done None
        | Some st =>
            prealloc_levels fuel n st preallocate mask (Z.shiftr inc 1)
        end
    end.

(** ngx_radix_tree_create; [None] is the NULL it returns on failure. *)
Definition ngx_radix_tree_create (fuel : nat) (pl : ngx_pool_t)
    (preallocate : Z) (w : world) : res (option state) :=
  '(t, pl, w) ← ngx_palloc fuel pl sizeof_ngx_radix_tree_t w;
  if t =? NULL then Done None
  else
    let st := mk_state (mk_tree NULL NULL NULL 0) ∅ pl w in
    '(r, st) ← ngx_radix_alloc fuel st;
    if r =? NULL then Done None
    else
      let st := mk_state (mk_tree r (free (tree st)) (start (tree st))
                            (size (tree st)))
                  (<[r := mk_node NULL NULL NULL NGX_RADIX_NO_VALUE]> (mem st))
                  (pool st) (os st) in
      if preallocate =? 0 then Done (Some st)
      else
        let preallocate :=
          if preallocate =? -1 then
            (if ngx_pagesize / sizeof_ngx_radix_node_t =? 128 then 6
             else if ngx_pagesize / sizeof_ngx_radix_node_t =? 256 then 7
             else 8)
          else preallocate in
        prealloc_levels fuel fuel st preallocate 0 0x80000000.

End Radix.

(** ** Vocabulary of the radix tree properties *)

Module RadixSpec.

Import Pool PoolSpec Radix.

(** [bit] after [i] rounds of [bit >>= 1], starting from 0x80000000. *)
Definition bit_of (i : nat) : Z := Z.shiftr 0x80000000 (Z.of_nat i).

(** The direction the loops take at depth [i]: right when [key & bit]. *)
Definition key_bit (key : Z) (i : nat) : bool :=
  negb (Z.land key (bit_of i) =? 0).

Definition child_of (b : bool) (n : ngx_radix_node_t) : ptr :=
  if b then n_right n else n_left n.

(** The depth at which [while (bit & mask)] stops: the position of the
    first clear bit of [mask], counted from the top; 32 when there is
    none. *)
Fixpoint first_clear (n i : nat) (mask : Z) : nat :=
  match n with
  | O => i
  | S n => if Z.land (bit_of i) mask =? 0 then i else first_clear n (S i) mask
  end.

Definition prefix_len (mask : Z) : nat := first_clear 32 0 mask.

#[global] Arguments bit_of : simpl never.
#[global] Arguments prefix_len : simpl never.
#[global] Arguments prealloc_level : simpl never.
#[global] Arguments prealloc_levels : simpl never.
#[global] Arguments ngx_radix32tree_insert : simpl never.

(** The [n] directions of [key] from depth [i] on; the first [n]
    directions of [key]; the path of a prefix. *)
Definition key_seg (key : Z) (i n : nat) : list bool :=
  map (key_bit key) (seq i n).

Definition key_path (key : Z) (n : nat) : list bool := key_seg key 0 n.

Definition prefix_path (key mask : Z) : list bool :=
  key_path key (prefix_len mask).

(** The node reached from [p] along a path of directions. *)
Fixpoint node_at (m : gmap Z ngx_radix_node_t) (p : ptr) (path : list bool)
  : option ptr :=
  match load m p with
  | Done n =>
      match path with
      | [] => Some p
      | b :: path => node_at m (child_of b n) path
      end
  | _ => None
  end.

(** The value stored for a path: that of its node, no value without one. *)
Definition value_at (m : gmap Z ngx_radix_node_t) (p : ptr) (path : list bool)
  : Z :=
  match node_at m p path with
  | Some a =>
      match m !! a with
      | Some n => n_value n
      | None => NGX_RADIX_NO_VALUE
      end
  | None => NGX_RADIX_NO_VALUE
  end.

(** The free list: the addresses chained through [right] from [p] on. *)
Fixpoint free_chain (m : gmap Z ngx_radix_node_t) (p : ptr) (l : list ptr)
  : Prop :=
  match l with
  | [] => p = NULL
  | a :: l => p = a /\ a <> NULL /\
              exists n, m !! a = Some n /\ free_chain m (n_right n) l
  end.

(** The invariant of a tree: the root exists and has no parent; child
    pointers lead to nodes; no node is reached by two paths; [parent]
    is the node one step up; no node is deeper than 32; the free list is
    a chain of distinct nodes outside the tree; every node lies below the
    allocator's mark and below the cursor of the current page; the pool
    is usable. *)
Record tree_inv (st : state) : Prop := mk_tree_inv {
  inv_root :
    exists n, load (mem st) (root (tree st)) = Done n /\ n_parent n = NULL;
  inv_closed :
    forall path a n b,
      node_at (mem st) (root (tree st)) path = Some a ->
      mem st !! a = Some n -> child_of b n <> NULL ->
      is_Some (mem st !! child_of b n);
  inv_inj :
    forall p1 p2 a,
      node_at (mem st) (root (tree st)) p1 = Some a ->
      node_at (mem st) (root (tree st)) p2 = Some a -> p1 = p2;
  inv_parent :
    forall path b a n,
      node_at (mem st) (root (tree st)) (path ++ [b]) = Some a ->
      mem st !! a = Some n ->
      node_at (mem st) (root (tree st)) path = Some (n_parent n);
  inv_depth :
    forall path a,
      node_at (mem st) (root (tree st)) path = Some a ->
      (length path <= 32)%nat;
  inv_free :
    exists l,
      free_chain (mem st) (free (tree st)) l /\ NoDup l /\
      forall a path, a ∈ l -> node_at (mem st) (root (tree st)) path <> Some a;
  inv_dom :
    forall a, is_Some (mem st !! a) -> 0 < a < brk (os st);
  inv_slab :
    sizeof_ngx_radix_node_t <= size (tree st) ->
    0 < start (tree st) /\ start (tree st) + size (tree st) <= brk (os st) /\
    forall a, is_Some (mem st !! a) -> a < start (tree st);
  inv_pool : pool_sane (pool st) (os st)
}.

(** A node with one child pointer replaced. *)
Definition with_child (b : bool) (c : ptr) (n : ngx_radix_node_t)
  : ngx_radix_node_t :=
  if b then mk_node c (n_left n) (n_parent n) (n_value n)
  else mk_node (n_right n) c (n_parent n) (n_value n).

(** The mask of a prefix of [n] bits, and what it is to be one. *)
Definition cidr_mask (n : nat) : Z :=
  Z.shiftl (Z.ones (Z.of_nat n)) (32 - Z.of_nat n).

Definition contiguous (mask : Z) : Prop :=
  exists n, (n <= 32)%nat /\ mask = cidr_mask n.

(** The longest run of set bits at the top of [mask]. *)
Definition high_run (mask : Z) : Z := cidr_mask (prefix_len mask).

(** Two masks that the loops cannot tell apart. *)
Definition same_prefix (m1 m2 : Z) : Prop :=
  forall i, (i <= prefix_len m1)%nat ->
    (Z.land (bit_of i) m1 =? 0) = (Z.land (bit_of i) m2 =? 0).

(** The value that the descent along [key] ends with: depths [i],
    [i+1], ... are visited in turn, [n] of them, and the last value other
    than NGX_RADIX_NO_VALUE is kept. *)
Fixpoint deepest_value (f : list bool -> Z) (key : Z) (i n : nat) (v : Z) : Z :=
  match n with
  | O => v
  | S n =>
      let x := f (key_path key i) in
      deepest_value f key (S i) n (if x =? NGX_RADIX_NO_VALUE then v else x)
  end.

(** *** Sequences of insertions and deletions *)

Inductive op : Type :=
  | Insert (key mask value : Z)
  | Delete (key mask : Z).

Definition step (fuel : nat) (st : state) (o : op) : res (ngx_int_t * state) :=
  match o with
  | Insert key mask value => ngx_radix32tree_insert fuel st key mask value
  | Delete key mask => ngx_radix32tree_delete fuel st key mask
  end.

(** The calls one after the other, with their return codes. *)
Fixpoint run (fuel : nat) (st : state) (ops : list op)
  : res (list ngx_int_t * state) :=
  match ops with
  | [] => Done ([], st)
  | o :: ops =>
      '(rc, st) ← step fuel st o;
      '(rcs, st) ← run fuel st ops;
      Done (rc :: rcs, st)
  end.

(** A stored prefix: key, mask, value. *)
Definition entry_key (e : Z * Z * Z) : Z := e.1.1.
Definition entry_mask (e : Z * Z * Z) : Z := e.1.2.
Definition entry_value (e : Z * Z * Z) : Z := e.2.

Definition same_prefix_as (key mask : Z) (e : Z * Z * Z) : Prop :=
  entry_key e = key /\ entry_mask e = mask.

(** The prefixes inserted and not deleted since: an insertion that
    returned NGX_OK adds its prefix, a deletion removes it. *)
Fixpoint stored (ops : list op) (rcs : list ngx_int_t) (live : list (Z * Z * Z))
  : list (Z * Z * Z) :=
  match ops, rcs with
  | Insert key mask value :: ops, rc :: rcs =>
      stored ops rcs
        (if decide (rc = NGX_OK) then (key, mask, value) :: live else live)
  | Delete key mask :: ops, rc :: rcs =>
      stored ops rcs (filter (fun e => ~ same_prefix_as key mask e) live)
  | _, _ => live
  end.

(** A CIDR prefix: a mask of contiguous high bits and a 32-bit key
    with no bit outside the mask. *)
Definition cidr (key mask : Z) : Prop :=
  contiguous mask /\ 0 <= key < 2 ^ 32 /\ Z.land key mask = key.

Definition op_ok (o : op) : Prop :=
  match o with
  | Insert key mask value => cidr key mask /\ value <> NGX_RADIX_NO_VALUE
  | Delete key mask => cidr key mask
  end.

Definition root_has_child (st : state) : Prop :=
  exists n, mem st !! root (tree st) = Some n /\
            (n_left n <> NULL \/ n_right n <> NULL).

(** No deletion with a mask whose top bit is clear is issued while the
    root has no children. *)
Fixpoint guarded (fuel : nat) (st : state) (ops : list op) : Prop :=
  match ops with
  | [] => True
  | o :: ops =>
      match o with
      | Delete _ mask => prefix_len mask = 0%nat -> root_has_child st
      | Insert _ _ _ => True
      end /\
      match step fuel st o with
      | Done (_, st') => guarded fuel st' ops
      | _ => True
      end
  end.

(** The answer the specification asks of a lookup: the value of the
    stored prefix with the longest mask among those with
    [(k & m) == p], NGX_RADIX_NO_VALUE when there is none. *)
Definition matches (k : Z) (e : Z * Z * Z) : bool :=
  Z.land k (entry_mask e) =? entry_key e.

Definition longer (best : option (Z * Z * Z)) (e : Z * Z * Z)
  : option (Z * Z * Z) :=
  match best with
  | None => Some e
  | Some b => if entry_mask b <? entry_mask e then Some e else Some b
  end.

Definition longest_match (live : list (Z * Z * Z)) (k : Z) : Z :=
  match fold_left (fun best e => if matches k e then longer best e else best)
          live None with
  | Some e => entry_value e
  | None => NGX_RADIX_NO_VALUE
  end.

(** The value stored for a path by a list of prefixes. *)
Definition value_of (live : list (Z * Z * Z)) (path : list bool) : Z :=
  match List.find (fun e =>
          bool_decide (prefix_path (entry_key e) (entry_mask e) = path)) live with
  | Some e => entry_value e
  | None => NGX_RADIX_NO_VALUE
  end.

(** Stored prefixes are CIDR prefixes with proper values. *)
Definition entries_ok (live : list (Z * Z * Z)) : Prop :=
  Forall (fun e => cidr (entry_key e) (entry_mask e) /\
                   entry_value e <> NGX_RADIX_NO_VALUE) live.

(** The tree holds exactly the values of the prefixes of [live]. *)
Definition represents (st : state) (live : list (Z * Z * Z)) : Prop :=
  forall path, value_at (mem st) (root (tree st)) path = value_of live path.

(** *** Preallocation *)

(** The nodes below and including [p], by traversal. *)
Fixpoint count_nodes (fuel : nat) (m : gmap Z ngx_radix_node_t) (p : ptr) : Z :=
  match fuel with
  | O => 0
  | S fuel =>
      match load m p with
      | Done n => 1 + count_nodes fuel m (n_left n) + count_nodes fuel m (n_right n)
      | _ => 0
      end
  end.

(** A complete tree of depth [d] without values. *)
Definition complete (st : state) (d : nat) : Prop :=
  (forall path,
      is_Some (node_at (mem st) (root (tree st)) path) <-> (length path <= d)%nat) /\
  (forall path a n,
      node_at (mem st) (root (tree st)) path = Some a -> mem st !! a = Some n ->
      n_value n = NGX_RADIX_NO_VALUE) /\
  (forall path a n,
      length path = d ->
      node_at (mem st) (root (tree st)) path = Some a -> mem st !! a = Some n ->
      n_left n = NULL /\ n_right n = NULL).

(** Preallocation under way at level [l + 1]: the levels up to [l] are
    complete, level [l + 1] has the nodes of the keys [i * inc] with
    [i < j], no node has a value, and memory is unbounded. *)
Definition partial_level (st : state) (l : nat) (inc j : Z) : Prop :=
  tree_inv st /\ limit (os st) = None /\ represents st [] /\
  forall path,
    is_Some (node_at (mem st) (root (tree st)) path) <->
    (length path <= l)%nat \/
    exists i, 0 <= i < j /\ path = key_path (i * inc) (S l).

(** A tree without preallocated nodes on a fresh pool of 1024 bytes. *)
Definition empty_tree : res (option state) :=
  match ngx_create_pool 1024 NULL world0 with
  | (Some p, w) => ngx_radix_tree_create 3 p 0 w
  | (None, _) => Done None
  end.

(** The tree of scenario S4: the prefix 192.168/16 with value 42. *)
Definition one_prefix : res (ngx_int_t * state) :=
  match empty_tree with
  | Done (Some st) => ngx_radix32tree_insert 33 st 0xC0A80000 0xFFFF0000 42
  | _ => Segv NULL
  end.

(** *** Trees in use *)

(** A tree as a caller can have it: created by ngx_radix_tree_create and
    taken through insertions and deletions of CIDR prefixes, none of
    them a deletion under a clear top mask bit at a root without
    children. *)
Definition reachable (fuel : nat) (st : state) : Prop :=
  exists pl d w st0 ops rcs,
    pool_sane pl w /\
    ngx_radix_tree_create fuel pl d w = Done (Some st0) /\
    Forall op_ok ops /\ guarded fuel st0 ops /\
    run fuel st0 ops = Done (rcs, st).

(** A world with room for the pool and one page of nodes, and four host
    addresses that nearly fill the page. *)
Definition one_page_world : world := mk_world 4096 (Some 12288) [].

Definition four_hosts : list op :=
  [Insert 0 0xFFFFFFFF 1; Insert 0x80000000 0xFFFFFFFF 2;
   Insert 0x40000000 0xFFFFFFFF 3; Insert 0xC0000000 0xFFFFFFFF 4].

(** The nodes of [st] are the first [c] node slots of the page at [p],
    the rest of the page is what [start] and [size] describe, and the
    free list is empty. *)
Definition in_page (st : state) (p : ptr) (c : Z) : Prop :=
  free (tree st) = NULL /\
  start (tree st) = p + c * sizeof_ngx_radix_node_t /\
  size (tree st) = ngx_pagesize - c * sizeof_ngx_radix_node_t /\
  forall a, is_Some (mem st !! a) <->
            exists i, 0 <= i < c /\ a = p + i * sizeof_ngx_radix_node_t.

End RadixSpec.

(** ** The radix tree with 128-bit keys: ngx_radix_tree.c, NGX_HAVE_INET6 *)

Module Radix128.

Import Pool Radix.

(** A [u_char *] argument: the address of an array and the bytes that lie
    there.  Reading at an index where no byte of the array lies is a
    fault. *)
Record ngx_bytes : Type := mk_bytes {
  b_addr : ptr;
  b_bytes : list Z
}.

Definition byte_at (b : ngx_bytes) (i : nat) : res Z :=
  match b_bytes b !! i with
  | Some x => Done x
  | None => Segv (b_addr b + Z.of_nat i)
  end.

(** The end of a loop body, [bit >>= 1] done: the next byte when the bit
    has left the [u_char], [None] for the [break] at [++i == 16]. *)
Definition next_bit (i : nat) (bit : Z) : option (nat * Z) :=
  if bit =? 0 then
    if (S i =? 16)%nat then None else Some (S i, 0x80)
  else Some (i, bit).

(** First loop of ngx_radix128tree_insert.  Yields [i], [bit], [node] and
    [next] as the loop leaves them. *)
Fixpoint insert128_descend (fuel : nat) (m : gmap Z ngx_radix_node_t)
    (key mask : ngx_bytes) (i : nat) (bit : Z) (node next : ptr)
  : res (nat * Z * ptr * ptr) :=
  mi ← byte_at mask i;
  if Z.land bit mi =? 0 then Done (i, bit, node, next)
  else
    match fuel with
    | O => OutOfFuel
    | S fuel =>
        ki ← byte_at key i;
        n ← load m node;
        let next := child ki bit n in
        if next =? NULL then Done (i, bit, node, next)
        else
          let bit := Z.shiftr bit 1 in
          match next_bit i bit with
          | None => Done (S i, bit, next, next)
          | Some (i, bit) => insert128_descend fuel m key mask i bit next next
          end
    end.

(** Second loop of ngx_radix128tree_insert.  [None]: ngx_radix_alloc
    returned NULL. *)
Fixpoint insert128_extend (fuel n : nat) (st : state) (key mask : ngx_bytes)
    (i : nat) (bit : Z) (node : ptr) : res (option ptr * state) :=
  mi ← byte_at mask i;
  if Z.land bit mi =? 0 then Done (Some node, st)
  else
    match n with
    | O => OutOfFuel
    | S n =>
        '(next, st) ← ngx_radix_alloc fuel st;
        if next =? NULL then Done (None, st)
        else
          let m := <[next := mk_node NULL NULL node NGX_RADIX_NO_VALUE]> (mem st) in
          ki ← byte_at key i;
          m ← (if negb (Z.land ki bit =? 0) then store_right m node next
               else store_left m node next);
          let bit := Z.shiftr bit 1 in
          match next_bit i bit with
          | None => Done (Some next, set_mem st m)
          | Some (i, bit) =>
              insert128_extend fuel n (set_mem st m) key mask i bit next
          end
    end.

Definition ngx_radix128tree_insert (fuel : nat) (st : state)
    (key mask : ngx_bytes) (value : Z) : res (ngx_int_t * state) :=
  '(i, bit, node, next) ←
    insert128_descend fuel (mem st) key mask 0 0x80 (root (tree st)) (root (tree st));
  if negb (next =? NULL) then
    n ← load (mem st) node;
    if negb (n_value n =? NGX_RADIX_NO_VALUE) then Done (NGX_BUSY, st)
    else
      m ← store_value (mem st) node value;
      Done (NGX_OK, set_mem st m)
  else
    '(r, st) ← insert128_extend fuel fuel st key mask i bit node;
    match r with
    | None => Done (NGX_ERROR, st)
    | Some node =>
        m ← store_value (mem st) node value;
        Done (NGX_OK, set_mem st m)
    end.

(** First loop of ngx_radix128tree_delete:
    [while (node && (bit & mask[i]))]. *)
Fixpoint delete128_descend (fuel : nat) (m : gmap Z ngx_radix_node_t)
    (key mask : ngx_bytes) (i : nat) (bit : Z) (node : ptr) : res ptr :=
  if node =? NULL then Done node
  else
    mi ← byte_at mask i;
    if Z.land bit mi =? 0 then Done node
    else
      match fuel with
      | O => OutOfFuel
      | S fuel =>
          ki ← byte_at key i;
          n ← load m node;
          let node := child ki bit n in
          let bit := Z.shiftr bit 1 in
          match next_bit i bit with
          | None => Done node
          | Some (i, bit) => delete128_descend fuel m key mask i bit node
          end
      end.

(** ngx_radix128tree_delete; after the descent its statements are those
    of ngx_radix32tree_delete. *)
Definition ngx_radix128tree_delete (fuel : nat) (st : state)
    (key mask : ngx_bytes) : res (ngx_int_t * state) :=
  node ← delete128_descend fuel (mem st) key mask 0 0x80 (root (tree st));
  if node =? NULL then Done (NGX_ERROR, st)
  else
    n ← load (mem st) node;
    if negb (n_right n =? NULL) || negb (n_left n =? NULL) then
      if negb (n_value n =? NGX_RADIX_NO_VALUE) then
        m ← store_value (mem st) node NGX_RADIX_NO_VALUE;
        Done (NGX_OK, set_mem st m)
      else Done (NGX_ERROR, st)
    else
      st ← delete_prune fuel st node;
      Done (NGX_OK, st).

(** The loop of ngx_radix128tree_find: at [bit == 0] the index moves on
    with no test against 16. *)
Fixpoint find128_loop (fuel : nat) (m : gmap Z ngx_radix_node_t)
    (key : ngx_bytes) (i : nat) (bit value : Z) (node : ptr) : res Z :=
  if node =? NULL then Done value
  else
    match fuel with
    | O => OutOfFuel
    | S fuel =>
        n ← load m node;
        let value :=
          if negb (n_value n =? NGX_RADIX_NO_VALUE) then n_value n else value in
        ki ← byte_at key i;
        let node := child ki bit n in
        let bit := Z.shiftr bit 1 in
        if bit =? 0 then find128_loop fuel m key (S i) 0x80 value node
        else find128_loop fuel m key i bit value node
    end.

Definition ngx_radix128tree_find (fuel : nat) (st : state) (key : ngx_bytes)
  : res Z :=
  find128_loop fuel (mem st) key 0 0x80 NGX_RADIX_NO_VALUE (root (tree st)).

End Radix128.

Module Radix128Spec.

Import Pool Radix Radix128.

(** The 32-bit word that the first four bytes spell, most significant
    byte first. *)
Definition word32 (b : ngx_bytes) : Z :=
  Z.lor (Z.shiftl (nth 0 (b_bytes b) 0) 24)
    (Z.lor (Z.shiftl (nth 1 (b_bytes b) 0) 16)
       (Z.lor (Z.shiftl (nth 2 (b_bytes b) 0) 8) (nth 3 (b_bytes b) 0))).

(** An array of 16 [u_char]. *)
Definition bytes16 (b : ngx_bytes) : Prop :=
  length (b_bytes b) = 16%nat /\ Forall (fun x => 0 <= x < 256) (b_bytes b).

(** A mask of at most 32 bits: nothing set from the fifth byte on. *)
Definition short_mask (mask : ngx_bytes) : Prop :=
  bytes16 mask /\ Forall (fun x => x = 0) (drop 4 (b_bytes mask)).

(** The directions the loops take in one byte, [bit] going from 0x80 down
    to 1, and over the whole key. *)
Definition byte_dirs (x : Z) : list bool :=
  map (fun j => negb (Z.land x (Z.shiftr 0x80 (Z.of_nat j)) =? 0)) (seq 0 8).

Definition key_dirs (key : ngx_bytes) : list bool :=
  flat_map byte_dirs (b_bytes key).

(** The address ::1 and its host mask. *)
Definition loopback6 : ngx_bytes :=
  mk_bytes 600 [0; 0; 0; 0; 0; 0; 0; 0; 0; 0; 0; 0; 0; 0; 0; 1].

Definition host_mask6 : ngx_bytes :=
  mk_bytes 700 [255; 255; 255; 255; 255; 255; 255; 255;
                255; 255; 255; 255; 255; 255; 255; 255].

(** A place in the first 32 bits, or right behind them: byte [i] and the
    bit [0x80 >> j] in it. *)
Definition pos_ok (i j : nat) : Prop :=
  (j < 8)%nat /\ ((i < 4)%nat \/ (i = 4%nat /\ j = 0%nat)).

End Radix128Spec.

(** * Properties *)

Lemma res_bind_done {A B} (f : A -> res B) (r : res A) (b : B) :
  r ≫= f = Done b -> exists a, r = Done a /\ f a = Done b.
Proof. destruct r; simpl; intros H; try discriminate. eauto. Qed.

(** ** The pool *)

Section PoolFacts.

Import Pool PoolSpec.

Lemma blocks_set_blocks pool l :
  l <> [] -> blocks (set_blocks pool l) = l.
Proof. destruct l; [congruence | reflexivity]. Qed.

Lemma split_at_app c l pre suf :
  split_at c l = (pre, suf) -> l = pre ++ suf.
Proof.
  revert pre suf. induction l as [|b r IH]; simpl; intros pre suf H.
  - by inversion H.
  - destruct (d_self b =? c).
    + by inversion H.
    + destruct (split_at c r) as [p s]. inversion H; subst.
      simpl. f_equal. by apply IH.
Qed.

Lemma split_at_head c l pre b suf :
  split_at c l = (pre, b :: suf) -> d_self b = c.
Proof.
  revert pre. induction l as [|a r IH]; simpl; intros pre H.
  - inversion H.
  - destruct (d_self a =? c) eqn:E.
    + inversion H; subst. lia.
    + destruct (split_at c r) as [p s]. inversion H; subst. by eapply IH.
Qed.

Lemma block_walk_cons b q t c :
  block_walk (b :: q :: t) c =
  let r := block_walk (q :: t) (if d_failed b >? 4 then d_self q else c) in
  (set_failed b (d_failed b + 1) :: r.1, r.2).
Proof.
  change (block_walk (b :: q :: t) c) with
    (let '(r', c') := block_walk (q :: t) (if d_failed b >? 4 then d_self q else c) in
     (set_failed b (d_failed b + 1) :: r', c')).
  by destruct (block_walk (q :: t) (if d_failed b >? 4 then d_self q else c)).
Qed.

Lemma block_walk_blocks vis lastb c :
  (block_walk (vis ++ [lastb]) c).1 =
  map (fun b => set_failed b (d_failed b + 1)) vis ++ [lastb].
Proof.
  revert c. induction vis as [|b r IH]; intros c; [reflexivity|].
  change ((b :: r) ++ [lastb]) with (b :: (r ++ [lastb])).
  destruct (r ++ [lastb]) as [|q t] eqn:E; [by destruct r|].
  rewrite block_walk_cons. cbv zeta. cbn [fst]. rewrite IH. reflexivity.
Qed.

Lemma block_walk_stay l c :
  Forall (fun b => d_failed b <= 4) (removelast l) ->
  (block_walk l c).2 = c.
Proof.
  revert c. induction l as [|b r IH]; intros c H; [reflexivity|].
  destruct r as [|q t]; [reflexivity|].
  rewrite block_walk_cons.
  change (removelast (b :: q :: t)) with (b :: removelast (q :: t)) in H.
  inversion H as [|? ? Hb Hr]; subst.
  destruct (d_failed b >? 4) eqn:E; [lia|].
  cbv zeta. cbn [snd]. by apply IH.
Qed.

Lemma block_walk_move l1 b q l2 c :
  d_failed b > 4 ->
  Forall (fun b => d_failed b <= 4) (removelast (q :: l2)) ->
  (block_walk (l1 ++ b :: q :: l2) c).2 = d_self q.
Proof.
  intros Hb Hl. revert c. induction l1 as [|a r IH]; intros c.
  - cbn [app]. rewrite block_walk_cons. destruct (d_failed b >? 4) eqn:E; [|lia].
    cbv zeta. cbn [snd]. by apply block_walk_stay.
  - change ((a :: r) ++ b :: q :: l2) with (a :: (r ++ b :: q :: l2)).
    destruct (r ++ b :: q :: l2) as [|x t] eqn:E; [by destruct r|].
    rewrite block_walk_cons. cbv zeta. cbn [snd]. apply IH.
Qed.

(** C2, as the code has it: when ngx_palloc_block grows a new block, every
    block from [current] up to the one before the last existing block has
    its [failed] counter incremented, the last existing block and the
    blocks before [current] are left as they are, and the new block is
    appended.  [current] moves to the block after the last visited block
    whose counter was above 4 before the increment (at least five
    failures counted earlier, so this one is its sixth or later); it stays
    when no visited block has such a counter. *)
Theorem palloc_block_counts_and_moves pool size w a w1 pre vis lastb :
  ngx_memalign NGX_POOL_ALIGNMENT (d_end (d pool) - d_self (d pool)) w = (a, w1) ->
  a <> NULL ->
  Forall (fun b => d_self b <> NULL) (blocks pool) ->
  split_at (current pool) (blocks pool) = (pre, vis ++ [lastb]) ->
  exists m pool',
    ngx_palloc_block pool size w = Done (m, pool', w1) /\
    blocks pool' =
      pre ++ map bump vis ++
      [lastb; mk_data a (m + size) (a + (d_end (d pool) - d_self (d pool))) 0] /\
    (Forall (fun b => d_failed b <= 4) vis -> current pool' = current pool) /\
    (forall l1 b q l2,
        vis ++ [lastb] = l1 ++ b :: q :: l2 ->
        d_failed b > 4 ->
        Forall (fun b => d_failed b <= 4) (removelast (q :: l2)) ->
        current pool' = d_self q).
Proof.
  intros Ha Hnz Hself Hsplit.
  assert (Hin : forall q, q ∈ vis ++ [lastb] -> d_self q <> NULL).
  { intros q Hq. rewrite Forall_forall in Hself. apply Hself.
    rewrite (split_at_app _ _ _ _ Hsplit). apply elem_of_app. right. exact Hq. }
  assert (Hcur : current pool <> NULL).
  { destruct (vis ++ [lastb]) as [|x t] eqn:Ev; [by destruct vis|].
    rewrite <- (split_at_head _ _ _ _ _ Hsplit). apply Hin. apply elem_of_cons. by left. }
  unfold ngx_palloc_block. rewrite Ha.
  destruct (a =? NULL) eqn:Ea; [lia|].
  rewrite Hsplit.
  pose proof (block_walk_blocks vis lastb (current pool)) as Hb.
  destruct (block_walk (vis ++ [lastb]) (current pool)) as [suf' c] eqn:Ew.
  simpl in Hb. subst suf'.
  destruct (vis ++ [lastb]) as [|x t] eqn:Ev; [by destruct vis|].
  eexists _, _. split; [reflexivity|].
  assert (Hne : pre ++ (map bump vis ++ [lastb]) ++
                [mk_data a (ngx_align_ptr (a + sizeof_ngx_pool_data_t) NGX_ALIGNMENT + size)
                   (a + (d_end (d pool) - d_self (d pool))) 0] <> []).
  { destruct pre; [|done]. destruct (map bump vis); done. }
  split.
  { change (blocks (set_current ?p ?c)) with (blocks p).
    rewrite blocks_set_blocks by exact Hne.
    by rewrite <- !app_assoc. }
  change (current (set_current ?p ?c)) with c.
  split.
  - intros Hall.
    pose proof (block_walk_stay (vis ++ [lastb]) (current pool)) as Hs.
    rewrite removelast_last in Hs. specialize (Hs Hall).
    rewrite Ev, Ew in Hs. simpl in Hs. subst c.
    destruct (current pool =? NULL) eqn:E; [lia|done].
  - intros l1 b q l2 Hd Hb Hl.
    pose proof (block_walk_move l1 b q l2 (current pool) Hb Hl) as Hs.
    rewrite <- Hd, Ew in Hs. simpl in Hs. subst c.
    assert (d_self q <> NULL) as Hq.
    { apply Hin. rewrite Hd. apply elem_of_app. right.
      apply elem_of_cons. right. apply elem_of_cons. by left. }
    destruct (d_self q =? NULL) eqn:E; [lia|done].
Qed.

(** The theorem at a pool of 112-byte blocks after 13 allocations: the
    first block has counted five failures, and the grow moves [current]
    to the second block. *)
Lemma palloc_block_counts_and_moves_witness :
  exists pool w m pool',
    pool112 13 = Done (pool, w) /\
    ngx_palloc_block pool 32 w = Done (m, pool', mk_world 4992 None []) /\
    length (blocks pool') = 8%nat /\
    current pool = 4096 /\ d_failed (d pool) = 5 /\ current pool' = 4208.
Proof.
  let r := eval vm_compute in (pool112 13) in
  match r with
  | Done (?pool, ?w) =>
      match eval vm_compute in (blocks pool) with
      | ?b :: ?q :: ?l2 =>
          destruct (palloc_block_counts_and_moves pool 32 w 4880
                      (mk_world 4992 None []) [] (removelast (blocks pool))
                      (List.last (blocks pool) (d pool)))
            as (m & pool' & H1 & H2 & H3 & H4);
            [ | | | | exists pool, w, m, pool';
                      specialize (H4 [] b q l2) ]
      end
  end.
  - vm_compute. reflexivity.
  - vm_compute. discriminate.
  - vm_compute. repeat (constructor; [discriminate|]). constructor.
  - vm_compute. reflexivity.
  - split; [vm_compute; reflexivity|]. split; [exact H1|].
    split; [rewrite H2; reflexivity|].
    split; [reflexivity|]. split; [reflexivity|].
    rewrite H4; [reflexivity | vm_compute; reflexivity | vm_compute; reflexivity |].
    vm_compute. repeat (constructor; [discriminate|]). constructor.
Defined.

(** C2 as stated fails: in a pool of 112-byte blocks after 11
    allocations the first block has counted four failures; the next grow
    is its fifth, the counter becomes 5, above 4, and [current] still
    points to that block. *)
Lemma grow_fifth_failure_keeps_current :
  exists pool w m pool' w',
    pool112 11 = Done (pool, w) /\
    ngx_palloc_block pool 32 w = Done (m, pool', w') /\
    m <> NULL /\
    current pool = d_self (d pool) /\ d_failed (d pool) = 4 /\
    d_failed (d pool') = 5 /\ current pool' = d_self (d pool').
Proof.
  eexists _, _, _, _, _. split; [vm_compute; reflexivity|].
  split; [vm_compute; reflexivity|].
  repeat split; vm_compute; discriminate.
Qed.

Lemma large_reuse_hit n l1 e l2 p :
  Forall live l1 -> l_alloc e = NULL -> n + Z.of_nat (length l1) <= 4 ->
  large_reuse n (l1 ++ e :: l2) p = Some (l1 ++ mk_large (l_self e) p :: l2).
Proof.
  revert n. induction l1 as [|a r IH]; intros n Hl He Hn; simpl.
  - rewrite He. reflexivity.
  - inversion Hl as [|? ? Ha Hr]; subst. unfold live in Ha.
    destruct (l_alloc a =? NULL) eqn:E; [lia|].
    simpl in Hn. destruct (n >? 3) eqn:E3; [lia|].
    rewrite IH; [reflexivity|assumption|assumption|lia].
Qed.

Lemma large_reuse_miss n l p :
  0 <= n <= 4 ->
  Forall live (take (Z.to_nat (5 - n)) l) -> large_reuse n l p = None.
Proof.
  revert n. induction l as [|a r IH]; intros n Hn Hl; simpl; [reflexivity|].
  replace (Z.to_nat (5 - n)) with (S (Z.to_nat (5 - (n + 1)))) in Hl by lia.
  simpl in Hl. inversion Hl as [|? ? Ha Hr]; subst. unfold live in Ha.
  destruct (l_alloc a =? NULL) eqn:E; [lia|].
  destruct (n >? 3) eqn:E3; [reflexivity|].
  rewrite IH; [reflexivity|lia|assumption].
Qed.

(** The two allocation functions leave the cleanup stack alone, and the
    small path leaves the large list alone. *)
Lemma palloc_block_frame pool size w m pool' w' :
  ngx_palloc_block pool size w = Done (m, pool', w') ->
  cleanup pool' = cleanup pool /\ large pool' = large pool /\ max pool' = max pool.
Proof.
  unfold ngx_palloc_block. destruct (ngx_memalign _ _ w) as [a w1].
  destruct (a =? NULL); [intros H; by inversion H|].
  destruct (split_at _ _) as [pre suf]. destruct suf as [|x t]; [discriminate|].
  destruct (block_walk _ _) as [suf' c]. intros H; inversion H; subst.
  unfold set_current, set_blocks. by destruct (pre ++ suf' ++ _).
Qed.

Lemma palloc_frame fuel :
  (forall pool size w m pool' w',
      ngx_palloc fuel pool size w = Done (m, pool', w') ->
      cleanup pool' = cleanup pool /\ max pool' = max pool /\
      (size <= max pool -> large pool' = large pool)) /\
  (forall pool size w m pool' w',
      ngx_palloc_large fuel pool size w = Done (m, pool', w') ->
      cleanup pool' = cleanup pool /\ max pool' = max pool).
Proof.
  induction fuel as [|fuel [IH1 IH2]]; [split; intros; discriminate|].
  split.
  - intros pool size w m pool' w'. cbn [ngx_palloc].
    destruct (size <=? max pool) eqn:E.
    + destruct (split_at _ _) as [pre suf]. destruct suf as [|x t]; [discriminate|].
      destruct (palloc_search _ _ _) as [[a suf']|].
      * intros H; inversion H; subst. unfold set_blocks.
        by destruct (pre ++ suf').
      * intros H. apply palloc_block_frame in H as (? & ? & ?). done.
    + intros H. apply IH2 in H. split; [tauto|]. split; [tauto|lia].
  - intros pool size w m pool' w'. cbn [ngx_palloc_large].
    destruct (ngx_alloc size w) as [p w1].
    destruct (p =? NULL); [intros H; by inversion H|].
    destruct (large_reuse 0 (large pool) p).
    + intros H; by inversion H.
    + intros H. apply res_bind_done in H as ([[lg pl] w2] & Hp & H).
      apply IH1 in Hp as (Hc & Hm & _).
      destruct (lg =? NULL); inversion H; subst; done.
Qed.

(** C3, as the code has it: ngx_palloc_large, once the allocator has
    given the block [p], inspects the first five entries of the large list
    (the loop leaves after the entry at which [n] is 4).  When one of
    them is a tombstone, the first such entry receives [p] and the list
    keeps its entries; when the first five entries all hold allocations, a
    fresh entry is obtained from ngx_palloc, which is the small path when
    the entry is no larger than [max], and is pushed at the head of the
    list with [alloc = p]. *)
Theorem palloc_large_reuse_or_push fuel pool size w p w1 :
  ngx_alloc size w = (p, w1) -> p <> NULL ->
  (forall l1 e l2,
      large pool = l1 ++ e :: l2 -> (length l1 < 5)%nat ->
      Forall live l1 -> l_alloc e = NULL ->
      ngx_palloc_large (S fuel) pool size w =
        Done (p, set_large pool (l1 ++ mk_large (l_self e) p :: l2), w1)) /\
  (Forall live (take 5 (large pool)) ->
   forall lg pool2 w2,
      ngx_palloc fuel pool sizeof_ngx_pool_large_t w1 = Done (lg, pool2, w2) ->
      lg <> NULL ->
      ngx_palloc_large (S fuel) pool size w =
        Done (p, set_large pool2 (mk_large lg p :: large pool2), w2) /\
      (sizeof_ngx_pool_large_t <= max pool -> large pool2 = large pool)).
Proof.
  intros Ha Hp. split.
  - intros l1 e l2 Hl Hlen Hlive He. cbn [ngx_palloc_large]. rewrite Ha.
    destruct (p =? NULL) eqn:E; [lia|].
    rewrite Hl, large_reuse_hit; [reflexivity|assumption|assumption|lia].
  - intros Hlive lg pool2 w2 Hpa Hlg. cbn [ngx_palloc_large]. rewrite Ha.
    destruct (p =? NULL) eqn:E; [lia|].
    rewrite large_reuse_miss; [|lia|exact Hlive].
    rewrite Hpa. simpl. destruct (lg =? NULL) eqn:E2; [lia|].
    split; [reflexivity|]. intros Hmax.
    apply (proj1 (palloc_frame fuel)) in Hpa as (_ & _ & Hl). by apply Hl.
Qed.

(** The theorem on a pool with five large allocations whose oldest one
    has been freed: the tombstone is the fifth entry, and it is reused. *)
Lemma palloc_large_reuse_or_push_witness :
  exists pool w,
    five_large_one_freed = Done (pool, w) /\
    ngx_palloc_large 2 pool 4096 w =
      Done (24832,
            set_large pool
              (take 4 (large pool) ++ [mk_large 4176 24832]),
            mk_world 28928 None [EFree 4352]).
Proof.
  let r := eval vm_compute in five_large_one_freed in
  match r with
  | Done (?pool, ?w) =>
      exists pool, w; split; [vm_compute; reflexivity|];
      destruct (palloc_large_reuse_or_push 1 pool 4096 w 24832
                  (mk_world 28928 None [EFree 4352])) as [H _];
      [ | | apply (H (take 4 (large pool)) (mk_large 4176 0) []) ]
  end.
  - vm_compute. reflexivity.
  - vm_compute. discriminate.
  - vm_compute. reflexivity.
  - vm_compute. lia.
  - vm_compute. repeat (constructor; [discriminate|]). constructor.
  - reflexivity.
Defined.

(** C3 as stated fails: with four live entries followed by a tombstone,
    no tombstone is among the first four entries, and still no entry is
    created: the new pointer goes into the fifth entry. *)
Lemma fifth_large_entry_is_reused :
  exists pool w p pool' w',
    five_large_one_freed = Done (pool, w) /\
    Forall live (take 4 (large pool)) /\
    ngx_palloc_large 2 pool 4096 w = Done (p, pool', w') /\
    p <> NULL /\
    length (large pool') = length (large pool) /\
    map l_self (large pool') = map l_self (large pool) /\
    (exists e, large pool' !! 4%nat = Some e /\ l_alloc e = p).
Proof.
  eexists _, _, _, _, _. split; [vm_compute; reflexivity|].
  split; [vm_compute; repeat (constructor; [discriminate|]); constructor|].
  split; [vm_compute; reflexivity|].
  split; [vm_compute; discriminate|].
  split; [reflexivity|]. split; [reflexivity|].
  eexists. split; reflexivity.
Qed.

(** ** Events of reset and destroy *)

Lemma free_large_trace l w :
  free_large l w = mk_world (brk w) (limit w) (trace w ++ large_frees l).
Proof.
  unfold free_large, large_frees. revert w.
  induction l as [|e r IH]; intros w; simpl.
  - rewrite app_nil_r. by destruct w.
  - rewrite IH, filter_cons. destruct (Z.eqb_spec (l_alloc e) NULL) as [E|E].
    + rewrite decide_False by (intros H; by apply H). reflexivity.
    + rewrite decide_True by exact E. simpl. by rewrite <- app_assoc.
Qed.

Lemma free_blocks_trace l w :
  free_blocks l w = mk_world (brk w) (limit w) (trace w ++ block_frees l).
Proof.
  unfold free_blocks, block_frees. revert w.
  induction l as [|e r IH]; intros w; simpl.
  - rewrite app_nil_r. by destruct w.
  - rewrite IH. simpl. by rewrite <- app_assoc.
Qed.

(** What ngx_reset_pool does. *)
Lemma reset_pool_effect pool w :
  let '(pool', w') := ngx_reset_pool pool w in
  trace w' = trace w ++ large_frees (large pool) /\
  brk w' = brk w /\
  large pool' = [] /\
  Forall (fun b => d_failed b = 0 /\ d_last b = d_self b + sizeof_ngx_pool_t)
    (blocks pool') /\
  map d_self (blocks pool') = map d_self (blocks pool) /\
  map d_end (blocks pool') = map d_end (blocks pool) /\
  current pool' = d_self (d pool') /\
  chain pool' = NULL /\
  cleanup pool' = cleanup pool /\
  words pool' = words pool /\
  max pool' = max pool.
Proof.
  unfold ngx_reset_pool. rewrite free_large_trace. cbn.
  repeat split; try reflexivity.
  - apply Forall_cons. split; [by split|].
    apply List.Forall_map, Forall_true. intros b. by split.
  - f_equal. rewrite map_map. by apply map_ext.
  - f_equal. rewrite map_map. by apply map_ext.
Qed.

(** C4 at a pool of two blocks: after reset the cursor of the second
    block is 80 bytes ([sizeof(ngx_pool_t)]) past its start, not the 32
    bytes of its own header ([sizeof(ngx_pool_data_t)]) where
    ngx_palloc_block had put the start of its data. *)
Lemma reset_second_block_cursor :
  exists pool w b,
    pool112 2 = Done (pool, w) /\
    d_next (ngx_reset_pool pool w).1 = [b] /\
    d_last b = d_self b + sizeof_ngx_pool_t /\
    d_last b <> d_self b + sizeof_ngx_pool_data_t.
Proof.
  eexists _, _, _. split; [vm_compute; reflexivity|].
  split; [vm_compute; reflexivity|].
  split; [reflexivity|vm_compute; discriminate].
Qed.

Lemma pfree_walk_some l p l' :
  pfree_walk l p = Some l' ->
  exists l1 e l2, l = l1 ++ e :: l2 /\ Forall (fun x => l_alloc x <> p) l1 /\
                  l_alloc e = p /\ l' = l1 ++ mk_large (l_self e) NULL :: l2.
Proof.
  revert l'. induction l as [|a r IH]; intros l' H; simpl in H; [discriminate|].
  destruct (Z.eqb_spec p (l_alloc a)) as [E|E].
  - inversion H; subst. by exists [], a, r.
  - destruct (pfree_walk r p) as [r'|]; [|discriminate].
    inversion H; subst. destruct (IH r' eq_refl) as (l1 & e & l2 & -> & Hf & He & ->).
    exists (a :: l1), e, l2. repeat split; try done. constructor; [congruence|done].
Qed.

Lemma pfree_walk_none l p :
  pfree_walk l p = None <-> Forall (fun x => l_alloc x <> p) l.
Proof.
  induction l as [|a r IH]; simpl; [split; [constructor|done]|].
  destruct (Z.eqb_spec p (l_alloc a)) as [E|E].
  - split; [discriminate|]. intros H. inversion H; subst. congruence.
  - destruct (pfree_walk r p) as [r'|].
    + split; [discriminate|]. intros H. inversion H; subst.
      destruct IH as [_ IH]. by specialize (IH ltac:(assumption)).
    + split; [|done]. intros _. constructor; [congruence|by apply IH].
Qed.

(** ** What the tree relies on in the pool *)

Lemma ngx_align_ptr_pow2 p k :
  0 <= k -> ngx_align_ptr p (2 ^ k) = (p + (2 ^ k - 1)) / 2 ^ k * 2 ^ k.
Proof.
  intros Hk. unfold ngx_align_ptr.
  rewrite <- Z.ldiff_land. replace (2 ^ k - 1) with (Z.ones k) at 2
    by (rewrite Z.ones_equiv; lia).
  rewrite Z.ldiff_ones_r by lia.
  by rewrite Z.shiftr_div_pow2, Z.shiftl_mul_pow2 by lia.
Qed.

Lemma ngx_align_ptr_ge p k : 0 <= k -> p <= ngx_align_ptr p (2 ^ k).
Proof.
  intros Hk. rewrite ngx_align_ptr_pow2 by lia.
  assert (0 < 2 ^ k) as Hpos by (apply Z.pow_pos_nonneg; lia).
  pose proof (Z.div_mod (p + (2 ^ k - 1)) (2 ^ k) ltac:(lia)) as Hd.
  pose proof (Z.mod_pos_bound (p + (2 ^ k - 1)) (2 ^ k) Hpos) as Hm.
  lia.
Qed.

Lemma memalign_spec k size w p w' :
  0 <= k -> 0 <= size -> 0 < brk w ->
  ngx_memalign (2 ^ k) size w = (p, w') ->
  limit w' = limit w /\ trace w' = trace w /\ brk w <= brk w' /\
  (p = NULL -> limit w <> None) /\
  (p <> NULL -> brk w <= p /\ brk w' = p + size).
Proof.
  intros Hk Hs Hb. unfold ngx_memalign.
  pose proof (ngx_align_ptr_ge (brk w) k Hk) as Ha.
  unfold fits. destruct (limit w) as [l|] eqn:El.
  - destruct (_ <=? l); intros H; inversion H; subst; simpl;
      repeat split; unfold NULL in *; try done; try lia.
  - intros H; inversion H; subst; simpl;
      repeat split; unfold NULL in *; try done; try lia.
Qed.

Lemma split_at_found c l :
  c ∈ map d_self l ->
  exists pre b suf, split_at c l = (pre, b :: suf) /\ d_self b = c.
Proof.
  induction l as [|a r IH]; simpl; intros H.
  - by apply elem_of_nil in H.
  - destruct (Z.eqb_spec (d_self a) c) as [E|E].
    + by exists [], a, r.
    + apply elem_of_cons in H as [H|H]; [congruence|].
      destruct (IH H) as (pre & b & suf & Hs & Hb). rewrite Hs.
      by exists (a :: pre), b, suf.
Qed.

Lemma palloc_search_self aligned size l m l' :
  palloc_search aligned size l = Some (m, l') -> map d_self l' = map d_self l.
Proof.
  revert l'. induction l as [|a r IH]; simpl; intros l' H; [discriminate|].
  destruct (size <=? _).
  - by inversion H.
  - destruct (palloc_search aligned size r) as [[x r']|]; [|discriminate].
    inversion H; subst. simpl. f_equal. by apply IH.
Qed.

Lemma block_walk_self l c :
  map d_self (block_walk l c).1 = map d_self l /\
  ((block_walk l c).2 = c \/ (block_walk l c).2 ∈ map d_self l).
Proof.
  revert c. induction l as [|a r IH]; intros c; [by split; [|left]|].
  destruct r as [|q t]; [by split; [|left]|].
  rewrite block_walk_cons. cbv zeta. cbn [fst snd].
  destruct (IH (if d_failed a >? 4 then d_self q else c)) as [H1 H2].
  split; [simpl; f_equal; exact H1|].
  destruct H2 as [H2|H2].
  - rewrite H2. destruct (d_failed a >? 4); [|by left].
    right. simpl. apply elem_of_cons. right. apply elem_of_cons. by left.
  - right. simpl. apply elem_of_cons. by right.
Qed.


Lemma palloc_search_last aligned size l m l' :
  0 <= size ->
  Forall (fun b => 0 < d_last b) l ->
  palloc_search aligned size l = Some (m, l') ->
  0 < m /\ Forall (fun b => 0 < d_last b) l' /\ map d_end l' = map d_end l.
Proof.
  intros Hs. revert l'. induction l as [|a r IH]; simpl; intros l' Hl H; [discriminate|].
  inversion Hl as [|? ? Ha Hr]; subst.
  assert (0 < (if aligned then ngx_align_ptr (d_last a) NGX_ALIGNMENT else d_last a)) as Hm.
  { destruct aligned; [|done].
    pose proof (ngx_align_ptr_ge (d_last a) 3 ltac:(lia)) as Hg.
    change (2 ^ 3) with NGX_ALIGNMENT in Hg. lia. }
  destruct (size <=? _).
  - inversion H; subst. split; [done|]. split; [|done].
    constructor; [simpl; lia|done].
  - destruct (palloc_search aligned size r) as [[x r']|]; [|discriminate].
    inversion H; subst. destruct (IH r' Hr eq_refl) as (? & ? & ?).
    split; [done|]. split; [by constructor|]. simpl. by f_equal.
Qed.

Lemma block_walk_last l c :
  Forall (fun b => 0 < d_last b) l ->
  Forall (fun b => 0 < d_last b) (block_walk l c).1 /\
  map d_end (block_walk l c).1 = map d_end l.
Proof.
  revert c. induction l as [|a r IH]; intros c Hl; [done|].
  destruct r as [|q t]; [done|].
  rewrite block_walk_cons. cbv zeta. cbn [fst].
  inversion Hl as [|? ? Ha Hr]; subst.
  destruct (IH (if d_failed a >? 4 then d_self q else c) Hr) as [H1 H2].
  split; [by constructor|]. rewrite (map_cons d_end (set_failed _ _)), H2.
  reflexivity.
Qed.

Lemma pool_sane_update pool w l c w' xs ys :
  pool_sane pool w -> 0 < brk w' ->
  map d_self l = map d_self (blocks pool) ++ xs ->
  map d_end l = map d_end (blocks pool) ++ ys ->
  Forall (fun b => 0 < d_last b) l ->
  c ∈ map d_self l ->
  pool_sane (set_current (set_blocks pool l) c) w'.
Proof.
  intros (Hb & Hm & Hp & Hc & Hl) Hb' H1 H2 H3 H4.
  destruct l as [|b r]; [by apply elem_of_nil in H4|].
  unfold blocks in H1, H2. simpl in H1, H2. inversion H1. inversion H2.
  unfold pool_sane, set_current, set_blocks, blocks. simpl.
  repeat split; try done. lia.
Qed.

Lemma ngx_palloc_small fuel pool size w :
  size <= max pool ->
  ngx_palloc (S fuel) pool size w = small_path true pool size w.
Proof. intros H. cbn [ngx_palloc]. by destruct (Z.leb_spec size (max pool)); [|lia]. Qed.

Lemma small_path_sane aligned pool size w :
  pool_sane pool w -> 0 <= size ->
  exists m pool' w',
    small_path aligned pool size w = Done (m, pool', w') /\
    pool_sane pool' w' /\ brk w <= brk w' /\ limit w' = limit w /\
    (limit w = None -> m <> NULL).
Proof.
  intros Hsane Hsize0. assert (Hsize : 0 <= size <= size) by lia.
  pose proof Hsane as (Hb & Hm & Hp & Hc & Hl). unfold small_path.
  destruct (split_at_found _ _ Hc) as (pre & b & suf & Hs & Hbc). rewrite Hs.
  pose proof (split_at_app _ _ _ _ Hs) as Happ.
  pose proof Hl as Hl0.
  rewrite Happ in Hl. apply Forall_app in Hl as [Hl1 Hl2].
  destruct (palloc_search aligned size (b :: suf)) as [[m suf']|] eqn:Es.
  - pose proof (palloc_search_self _ _ _ _ _ Es) as Hself.
    destruct (palloc_search_last _ _ _ _ _ (proj1 Hsize) Hl2 Es) as (Hm0 & Hl' & Hend).
    eexists _, _, _. split; [reflexivity|].
    split; [|split; [lia|split; [done|unfold NULL; lia]]].
    replace (set_blocks pool (pre ++ suf'))
      with (set_current (set_blocks pool (pre ++ suf'))
              (current (set_blocks pool (pre ++ suf')))).
    2:{ generalize (set_blocks pool (pre ++ suf')). by intros []. }
    replace (current (set_blocks pool (pre ++ suf'))) with (current pool)
      by (unfold set_blocks; by destruct (pre ++ suf')).
    apply (pool_sane_update pool w _ _ w [] []); try done.
    + by rewrite Happ, !map_app, app_nil_r, Hself.
    + by rewrite Happ, !map_app, app_nil_r, Hend.
    + by apply Forall_app.
    + rewrite map_app, Hself, <- map_app, <- Happ. done.
  - unfold ngx_palloc_block.
    destruct (ngx_memalign NGX_POOL_ALIGNMENT _ w) as [a w1] eqn:Ea.
    apply (memalign_spec 4) in Ea as (Hlim & _ & Hbrk & Hnull & Hnn); [|lia|lia|lia].
    destruct (Z.eqb_spec a NULL) as [Ez|Ez].
    + eexists _, _, _. split; [reflexivity|].
      split; [|split; [lia|split; [done|]]].
      * unfold pool_sane. repeat split; try done; lia.
      * intros Hn. by apply Hnull in Hn.
    + rewrite Hs. destruct (Hnn Ez) as [Hge Hbrk'].
      pose proof (block_walk_self (b :: suf) (current pool)) as [Hw1 Hw2].
      pose proof (block_walk_last (b :: suf) (current pool) Hl2) as [Hw3 Hw4].
      destruct (block_walk (b :: suf) (current pool)) as [suf' c] eqn:Ew.
      cbn [fst snd] in *.
      pose proof (ngx_align_ptr_ge (a + sizeof_ngx_pool_data_t) 3 ltac:(lia)) as Hg.
      change (2 ^ 3) with NGX_ALIGNMENT in Hg. unfold sizeof_ngx_pool_data_t in Hg.
      eexists _, _, _. split; [reflexivity|].
      split; [|split; [lia|split; [done|unfold NULL, sizeof_ngx_pool_data_t; lia]]].
      eapply (pool_sane_update pool w _ _ w1 [a] [_]); try done.
      * lia.
      * rewrite Happ, !map_app, Hw1, <- !app_assoc. reflexivity.
      * rewrite Happ, !map_app, Hw4, <- !app_assoc. reflexivity.
      * apply Forall_app. split; [done|]. apply Forall_app. split; [done|].
        constructor; [|constructor]. simpl. unfold sizeof_ngx_pool_data_t. lia.
      * rewrite !map_app, Hw1. destruct (c =? NULL) eqn:Ec.
        { apply elem_of_app. right. apply elem_of_app. right. simpl.
          apply elem_of_cons. by left. }
        destruct Hw2 as [->|Hw2].
        { apply elem_of_app. right. apply elem_of_app. left.
          rewrite <- Hbc. simpl. apply elem_of_cons. by left. }
        apply elem_of_app. right. apply elem_of_app. by left.
Qed.

Lemma palloc_small_sane fuel pool size w :
  pool_sane pool w -> 0 <= size <= max pool ->
  exists m pool' w',
    ngx_palloc (S fuel) pool size w = Done (m, pool', w') /\
    pool_sane pool' w' /\ brk w <= brk w' /\ limit w' = limit w /\
    (limit w = None -> m <> NULL).
Proof.
  intros Hsane Hsize. rewrite ngx_palloc_small by lia.
  apply small_path_sane; [done|lia].
Qed.

Lemma pmemalign_sane fuel pool w :
  pool_sane pool w ->
  exists p pool' w',
    ngx_pmemalign (S fuel) pool ngx_pagesize ngx_pagesize w = Done (p, pool', w') /\
    pool_sane pool' w' /\ brk w <= brk w' /\ limit w' = limit w /\
    (p <> NULL -> brk w <= p /\ p + ngx_pagesize <= brk w') /\
    (limit w = None -> p <> NULL).
Proof.
  intros Hsane. pose proof Hsane as (Hb & Hm & Hp & Hc & Hl).
  unfold ngx_pmemalign.
  destruct (ngx_memalign ngx_pagesize ngx_pagesize w) as [p w1] eqn:Ea.
  apply (memalign_spec 12) in Ea as (Hlim & _ & Hbrk & Hnull & Hnn);
    [|lia|unfold ngx_pagesize; lia|lia].
  destruct (Z.eqb_spec p NULL) as [Ez|Ez].
  - eexists _, _, _. split; [reflexivity|].
    split; [|split; [lia|split; [done|split; [done|]]]].
    + unfold pool_sane. repeat split; try done; lia.
    + intros Hn. by apply Hnull in Hn.
  - destruct (Hnn Ez) as [Hge Hbrk'].
    assert (Hsane1 : pool_sane pool w1).
    { unfold pool_sane. repeat split; try done; lia. }
    destruct (palloc_small_sane fuel pool sizeof_ngx_pool_large_t w1 Hsane1)
      as (lg & pool2 & w2 & Hpa & Hsane2 & Hbrk2 & Hlim2 & Hnn2).
    { unfold sizeof_ngx_pool_large_t in *. lia. }
    rewrite Hpa. cbn.
    destruct (Z.eqb_spec lg NULL) as [El|El].
    + eexists _, _, _. split; [reflexivity|].
      split; [|split; [simpl; lia|split; [simpl; congruence|split; [done|]]]].
      * destruct Hsane2 as (? & ? & ? & ? & ?). unfold pool_sane. done.
      * intros Hn. rewrite <- Hlim in Hn. by apply Hnn2 in Hn.
    + eexists _, _, _. split; [reflexivity|].
      split; [|split; [lia|split; [congruence|split; [lia|done]]]].
      destruct Hsane2 as (? & ? & ? & ? & ?). unfold pool_sane. done.
Qed.

Lemma pool_sane_set_large pool w l : pool_sane pool w -> pool_sane (set_large pool l) w.
Proof. intros (? & ? & ? & ? & ?). by unfold pool_sane. Qed.

Lemma palloc_sane fuel pool size w :
  pool_sane pool w -> 0 <= size ->
  exists m pool' w',
    ngx_palloc (S (S (S fuel))) pool size w = Done (m, pool', w') /\
    pool_sane pool' w' /\ brk w <= brk w' /\ limit w' = limit w /\
    (limit w = None -> m <> NULL).
Proof.
  intros Hsane Hsize. pose proof Hsane as (Hb & Hm & Hp & Hc & Hl).
  destruct (Z.leb_spec size (max pool)) as [Hle|Hgt].
  { by apply palloc_small_sane. }
  cbn [ngx_palloc]. destruct (size <=? max pool) eqn:E; [lia|].
  cbn [ngx_palloc_large]. unfold ngx_alloc.
  destruct (ngx_memalign NGX_POOL_ALIGNMENT size w) as [p w1] eqn:Ea.
  apply (memalign_spec 4) in Ea as (Hlim & _ & Hbrk & Hnull & Hnn); [|lia|lia|lia].
  destruct (Z.eqb_spec p NULL) as [Ez|Ez].
  { eexists _, _, _. split; [reflexivity|].
    split; [|split; [lia|split; [done|]]].
    - unfold pool_sane. repeat split; try done; lia.
    - intros Hn. by apply Hnull in Hn. }
  destruct (Hnn Ez) as [Hge Hbrk'].
  assert (Hsane1 : pool_sane pool w1).
  { unfold pool_sane. repeat split; try done; lia. }
  destruct (large_reuse 0 (large pool) p) as [l|].
  { eexists _, _, _. split; [reflexivity|].
    split; [by apply pool_sane_set_large|]. split; [lia|]. split; done. }
  destruct (palloc_small_sane fuel pool sizeof_ngx_pool_large_t w1 Hsane1)
    as (lg & pool2 & w2 & Hpa & Hsane2 & Hbrk2 & Hlim2 & Hnn2).
  { unfold sizeof_ngx_pool_large_t in *. lia. }
  rewrite Hpa. cbn.
  destruct (Z.eqb_spec lg NULL) as [El|El].
  - eexists _, _, _. split; [reflexivity|].
    split; [|split; [simpl; lia|split; [simpl; congruence|]]].
    + destruct Hsane2 as (? & ? & ? & ? & ?). by unfold pool_sane.
    + intros Hn. rewrite <- Hlim in Hn. by apply Hnn2 in Hn.
  - eexists _, _, _. split; [reflexivity|].
    split; [by apply pool_sane_set_large|]. split; [lia|]. split; [congruence|done].
Qed.

(** ** Blocks and large allocations lie apart *)

Lemma ngx_align_ptr_mod p k : 0 <= k -> ngx_align_ptr p (2 ^ k) mod 2 ^ k = 0.
Proof. intros Hk. rewrite ngx_align_ptr_pow2 by lia. apply Z.mod_mul. lia. Qed.

Lemma ngx_align_ptr_le p y k :
  0 <= k -> p <= y -> y mod 2 ^ k = 0 -> ngx_align_ptr p (2 ^ k) <= y.
Proof.
  intros Hk Hp Hy. rewrite ngx_align_ptr_pow2 by lia.
  assert (0 < 2 ^ k) as Hpos by (apply Z.pow_pos_nonneg; lia).
  pose proof (Z.div_mod y (2 ^ k) ltac:(lia)) as Hd. rewrite Hy in Hd.
  assert ((p + (2 ^ k - 1)) / 2 ^ k < y / 2 ^ k + 1); [|nia].
  apply Z.div_lt_upper_bound; [lia|nia].
Qed.

Lemma ngx_align_ptr_id p k :
  0 <= k -> p mod 2 ^ k = 0 -> ngx_align_ptr p (2 ^ k) = p.
Proof.
  intros Hk Hp. pose proof (ngx_align_ptr_ge p k Hk).
  pose proof (ngx_align_ptr_le p p k Hk ltac:(lia) Hp). lia.
Qed.

Lemma block_ok_mono top top' b : top <= top' -> block_ok top b -> block_ok top' b.
Proof. unfold block_ok. intros ? (? & ? & ? & ? & ? & ?). repeat split; lia. Qed.

Lemma large_ok_mono top top' exts exts' e :
  top <= top' ->
  (forall x, x ∈ exts' -> x ∈ exts \/ top <= x.1) ->
  large_ok top exts e -> large_ok top' exts' e.
Proof.
  intros Ht Hx [H|[H1 H2]]; [by left|right]. split; [lia|].
  intros x Hin. destruct (Hx x Hin) as [Ho|Hn]; [by apply H2|lia].
Qed.

Lemma palloc_search_apart aligned top size l m l' :
  0 <= size -> Forall (block_ok top) l ->
  palloc_search aligned size l = Some (m, l') ->
  Forall (block_ok top) l' /\ map extent l' = map extent l /\
  exists x, x ∈ map extent l /\ x.1 <= m /\ m + size <= x.2.
Proof.
  intros Hs. revert l'. induction l as [|a r IH]; simpl; intros l' Hl H; [discriminate|].
  apply Forall_cons in Hl as [Ha Hr].
  set (m0 := if aligned then ngx_align_ptr (d_last a) NGX_ALIGNMENT else d_last a) in *.
  assert (Hm0 : d_last a <= m0 <= d_end a).
  { destruct Ha as (_ & He & _ & Hl & _). subst m0. destruct aligned; [|lia].
    split; [apply (ngx_align_ptr_ge _ 3); lia|].
    apply (ngx_align_ptr_le _ _ 3); [lia|lia|exact He]. }
  destruct (Z.leb_spec size ((d_end a - m0) mod size_max)) as [Hfit|_].
  - injection H as <- <-.
    assert (Hle : (d_end a - m0) mod size_max <= d_end a - m0).
    { apply Z.mod_le; [lia|done]. }
    split; [|split; [done|]].
    + apply Forall_cons. split; [|done].
      destruct Ha as (? & ? & ? & ? & ? & ?). unfold block_ok. simpl.
      repeat split; lia.
    + exists (extent a). split; [apply elem_of_cons; by left|].
      destruct Ha as (_ & _ & _ & ? & _). unfold extent. simpl. lia.
  - destruct (palloc_search aligned size r) as [[x r']|]; [|discriminate].
    injection H as <- <-. destruct (IH r' Hr eq_refl) as (Hf & He & y & Hy & Hm).
    split; [by apply Forall_cons|]. split; [simpl; by f_equal|].
    exists y. split; [apply elem_of_cons; by right|done].
Qed.

Lemma block_walk_apart top l c :
  Forall (block_ok top) l ->
  Forall (block_ok top) (block_walk l c).1 /\
  map extent (block_walk l c).1 = map extent l.
Proof.
  revert c. induction l as [|a r IH]; intros c Hl; [done|].
  destruct r as [|q t]; [done|].
  rewrite block_walk_cons. cbv zeta. cbn [fst].
  apply Forall_cons in Hl as [Ha Hr].
  destruct (IH (if d_failed a >? 4 then d_self q else c) Hr) as [H1 H2].
  split; [by apply Forall_cons|].
  rewrite (map_cons extent (set_failed _ _)), H2. reflexivity.
Qed.

Lemma large_reuse_forall (Q : ngx_pool_large_t -> Prop) n l p l' :
  large_reuse n l p = Some l' ->
  Forall Q l -> (forall e, Q (set_alloc e p)) -> Forall Q l'.
Proof.
  intros H Hl Hp. revert n l' H. induction Hl as [|a r Ha Hr IH]; intros n l' H;
    simpl in H; [discriminate|].
  destruct (l_alloc a =? NULL).
  - injection H as <-. by apply Forall_cons.
  - destruct (n >? 3); [discriminate|].
    destruct (large_reuse (n + 1) r p) as [r'|] eqn:E; [|discriminate].
    injection H as <-. apply Forall_cons. split; [done|by apply (IH (n + 1))].
Qed.

Lemma pool_apart_update pool w l w' xs :
  pool_apart pool w -> brk w <= brk w' ->
  map extent l = map extent (blocks pool) ++ xs ->
  Forall (block_ok (brk w')) l ->
  (forall x, x ∈ xs -> brk w <= x.1) ->
  pool_apart (set_blocks pool l) w' /\
  large (set_blocks pool l) = large pool /\
  max (set_blocks pool l) = max pool /\
  blocks (set_blocks pool l) = l.
Proof.
  intros (Hmax & Hb & Hl) Hbrk He Hok Hxs.
  destruct l as [|b r]; [done|].
  unfold blocks in He. simpl in He. injection He as Hs He Hr.
  split; [|done]. unfold pool_apart, set_blocks, blocks. simpl.
  split; [by rewrite Hs, He|]. split; [done|].
  eapply Forall_impl; [exact Hl|]. intros e. apply large_ok_mono; [done|].
  intros x Hx. unfold blocks, extent in *. simpl. rewrite Hs, He, Hr in Hx.
  rewrite app_comm_cons in Hx. apply elem_of_app in Hx as [Hx|Hx]; [by left|].
  right. by apply Hxs.
Qed.

Lemma memalign_aligned k size w p w' :
  0 <= k -> ngx_memalign (2 ^ k) size w = (p, w') -> p mod 2 ^ k = 0.
Proof.
  intros Hk. unfold ngx_memalign. destruct (fits _ w); intros [= <- <-].
  - by apply ngx_align_ptr_mod.
  - apply Z.mod_0_l. apply Z.pow_nonzero; lia.
Qed.

Lemma pool_apart_mono pool w w' :
  pool_apart pool w -> brk w <= brk w' -> pool_apart pool w'.
Proof.
  intros (Hmax & Hb & Hl) Hbrk. split; [done|]. split.
  - eapply Forall_impl; [exact Hb|]. intros b. by apply block_ok_mono.
  - eapply Forall_impl; [exact Hl|]. intros e. apply large_ok_mono; [done|].
    intros x Hx. by left.
Qed.

(** The small path keeps blocks and large allocations apart, adds
    blocks only from fresh memory, and returns a pointer into a block. *)
Lemma small_path_apart aligned pool size w m pool' w' :
  pool_sane pool w -> pool_apart pool w -> 0 <= size <= max pool ->
  small_path aligned pool size w = Done (m, pool', w') ->
  pool_apart pool' w' /\ brk w <= brk w' /\
  large pool' = large pool /\ max pool' = max pool /\
  (exists xs, map extent (blocks pool') = map extent (blocks pool) ++ xs /\
              forall x, x ∈ xs -> brk w <= x.1) /\
  (0 < size -> m <> NULL -> in_block pool' m).
Proof.
  intros (Hb & Hm & Hp & Hc & Hl) Hapart Hsize H.
  pose proof Hapart as (Hmax & Hok & Hlg).
  unfold small_path in H.
  destruct (split_at_found _ _ Hc) as (pre & b & suf & Hs & Hbc). rewrite Hs in H.
  pose proof (split_at_app _ _ _ _ Hs) as Happ.
  pose proof Hok as Hok0. rewrite Happ in Hok. apply Forall_app in Hok as [Hok1 Hok2].
  destruct (palloc_search aligned size (b :: suf)) as [[m0 suf']|] eqn:Es.
  - injection H as <- <- <-.
    destruct (palloc_search_apart _ _ _ _ _ _ (proj1 Hsize) Hok2 Es)
      as (Hok' & Hext & x & Hx & Hx1 & Hx2).
    assert (Hmap : map extent (pre ++ suf') = map extent (blocks pool) ++ []).
    { by rewrite Happ, !map_app, Hext, app_nil_r. }
    destruct (pool_apart_update pool w (pre ++ suf') w [] Hapart ltac:(lia) Hmap)
      as (Ha' & Hlg' & Hmax' & Hbl').
    { by apply Forall_app. }
    { intros y Hy. by apply elem_of_nil in Hy. }
    split; [done|]. split; [lia|]. split; [done|]. split; [done|]. split.
    + exists []. rewrite Hbl'. split; [done|]. intros y Hy. by apply elem_of_nil in Hy.
    + intros Hpos _. exists x. rewrite Hbl', Hmap, app_nil_r, Happ, map_app.
      split; [apply elem_of_app; by right|lia].
  - unfold ngx_palloc_block in H.
    destruct (ngx_memalign NGX_POOL_ALIGNMENT _ w) as [a w1] eqn:Ea.
    pose proof (memalign_aligned 4 _ _ _ _ ltac:(lia) Ea) as Hal.
    apply (memalign_spec 4) in Ea as (Hlim & _ & Hbrk & Hnull & Hnn); [|lia|lia|lia].
    destruct (Z.eqb_spec a NULL) as [Ez|Ez].
    + injection H as <- <- <-. split; [by apply (pool_apart_mono pool w)|].
      split; [lia|]. split; [done|]. split; [done|]. split; [|done].
      exists []. rewrite app_nil_r. split; [done|].
      intros y Hy. by apply elem_of_nil in Hy.
    + rewrite Hs in H. destruct (Hnn Ez) as [Hge Hbrk'].
      pose proof (block_walk_apart (brk w) (b :: suf) (current pool) Hok2) as [Hw1 Hw2].
      destruct (block_walk (b :: suf) (current pool)) as [suf' c] eqn:Ew.
      cbn [fst snd] in *. injection H as <- <- <-.
      assert (Hfirst : block_ok (brk w) (d pool)).
      { unfold blocks in Hok0. by apply Forall_cons in Hok0 as [? _]. }
      destruct Hfirst as (Hf1 & Hf2 & Hf3 & Hf4 & Hf5 & Hf6).
      unfold NGX_ALIGNMENT, sizeof_ngx_pool_t in Hf1, Hf2, Hf6, Hmax.
      assert (Hm' : ngx_align_ptr (a + sizeof_ngx_pool_data_t) NGX_ALIGNMENT
                    = a + sizeof_ngx_pool_data_t).
      { apply (ngx_align_ptr_id _ 3); [lia|].
        unfold sizeof_ngx_pool_data_t. change (2 ^ 4) with 16 in Hal.
        change (2 ^ 3) with 8. clear -Hal. Z.to_euclidean_division_equations. lia. }
      rewrite Hm'. unfold sizeof_ngx_pool_data_t.
      set (psize := d_end (d pool) - d_self (d pool)) in *.
      set (new := mk_data a (a + 32 + size) (a + psize) 0).
      assert (Hnew : block_ok (brk w1) new).
      { unfold block_ok, new, NGX_ALIGNMENT, sizeof_ngx_pool_t. simpl.
        change (2 ^ 4) with 16 in Hal. unfold NULL in Ez.
        repeat split; try lia.
        - clear -Hal. Z.to_euclidean_division_equations. lia.
        - clear -Hal Hf1 Hf2. subst psize. Z.to_euclidean_division_equations. lia. }
      assert (Hmap : map extent (pre ++ suf' ++ [new])
                     = map extent (blocks pool) ++ [(a, a + psize)]).
      { rewrite Happ, !map_app, Hw2, <- app_assoc. reflexivity. }
      destruct (pool_apart_update pool w (pre ++ suf' ++ [new]) w1 [(a, a + psize)]
                  Hapart ltac:(lia) Hmap) as (Ha' & Hlg' & Hmax' & Hbl').
      { apply Forall_app. split.
        - eapply Forall_impl; [exact Hok1|]. intros y. apply block_ok_mono. lia.
        - apply Forall_app. split; [|by apply Forall_singleton].
          eapply Forall_impl; [exact Hw1|]. intros y. apply block_ok_mono. lia. }
      { intros y Hy. apply list_elem_of_singleton in Hy as ->. simpl. lia. }
      split; [done|]. split; [lia|]. split; [done|]. split; [done|]. split.
      * exists [(a, a + psize)]. cbn [blocks set_current d d_next] in *.
        split; [by rewrite <- Hmap, <- Hbl'|].
        intros y Hy. apply list_elem_of_singleton in Hy as ->. simpl. lia.
      * intros _ _. exists (a, a + psize). split; [|simpl; lia].
        replace (blocks (set_current _ _))
          with (blocks (set_blocks pool (pre ++ suf' ++ [new]))) by done.
        rewrite Hbl', Hmap. apply elem_of_app. right. by apply list_elem_of_singleton.
Qed.

Lemma pool_ok_world pool w w' :
  pool_ok pool w -> brk w <= brk w' -> pool_ok pool w'.
Proof.
  intros [(Hb & Hs) Ha] Hbrk. split; [|by apply (pool_apart_mono pool w)].
  split; [lia|done].
Qed.

Lemma extent_below pool w x :
  pool_apart pool w -> x ∈ map extent (blocks pool) -> 0 < x.1 /\ x.2 <= brk w.
Proof.
  intros (_ & Hb & _) Hx. apply list_elem_of_fmap in Hx as (b & -> & Hin).
  rewrite Forall_forall in Hb. destruct (Hb b Hin) as (_ & _ & ? & _ & ? & _).
  done.
Qed.

Lemma in_block_grows pool pool' xs q :
  map extent (blocks pool') = map extent (blocks pool) ++ xs ->
  in_block pool q -> in_block pool' q.
Proof.
  intros He (x & Hx & Hq). exists x. split; [|done].
  rewrite He. apply elem_of_app. by left.
Qed.

Lemma small_path_ok aligned pool size w m pool' w' :
  pool_ok pool w -> 0 <= size <= max pool ->
  small_path aligned pool size w = Done (m, pool', w') ->
  pool_ok pool' w' /\ brk w <= brk w' /\
  large pool' = large pool /\ max pool' = max pool /\
  (exists xs, map extent (blocks pool') = map extent (blocks pool) ++ xs /\
              forall x, x ∈ xs -> brk w <= x.1) /\
  (0 < size -> m <> NULL -> in_block pool' m).
Proof.
  intros [Hsane Hapart] Hsize H.
  destruct (small_path_apart _ _ _ _ _ _ _ Hsane Hapart Hsize H)
    as (Ha & Hbrk & Hrest).
  destruct (small_path_sane aligned pool size w Hsane (proj1 Hsize))
    as (m2 & pool2 & w2 & H2 & Hs2 & _).
  rewrite H in H2. injection H2 as <- <- <-. done.
Qed.

Lemma ngx_palloc_large_eq fuel pool size w :
  ngx_palloc_large (S fuel) pool size w =
  let '(p, w) := ngx_alloc size w in
  if p =? NULL then Done (NULL, pool, w)
  else
    match large_reuse 0 (large pool) p with
    | Some l => Done (p, set_large pool l, w)
    | None => push_large fuel pool p w
    end.
Proof. reflexivity. Qed.

Lemma ngx_pmemalign_eq fuel pool size alignment w :
  ngx_pmemalign fuel pool size alignment w =
  let '(p, w) := ngx_memalign alignment size w in
  if p =? NULL then Done (NULL, pool, w) else push_large fuel pool p w.
Proof. reflexivity. Qed.

Lemma ngx_pnalloc_eq fuel pool size w :
  ngx_pnalloc fuel pool size w =
  if size <=? max pool then small_path false pool size w
  else ngx_palloc_large fuel pool size w.
Proof. reflexivity. Qed.

(** An allocation in fresh memory, entered in the large list. *)
Lemma push_large_ok fuel pool p w m pool' w' :
  pool_ok pool w -> p < brk w ->
  (forall x, x ∈ map extent (blocks pool) -> x.2 <= p) ->
  push_large fuel pool p w = Done (m, pool', w') ->
  pool_ok pool' w' /\ brk w <= brk w' /\ max pool' = max pool /\
  exists xs, map extent (blocks pool') = map extent (blocks pool) ++ xs /\
             forall x, x ∈ xs -> brk w <= x.1.
Proof.
  intros Hok Hp Hout H. pose proof Hok as [(Hb & Hm & _) _].
  destruct fuel as [|fuel]; [done|]. unfold push_large in H.
  rewrite ngx_palloc_small in H by done.
  apply res_bind_done in H as ([[lg pool2] w2] & Hsm & H).
  assert (H16 : 0 <= sizeof_ngx_pool_large_t <= max pool)
    by (unfold sizeof_ngx_pool_large_t in *; lia).
  destruct (small_path_ok _ _ _ _ _ _ _ Hok H16 Hsm)
    as (Hok2 & Hbrk2 & Hlg2 & Hmax2 & (xs & Hxs & Hnew) & _).
  destruct (lg =? NULL); injection H as <- <- <-.
  - split; [by apply (pool_ok_world pool2 w2)|]. split; [done|]. split; [done|].
    by exists xs.
  - split; [|split; [done|split; [done|by exists xs]]].
    destruct Hok2 as [Hs2 (Hmax & Hbl & Hl)].
    split; [by apply pool_sane_set_large|].
    split; [done|]. split; [done|].
    change (Forall (large_ok (brk w2) (map extent (blocks pool2)))
              (mk_large lg p :: large pool2)).
    apply Forall_cons. split; [|done]. right. cbn [l_alloc]. split; [lia|].
    intros x Hx. rewrite Hxs in Hx. apply elem_of_app in Hx as [Hx|Hx].
    + specialize (Hout x Hx). lia.
    + specialize (Hnew x Hx). lia.
Qed.

Lemma palloc_large_ok fuel pool size w m pool' w' :
  pool_ok pool w -> max pool < size ->
  ngx_palloc_large fuel pool size w = Done (m, pool', w') ->
  pool_ok pool' w' /\ brk w <= brk w' /\ max pool' = max pool /\
  exists xs, map extent (blocks pool') = map extent (blocks pool) ++ xs /\
             forall x, x ∈ xs -> brk w <= x.1.
Proof.
  intros Hok Hsize H. pose proof Hok as [(Hb & Hm & Hsane) Hapart].
  destruct fuel as [|fuel]; [done|]. rewrite ngx_palloc_large_eq in H.
  unfold ngx_alloc in H.
  destruct (ngx_memalign NGX_POOL_ALIGNMENT size w) as [p w1] eqn:Ea.
  unfold sizeof_ngx_pool_large_t in Hm.
  apply (memalign_spec 4) in Ea as (Hlim & _ & Hbrk & Hnull & Hnn); [|lia|lia|lia].
  assert (Hok1 : pool_ok pool w1) by by apply (pool_ok_world pool w).
  destruct (Z.eqb_spec p NULL) as [Ez|Ez].
  { injection H as <- <- <-. split; [done|]. split; [done|]. split; [done|].
    exists []. rewrite app_nil_r. split; [done|]. intros x Hx. by apply elem_of_nil in Hx. }
  destruct (Hnn Ez) as [Hge Hbrk'].
  assert (Hout : forall x, x ∈ map extent (blocks pool) -> x.2 <= p).
  { intros x Hx. destruct (extent_below pool w x Hapart Hx). lia. }
  destruct (large_reuse 0 (large pool) p) as [l|] eqn:Er.
  - injection H as <- <- <-. split; [|split; [done|split; [done|]]].
    + destruct Hok1 as [Hs1 (Hmax1 & Hbl1 & Hl1)].
      split; [by apply pool_sane_set_large|]. split; [done|]. split; [done|].
      change (Forall (large_ok (brk w1) (map extent (blocks pool))) l).
      apply (large_reuse_forall _ _ _ _ _ Er Hl1). intros e. right.
      cbn [set_alloc l_alloc]. split; [lia|]. intros x Hx.
      specialize (Hout x Hx). lia.
    + exists []. rewrite app_nil_r. split; [done|].
      intros x Hx. by apply elem_of_nil in Hx.
  - assert (Hlt : p < brk w1) by lia.
    destruct (push_large_ok _ _ _ _ _ _ _ Hok1 Hlt Hout H)
      as (Hok' & Hbrk2 & Hmax' & xs & Hxs & Hnew).
    split; [done|]. split; [lia|]. split; [done|]. exists xs. split; [done|].
    intros x Hx. specialize (Hnew x Hx). lia.
Qed.

(** ngx_palloc keeps the pool, and its small path returns pointers into
    a block. *)
Lemma palloc_ok fuel pool size w m pool' w' :
  pool_ok pool w -> 0 <= size ->
  ngx_palloc fuel pool size w = Done (m, pool', w') ->
  pool_ok pool' w' /\ brk w <= brk w' /\ max pool' = max pool /\
  (exists xs, map extent (blocks pool') = map extent (blocks pool) ++ xs /\
              forall x, x ∈ xs -> brk w <= x.1) /\
  (0 < size <= max pool -> m <> NULL -> in_block pool' m).
Proof.
  intros Hok Hsize H. destruct fuel as [|fuel]; [done|].
  destruct (Z.leb_spec size (max pool)) as [Hle|Hgt].
  - rewrite ngx_palloc_small in H by done.
    destruct (small_path_ok _ _ _ _ _ _ _ Hok ltac:(done) H)
      as (Hok' & Hbrk & _ & Hmax & Hext & Hin).
    split; [done|]. split; [done|]. split; [done|]. split; [done|].
    intros [Hpos _]. by apply Hin.
  - cbn [ngx_palloc] in H. destruct (Z.leb_spec size (max pool)); [lia|].
    destruct (palloc_large_ok _ _ _ _ _ _ _ Hok Hgt H) as (Hok' & Hbrk & Hmax & Hext).
    split; [done|]. split; [done|]. split; [done|]. split; [done|]. lia.
Qed.

Lemma pnalloc_ok fuel pool size w m pool' w' :
  pool_ok pool w -> 0 <= size ->
  ngx_pnalloc fuel pool size w = Done (m, pool', w') ->
  pool_ok pool' w' /\ brk w <= brk w' /\ max pool' = max pool /\
  (exists xs, map extent (blocks pool') = map extent (blocks pool) ++ xs /\
              forall x, x ∈ xs -> brk w <= x.1) /\
  (0 < size <= max pool -> m <> NULL -> in_block pool' m).
Proof.
  intros Hok Hsize H. rewrite ngx_pnalloc_eq in H.
  destruct (Z.leb_spec size (max pool)) as [Hle|Hgt].
  - destruct (small_path_ok _ _ _ _ _ _ _ Hok ltac:(done) H)
      as (Hok' & Hbrk & _ & Hmax & Hext & Hin).
    split; [done|]. split; [done|]. split; [done|]. split; [done|].
    intros [Hpos _]. by apply Hin.
  - destruct (palloc_large_ok _ _ _ _ _ _ _ Hok Hgt H) as (Hok' & Hbrk & Hmax & Hext).
    split; [done|]. split; [done|]. split; [done|]. split; [done|]. lia.
Qed.

Lemma pmemalign_ok fuel pool size k w m pool' w' :
  pool_ok pool w -> 0 < size -> 0 <= k ->
  ngx_pmemalign fuel pool size (2 ^ k) w = Done (m, pool', w') ->
  pool_ok pool' w' /\ brk w <= brk w' /\ max pool' = max pool /\
  exists xs, map extent (blocks pool') = map extent (blocks pool) ++ xs /\
             forall x, x ∈ xs -> brk w <= x.1.
Proof.
  intros Hok Hsize Hk H. pose proof Hok as [(Hb & _) Hapart].
  rewrite ngx_pmemalign_eq in H.
  destruct (ngx_memalign (2 ^ k) size w) as [p w1] eqn:Ea.
  apply (memalign_spec k) in Ea as (Hlim & _ & Hbrk & Hnull & Hnn); [|lia|lia|lia].
  assert (Hok1 : pool_ok pool w1) by by apply (pool_ok_world pool w).
  destruct (Z.eqb_spec p NULL) as [Ez|Ez].
  { injection H as <- <- <-. split; [done|]. split; [done|]. split; [done|].
    exists []. rewrite app_nil_r. split; [done|]. intros x Hx. by apply elem_of_nil in Hx. }
  destruct (Hnn Ez) as [Hge Hbrk'].
  assert (Hout : forall x, x ∈ map extent (blocks pool) -> x.2 <= p).
  { intros x Hx. destruct (extent_below pool w x Hapart Hx). lia. }
  assert (Hlt : p < brk w1) by lia.
  destruct (push_large_ok _ _ _ _ _ _ _ Hok1 Hlt Hout H)
    as (Hok' & Hbrk2 & Hmax' & xs & Hxs & Hnew).
  split; [done|]. split; [lia|]. split; [done|]. exists xs. split; [done|].
  intros x Hx. specialize (Hnew x Hx). lia.
Qed.

Lemma pfree_ok pool p w :
  pool_ok pool w ->
  pool_ok (ngx_pfree pool p w).1.2 (ngx_pfree pool p w).2 /\
  blocks (ngx_pfree pool p w).1.2 = blocks pool /\
  brk (ngx_pfree pool p w).2 = brk w.
Proof.
  intros [Hsane (Hmax & Hb & Hl)]. unfold ngx_pfree.
  destruct (pfree_walk (large pool) p) as [l'|] eqn:E; cbn [fst snd]; [|done].
  apply pfree_walk_some in E as (l1 & e & l2 & Hl0 & _ & _ & ->).
  split; [|done]. split.
  - apply pool_sane_set_large. destruct Hsane as (? & ?). by split.
  - split; [done|]. split; [done|].
    change (Forall (large_ok (brk w) (map extent (blocks pool)))
              (l1 ++ mk_large (l_self e) NULL :: l2)).
    rewrite Hl0 in Hl. apply Forall_app in Hl as [H1 H2].
    apply Forall_cons in H2 as [_ H2].
    apply Forall_app. split; [done|]. apply Forall_cons. split; [by left|done].
Qed.

Lemma reset_pool_ok pool w :
  pool_ok pool w -> pool_ok (ngx_reset_pool pool w).1 (ngx_reset_pool pool w).2.
Proof.
  intros [(Hb & Hm & Hp & Hc & Hl) (Hmax & Hbl & _)].
  unfold ngx_reset_pool. cbn [fst snd]. rewrite free_large_trace.
  assert (Hreset : forall b, block_ok (brk w) b ->
            block_ok (brk w) (reset_block b) /\ 0 < d_last (reset_block b)).
  { intros b (? & ? & ? & ? & ? & ?). unfold block_ok, reset_block. simpl.
    unfold sizeof_ngx_pool_t in *. repeat split; lia. }
  unfold blocks in *. apply Forall_cons in Hbl as [Hb0 Hbr].
  split.
  - split; [done|]. split; [done|]. split; [done|]. cbn. split.
    + apply elem_of_cons. by left.
    + apply Forall_cons. split; [by apply Hreset|].
      apply Forall_fmap. eapply Forall_impl; [exact Hbr|]. intros b Hb1.
      by apply Hreset.
  - split; [done|]. cbn. split; [|by apply Forall_nil].
    apply Forall_cons. split; [by apply Hreset|].
    apply Forall_fmap. eapply Forall_impl; [exact Hbr|]. intros b Hb1.
    by apply Hreset.
Qed.

(** ngx_create_pool makes such a pool, when the size leaves room for an
    entry of the large list and keeps the end aligned. *)
Lemma create_pool_ok size lg w pool w' :
  0 < brk w ->
  sizeof_ngx_pool_t + sizeof_ngx_pool_large_t <= size < size_max ->
  size mod NGX_ALIGNMENT = 0 ->
  ngx_create_pool size lg w = (Some pool, w') ->
  pool_ok pool w'.
Proof.
  intros Hb Hsize Hal H. unfold ngx_create_pool in H.
  destruct (ngx_memalign NGX_POOL_ALIGNMENT size w) as [p w1] eqn:Ea.
  pose proof (memalign_aligned 4 _ _ _ _ ltac:(lia) Ea) as Hp16.
  change (2 ^ 4) with 16 in Hp16.
  unfold sizeof_ngx_pool_t, sizeof_ngx_pool_large_t, NGX_ALIGNMENT in *.
  apply (memalign_spec 4) in Ea as (_ & _ & Hbrk & _ & Hnn); [|lia|lia|lia].
  destruct (Z.eqb_spec p NULL) as [Ez|Ez]; [done|].
  destruct (Hnn Ez) as [Hge Hbrk']. injection H as <- <-.
  rewrite Z.mod_small by lia.
  set (mx := if size - 80 <? NGX_MAX_ALLOC_FROM_POOL then size - 80
             else NGX_MAX_ALLOC_FROM_POOL).
  assert (Hmx : 16 <= mx <= size - 80).
  { subst mx. unfold NGX_MAX_ALLOC_FROM_POOL, ngx_pagesize.
    destruct (Z.ltb_spec (size - 80) (4096 - 1)); lia. }
  assert (Hblock : block_ok (brk w1) (mk_data p (p + 80) (p + size) 0)).
  { unfold block_ok, NGX_ALIGNMENT, sizeof_ngx_pool_t. simpl.
    repeat split; try lia.
    - clear -Hp16. Z.to_euclidean_division_equations. lia.
    - clear -Hp16 Hal. Z.to_euclidean_division_equations. lia. }
  split.
  - unfold pool_sane, blocks, sizeof_ngx_pool_large_t. simpl.
    split; [lia|]. split; [lia|]. split; [lia|].
    split; [apply elem_of_cons; by left|]. apply Forall_singleton. simpl. lia.
  - unfold pool_apart, blocks, sizeof_ngx_pool_t. simpl.
    split; [lia|]. split; [by apply Forall_singleton|apply Forall_nil_2].
Qed.

(** A pointer into a block is not on the large list. *)
Lemma in_block_not_tracked pool w p :
  pool_apart pool w -> in_block pool p ->
  Forall (fun e => l_alloc e <> p) (large pool).
Proof.
  intros Hapart (x & Hx & Hp). pose proof Hapart as (_ & _ & Hl).
  destruct (extent_below pool w x Hapart Hx) as [Hpos _].
  eapply Forall_impl; [exact Hl|]. intros e [He|[_ He]] E.
  - unfold NULL in He. lia.
  - apply (He x Hx). lia.
Qed.

(** Calls keep the pool, and a pointer into a block stays one. *)
Lemma pool_step_ok fuel pool w c pool' w' :
  pool_ok pool w -> call_ok c ->
  pool_step fuel pool w c = Done (pool', w') ->
  pool_ok pool' w' /\ forall q, in_block pool q -> in_block pool' q.
Proof.
  intros Hok Hc H. destruct c as [size|size|size al|p|]; cbn [pool_step call_ok] in *.
  - apply res_bind_done in H as ([[m pool1] w1] & Hp & [= <- <-]).
    destruct (palloc_ok _ _ _ _ _ _ _ Hok Hc Hp) as (Hok' & _ & _ & (xs & Hxs & _) & _).
    split; [done|]. intros q. by apply (in_block_grows pool pool1 xs).
  - apply res_bind_done in H as ([[m pool1] w1] & Hp & [= <- <-]).
    destruct (pnalloc_ok _ _ _ _ _ _ _ Hok Hc Hp) as (Hok' & _ & _ & (xs & Hxs & _) & _).
    split; [done|]. intros q. by apply (in_block_grows pool pool1 xs).
  - destruct Hc as (Hsize & k & Hk & ->).
    apply res_bind_done in H as ([[m pool1] w1] & Hp & [= <- <-]).
    destruct (pmemalign_ok _ _ _ _ _ _ _ _ Hok Hsize Hk Hp)
      as (Hok' & _ & _ & xs & Hxs & _).
    split; [done|]. intros q. by apply (in_block_grows pool pool1 xs).
  - destruct (pfree_ok pool p w Hok) as (Hok' & Hbl & _).
    destruct (ngx_pfree pool p w) as [[rc pool1] w1]. injection H as <- <-.
    cbn [fst snd] in *. split; [done|]. intros q (x & Hx & Hq). exists x.
    by rewrite Hbl.
  - assert (E : ngx_reset_pool pool w = (pool', w')) by congruence.
    pose proof (reset_pool_ok pool w Hok) as Hok'.
    rewrite E in Hok'. cbn [fst snd] in Hok'. split; [done|].
    intros q (x & Hx & Hq). exists x. split; [|done].
    unfold ngx_reset_pool in E. injection E as <- _.
    unfold blocks in *. cbn. rewrite map_map. exact Hx.
Qed.

Lemma pool_run_ok fuel cs : forall pool w pool' w',
  pool_ok pool w -> Forall call_ok cs ->
  pool_run fuel pool w cs = Done (pool', w') ->
  pool_ok pool' w' /\ forall q, in_block pool q -> in_block pool' q.
Proof.
  induction cs as [|c cs IH]; intros pool w pool' w' Hok Hcs H.
  - by injection H as <- <-.
  - apply Forall_cons in Hcs as [Hc Hcs]. cbn [pool_run] in H.
    apply res_bind_done in H as ([pool1 w1] & Hstep & H).
    destruct (pool_step_ok _ _ _ _ _ _ Hok Hc Hstep) as [Hok1 Hin1].
    destruct (IH _ _ _ _ Hok1 Hcs H) as [Hok' Hin'].
    split; [done|]. intros q Hq. by apply Hin', Hin1.
Qed.

(** ** ngx_pfree (C7) *)

(** C7, as the code has it: ngx_pfree returns NGX_OK exactly when an entry
    of the large list has [alloc = p]; then the first such entry gets
    [alloc = NULL], [p] is handed to ngx_free and nothing else changes.
    For every other pointer it returns NGX_DECLINED and leaves pool and
    allocator as they were.  The pointers of the small path are among the
    other pointers under two conditions that the code does not check: a
    pointer that ngx_palloc or ngx_pnalloc returned for a size above 0
    and up to [max], on a pool whose blocks are aligned and lie apart
    from its large allocations ([pool_ok]), is declined, also after any
    further allocations, frees and resets of the pool; and so is every
    pointer into a block of a pool whose blocks and large allocations lie
    apart. *)
Theorem pfree_freed_iff_tracked pool p w :
  ((ngx_pfree pool p w).1.1 = NGX_OK \/ (ngx_pfree pool p w).1.1 = NGX_DECLINED) /\
  ((ngx_pfree pool p w).1.1 = NGX_OK <-> exists e, e ∈ large pool /\ l_alloc e = p) /\
  ((ngx_pfree pool p w).1.1 = NGX_OK ->
     exists l1 e l2,
       large pool = l1 ++ e :: l2 /\ Forall (fun x => l_alloc x <> p) l1 /\
       l_alloc e = p /\
       ngx_pfree pool p w =
         (NGX_OK, set_large pool (l1 ++ mk_large (l_self e) NULL :: l2),
          ngx_free p w)) /\
  ((ngx_pfree pool p w).1.1 = NGX_DECLINED ->
     ngx_pfree pool p w = (NGX_DECLINED, pool, w)) /\
  (forall fuel pool0 w0 size pool1 w1 cs,
     pool_ok pool0 w0 -> 0 < size <= max pool0 ->
     ngx_palloc fuel pool0 size w0 = Done (p, pool1, w1) \/
     ngx_pnalloc fuel pool0 size w0 = Done (p, pool1, w1) ->
     p <> NULL ->
     Forall call_ok cs -> pool_run fuel pool1 w1 cs = Done (pool, w) ->
     ngx_pfree pool p w = (NGX_DECLINED, pool, w)) /\
  (pool_apart pool w -> in_block pool p ->
   ngx_pfree pool p w = (NGX_DECLINED, pool, w)).
Proof.
  assert (Hin : pool_apart pool w -> in_block pool p ->
                ngx_pfree pool p w = (NGX_DECLINED, pool, w)).
  { intros Hapart Hp. unfold ngx_pfree.
    pose proof (in_block_not_tracked pool w p Hapart Hp) as Hno.
    apply pfree_walk_none in Hno. by rewrite Hno. }
  assert (Hsmall : forall fuel pool0 w0 size pool1 w1 cs,
     pool_ok pool0 w0 -> 0 < size <= max pool0 ->
     ngx_palloc fuel pool0 size w0 = Done (p, pool1, w1) \/
     ngx_pnalloc fuel pool0 size w0 = Done (p, pool1, w1) ->
     p <> NULL ->
     Forall call_ok cs -> pool_run fuel pool1 w1 cs = Done (pool, w) ->
     ngx_pfree pool p w = (NGX_DECLINED, pool, w)).
  { intros fuel pool0 w0 size pool1 w1 cs Hok Hsize Hp Hnn Hcs Hrun.
    assert (Hs0 : 0 <= size) by lia.
    assert (Hok1 : pool_ok pool1 w1 /\ in_block pool1 p).
    { destruct Hp as [Hp|Hp].
      - destruct (palloc_ok _ _ _ _ _ _ _ Hok Hs0 Hp) as (? & _ & _ & _ & Hb).
        split; [done|by apply Hb].
      - destruct (pnalloc_ok _ _ _ _ _ _ _ Hok Hs0 Hp) as (? & _ & _ & _ & Hb).
        split; [done|by apply Hb]. }
    destruct Hok1 as [Hok1 Hin1].
    destruct (pool_run_ok _ _ _ _ _ _ Hok1 Hcs Hrun) as [[_ Hapart] Hgrow].
    apply Hin; [done|by apply Hgrow]. }
  unfold ngx_pfree in *. destruct (pfree_walk (large pool) p) as [l'|] eqn:E; simpl.
  - apply pfree_walk_some in E as (l1 & e & l2 & Hl & Hf & He & ->).
    split; [by left|]. split; [|split; [|split; [discriminate|by split]]].
    + split; [|done]. intros _. exists e. split; [|done].
      rewrite Hl. apply elem_of_app. right. apply elem_of_cons. by left.
    + intros _. by exists l1, e, l2.
  - apply pfree_walk_none in E.
    split; [by right|]. split; [|split; [discriminate|split; [done|by split]]].
    split; [discriminate|]. intros (e & Hin' & He).
    rewrite Forall_forall in E. by specialize (E e Hin').
Qed.

(** The theorem on a pool of 256 bytes: the pointer of a small
    allocation of 32 bytes is declined after two more allocations, a
    large one among them, and a free of the large one. *)
Lemma pfree_freed_iff_tracked_witness :
  exists pool0 w0 m pool1 w1 pool w,
    ngx_create_pool 256 NULL world0 = (Some pool0, w0) /\
    ngx_palloc 3 pool0 32 w0 = Done (m, pool1, w1) /\ m <> NULL /\
    pool_run 3 pool1 w1 [Palloc 4096; Palloc 160; Pfree 4352] = Done (pool, w) /\
    ngx_pfree pool 4352 w = (NGX_DECLINED, pool, w) /\
    ngx_pfree pool m w = (NGX_DECLINED, pool, w).
Proof.
  let r0 := eval vm_compute in (ngx_create_pool 256 NULL world0) in
  match r0 with
  | (Some ?pool0, ?w0) =>
    let r1 := eval vm_compute in (ngx_palloc 3 pool0 32 w0) in
    match r1 with
    | Done (?m, ?pool1, ?w1) =>
      let r2 := eval vm_compute in
        (pool_run 3 pool1 w1 [Palloc 4096; Palloc 160; Pfree 4352]) in
      match r2 with
      | Done (?pool, ?w) =>
        assert (Hc : ngx_create_pool 256 NULL world0 = (Some pool0, w0))
          by (vm_compute; reflexivity);
        assert (Hok : pool_ok pool0 w0);
        [ apply (create_pool_ok 256 NULL world0 pool0 w0);
          [ vm_compute; reflexivity | vm_compute; split; [discriminate|reflexivity]
          | reflexivity | exact Hc ]
        | destruct (pfree_freed_iff_tracked pool m w) as (_ & _ & _ & _ & H5 & _);
          exists pool0, w0, m, pool1, w1, pool, w;
          split; [exact Hc|];
          split; [vm_compute; reflexivity|];
          split; [vm_compute; discriminate|];
          split; [vm_compute; reflexivity|];
          split; [vm_compute; reflexivity|];
          apply (H5 3%nat pool0 w0 32 pool1 w1 [Palloc 4096; Palloc 160; Pfree 4352] Hok) ]
      end
    end
  end.
  - vm_compute. split; [reflexivity|discriminate].
  - left. vm_compute. reflexivity.
  - vm_compute. discriminate.
  - repeat (apply Forall_cons; split; [vm_compute; try done; try discriminate|]).
    apply Forall_nil_2.
  - vm_compute. reflexivity.
Defined.

End PoolFacts.

Section RadixFacts.

Import Pool PoolSpec Radix RadixSpec.

(** ** The radix tree *)

Lemma bit_of_S i : Z.shiftr (bit_of i) 1 = bit_of (S i).
Proof.
  unfold bit_of. rewrite Z.shiftr_shiftr by lia. f_equal. lia.
Qed.

Lemma bit_of_ge_32 i : (32 <= i)%nat -> bit_of i = 0.
Proof.
  intros H. unfold bit_of. apply Z.shiftr_eq_0; [lia|].
  change (Z.log2 2147483648) with 31. lia.
Qed.

Lemma child_key_bit key i n : child key (bit_of i) n = child_of (key_bit key i) n.
Proof. unfold child, key_bit, child_of. by destruct (Z.land key (bit_of i) =? 0). Qed.

Lemma key_path_S key n : key_path key (S n) = key_path key n ++ [key_bit key n].
Proof. unfold key_path, key_seg. by rewrite seq_S, map_app. Qed.

Lemma key_path_length key n : length (key_path key n) = n.
Proof. unfold key_path, key_seg. by rewrite length_map, length_seq. Qed.

(** [first_clear] finds the first clear bit. *)
Lemma first_clear_bounds n i mask :
  (i <= first_clear n i mask <= i + n)%nat.
Proof.
  revert i. induction n as [|n IH]; intros i; simpl; [lia|].
  destruct (Z.land (bit_of i) mask =? 0); [lia|].
  specialize (IH (S i)). lia.
Qed.

Lemma first_clear_set n i mask j :
  (i <= j < first_clear n i mask)%nat -> Z.land (bit_of j) mask <> 0.
Proof.
  revert i. induction n as [|n IH]; intros i; simpl; [lia|].
  destruct (Z.eqb_spec (Z.land (bit_of i) mask) 0) as [E|E]; [lia|].
  intros H. destruct (decide (j = i)) as [->|Hne]; [done|].
  apply (IH (S i)). lia.
Qed.

Lemma first_clear_clear n i mask :
  (first_clear n i mask < i + n)%nat ->
  Z.land (bit_of (first_clear n i mask)) mask = 0.
Proof.
  revert i. induction n as [|n IH]; intros i; simpl; [lia|].
  destruct (Z.eqb_spec (Z.land (bit_of i) mask) 0) as [E|E]; [done|].
  intros H. apply IH. lia.
Qed.

Lemma prefix_len_le mask : (prefix_len mask <= 32)%nat.
Proof. pose proof (first_clear_bounds 32 0 mask). unfold prefix_len. lia. Qed.

Lemma prefix_len_set mask j :
  (j < prefix_len mask)%nat -> (Z.land (bit_of j) mask =? 0) = false.
Proof.
  intros H. apply Z.eqb_neq. apply (first_clear_set 32 0). unfold prefix_len in H. lia.
Qed.

Lemma prefix_len_clear mask :
  (Z.land (bit_of (prefix_len mask)) mask =? 0) = true.
Proof.
  apply Z.eqb_eq. pose proof (prefix_len_le mask) as Hle.
  destruct (decide (prefix_len mask = 32%nat)) as [E|E].
  - rewrite E. reflexivity.
  - apply first_clear_clear. unfold prefix_len in *. lia.
Qed.

(** ** Deleting at a root without children

    C9: on a tree whose root has no children, ngx_radix32tree_delete with
    mask 0 stops its traversal at the root, enters the detach loop with
    the root as [node], and the first statement of the loop reads
    [node->parent->right] through the null parent of the root. *)
Theorem delete_leaf_root_null_parent fuel st key n :
  root (tree st) <> NULL ->
  mem st !! root (tree st) = Some n ->
  n_left n = NULL -> n_right n = NULL -> n_parent n = NULL ->
  ngx_radix32tree_delete (S fuel) st key 0 = Segv NULL /\
  delete_prune (S fuel) st (root (tree st)) = Segv NULL.
Proof.
  intros Hr Hn Hl Hrt Hp.
  assert (Hload : load (mem st) (root (tree st)) = Done n).
  { unfold load. destruct (root (tree st) =? NULL) eqn:E; [lia|]. by rewrite Hn. }
  assert (Hprune : delete_prune (S fuel) st (root (tree st)) = Segv NULL).
  { cbn [delete_prune]. rewrite Hload. cbn. rewrite Hp. reflexivity. }
  split; [|exact Hprune].
  unfold ngx_radix32tree_delete. cbn [delete_descend].
  rewrite Z.land_0_r. cbn [Z.eqb]. rewrite orb_true_r. cbn.
  destruct (root (tree st) =? NULL) eqn:E; [lia|].
  rewrite Hload. cbn. rewrite Hl, Hrt. cbn.
  rewrite Hp. reflexivity.
Qed.

(** The theorem on a tree created without preallocation. *)
Lemma delete_leaf_root_null_parent_witness :
  exists st,
    empty_tree = Done (Some st) /\
    ngx_radix32tree_delete 1 st 0xC0A80000 0 = Segv NULL /\
    delete_prune 1 st (root (tree st)) = Segv NULL.
Proof.
  let r := eval vm_compute in empty_tree in
  match r with
  | Done (Some ?st) =>
      exists st; split; [vm_compute; reflexivity|];
      match eval vm_compute in (mem st !! root (tree st)) with
      | Some ?n => apply (delete_leaf_root_null_parent 0 st 0xC0A80000 n)
      end
  end.
  - vm_compute. discriminate.
  - vm_compute. reflexivity.
  - reflexivity.
  - reflexivity.
  - reflexivity.
Defined.

(** ** Walking down *)

Lemma insert_descend_eq fuel m key mask bit node next :
  insert_descend fuel m key mask bit node next =
  if Z.land bit mask =? 0 then Done (bit, node, next)
  else
    match fuel with
    | O => OutOfFuel
    | S fuel =>
        n ← load m node;
        let next := child key bit n in
        if next =? NULL then Done (bit, node, next)
        else insert_descend fuel m key mask (Z.shiftr bit 1) next next
    end.
Proof. by destruct fuel. Qed.

Lemma delete_descend_eq fuel m key mask bit node :
  delete_descend fuel m key mask bit node =
  if (node =? NULL) || (Z.land bit mask =? 0) then Done node
  else
    match fuel with
    | O => OutOfFuel
    | S fuel =>
        n ← load m node;
        delete_descend fuel m key mask (Z.shiftr bit 1) (child key bit n)
    end.
Proof. by destruct fuel. Qed.

Lemma load_done m p n : load m p = Done n <-> p <> NULL /\ m !! p = Some n.
Proof.
  unfold load. destruct (Z.eqb_spec p NULL) as [E|E].
  - split; [discriminate|tauto].
  - destruct (m !! p); split; intros H; try tauto; try discriminate.
    + by inversion H.
    + destruct H as [_ H]. by inversion H.
    + destruct H. discriminate.
Qed.

Lemma node_at_nil m p : node_at m p [] = match load m p with Done _ => Some p | _ => None end.
Proof. reflexivity. Qed.

Lemma node_at_cons m p b path :
  node_at m p (b :: path) =
  match load m p with Done n => node_at m (child_of b n) path | _ => None end.
Proof. reflexivity. Qed.

Lemma node_at_null m path : node_at m NULL path = None.
Proof. by destruct path. Qed.

Lemma node_at_some_load m p path a :
  node_at m p path = Some a -> exists n, load m a = Done n.
Proof.
  revert p. induction path as [|b path IH]; intros p H.
  - rewrite node_at_nil in H. destruct (load m p) eqn:E; inversion H; subst. eauto.
  - rewrite node_at_cons in H. destruct (load m p); try discriminate. eauto.
Qed.

Lemma node_at_app m p path1 path2 :
  node_at m p (path1 ++ path2) =
  match node_at m p path1 with
  | Some q => node_at m q path2
  | None => None
  end.
Proof.
  revert p. induction path1 as [|b path1 IH]; intros p.
  - simpl app. rewrite node_at_nil. destruct (load m p) eqn:E; [done| |].
    + destruct path2; simpl; by rewrite E.
    + destruct path2; simpl; by rewrite E.
  - simpl app. rewrite !node_at_cons. destruct (load m p); [apply IH|done|done].
Qed.

Section Descend.

Variables (m : gmap Z ngx_radix_node_t) (key mask : Z).

Lemma insert_descend_reaches fuel i node next b' node' next' n' :
  insert_descend fuel m key mask (bit_of i) node next = Done (b', node', next') ->
  (i <= prefix_len mask)%nat ->
  next' <> NULL -> load m node' = Done n' ->
  b' = bit_of (prefix_len mask) /\
  node_at m node (key_seg key i (prefix_len mask - i)) = Some node'.
Proof.
  revert i node next. induction fuel as [|fuel IH]; intros i node next H Hi Hnx Hld;
    rewrite insert_descend_eq in H.
  - destruct (Z.land (bit_of i) mask =? 0) eqn:E; [|discriminate].
    inversion H; subst.
    assert (i = prefix_len mask) as ->.
    { destruct (decide (i = prefix_len mask)); [done|].
      rewrite prefix_len_set in E by lia. discriminate. }
    split; [done|]. rewrite Nat.sub_diag. unfold key_seg. simpl seq. simpl map.
    by rewrite node_at_nil, Hld.
  - destruct (Z.land (bit_of i) mask =? 0) eqn:E.
    + inversion H; subst.
      assert (i = prefix_len mask) as ->.
      { destruct (decide (i = prefix_len mask)); [done|].
        rewrite prefix_len_set in E by lia. discriminate. }
      split; [done|]. rewrite Nat.sub_diag. unfold key_seg. simpl seq. simpl map.
      by rewrite node_at_nil, Hld.
    + assert (i < prefix_len mask)%nat as Hlt.
      { destruct (decide (i = prefix_len mask)) as [->|]; [|lia].
        rewrite prefix_len_clear in E. discriminate. }
      destruct (load m node) as [n| |] eqn:El; try discriminate.
      cbn in H. destruct (child key (bit_of i) n =? NULL) eqn:Ec.
      * inversion H; subst. apply Z.eqb_eq in Ec. done.
      * rewrite bit_of_S in H. apply IH in H as [-> H]; [|lia|done|done].
        split; [done|].
        replace (prefix_len mask - i)%nat with (S (prefix_len mask - S i)) by lia.
        unfold key_seg in *. simpl seq. simpl map. rewrite node_at_cons, El.
        by rewrite <- child_key_bit.
Qed.

Lemma insert_descend_found fuel i node next a :
  (i <= prefix_len mask)%nat -> (prefix_len mask - i <= fuel)%nat ->
  node_at m node (key_seg key i (prefix_len mask - i)) = Some a ->
  next <> NULL ->
  exists next',
    insert_descend fuel m key mask (bit_of i) node next =
      Done (bit_of (prefix_len mask), a, next') /\ next' <> NULL.
Proof.
  revert i node next. induction fuel as [|fuel IH]; intros i node next Hi Hf Ha Hnx;
    rewrite insert_descend_eq.
  - assert (i = prefix_len mask) as -> by lia.
    rewrite prefix_len_clear. rewrite Nat.sub_diag in Ha.
    unfold key_seg in Ha. simpl in Ha. destruct (load m node); inversion Ha; subst.
    by exists next.
  - destruct (decide (i = prefix_len mask)) as [->|Hne].
    + rewrite prefix_len_clear. rewrite Nat.sub_diag in Ha.
      unfold key_seg in Ha. simpl in Ha. destruct (load m node); inversion Ha; subst.
      by exists next.
    + rewrite prefix_len_set by lia.
      replace (prefix_len mask - i)%nat with (S (prefix_len mask - S i)) in Ha by lia.
      unfold key_seg in Ha. simpl seq in Ha. simpl map in Ha.
      rewrite node_at_cons in Ha. destruct (load m node) as [n| |] eqn:El; try discriminate.
      cbn. rewrite child_key_bit.
      destruct (child_of (key_bit key i) n =? NULL) eqn:Ec.
      * apply Z.eqb_eq in Ec. rewrite Ec, node_at_null in Ha. discriminate.
      * rewrite bit_of_S. apply IH; [lia|lia|exact Ha|]. by apply Z.eqb_neq.
Qed.

End Descend.

Lemma insert_extend_eq fuel n st key mask bit node :
  insert_extend fuel n st key mask bit node =
  if Z.land bit mask =? 0 then Done (Some node, st)
  else
    match n with
    | O => OutOfFuel
    | S n =>
        '(next, st) ← ngx_radix_alloc fuel st;
        if next =? NULL then Done (None, st)
        else
          let m := <[next := mk_node NULL NULL node NGX_RADIX_NO_VALUE]> (mem st) in
          m ← (if negb (Z.land key bit =? 0) then store_right m node next
               else store_left m node next);
          insert_extend fuel n (set_mem st m) key mask (Z.shiftr bit 1) next
    end.
Proof. by destruct n. Qed.

(** The shape of ngx_radix32tree_insert after its first loop. *)
Lemma insert_after_descend fuel st key mask value bit node next :
  insert_descend fuel (mem st) key mask 0x80000000 (root (tree st)) (root (tree st))
    = Done (bit, node, next) ->
  ngx_radix32tree_insert fuel st key mask value =
  if negb (next =? NULL) then
    n ← load (mem st) node;
    if negb (n_value n =? NGX_RADIX_NO_VALUE) then Done (NGX_BUSY, st)
    else m ← store_value (mem st) node value; Done (NGX_OK, set_mem st m)
  else
    '(r, st) ← insert_extend fuel fuel st key mask bit node;
    match r with
    | None => Done (NGX_ERROR, st)
    | Some node => m ← store_value (mem st) node value; Done (NGX_OK, set_mem st m)
    end.
Proof. intros H. unfold ngx_radix32tree_insert. rewrite H. reflexivity. Qed.

Lemma insert_extend_not_busy fuel st key mask value bit node st' :
  ('(r, st) ← insert_extend fuel fuel st key mask bit node;
   match r with
   | None => Done (NGX_ERROR, st)
   | Some node => m ← store_value (mem st) node value; Done (NGX_OK, set_mem st m)
   end) <> Done (NGX_BUSY, st').
Proof.
  destruct (insert_extend fuel fuel st key mask bit node) as [[[nd|] s]| |]; cbn; try done.
  destruct (store_value (mem s) nd value); cbn; done.
Qed.

(** C5: ngx_radix32tree_insert returns NGX_BUSY exactly when the node at
    the path of the prefix exists and holds a value other than
    NGX_RADIX_NO_VALUE, and then the state is the one it was called in;
    when that node exists without a value, the value is stored in it and
    NGX_OK is returned. *)
Theorem insert_busy_iff_valued fuel st key mask value :
  (32 <= fuel)%nat ->
  (forall st',
      ngx_radix32tree_insert fuel st key mask value = Done (NGX_BUSY, st') <->
      st' = st /\
      exists a n,
        node_at (mem st) (root (tree st)) (prefix_path key mask) = Some a /\
        mem st !! a = Some n /\ n_value n <> NGX_RADIX_NO_VALUE) /\
  (forall a n,
      node_at (mem st) (root (tree st)) (prefix_path key mask) = Some a ->
      mem st !! a = Some n -> n_value n = NGX_RADIX_NO_VALUE ->
      ngx_radix32tree_insert fuel st key mask value =
        Done (NGX_OK,
              set_mem st (<[a := mk_node (n_right n) (n_left n) (n_parent n) value]>
                            (mem st)))).
Proof.
  intros Hfuel.
  assert (Hfound : forall a n,
    node_at (mem st) (root (tree st)) (prefix_path key mask) = Some a ->
    mem st !! a = Some n ->
    ngx_radix32tree_insert fuel st key mask value =
      if negb (n_value n =? NGX_RADIX_NO_VALUE) then Done (NGX_BUSY, st)
      else Done (NGX_OK,
              set_mem st (<[a := mk_node (n_right n) (n_left n) (n_parent n) value]>
                            (mem st)))).
  { intros a n Ha Hn.
    assert (Hroot : root (tree st) <> NULL).
    { intros E. rewrite E, node_at_null in Ha. discriminate. }
    pose proof (prefix_len_le mask) as Hle.
    destruct (insert_descend_found (mem st) key mask fuel 0 (root (tree st))
                (root (tree st)) a) as (next' & Hd & Hnx); [lia|lia| |done|].
    { by rewrite Nat.sub_0_r. }
    rewrite (insert_after_descend _ _ _ _ _ _ _ _ Hd).
    destruct (next' =? NULL) eqn:E; [lia|]. cbn [negb].
    destruct (node_at_some_load _ _ _ _ Ha) as [n0 Hl].
    pose proof Hl as Hl'. apply load_done in Hl' as [_ Hl']. rewrite Hn in Hl'.
    inversion Hl'; subst n0. rewrite Hl. cbn.
    destruct (n_value n =? NGX_RADIX_NO_VALUE); cbn; [|done].
    unfold store_value. rewrite Hl. reflexivity. }
  split.
  - intros st'. split.
    + intros H. unfold ngx_radix32tree_insert in H.
      apply res_bind_done in H as ([[bit node] next] & Hd & H).
      destruct (next =? NULL) eqn:E; cbn [negb] in H.
      { by apply insert_extend_not_busy in H. }
      apply res_bind_done in H as (n & Hl & H).
      apply (insert_descend_reaches _ _ _ _ 0 _ _ _ _ _ n) in Hd as [_ Hd];
        [|lia|lia|done].
      rewrite Nat.sub_0_r in Hd.
      destruct (n_value n =? NGX_RADIX_NO_VALUE) eqn:Ev; cbn [negb] in H.
      { destruct (store_value (mem st) node value); cbn in H; discriminate. }
      inversion H; subst. split; [done|]. apply load_done in Hl as [_ Hl].
      exists node, n. repeat split; try done. lia.
    + intros (-> & a & n & Ha & Hn & Hv). rewrite (Hfound a n Ha Hn).
      destruct (n_value n =? NGX_RADIX_NO_VALUE) eqn:Ev; [lia|done].
  - intros a n Ha Hn Hv. rewrite (Hfound a n Ha Hn), Hv, Z.eqb_refl. done.
Qed.


(** The theorem on the tree of scenario S4: inserting 192.168/16 again. *)
Lemma insert_busy_iff_valued_witness :
  exists st,
    one_prefix = Done (NGX_OK, st) /\
    ngx_radix32tree_insert 32 st 0xC0A80000 0xFFFF0000 7 = Done (NGX_BUSY, st).
Proof.
  let r := eval vm_compute in one_prefix in
  match r with
  | Done (_, ?st) =>
      exists st; split; [vm_compute; reflexivity|];
      apply (proj1 (insert_busy_iff_valued 32 st 0xC0A80000 0xFFFF0000 7
                      ltac:(lia)));
      split; [reflexivity|];
      match eval vm_compute in
        (node_at (mem st) (root (tree st)) (prefix_path 0xC0A80000 0xFFFF0000)) with
      | Some ?a =>
          match eval vm_compute in (mem st !! a) with
          | Some ?n => exists a, n
          end
      end
  end.
  split; [vm_compute; reflexivity|]. split; [vm_compute; reflexivity|].
  vm_compute. discriminate.
Defined.

(** ** Masks that are not contiguous (C10) *)

Lemma cidr_mask_bits_check :
  forallb (fun l => forallb (fun i =>
      Bool.eqb (Z.land (bit_of i) (cidr_mask l) =? 0) (negb (i <? l)%nat))
    (seq 0 33)) (seq 0 33) = true.
Proof. vm_compute. reflexivity. Qed.

Lemma cidr_mask_bits l i :
  (l <= 32)%nat -> (i <= 32)%nat ->
  (Z.land (bit_of i) (cidr_mask l) =? 0) = negb (i <? l)%nat.
Proof.
  intros Hl Hi. pose proof cidr_mask_bits_check as H.
  rewrite List.forallb_forall in H.
  specialize (H l ltac:(apply in_seq; lia)).
  rewrite List.forallb_forall in H.
  specialize (H i ltac:(apply in_seq; lia)).
  by apply Bool.eqb_prop in H.
Qed.

Lemma prefix_len_cidr_mask l : (l <= 32)%nat -> prefix_len (cidr_mask l) = l.
Proof.
  intros Hl. pose proof (prefix_len_le (cidr_mask l)) as Hle.
  pose proof (prefix_len_clear (cidr_mask l)) as Hc.
  rewrite cidr_mask_bits in Hc by lia.
  destruct (decide (prefix_len (cidr_mask l) = l)) as [|Hne]; [done|].
  assert (l < prefix_len (cidr_mask l))%nat as Hlt.
  { apply negb_true_iff, Nat.ltb_ge in Hc. lia. }
  pose proof (prefix_len_set (cidr_mask l) l Hlt) as Hs.
  rewrite cidr_mask_bits in Hs by lia.
  apply negb_false_iff, Nat.ltb_lt in Hs. lia.
Qed.

Lemma same_prefix_high_run mask : same_prefix mask (high_run mask).
Proof.
  intros i Hi. pose proof (prefix_len_le mask) as Hle. unfold high_run.
  rewrite cidr_mask_bits by lia.
  destruct (decide (i = prefix_len mask)) as [->|Hne].
  - rewrite prefix_len_clear. symmetry. apply negb_true_iff, Nat.ltb_ge. lia.
  - rewrite prefix_len_set by lia. symmetry. apply negb_false_iff, Nat.ltb_lt. lia.
Qed.

Section SameMask.

Variables (m1 m2 : Z).
Hypothesis Hsame : same_prefix m1 m2.

Lemma same_prefix_step i :
  (i <= prefix_len m1)%nat -> (Z.land (bit_of i) m1 =? 0) = false ->
  (S i <= prefix_len m1)%nat.
Proof.
  intros Hi E. destruct (decide (i = prefix_len m1)) as [->|]; [|lia].
  rewrite prefix_len_clear in E. discriminate.
Qed.

Lemma insert_descend_same fuel m key i node next :
  (i <= prefix_len m1)%nat ->
  insert_descend fuel m key m1 (bit_of i) node next =
  insert_descend fuel m key m2 (bit_of i) node next.
Proof.
  revert i node next. induction fuel as [|fuel IH]; intros i node next Hi;
    rewrite !(insert_descend_eq _ _ _ _ (bit_of i)), <- (Hsame i Hi);
    destruct (Z.land (bit_of i) m1 =? 0) eqn:E; try reflexivity.
  destruct (load m node) as [n| |]; cbn; try reflexivity.
  destruct (child key (bit_of i) n =? NULL); [reflexivity|].
  rewrite bit_of_S. apply IH. by apply same_prefix_step.
Qed.

Lemma insert_descend_depth fuel m key i node next b' node' next' :
  insert_descend fuel m key m1 (bit_of i) node next = Done (b', node', next') ->
  (i <= prefix_len m1)%nat ->
  exists j, (j <= prefix_len m1)%nat /\ b' = bit_of j.
Proof.
  revert i node next. induction fuel as [|fuel IH]; intros i node next H Hi;
    rewrite insert_descend_eq in H;
    destruct (Z.land (bit_of i) m1 =? 0) eqn:E; try discriminate;
    try (inversion H; subst; by exists i).
  destruct (load m node) as [n| |]; cbn in H; try discriminate.
  destruct (child key (bit_of i) n =? NULL).
  - inversion H; subst. by exists i.
  - rewrite bit_of_S in H. eapply IH; [exact H|]. by apply same_prefix_step.
Qed.

Lemma insert_extend_same fuel n st key i node :
  (i <= prefix_len m1)%nat ->
  insert_extend fuel n st key m1 (bit_of i) node =
  insert_extend fuel n st key m2 (bit_of i) node.
Proof.
  revert i st node. induction n as [|n IH]; intros i st node Hi;
    rewrite !(insert_extend_eq _ _ _ _ _ (bit_of i)), <- (Hsame i Hi);
    destruct (Z.land (bit_of i) m1 =? 0) eqn:E; try reflexivity.
  destruct (ngx_radix_alloc fuel st) as [[next st1]| |]; cbn; try reflexivity.
  destruct (next =? NULL); [reflexivity|].
  destruct (if negb (Z.land key (bit_of i) =? 0) then _ else _) as [mm| |];
    cbn; try reflexivity.
  rewrite bit_of_S. apply IH. by apply same_prefix_step.
Qed.

Lemma delete_descend_same fuel m key i node :
  (i <= prefix_len m1)%nat ->
  delete_descend fuel m key m1 (bit_of i) node =
  delete_descend fuel m key m2 (bit_of i) node.
Proof.
  revert i node. induction fuel as [|fuel IH]; intros i node Hi;
    rewrite !(delete_descend_eq _ _ _ _ (bit_of i)), <- (Hsame i Hi);
    (destruct (Z.land (bit_of i) m1 =? 0) eqn:E;
     [by rewrite orb_true_r | rewrite orb_false_r]);
    destruct (node =? NULL); try reflexivity.
  destruct (load m node) as [n| |]; cbn; try reflexivity.
  rewrite bit_of_S. apply IH. by apply same_prefix_step.
Qed.

Lemma insert_same fuel st key value :
  ngx_radix32tree_insert fuel st key m1 value =
  ngx_radix32tree_insert fuel st key m2 value.
Proof.
  unfold ngx_radix32tree_insert. change 2147483648 with (bit_of 0).
  rewrite <- insert_descend_same by lia.
  destruct (insert_descend fuel (mem st) key m1 (bit_of 0) (root (tree st))
              (root (tree st))) as [[[b node] next]| |] eqn:E; cbn; try reflexivity.
  destruct (next =? NULL); [|reflexivity]. cbn [negb].
  apply insert_descend_depth in E as (j & Hj & ->); [|lia].
  by rewrite insert_extend_same.
Qed.

Lemma delete_same fuel st key :
  ngx_radix32tree_delete fuel st key m1 = ngx_radix32tree_delete fuel st key m2.
Proof.
  unfold ngx_radix32tree_delete. change 2147483648 with (bit_of 0).
  by rewrite <- delete_descend_same by lia.
Qed.

End SameMask.


(** ** Paths under updates of the memory *)

Lemma node_at_snoc_some m r path b a n :
  node_at m r path = Some a -> m !! a = Some n ->
  child_of b n <> NULL -> is_Some (m !! child_of b n) ->
  node_at m r (path ++ [b]) = Some (child_of b n).
Proof.
  intros Ha Hn Hc [n' Hn']. rewrite node_at_app, Ha, node_at_cons.
  destruct (node_at_some_load _ _ _ _ Ha) as [n0 Hl]. rewrite Hl.
  apply load_done in Hl as [_ Hl]. rewrite Hn in Hl. inversion Hl; subst n0.
  rewrite node_at_nil. by rewrite (proj2 (load_done m _ n') (conj Hc Hn')).
Qed.

Lemma node_at_snoc_inv m r path b c :
  node_at m r (path ++ [b]) = Some c ->
  exists a n, node_at m r path = Some a /\ m !! a = Some n /\
              child_of b n = c /\ c <> NULL /\ is_Some (m !! c).
Proof.
  rewrite node_at_app. destruct (node_at m r path) as [a|] eqn:Ha; [|done].
  rewrite node_at_cons. destruct (load m a) as [n| |] eqn:Hl; try done.
  rewrite node_at_nil. destruct (load m (child_of b n)) as [n'| |] eqn:Hl'; try done.
  intros H. inversion H; subst. apply load_done in Hl as [_ Hl].
  apply load_done in Hl' as [Hc Hl']. exists a, n. eauto.
Qed.

Lemma node_at_nil_inv m r c : node_at m r [] = Some c <-> c = r /\ r <> NULL /\ is_Some (m !! r).
Proof.
  rewrite node_at_nil. destruct (load m r) as [n| |] eqn:Hl.
  - apply load_done in Hl as [Hr Hm]. split.
    + intros H. inversion H; subst. split; [done|]. split; [done|]. by exists n.
    + intros (-> & _ & _). done.
  - split; [done|]. intros (-> & Hr & [n Hn]).
    by rewrite (proj2 (load_done m _ n) (conj Hr Hn)) in Hl.
  - split; [done|]. intros (-> & Hr & [n Hn]).
    by rewrite (proj2 (load_done m _ n) (conj Hr Hn)) in Hl.
Qed.

Lemma node_at_some_mem m r path a :
  node_at m r path = Some a -> a <> NULL /\ is_Some (m !! a).
Proof.
  intros H. destruct (node_at_some_load _ _ _ _ H) as [n Hl].
  apply load_done in Hl as [? ?]. eauto.
Qed.

(** Nodes with the same links at the same addresses give the same paths. *)
Lemma node_at_same_links m m' r path :
  (forall a, match m !! a, m' !! a with
             | Some n, Some n' => n_left n = n_left n' /\ n_right n = n_right n'
             | None, None => True
             | _, _ => False
             end) ->
  node_at m' r path = node_at m r path.
Proof.
  intros H. revert r. induction path as [|b path IH]; intros r.
  - rewrite !node_at_nil. unfold load. destruct (r =? NULL); [done|].
    specialize (H r). revert H.
    destruct (m !! r), (m' !! r); simpl; intros; (reflexivity || contradiction).
  - rewrite !node_at_cons. unfold load. destruct (r =? NULL); [done|].
    specialize (H r). revert H.
    destruct (m !! r) as [n|], (m' !! r) as [n'|]; simpl;
      try (intros; (reflexivity || contradiction)).
    intros [Hl Hr]. unfold child_of. destruct b; rewrite ?Hl, ?Hr; apply IH.
Qed.

Lemma free_chain_agree m m' p l :
  (forall a, a ∈ l -> m' !! a = m !! a) ->
  free_chain m p l -> free_chain m' p l.
Proof.
  revert p. induction l as [|x l IH]; intros p Hag; simpl; [done|].
  intros (-> & Hx & n & Hn & Hc). split; [done|]. split; [done|].
  exists n. split.
  - rewrite Hag; [done|]. apply elem_of_cons. by left.
  - apply IH; [|done]. intros a Ha. apply Hag. apply elem_of_cons. by right.
Qed.

Lemma free_chain_fun m p l1 l2 :
  free_chain m p l1 -> free_chain m p l2 -> l1 = l2.
Proof.
  revert p l2. induction l1 as [|x l1 IH]; intros p [|y l2]; simpl.
  - done.
  - intros -> (-> & Hy & _). done.
  - intros (-> & Hx & _) ->. done.
  - intros (-> & Hx & n & Hn & Hc) (<- & _ & n' & Hn' & Hc').
    rewrite Hn in Hn'. inversion Hn'; subst n'. f_equal. by eapply IH.
Qed.

(** Storing a value in a node keeps the tree. *)
Lemma store_value_inv st a n v pa :
  tree_inv st -> mem st !! a = Some n ->
  node_at (mem st) (root (tree st)) pa = Some a ->
  let st' := set_mem st (<[a := mk_node (n_right n) (n_left n) (n_parent n) v]> (mem st)) in
  tree_inv st' /\
  (forall path, node_at (mem st') (root (tree st')) path =
                node_at (mem st) (root (tree st)) path) /\
  (forall path,
      value_at (mem st') (root (tree st')) path =
      if decide (node_at (mem st) (root (tree st)) path = Some a) then v
      else value_at (mem st) (root (tree st)) path).
Proof.
  intros Hinv Hn Hpa st'.
  assert (Hsame : forall path r, node_at (mem st') r path = node_at (mem st) r path).
  { intros path r. apply node_at_same_links. intros x. simpl.
    destruct (decide (x = a)) as [->|Hne].
    - rewrite lookup_insert_eq, Hn. done.
    - rewrite lookup_insert_ne by done. by destruct (mem st !! x). }
  assert (Hlook : forall x nx, mem st' !! x = Some nx ->
            exists nx0, mem st !! x = Some nx0 /\ n_left nx = n_left nx0 /\
                        n_right nx = n_right nx0 /\ n_parent nx = n_parent nx0 /\
                        (x <> a -> nx = nx0)).
  { intros x nx. simpl. destruct (decide (x = a)) as [->|Hne].
    - rewrite lookup_insert_eq. intros H; inversion H; subst. exists n. done.
    - rewrite lookup_insert_ne by done. intros H. exists nx. done. }
  assert (Hdom : forall x, is_Some (mem st' !! x) <-> is_Some (mem st !! x)).
  { intros x. simpl. destruct (decide (x = a)) as [->|Hne].
    - rewrite lookup_insert_eq, Hn. split; eauto.
    - by rewrite lookup_insert_ne. }
  split; [|split; [intros; apply Hsame|]].
  - destruct Hinv as [Hroot Hclosed Hinj Hpar Hdepth Hfree Hd Hslab Hpool].
    constructor; simpl tree; simpl os; simpl pool.
    + destruct Hroot as (nr & Hl & Hp). apply load_done in Hl as [Hr Hl].
      destruct (decide (root (tree st) = a)) as [E|E].
      * exists (mk_node (n_right n) (n_left n) (n_parent n) v). split.
        -- apply load_done. split; [done|]. simpl. rewrite E. apply lookup_insert_eq.
        -- simpl. rewrite E in Hl. rewrite Hn in Hl. by inversion Hl; subst.
      * exists nr. split; [|done]. apply load_done. split; [done|].
        simpl. by rewrite lookup_insert_ne.
    + intros path x nx b Hx Hnx Hc. rewrite Hsame in Hx.
      destruct (Hlook x nx Hnx) as (nx0 & Hnx0 & Hl & Hr & _).
      apply Hdom. assert (child_of b nx = child_of b nx0) as E.
      { unfold child_of. by destruct b. }
      rewrite E in *. by eapply Hclosed.
    + intros p1 p2 x. rewrite !Hsame. apply Hinj.
    + intros path b x nx Hx Hnx. rewrite Hsame in *.
      destruct (Hlook x nx Hnx) as (nx0 & Hnx0 & _ & _ & -> & _). by eapply Hpar.
    + intros path x. rewrite Hsame. apply Hdepth.
    + destruct Hfree as (l & Hc & Hnd & Hun). exists l. split; [|split; [done|]].
      * apply (free_chain_agree (mem st)); [|done]. intros x Hx. simpl.
        rewrite lookup_insert_ne; [done|]. intros ->.
        by apply (Hun x pa).
      * intros x path Hx. rewrite Hsame. by apply Hun.
    + intros x Hx. apply Hd. by apply Hdom.
    + intros Hs. destruct (Hslab Hs) as (? & ? & Hlt). repeat split; try done.
      intros x Hx. apply Hlt. by apply Hdom.
    + done.
  - intros path. unfold value_at. rewrite Hsame. simpl tree.
    destruct (node_at (mem st) (root (tree st)) path) as [x|] eqn:Hx.
    + destruct (decide (x = a)) as [->|Hne].
      * rewrite decide_True by done. simpl. by rewrite lookup_insert_eq.
      * rewrite decide_False by congruence. simpl. by rewrite lookup_insert_ne.
    + by rewrite decide_False.
Qed.

Lemma child_of_with_child b b' c n :
  child_of b (with_child b' c n) = if decide (b = b') then c else child_of b n.
Proof. by destruct b, b'. Qed.

(** Linking a fresh leaf below a node. *)
Lemma attach_leaf st pa b a na x :
  tree_inv st ->
  node_at (mem st) (root (tree st)) pa = Some a ->
  mem st !! a = Some na -> child_of b na = NULL ->
  (length pa < 32)%nat ->
  x <> NULL ->
  (forall path, node_at (mem st) (root (tree st)) path <> Some x) ->
  (forall l, free_chain (mem st) (free (tree st)) l -> x ∉ l) ->
  0 < x < brk (os st) ->
  (sizeof_ngx_radix_node_t <= size (tree st) -> x < start (tree st)) ->
  let m' := <[a := with_child b x na]>
              (<[x := mk_node NULL NULL a NGX_RADIX_NO_VALUE]> (mem st)) in
  tree_inv (set_mem st m') /\
  (forall path c,
      node_at m' (root (tree st)) path = Some c <->
      node_at (mem st) (root (tree st)) path = Some c \/
      (path = pa ++ [b] /\ c = x)) /\
  (forall path,
      value_at m' (root (tree st)) path = value_at (mem st) (root (tree st)) path).
Proof.
  intros Hinv Hpa Hna Hcb Hlen Hx0 Hxun Hxfree Hxbrk Hxslab m'.
  destruct Hinv as [Hroot Hclosed Hinj Hpar Hdepth Hfree Hd Hslab Hpool].
  set (r := root (tree st)) in *. set (m := mem st) in *.
  assert (Hxa : x <> a) by (intros ->; by apply (Hxun pa)).
  assert (Hma : m' !! a = Some (with_child b x na)) by apply lookup_insert_eq.
  assert (Hmx : m' !! x = Some (mk_node NULL NULL a NGX_RADIX_NO_VALUE)).
  { unfold m'. rewrite lookup_insert_ne by done. apply lookup_insert_eq. }
  assert (Hmo : forall y, y <> a -> y <> x -> m' !! y = m !! y).
  { intros y H1 H2. unfold m'. by rewrite !lookup_insert_ne. }
  assert (Hdom : forall y, is_Some (m !! y) -> is_Some (m' !! y)).
  { intros y Hy. destruct (decide (y = a)) as [->|H1]; [by rewrite Hma|].
    destruct (decide (y = x)) as [->|H2]; [by rewrite Hmx|]. by rewrite Hmo. }
  assert (Hchar : forall path c,
      node_at m' r path = Some c <->
      node_at m r path = Some c \/ (path = pa ++ [b] /\ c = x)).
  { induction path as [|d p IH] using rev_ind; intros c.
    - rewrite !node_at_nil_inv. split.
      + intros (-> & Hr & Hs). left. repeat split; try done.
        destruct Hroot as (nr & Hl & _). apply load_done in Hl as [_ Hl]. eauto.
      + intros [(-> & Hr & Hs)|[Hp _]]; [|by destruct pa].
        repeat split; try done. by apply Hdom.
    - split.
      + intros H. apply node_at_snoc_inv in H as (a0 & n0 & Ha0 & Hn0 & Hc & Hcn & Hcs).
        apply IH in Ha0 as [Ha0|[-> ->]].
        * destruct (decide (a0 = a)) as [->|Hne].
          -- rewrite Hma in Hn0. inversion Hn0; subst n0.
             rewrite child_of_with_child in Hc.
             pose proof (Hinj _ _ _ Ha0 Hpa) as ->.
             destruct (decide (d = b)) as [->|Hdb]; [right; done|].
             left. subst c. apply (node_at_snoc_some m r pa d a na); try done.
             by apply (Hclosed pa a na d).
          -- assert (a0 <> x) as Hne2 by (intros ->; by apply (Hxun p)).
             rewrite Hmo in Hn0 by done. left. subst c.
             apply (node_at_snoc_some m r p d a0 n0); try done.
             by apply (Hclosed p a0 n0 d).
        * rewrite Hmx in Hn0. inversion Hn0; subst n0. by destruct d.
      + intros [H|[Hp ->]].
        * apply node_at_snoc_inv in H as (a0 & n0 & Ha0 & Hn0 & Hc & Hcn & Hcs).
          assert (node_at m' r p = Some a0) as Ha0' by (apply IH; by left).
          destruct (decide (a0 = a)) as [->|Hne].
          -- rewrite Hna in Hn0. inversion Hn0; subst n0.
             assert (d <> b) as Hdb by (intros ->; congruence).
             subst c. replace (child_of d na) with (child_of d (with_child b x na))
               by (rewrite child_of_with_child; by rewrite decide_False).
             apply (node_at_snoc_some m' r p d a); try done.
             ++ rewrite child_of_with_child. by rewrite decide_False.
             ++ rewrite child_of_with_child, decide_False by done. by apply Hdom.
          -- assert (a0 <> x) as Hne2 by (intros ->; by apply (Hxun p)).
             subst c. apply (node_at_snoc_some m' r p d a0 n0); try done.
             ++ by rewrite Hmo.
             ++ by apply Hdom.
        * apply app_inj_tail in Hp as [-> ->].
          assert (node_at m' r pa = Some a) as Ha' by (apply IH; by left).
          replace x with (child_of b (with_child b x na))
            by (rewrite child_of_with_child; by rewrite decide_True).
          apply (node_at_snoc_some m' r pa b a); try done.
          -- rewrite child_of_with_child. by rewrite decide_True.
          -- rewrite child_of_with_child, decide_True by done. by rewrite Hmx. }
  assert (Hnew : node_at m r (pa ++ [b]) = None).
  { destruct (node_at m r (pa ++ [b])) as [c|] eqn:E; [|done].
    apply node_at_snoc_inv in E as (a0 & n0 & Ha0 & Hn0 & Hc & Hcn & _).
    rewrite Hpa in Ha0. inversion Ha0; subst a0. rewrite Hna in Hn0.
    inversion Hn0; subst n0. congruence. }
  split; [|split; [exact Hchar|]].
  - constructor; simpl tree; simpl os; simpl pool; simpl mem;
      fold r; fold m.
    + destruct Hroot as (nr & Hl & Hp). apply load_done in Hl as [Hr Hl].
      assert (r <> x) as Hrx.
      { intros E. apply (Hxun []). rewrite node_at_nil_inv. rewrite <- E. eauto. }
      destruct (decide (r = a)) as [E|E].
      * exists (with_child b x na).
        split; [apply load_done; split; [done|by rewrite E]|].
        rewrite E in Hl. fold m in Hl. rewrite Hna in Hl. inversion Hl; subst.
        by destruct b.
      * exists nr. split; [|done]. apply load_done. split; [done|by rewrite Hmo].
    + intros path y ny d Hy Hny Hc. apply Hchar in Hy as [Hy|[-> ->]].
      * destruct (decide (y = a)) as [->|Hne].
        -- rewrite Hma in Hny. inversion Hny; subst ny.
           rewrite child_of_with_child in *.
           destruct (decide (d = b)); [by rewrite Hmx|].
           apply Hdom. pose proof (Hinj _ _ _ Hy Hpa) as ->.
           by apply (Hclosed pa a na d).
        -- assert (y <> x) as Hne2 by (intros ->; by apply (Hxun path)).
           rewrite Hmo in Hny by done. apply Hdom. by apply (Hclosed path y ny d).
      * rewrite Hmx in Hny. inversion Hny; subst ny. by destruct d.
    + intros p1 p2 y H1 H2. apply Hchar in H1, H2.
      destruct H1 as [H1|[-> ->]], H2 as [H2|[-> E2]]; try done.
      * by eapply Hinj.
      * subst y. by apply Hxun in H1.
      * by apply Hxun in H2.
    + intros path d y ny Hy Hny. apply Hchar in Hy as [Hy|[Hp ->]].
      * apply Hchar. left.
        destruct (decide (y = a)) as [->|Hne].
        -- rewrite Hma in Hny. inversion Hny; subst ny.
           replace (n_parent (with_child b x na)) with (n_parent na) by (by destruct b).
           by apply (Hpar path d a na).
        -- assert (y <> x) as Hne2 by (intros ->; by apply (Hxun (path ++ [d]))).
           rewrite Hmo in Hny by done. by apply (Hpar path d y ny).
      * apply app_inj_tail in Hp as [-> ->]. rewrite Hmx in Hny.
        inversion Hny; subst ny. simpl. apply Hchar. by left.
    + intros path y Hy. apply Hchar in Hy as [Hy|[-> ->]]; [by eapply Hdepth|].
      rewrite length_app. simpl. lia.
    + destruct Hfree as (l & Hc & Hnd & Hun). exists l. split; [|split; [done|]].
      * apply (free_chain_agree m); [|done]. intros y Hy. apply Hmo.
        -- intros ->. by apply (Hun a pa).
        -- intros ->. by apply (Hxfree l).
      * intros y path Hy Hn. apply Hchar in Hn as [Hn|[-> ->]].
        -- by apply (Hun y path).
        -- by apply (Hxfree l).
    + intros y Hy. destruct (decide (y = x)) as [->|H2]; [done|].
      destruct (decide (y = a)) as [->|H1]; [apply Hd; by rewrite Hna|].
      rewrite Hmo in Hy by done. by apply Hd.
    + intros Hs. destruct (Hslab Hs) as (? & ? & Hlt). repeat split; try done.
      intros y Hy. destruct (decide (y = x)) as [->|H2]; [by apply Hxslab|].
      destruct (decide (y = a)) as [->|H1]; [apply Hlt; by rewrite Hna|].
      rewrite Hmo in Hy by done. by apply Hlt.
    + done.
  - intros path. unfold value_at.
    destruct (node_at m' r path) as [c|] eqn:E.
    + apply Hchar in E as [E|[-> ->]].
      * rewrite E. destruct (decide (c = a)) as [->|Hne].
        -- rewrite Hma, Hna. by destruct b.
        -- assert (c <> x) as Hne2 by (intros ->; by apply (Hxun path)).
           by rewrite Hmo.
      * by rewrite Hnew, Hmx.
    + destruct (node_at m r path) as [c|] eqn:E2; [|done].
      assert (node_at m' r path = Some c) as E3 by (apply Hchar; by left).
      congruence.
Qed.

(** Unlinking a leaf and pushing it on the free list. *)
Lemma detach_leaf st pa b a na q nq :
  tree_inv st ->
  node_at (mem st) (root (tree st)) (pa ++ [b]) = Some a ->
  mem st !! a = Some na -> n_left na = NULL -> n_right na = NULL ->
  node_at (mem st) (root (tree st)) pa = Some q ->
  mem st !! q = Some nq ->
  let m' := <[a := mk_node (free (tree st)) (n_left na) (n_parent na) (n_value na)]>
              (<[q := with_child b NULL nq]> (mem st)) in
  tree_inv (mk_state (set_free (tree st) a) m' (pool st) (os st)) /\
  (forall path c,
      node_at m' (root (tree st)) path = Some c <->
      node_at (mem st) (root (tree st)) path = Some c /\ path <> pa ++ [b]) /\
  (forall path,
      value_at m' (root (tree st)) path =
      if decide (path = pa ++ [b]) then NGX_RADIX_NO_VALUE
      else value_at (mem st) (root (tree st)) path) /\
  m' !! q = Some (with_child b NULL nq) /\
  (forall y, y <> a -> y <> q -> m' !! y = mem st !! y).
Proof.
  intros Hinv Hpa Hna Hl0 Hr0 Hpq Hnq m'.
  destruct Hinv as [Hroot Hclosed Hinj Hpar Hdepth Hfree Hd Hslab Hpool].
  set (r := root (tree st)) in *. set (m := mem st) in *.
  assert (Hqa : q <> a).
  { intros ->. pose proof (Hinj _ _ _ Hpa Hpq) as E.
    apply (f_equal length) in E. rewrite length_app in E. simpl in E. lia. }
  assert (Hma : m' !! a = Some (mk_node (free (tree st)) (n_left na) (n_parent na)
                                  (n_value na))) by apply lookup_insert_eq.
  assert (Hmq : m' !! q = Some (with_child b NULL nq)).
  { unfold m'. rewrite lookup_insert_ne by done. apply lookup_insert_eq. }
  assert (Hmo : forall y, y <> a -> y <> q -> m' !! y = m !! y).
  { intros y H1 H2. unfold m'. by rewrite !lookup_insert_ne. }
  assert (Hdom : forall y, is_Some (m' !! y) <-> is_Some (m !! y)).
  { intros y. destruct (decide (y = a)) as [->|H1]; [rewrite Hma, Hna; split; eauto|].
    destruct (decide (y = q)) as [->|H2]; [rewrite Hmq, Hnq; split; eauto|].
    by rewrite Hmo. }
  assert (Hleaf : forall d c, node_at m r ((pa ++ [b]) ++ [d]) <> Some c).
  { intros d c H. apply node_at_snoc_inv in H as (a0 & n0 & Ha0 & Hn0 & Hc & Hcn & _).
    rewrite Hpa in Ha0. inversion Ha0; subst a0. rewrite Hna in Hn0.
    inversion Hn0; subst n0. destruct d; simpl in Hc; congruence. }
  assert (Hchar : forall path c,
      node_at m' r path = Some c <->
      node_at m r path = Some c /\ path <> pa ++ [b]).
  { induction path as [|d p IH] using rev_ind; intros c.
    - rewrite !node_at_nil_inv. split.
      + intros (-> & Hr & Hs). split; [|by destruct pa]. repeat split; try done.
        by apply Hdom.
      + intros [(-> & Hr & Hs) _]. repeat split; try done. by apply Hdom.
    - split.
      + intros H. apply node_at_snoc_inv in H as (a0 & n0 & Ha0 & Hn0 & Hc & Hcn & Hcs).
        apply IH in Ha0 as [Ha0 Hne0].
        assert (a0 <> a) as Hna0.
        { intros ->. by pose proof (Hinj _ _ _ Ha0 Hpa). }
        destruct (decide (a0 = q)) as [->|Hnq0].
        * rewrite Hmq in Hn0. inversion Hn0; subst n0.
          rewrite child_of_with_child in Hc.
          pose proof (Hinj _ _ _ Ha0 Hpq) as ->.
          destruct (decide (d = b)) as [->|Hdb]; [congruence|].
          split; [|intros E; by apply app_inj_tail in E as [_ ?]].
          subst c. apply (node_at_snoc_some m r pa d q nq); try done.
          by apply (Hclosed pa q nq d).
        * rewrite Hmo in Hn0 by done. split.
          -- subst c. apply (node_at_snoc_some m r p d a0 n0); try done.
             by apply (Hclosed p a0 n0 d).
          -- intros E. apply app_inj_tail in E as [-> _]. congruence.
      + intros [H Hne]. pose proof H as H'.
        apply node_at_snoc_inv in H as (a0 & n0 & Ha0 & Hn0 & Hc & Hcn & Hcs).
        assert (p <> pa ++ [b]) as Hp.
        { intros ->. by apply Hleaf in H'. }
        assert (node_at m' r p = Some a0) as Ha0' by (by apply IH).
        assert (a0 <> a) as Hna0.
        { intros ->. by pose proof (Hinj _ _ _ Ha0 Hpa). }
        destruct (decide (a0 = q)) as [->|Hnq0].
        * rewrite Hnq in Hn0. inversion Hn0; subst n0.
          pose proof (Hinj _ _ _ Ha0 Hpq) as ->.
          assert (d <> b) as Hdb by (intros ->; done).
          subst c. replace (child_of d nq) with (child_of d (with_child b NULL nq))
            by (rewrite child_of_with_child; by rewrite decide_False).
          apply (node_at_snoc_some m' r pa d q); try done.
          -- rewrite child_of_with_child. by rewrite decide_False.
          -- rewrite child_of_with_child, decide_False by done. by apply Hdom.
        * subst c. apply (node_at_snoc_some m' r p d a0 n0); try done.
          -- by rewrite Hmo.
          -- by apply Hdom. }
  split; [|split; [exact Hchar|split; [|done]]].
  - constructor; simpl tree; simpl os; simpl pool; simpl mem; simpl root; simpl free;
      simpl start; simpl size; fold r; fold m.
    + destruct Hroot as (nr & Hl & Hp). apply load_done in Hl as [Hr Hl].
      assert (r <> a) as Hra.
      { intros E. assert (node_at m r [] = Some a) as H0.
        { apply node_at_nil_inv. rewrite <- E. eauto. }
        pose proof (Hinj _ _ _ H0 Hpa) as E2. by destruct pa. }
      destruct (decide (r = q)) as [E|E].
      * exists (with_child b NULL nq).
        split; [apply load_done; split; [done|by rewrite E]|].
        rewrite E in Hl. fold m in Hl. rewrite Hnq in Hl. inversion Hl; subst.
        by destruct b.
      * exists nr. split; [|done]. apply load_done. split; [done|by rewrite Hmo].
    + intros path y ny d Hy Hny Hc. apply Hchar in Hy as [Hy Hne].
      assert (y <> a) as Hya.
      { intros ->. by pose proof (Hinj _ _ _ Hy Hpa). }
      apply Hdom. destruct (decide (y = q)) as [->|Hyq].
      * rewrite Hmq in Hny. inversion Hny; subst ny.
        rewrite child_of_with_child in *.
        destruct (decide (d = b)); [done|].
        by apply (Hclosed path q nq d).
      * rewrite Hmo in Hny by done. by apply (Hclosed path y ny d).
    + intros p1 p2 y H1 H2. apply Hchar in H1 as [H1 _], H2 as [H2 _].
      by eapply Hinj.
    + intros path d y ny Hy Hny. apply Hchar in Hy as [Hy Hne].
      assert (y <> a) as Hya.
      { intros ->. by pose proof (Hinj _ _ _ Hy Hpa). }
      apply Hchar. split.
      * destruct (decide (y = q)) as [->|Hyq].
        -- rewrite Hmq in Hny. inversion Hny; subst ny.
           replace (n_parent (with_child b NULL nq)) with (n_parent nq)
             by (by destruct b).
           by apply (Hpar path d q nq).
        -- rewrite Hmo in Hny by done. by apply (Hpar path d y ny).
      * intros ->. by apply Hleaf in Hy.
    + intros path y Hy. apply Hchar in Hy as [Hy _]. by eapply Hdepth.
    + destruct Hfree as (l & Hc & Hnd & Hun). exists (a :: l).
      assert (a ∉ l) as Hal by (intros H; by apply (Hun a (pa ++ [b]))).
      split; [|split].
      * simpl. split; [done|].
        destruct (node_at_some_mem _ _ _ _ Hpa) as [Ha0 _]. split; [done|].
        eexists. split; [exact Hma|]. simpl.
        apply (free_chain_agree m); [|done]. intros y Hy. apply Hmo.
        -- intros ->. done.
        -- intros ->. by apply (Hun q pa).
      * by constructor.
      * intros y path Hy Hn. apply Hchar in Hn as [Hn Hne].
        apply elem_of_cons in Hy as [->|Hy].
        -- by pose proof (Hinj _ _ _ Hn Hpa).
        -- by apply (Hun y path).
    + intros y Hy. apply Hd. by apply Hdom.
    + intros Hs. destruct (Hslab Hs) as (? & ? & Hlt). repeat split; try done.
      intros y Hy. apply Hlt. by apply Hdom.
    + done.
  - intros path. unfold value_at. destruct (decide (path = pa ++ [b])) as [->|Hne].
    + destruct (node_at m' r (pa ++ [b])) as [c|] eqn:E; [|done].
      by apply Hchar in E as [_ E].
    + destruct (node_at m r path) as [c|] eqn:E.
      * assert (node_at m' r path = Some c) as E' by (by apply Hchar).
        rewrite E'. assert (c <> a) as Hca.
        { intros ->. by pose proof (Hinj _ _ _ E Hpa). }
        destruct (decide (c = q)) as [->|Hcq].
        -- rewrite Hmq, Hnq. by destruct b.
        -- by rewrite Hmo.
      * destruct (node_at m' r path) as [c|] eqn:E'; [|done].
        apply Hchar in E' as [E' _]. congruence.
Qed.

(** ** ngx_radix_alloc *)

Lemma free_chain_null m l : free_chain m NULL l -> l = [].
Proof. destruct l; [done|]. simpl. intros (E1 & E2 & _). congruence. Qed.

Lemma radix_alloc_spec fuel st :
  tree_inv st ->
  exists x st',
    ngx_radix_alloc (S fuel) st = Done (x, st') /\
    mem st' = mem st /\ root (tree st') = root (tree st) /\
    limit (os st') = limit (os st) /\
    tree_inv st' /\
    (x = NULL -> limit (os st) <> None) /\
    (x <> NULL ->
       (forall path, node_at (mem st) (root (tree st)) path <> Some x) /\
       (forall l, free_chain (mem st') (free (tree st')) l -> x ∉ l) /\
       0 < x < brk (os st') /\
       (sizeof_ngx_radix_node_t <= size (tree st') -> x < start (tree st'))).
Proof.
  intros Hinv. pose proof Hinv as [Hroot Hclosed Hinj Hpar Hdepth Hfree Hd Hslab Hpool].
  pose proof Hpool as (Hb0 & _).
  unfold ngx_radix_alloc.
  destruct (Z.eqb_spec (free (tree st)) NULL) as [Ef|Ef]; cbn [negb].
  - destruct Hfree as (l & Hc & Hnd & Hun).
    rewrite Ef in Hc. apply free_chain_null in Hc as ->.
    assert (Hnil : forall m l, free_chain m (free (tree st)) l -> l = []).
    { intros m l. rewrite Ef. apply free_chain_null. }
    destruct (size (tree st) <? sizeof_ngx_radix_node_t) eqn:Es.
    + destruct (pmemalign_sane fuel (pool st) (os st) Hpool)
        as (p & pl & w & Hpm & Hsane & Hbrk & Hlim & Hp & Hnn).
      rewrite Hpm. cbn. apply Z.ltb_lt in Es.
      destruct (Z.eqb_spec p NULL) as [Ep|Ep].
      * eexists _, _. split; [reflexivity|]. simpl.
        split; [done|]. split; [done|]. split; [done|]. split; [|split; [intros _ Hn; by apply Hnn in Hn|done]].
        constructor; simpl; try done.
        -- exists []. rewrite Ef. done.
        -- intros a Ha. specialize (Hd a Ha). lia.
        -- lia.
      * destruct (Hp Ep) as [Hp1 Hp2]. unfold ngx_pagesize in *.
        eexists _, _. split; [reflexivity|]. simpl.
        unfold sizeof_ngx_radix_node_t in *.
        split; [done|]. split; [done|]. split; [done|]. split; [|split; [done|]].
        -- constructor; simpl; try done.
           ++ exists []. rewrite Ef. done.
           ++ intros a Ha. specialize (Hd a Ha). lia.
           ++ intros _. split; [lia|]. split; [lia|].
              intros a Ha. specialize (Hd a Ha). lia.
        -- intros _. split; [|split; [|split; [lia|lia]]].
           ++ intros path Hx. apply node_at_some_mem in Hx as [_ Hx].
              specialize (Hd _ Hx). lia.
           ++ intros l Hl. apply Hnil in Hl as ->. apply not_elem_of_nil.
    + apply Z.ltb_ge in Es. destruct (Hslab Es) as (Hs1 & Hs2 & Hs3).
      eexists _, _. split; [reflexivity|]. simpl.
      unfold sizeof_ngx_radix_node_t in *.
      split; [done|]. split; [done|]. split; [done|].
      split; [|split; [intros E; unfold NULL in E; lia|]].
      * constructor; simpl; try done.
        -- exists []. rewrite Ef. done.
        -- intros Hs. split; [lia|]. split; [lia|].
           intros a Ha. specialize (Hs3 a Ha). lia.
      * intros _. split; [|split; [|split; [lia|lia]]].
        -- intros path Hx. apply node_at_some_mem in Hx as [_ Hx].
           specialize (Hs3 _ Hx). lia.
        -- intros l Hl. apply Hnil in Hl as ->. apply not_elem_of_nil.
  - destruct Hfree as (l & Hc & Hnd & Hun).
    destruct l as [|x l]; [done|]. simpl in Hc.
    destruct Hc as (Hx & Hx0 & n & Hn & Hc). rewrite Hx in *.
    rewrite (proj2 (load_done _ _ n) (conj Hx0 Hn)). cbn.
    eexists _, _. split; [reflexivity|]. simpl.
    apply NoDup_cons in Hnd as [Hxl Hnd].
    assert (Hxd : is_Some (mem st !! x)) by eauto.
    split; [done|]. split; [done|]. split; [done|]. split; [|split; [done|]].
    + constructor; simpl; try done. exists l. split; [done|]. split; [done|].
      intros a path Ha. apply Hun. apply elem_of_cons. by right.
    + intros _. split; [|split; [|split]].
      * intros path. apply Hun. apply elem_of_cons. by left.
      * intros l2 Hl2. by rewrite (free_chain_fun _ _ _ _ Hl2 Hc).
      * by apply Hd.
      * intros Hs. by apply Hslab.
Qed.

(** ** Insertion keeps the tree *)

Lemma key_path_app key j k :
  key_path key (j + k) = key_path key j ++ key_seg key j k.
Proof. unfold key_path, key_seg. by rewrite seq_app, map_app. Qed.

Lemma node_at_prefix m r key j j' a :
  node_at m r (key_path key j) = Some a -> (j' <= j)%nat ->
  is_Some (node_at m r (key_path key j')).
Proof.
  intros H Hle. replace j with (j' + (j - j'))%nat in H by lia.
  rewrite key_path_app, node_at_app in H.
  destruct (node_at m r (key_path key j')); [eauto|done].
Qed.

Lemma insert_descend_stops st key mask fuel i node next :
  tree_inv st ->
  node_at (mem st) (root (tree st)) (key_path key i) = Some node ->
  (i <= prefix_len mask)%nat -> (prefix_len mask - i <= fuel)%nat ->
  next <> NULL ->
  exists j node' next',
    insert_descend fuel (mem st) key mask (bit_of i) node next =
      Done (bit_of j, node', next') /\
    (i <= j <= prefix_len mask)%nat /\
    node_at (mem st) (root (tree st)) (key_path key j) = Some node' /\
    ((next' <> NULL /\ j = prefix_len mask) \/
     (next' = NULL /\ (j < prefix_len mask)%nat /\
      exists n', mem st !! node' = Some n' /\ child_of (key_bit key j) n' = NULL)).
Proof.
  intros Hinv. revert i node next.
  induction fuel as [|fuel IH]; intros i node next Hn Hi Hf Hnx;
    rewrite insert_descend_eq.
  - assert (i = prefix_len mask) as -> by lia. rewrite prefix_len_clear.
    exists (prefix_len mask), node, next. split; [done|]. split; [lia|].
    split; [done|]. by left.
  - destruct (decide (i = prefix_len mask)) as [->|Hne].
    + rewrite prefix_len_clear.
      exists (prefix_len mask), node, next. split; [done|]. split; [lia|].
      split; [done|]. by left.
    + rewrite prefix_len_set by lia.
      destruct (node_at_some_load _ _ _ _ Hn) as [n Hl]. rewrite Hl. cbn.
      rewrite child_key_bit. apply load_done in Hl as [Hnode Hl].
      destruct (Z.eqb_spec (child_of (key_bit key i) n) NULL) as [Ec|Ec].
      * exists i, node, (child_of (key_bit key i) n). rewrite Ec.
        split; [done|]. split; [lia|]. split; [done|]. right.
        split; [done|]. split; [lia|]. by exists n.
      * rewrite bit_of_S.
        destruct (IH (S i) (child_of (key_bit key i) n) (child_of (key_bit key i) n))
          as (j & node' & next' & Hd & Hj & Hn' & Hcase); [|lia|lia|done|].
        { rewrite key_path_S. apply (node_at_snoc_some _ _ _ _ node n); try done.
          by apply (inv_closed st Hinv (key_path key i) node n). }
        exists j, node', next'. split; [done|]. split; [lia|]. done.
Qed.

Lemma insert_extend_spec fuel st key mask n i node nn :
  tree_inv st ->
  node_at (mem st) (root (tree st)) (key_path key i) = Some node ->
  mem st !! node = Some nn ->
  ((i < prefix_len mask)%nat -> child_of (key_bit key i) nn = NULL) ->
  (i <= prefix_len mask)%nat -> (prefix_len mask - i <= n)%nat ->
  exists res st',
    insert_extend (S fuel) n st key mask (bit_of i) node = Done (res, st') /\
    tree_inv st' /\ root (tree st') = root (tree st) /\
    limit (os st') = limit (os st) /\
    (forall path, value_at (mem st') (root (tree st)) path =
                  value_at (mem st) (root (tree st)) path) /\
    (res = None -> limit (os st) <> None) /\
    (forall node', res = Some node' ->
       node_at (mem st') (root (tree st)) (key_path key (prefix_len mask)) = Some node' /\
       forall path,
         is_Some (node_at (mem st') (root (tree st)) path) <->
         is_Some (node_at (mem st) (root (tree st)) path) \/
         exists j, (i < j <= prefix_len mask)%nat /\ path = key_path key j).
Proof.
  revert st i node nn. induction n as [|n IH]; intros st i node nn Hinv Hn Hnn Hc Hi Hf;
    rewrite insert_extend_eq.
  - assert (i = prefix_len mask) as -> by lia. rewrite prefix_len_clear.
    exists (Some node), st. split; [done|]. split; [done|]. split; [done|].
    split; [done|]. split; [done|]. split; [done|].
    intros node' E. inversion E; subst. split; [done|]. intros path. split.
    + by left.
    + intros [H|(j & Hj & _)]; [done|lia].
  - destruct (decide (i = prefix_len mask)) as [->|Hne].
    { rewrite prefix_len_clear.
      exists (Some node), st. split; [done|]. split; [done|]. split; [done|].
      split; [done|]. split; [done|]. split; [done|].
      intros node' E. inversion E; subst. split; [done|]. intros path. split.
      + by left.
      + intros [H|(j & Hj & _)]; [done|lia]. }
    rewrite prefix_len_set by lia.
    destruct (radix_alloc_spec fuel st Hinv)
      as (x & st1 & Ha & Hm1 & Hr1 & Hl1 & Hinv1 & Hnull & Hfresh).
    rewrite Ha. cbn.
    destruct (Z.eqb_spec x NULL) as [Ex|Ex].
    { exists None, st1. split; [done|]. split; [done|]. split; [done|].
      split; [done|]. split; [by rewrite Hm1|]. split; [auto|done]. }
    destruct (Hfresh Ex) as (Hun & Hfl & Hbrk & Hsl).
    assert (node <> x) as Hnx by (intros ->; by apply (Hun _) in Hn).
    assert (node <> NULL) as Hn0 by (by apply node_at_some_mem in Hn as [? _]).
    rewrite Hm1.
    set (m1 := <[x := mk_node NULL NULL node NGX_RADIX_NO_VALUE]> (mem st)).
    assert (Hload : load m1 node = Done nn).
    { apply load_done. split; [done|]. unfold m1. by rewrite lookup_insert_ne. }
    assert (Hstore :
      (if negb (Z.land key (bit_of i) =? 0) then store_right m1 node x
       else store_left m1 node x) =
      Done (<[node := with_child (key_bit key i) x nn]> m1)).
    { unfold key_bit, store_right, store_left.
      destruct (negb (Z.land key (bit_of i) =? 0)); rewrite Hload; reflexivity. }
    rewrite Hstore. cbn. rewrite bit_of_S.
    assert (Hlen : (length (key_path key i) < 32)%nat).
    { rewrite key_path_length. pose proof (prefix_len_le mask). lia. }
    pose proof (attach_leaf st1 (key_path key i) (key_bit key i) node nn x Hinv1)
      as Hat.
    rewrite Hm1, Hr1 in Hat. rewrite Hm1 in Hfl.
    destruct (Hat Hn Hnn (Hc ltac:(lia)) Hlen Ex Hun Hfl Hbrk Hsl)
      as (Hinv2 & Hchar & Hval).
    clear Hat. fold m1 in Hchar, Hval, Hinv2.
    set (m2 := <[node := with_child (key_bit key i) x nn]> m1) in *.
    set (st2 := set_mem st1 m2) in *.
    assert (Hr2 : root (tree st2) = root (tree st)) by exact Hr1.
    destruct (IH st2 (S i) x (mk_node NULL NULL node NGX_RADIX_NO_VALUE))
      as (res & st' & He & Hinv' & Hr' & Hl' & Hval' & Hnone & Hsome);
      try done.
    { rewrite Hr2. change (mem st2) with m2. apply Hchar. right.
      by rewrite key_path_S. }
    { change (mem st2) with m2. unfold m2, m1.
      rewrite lookup_insert_ne by done. apply lookup_insert_eq. }
    { intros _. by destruct (key_bit key (S i)). }
    { lia. }
    { lia. }
    exists res, st'. split; [exact He|]. split; [done|].
    split; [by rewrite Hr', Hr2|]. split; [by rewrite Hl'|].
    rewrite Hr2 in Hval', Hsome. change (mem st2) with m2 in Hval', Hsome.
    split; [intros path; by rewrite Hval', Hval|].
    split; [intros E; rewrite <- Hl1; by apply Hnone|].
    intros node' E. destruct (Hsome node' E) as [Hnode' Hex]. split; [done|].
    intros path. rewrite Hex. split.
    + intros [[c Hc']|(j & Hj & ->)].
      * apply Hchar in Hc' as [Hc'|[-> ->]]; [left; eauto|].
        right. exists (S i). split; [lia|]. by rewrite key_path_S.
      * right. exists j. split; [lia|done].
    + intros [[c Hc']|(j & Hj & ->)].
      * left. exists c. apply Hchar. by left.
      * destruct (decide (j = S i)) as [->|Hj'].
        -- left. exists x. apply Hchar. right. by rewrite key_path_S.
        -- right. exists j. split; [lia|done].
Qed.

(** What ngx_radix32tree_insert does to a tree. *)
Lemma insert_spec fuel st key mask v :
  tree_inv st -> (33 <= fuel)%nat ->
  exists rc st',
    ngx_radix32tree_insert fuel st key mask v = Done (rc, st') /\
    tree_inv st' /\ root (tree st') = root (tree st) /\
    limit (os st') = limit (os st) /\
    match rc with
    | NGX_BUSY =>
        st' = st /\
        value_at (mem st) (root (tree st)) (prefix_path key mask)
          <> NGX_RADIX_NO_VALUE
    | NGX_OK =>
        value_at (mem st) (root (tree st)) (prefix_path key mask)
          = NGX_RADIX_NO_VALUE /\
        (forall path,
            value_at (mem st') (root (tree st)) path =
            if decide (path = prefix_path key mask) then v
            else value_at (mem st) (root (tree st)) path) /\
        (forall path,
            is_Some (node_at (mem st') (root (tree st)) path) <->
            is_Some (node_at (mem st) (root (tree st)) path) \/
            exists j, (j <= prefix_len mask)%nat /\ path = key_path key j)
    | NGX_ERROR =>
        limit (os st) <> None /\
        forall path,
          value_at (mem st') (root (tree st)) path =
          value_at (mem st) (root (tree st)) path
    | NGX_DECLINED => False
    end.
Proof.
  intros Hinv Hfuel. pose proof (prefix_len_le mask) as Hle.
  destruct fuel as [|fuel]; [lia|].
  destruct (inv_root st Hinv) as (nr & Hlr & Hpr).
  assert (Hroot0 : node_at (mem st) (root (tree st)) (key_path key 0) = Some (root (tree st))).
  { unfold key_path, key_seg. simpl seq. simpl map. by rewrite node_at_nil, Hlr. }
  assert (Hrn : root (tree st) <> NULL) by (by apply load_done in Hlr as [? _]).
  destruct (insert_descend_stops st key mask (S fuel) 0 (root (tree st))
              (root (tree st)) Hinv Hroot0)
    as (j & node & next & Hd & Hj & Hnode & Hcase); [lia|lia|done|].
  change (bit_of 0) with 2147483648 in Hd.
  rewrite (insert_after_descend _ _ _ _ _ _ _ _ Hd).
  destruct (node_at_some_load _ _ _ _ Hnode) as [nn Hln].
  pose proof Hln as Hln'. apply load_done in Hln' as [Hnode0 Hnn].
  destruct Hcase as [[Hnx ->]|(-> & Hjl & n' & Hn' & Hchild)].
  - (* the node of the prefix exists *)
    destruct (next =? NULL) eqn:E; [lia|]. cbn [negb]. rewrite Hln. cbn.
    assert (Hv : value_at (mem st) (root (tree st)) (prefix_path key mask) = n_value nn).
    { unfold value_at, prefix_path. by rewrite Hnode, Hnn. }
    destruct (Z.eqb_spec (n_value nn) NGX_RADIX_NO_VALUE) as [Ev|Ev]; cbn [negb].
    + unfold store_value. rewrite Hln. cbn.
      destruct (store_value_inv st node nn v _ Hinv Hnn Hnode) as (Hinv' & Hsame & Hval).
      cbn [mem tree set_mem root] in Hsame, Hval.
      eexists _, _. split; [reflexivity|]. split; [exact Hinv'|].
      split; [done|]. split; [done|]. split; [by rewrite Hv|].
      cbn [mem tree set_mem root]. split.
      * intros path. rewrite (Hval path).
        destruct (decide (path = prefix_path key mask)) as [->|Hne].
        -- by rewrite decide_True.
        -- rewrite decide_False; [done|]. intros Hp. apply Hne.
           by apply (inv_inj st Hinv _ _ node).
      * intros path. rewrite (Hsame path). split; [by left|].
        intros [H|(j & Hj' & ->)]; [done|].
        by apply (node_at_prefix _ _ _ (prefix_len mask) j node).
    + eexists _, _. split; [reflexivity|]. split; [done|]. split; [done|].
      split; [done|]. split; [done|]. by rewrite Hv.
  - (* the path leaves the tree at depth j *)
    cbn [Z.eqb negb NULL].
    rewrite Hnn in Hn'. inversion Hn'; subst n'.
    destruct (insert_extend_spec fuel st key mask (S fuel) j node nn Hinv Hnode Hnn)
      as (res & st1 & He & Hinv1 & Hr1 & Hl1 & Hval1 & Hnone & Hsome);
      [done|lia|lia|].
    rewrite He. cbn.
    destruct res as [node'|].
    + destruct (Hsome node' eq_refl) as [Hnode' Hex].
      destruct (node_at_some_load _ _ _ _ Hnode') as [nn' Hln'].
      unfold store_value. rewrite Hln'. cbn. apply load_done in Hln' as [_ Hnn'].
      rewrite <- Hr1 in Hnode'.
      destruct (store_value_inv st1 node' nn' v _ Hinv1 Hnn' Hnode')
        as (Hinv' & Hsame & Hval).
      assert (Habs : node_at (mem st) (root (tree st)) (prefix_path key mask) = None).
      { unfold prefix_path.
        replace (prefix_len mask) with (S j + (prefix_len mask - S j))%nat by lia.
        rewrite key_path_app, node_at_app, key_path_S.
        destruct (node_at _ _ (key_path key j ++ _)) as [c|] eqn:Ec; [|done].
        apply node_at_snoc_inv in Ec as (a0 & n0 & Ha0 & Hn0 & Hc0 & Hcn & _).
        rewrite Hnode in Ha0. inversion Ha0; subst a0.
        rewrite Hnn in Hn0. inversion Hn0; subst n0. congruence. }
      eexists _, _. split; [reflexivity|]. split; [exact Hinv'|].
      split; [done|]. split; [done|]. split; [unfold value_at; by rewrite Habs|].
      cbn [mem tree set_mem root] in Hsame, Hval.
      rewrite Hr1 in Hsame, Hval, Hnode'. split.
      * intros path. cbn [mem set_mem]. rewrite (Hval path).
        destruct (decide (path = prefix_path key mask)) as [->|Hne].
        -- by rewrite decide_True.
        -- rewrite decide_False; [apply Hval1|]. intros Hp. apply Hne.
           rewrite <- Hr1 in Hp, Hnode'. by apply (inv_inj st1 Hinv1 _ _ node').
      * intros path. cbn [mem set_mem]. rewrite (Hsame path), Hex. split.
        -- intros [H|(j' & Hj' & ->)]; [by left|]. right. exists j'. split; [lia|done].
        -- intros [H|(j' & Hj' & ->)]; [by left|].
           destruct (decide (j' <= j)%nat) as [Hjj|Hjj].
           ++ left. by apply (node_at_prefix _ _ _ j j' node).
           ++ right. exists j'. split; [lia|done].
    + eexists _, _. split; [reflexivity|]. split; [done|]. split; [done|].
      split; [done|]. split; [auto|done].
Qed.

(** ** Deletion keeps the tree *)

Lemma delete_descend_spec st key mask fuel i node :
  tree_inv st ->
  (node_at (mem st) (root (tree st)) (key_path key i) = Some node \/
   (node = NULL /\ node_at (mem st) (root (tree st)) (key_path key i) = None)) ->
  (i <= prefix_len mask)%nat -> (prefix_len mask - i <= fuel)%nat ->
  delete_descend fuel (mem st) key mask (bit_of i) node =
  Done (match node_at (mem st) (root (tree st)) (key_path key (prefix_len mask)) with
        | Some a => a
        | None => NULL
        end).
Proof.
  intros Hinv. revert i node.
  induction fuel as [|fuel IH]; intros i node Hn Hi Hf; rewrite delete_descend_eq.
  - assert (i = prefix_len mask) as -> by lia. rewrite prefix_len_clear, orb_true_r.
    destruct Hn as [->|[-> ->]]; done.
  - destruct Hn as [Hn|[-> Hn]].
    + destruct (node_at_some_load _ _ _ _ Hn) as [n Hl].
      pose proof Hl as Hl'. apply load_done in Hl' as [Hnode Hnn].
      destruct (Z.eqb_spec node NULL) as [E|_]; [done|]. cbn [orb].
      destruct (decide (i = prefix_len mask)) as [->|Hne].
      * by rewrite prefix_len_clear, Hn.
      * rewrite prefix_len_set by lia. rewrite Hl. cbn. rewrite bit_of_S, child_key_bit.
        apply IH; [|lia|lia].
        destruct (Z.eqb_spec (child_of (key_bit key i) n) NULL) as [Ec|Ec].
        -- right. split; [done|]. rewrite key_path_S.
           destruct (node_at _ _ (key_path key i ++ _)) as [c|] eqn:E; [|done].
           apply node_at_snoc_inv in E as (a0 & n0 & Ha0 & Hn0 & Hc0 & Hcn & _).
           rewrite Hn in Ha0. inversion Ha0; subst a0.
           rewrite Hnn in Hn0. inversion Hn0; subst n0. congruence.
        -- left. rewrite key_path_S. apply (node_at_snoc_some _ _ _ _ node n); try done.
           by apply (inv_closed st Hinv (key_path key i) node n).
    + cbn [Z.eqb NULL orb].
      destruct (node_at _ _ (key_path key (prefix_len mask))) as [a|] eqn:E; [|done].
      destruct (node_at_prefix _ _ _ _ i _ E Hi) as [c Hc]. congruence.
Qed.

Lemma delete_prune_eq fuel st node :
  delete_prune (S fuel) st node =
  (n ← load (mem st) node;
   pn ← load (mem st) (n_parent n);
   m ← (if n_right pn =? node then store_right (mem st) (n_parent n) NULL
        else store_left (mem st) (n_parent n) NULL);
   m ← store_right m node (free (tree st));
   let st := mk_state (set_free (tree st) node) m (pool st) (os st) in
   n ← load m node;
   let node := n_parent n in
   n ← load m node;
   if negb (n_right n =? NULL) || negb (n_left n =? NULL) then Done st
   else if negb (n_value n =? NGX_RADIX_NO_VALUE) then Done st
   else if n_parent n =? NULL then Done st
   else delete_prune fuel st node).
Proof. reflexivity. Qed.

Lemma delete_prune_spec fuel st pa b a na :
  tree_inv st ->
  node_at (mem st) (root (tree st)) (pa ++ [b]) = Some a ->
  mem st !! a = Some na -> n_left na = NULL -> n_right na = NULL ->
  (length pa < fuel)%nat ->
  exists st',
    delete_prune fuel st a = Done st' /\
    tree_inv st' /\ root (tree st') = root (tree st) /\ os st' = os st /\
    forall path,
      value_at (mem st') (root (tree st)) path =
      if decide (path = pa ++ [b]) then NGX_RADIX_NO_VALUE
      else value_at (mem st) (root (tree st)) path.
Proof.
  revert st pa b a na.
  induction fuel as [|fuel IH]; intros st pa b a na Hinv Hpa Hna Hl0 Hr0 Hf; [lia|].
  rewrite delete_prune_eq.
  destruct (node_at_some_mem _ _ _ _ Hpa) as [Ha0 _].
  rewrite (proj2 (load_done _ _ na) (conj Ha0 Hna)). cbn.
  pose proof (inv_parent st Hinv pa b a na Hpa Hna) as Hq.
  set (q := n_parent na) in *.
  destruct (node_at_some_load _ _ _ _ Hq) as [nq Hlq]. rewrite Hlq. cbn.
  pose proof Hlq as Hlq'. apply load_done in Hlq' as [Hq0 Hnq].
  assert (Hqa : q <> a).
  { intros E. rewrite E in Hq. pose proof (inv_inj st Hinv _ _ _ Hpa Hq) as E2.
    apply (f_equal length) in E2. rewrite length_app in E2. simpl in E2. lia. }
  assert (Hchild : child_of b nq = a).
  { pose proof Hpa as H. apply node_at_snoc_inv in H as (a0 & n0 & Ha0' & Hn0 & Hc0 & _).
    rewrite Hq in Ha0'. inversion Ha0'; subst a0.
    rewrite Hnq in Hn0. by inversion Hn0; subst n0. }
  assert (Hstore1 :
    (if n_right nq =? a then store_right (mem st) q NULL
     else store_left (mem st) q NULL) =
    Done (<[q := with_child b NULL nq]> (mem st))).
  { unfold store_right, store_left. rewrite Hlq. cbn.
    destruct b; simpl in Hchild.
    - rewrite Hchild, Z.eqb_refl. reflexivity.
    - destruct (Z.eqb_spec (n_right nq) a) as [E|E]; [|reflexivity].
      exfalso.
      assert (node_at (mem st) (root (tree st)) (pa ++ [true]) = Some a) as H.
      { rewrite <- E. apply (node_at_snoc_some _ _ _ true q nq); try done.
        - simpl. congruence.
        - simpl. rewrite E. eauto. }
      pose proof (inv_inj st Hinv _ _ _ Hpa H) as E2.
      by apply app_inj_tail in E2 as [_ ?]. }
  rewrite Hstore1. cbn.
  set (m1 := <[q := with_child b NULL nq]> (mem st)).
  assert (Hstore2 : store_right m1 a (free (tree st)) =
    Done (<[a := mk_node (free (tree st)) (n_left na) (n_parent na) (n_value na)]> m1)).
  { unfold store_right.
    rewrite (proj2 (load_done m1 a na)); [reflexivity|].
    split; [done|]. unfold m1. by rewrite lookup_insert_ne. }
  rewrite Hstore2. cbn.
  destruct (detach_leaf st pa b a na q nq Hinv Hpa Hna Hl0 Hr0 Hq Hnq)
    as (Hinv1 & Hchar & Hval & Hmq & Hmo).
  fold m1 in Hinv1, Hchar, Hval, Hmq, Hmo.
  set (m2 := <[a := mk_node (free (tree st)) (n_left na) (n_parent na) (n_value na)]> m1) in *.
  set (st1 := mk_state (set_free (tree st) a) m2 (pool st) (os st)) in *.
  assert (Hla : load m2 a =
    Done (mk_node (free (tree st)) (n_left na) (n_parent na) (n_value na))).
  { apply load_done. split; [done|]. apply lookup_insert_eq. }
  rewrite Hla. cbn. fold q.
  rewrite (proj2 (load_done m2 q _) (conj Hq0 Hmq)). cbn.
  assert (Hdone : exists st',
    Done st1 = Done st' /\ tree_inv st' /\ root (tree st') = root (tree st) /\
    os st' = os st /\
    forall path,
      value_at (mem st') (root (tree st)) path =
      if decide (path = pa ++ [b]) then NGX_RADIX_NO_VALUE
      else value_at (mem st) (root (tree st)) path).
  { exists st1. split; [done|]. split; [done|]. split; [done|]. split; [done|]. exact Hval. }
  destruct (negb (n_right (with_child b NULL nq) =? NULL)
            || negb (n_left (with_child b NULL nq) =? NULL)) eqn:Ech; [exact Hdone|].
  destruct (negb (n_value (with_child b NULL nq) =? NGX_RADIX_NO_VALUE)) eqn:Ev;
    [exact Hdone|].
  destruct (Z.eqb_spec (n_parent (with_child b NULL nq)) NULL) as [Ep|Ep]; [exact Hdone|].
  clear Hdone.
  apply orb_false_iff in Ech as [Ech1 Ech2].
  apply negb_false_iff, Z.eqb_eq in Ech1, Ech2, Ev.
  assert (Hvq : n_value nq = NGX_RADIX_NO_VALUE) by (by destruct b).
  assert (Hpq : n_parent nq <> NULL) by (by destruct b).
  destruct pa as [|b0 pa0 _] using rev_ind.
  { exfalso. destruct (inv_root st Hinv) as (nr & Hlr & Hpr).
    rewrite node_at_nil, Hlr in Hq. inversion Hq as [E]. rewrite <- E in Hnq.
    apply load_done in Hlr as [_ Hlr]. rewrite Hlr in Hnq. by inversion Hnq; subst. }
  rewrite length_app in Hf. simpl in Hf.
  destruct (IH st1 pa0 b0 q (with_child b NULL nq) Hinv1)
    as (st' & Hp' & Hinv' & Hr' & Hos' & Hval'); try done.
  { change (mem st1) with m2. change (root (tree st1)) with (root (tree st)).
    apply Hchar. split; [done|]. intros E.
    apply (f_equal length) in E. rewrite !length_app in E. simpl in E. lia. }
  { lia. }
  exists st'. split; [exact Hp'|]. split; [done|]. split; [done|]. split; [done|].
  intros path. change (mem st1) with m2 in Hval'.
  change (root (tree st1)) with (root (tree st)) in Hval'.
  rewrite (Hval' path), (Hval path).
  destruct (decide (path = pa0 ++ [b0])) as [->|Hne].
  - rewrite decide_False.
    + unfold value_at. by rewrite Hq, Hnq.
    + intros E. apply (f_equal length) in E. rewrite !length_app in E. simpl in E. lia.
  - done.
Qed.

(** What ngx_radix32tree_delete does to a tree, unless it is asked to
    delete at a root without children. *)
Lemma delete_spec fuel st key mask :
  tree_inv st -> (33 <= fuel)%nat ->
  (prefix_len mask = 0%nat ->
   exists n, mem st !! root (tree st) = Some n /\
             (n_left n <> NULL \/ n_right n <> NULL)) ->
  exists rc st',
    ngx_radix32tree_delete fuel st key mask = Done (rc, st') /\
    tree_inv st' /\ root (tree st') = root (tree st) /\ os st' = os st /\
    (rc = NGX_OK \/ (rc = NGX_ERROR /\ st' = st)) /\
    forall path,
      value_at (mem st') (root (tree st)) path =
      if decide (path = prefix_path key mask) then NGX_RADIX_NO_VALUE
      else value_at (mem st) (root (tree st)) path.
Proof.
  intros Hinv Hfuel Hsafe. pose proof (prefix_len_le mask) as Hle.
  destruct (inv_root st Hinv) as (nr & Hlr & Hpr).
  assert (Hroot0 : node_at (mem st) (root (tree st)) (key_path key 0) = Some (root (tree st))).
  { unfold key_path, key_seg. simpl seq. simpl map. by rewrite node_at_nil, Hlr. }
  unfold ngx_radix32tree_delete. change 2147483648 with (bit_of 0).
  rewrite (delete_descend_spec st key mask fuel 0 (root (tree st)) Hinv);
    [|by left|lia|lia].
  fold (prefix_path key mask). cbn.
  assert (Hsame : forall path,
    value_at (mem st) (root (tree st)) (prefix_path key mask) = NGX_RADIX_NO_VALUE ->
    value_at (mem st) (root (tree st)) path =
    if decide (path = prefix_path key mask) then NGX_RADIX_NO_VALUE
    else value_at (mem st) (root (tree st)) path).
  { intros path Hv. by destruct (decide (path = prefix_path key mask)) as [->|]. }
  destruct (node_at (mem st) (root (tree st)) (prefix_path key mask)) as [a|] eqn:Ha.
  - destruct (node_at_some_load _ _ _ _ Ha) as [na Hla].
    pose proof Hla as Hla'. apply load_done in Hla' as [Ha0 Hna].
    destruct (Z.eqb_spec a NULL) as [E|_]; [done|]. rewrite Hla. cbn.
    assert (Hv : value_at (mem st) (root (tree st)) (prefix_path key mask) = n_value na).
    { unfold value_at. by rewrite Ha, Hna. }
    destruct (negb (n_right na =? NULL) || negb (n_left na =? NULL)) eqn:Ech.
    + destruct (Z.eqb_spec (n_value na) NGX_RADIX_NO_VALUE) as [Ev|Ev]; cbn [negb].
      * exists NGX_ERROR, st. split; [done|]. split; [done|]. split; [done|].
        split; [done|]. split; [by right|]. intros path. apply Hsame. by rewrite Hv.
      * unfold store_value. rewrite Hla. cbn.
        destruct (store_value_inv st a na NGX_RADIX_NO_VALUE _ Hinv Hna Ha)
          as (Hinv' & _ & Hval).
        cbn [mem tree set_mem root] in Hval.
        eexists _, _. split; [reflexivity|]. split; [exact Hinv'|].
        split; [done|]. split; [done|]. split; [by left|].
        intros path. cbn [mem set_mem]. rewrite (Hval path).
        destruct (decide (path = prefix_path key mask)) as [->|Hne].
        -- by rewrite decide_True.
        -- rewrite decide_False; [done|]. intros Hp. apply Hne.
           by apply (inv_inj st Hinv _ _ a).
    + apply orb_false_iff in Ech as [Ech1 Ech2].
      apply negb_false_iff, Z.eqb_eq in Ech1, Ech2.
      destruct (decide (prefix_len mask = 0%nat)) as [El|El].
      { exfalso. destruct (Hsafe El) as (n & Hn & Hc).
        unfold prefix_path in Ha. rewrite El, Hroot0 in Ha. inversion Ha; subst a.
        rewrite Hna in Hn. inversion Hn; subst n. tauto. }
      assert (exists l, prefix_len mask = S l) as [l El'].
      { exists (pred (prefix_len mask)). lia. }
      clear Hsafe El.
      unfold prefix_path in *. rewrite El' in *. rewrite key_path_S in *.
      destruct (delete_prune_spec fuel st (key_path key l) (key_bit key l) a na
                  Hinv Ha Hna Ech2 Ech1) as (st' & Hp & Hinv' & Hr' & Hos' & Hval).
      { rewrite key_path_length. lia. }
      rewrite Hp. cbn. exists NGX_OK, st'. split; [done|]. split; [done|].
      split; [done|]. split; [done|]. split; [by left|]. exact Hval.
  - cbn. exists NGX_ERROR, st. split; [done|]. split; [done|]. split; [done|].
    split; [done|]. split; [by right|]. intros path. apply Hsame.
    unfold value_at. by rewrite Ha.
Qed.

(** ** Lookup *)

Lemma find_loop_eq fuel m key bit value node :
  find_loop fuel m key bit value node =
  if node =? NULL then Done value
  else
    match fuel with
    | O => OutOfFuel
    | S fuel =>
        n ← load m node;
        let value :=
          if negb (n_value n =? NGX_RADIX_NO_VALUE) then n_value n else value in
        find_loop fuel m key (Z.shiftr bit 1) value (child key bit n)
    end.
Proof. by destruct fuel. Qed.

Lemma deepest_value_absent f key i n v :
  (forall j, (i <= j < i + n)%nat -> f (key_path key j) = NGX_RADIX_NO_VALUE) ->
  deepest_value f key i n v = v.
Proof.
  revert i v. induction n as [|n IH]; intros i v H; [done|].
  cbn [deepest_value]. rewrite (H i) by lia. rewrite Z.eqb_refl.
  apply IH. intros j Hj. apply H. lia.
Qed.

Lemma find_loop_spec st key n i fuel v node :
  tree_inv st ->
  (node_at (mem st) (root (tree st)) (key_path key i) = Some node \/
   (node = NULL /\ node_at (mem st) (root (tree st)) (key_path key i) = None)) ->
  (i + n = 33)%nat -> (n <= fuel)%nat ->
  find_loop fuel (mem st) key (bit_of i) v node =
  Done (deepest_value (value_at (mem st) (root (tree st))) key i n v).
Proof.
  intros Hinv. revert i fuel v node.
  induction n as [|n IH]; intros i fuel v node Hn Hi Hf; rewrite find_loop_eq.
  - destruct Hn as [Hn|[-> _]]; [|done].
    apply (inv_depth st Hinv) in Hn. rewrite key_path_length in Hn. lia.
  - destruct Hn as [Hn|[-> Hn]].
    + destruct (node_at_some_load _ _ _ _ Hn) as [nn Hl].
      pose proof Hl as Hl'. apply load_done in Hl' as [Hnode Hnn].
      destruct (Z.eqb_spec node NULL) as [E|_]; [done|].
      destruct fuel as [|fuel]; [lia|]. rewrite Hl. cbn.
      rewrite bit_of_S, child_key_bit.
      assert (Hv : value_at (mem st) (root (tree st)) (key_path key i) = n_value nn).
      { unfold value_at. by rewrite Hn, Hnn. }
      rewrite Hv.
      replace (if negb (n_value nn =? NGX_RADIX_NO_VALUE) then n_value nn else v)
        with (if n_value nn =? NGX_RADIX_NO_VALUE then v else n_value nn)
        by (by destruct (n_value nn =? NGX_RADIX_NO_VALUE)).
      apply IH; [|lia|lia].
      destruct (Z.eqb_spec (child_of (key_bit key i) nn) NULL) as [Ec|Ec].
      * right. split; [done|]. rewrite key_path_S.
        destruct (node_at _ _ (key_path key i ++ _)) as [c|] eqn:E; [|done].
        apply node_at_snoc_inv in E as (a0 & n0 & Ha0 & Hn0 & Hc0 & Hcn & _).
        rewrite Hn in Ha0. inversion Ha0; subst a0.
        rewrite Hnn in Hn0. inversion Hn0; subst n0. congruence.
      * left. rewrite key_path_S. apply (node_at_snoc_some _ _ _ _ node nn); try done.
        by apply (inv_closed st Hinv (key_path key i) node nn).
    + cbn [Z.eqb NULL]. f_equal. symmetry. apply deepest_value_absent.
      intros j Hj. unfold value_at.
      destruct (node_at _ _ (key_path key j)) as [a|] eqn:E; [|done].
      destruct (node_at_prefix _ _ _ _ i _ E ltac:(lia)) as [c Hc]. congruence.
Qed.

Lemma find_spec st key fuel :
  tree_inv st -> (33 <= fuel)%nat ->
  ngx_radix32tree_find fuel st key =
  Done (deepest_value (value_at (mem st) (root (tree st))) key 0 33 NGX_RADIX_NO_VALUE).
Proof.
  intros Hinv Hf. unfold ngx_radix32tree_find. change 2147483648 with (bit_of 0).
  apply find_loop_spec; [done| |lia|lia].
  left. destruct (inv_root st Hinv) as (nr & Hlr & Hpr).
  unfold key_path, key_seg. simpl seq. simpl map. by rewrite node_at_nil, Hlr.
Qed.

(** ** Creation *)

Lemma init_tree_inv r pl w :
  0 < r -> r + ngx_pagesize <= brk w -> pool_sane pl w ->
  let st0 :=
    mk_state (mk_tree r NULL (r + sizeof_ngx_radix_node_t)
                (ngx_pagesize - sizeof_ngx_radix_node_t))
      (<[r := mk_node NULL NULL NULL NGX_RADIX_NO_VALUE]> ∅) pl w in
  tree_inv st0 /\ complete st0 0.
Proof.
  intros Hr Hbrk Hpool st0.
  set (m := <[r := mk_node NULL NULL NULL NGX_RADIX_NO_VALUE]> (∅ : gmap Z ngx_radix_node_t)).
  assert (Hmr : m !! r = Some (mk_node NULL NULL NULL NGX_RADIX_NO_VALUE))
    by apply lookup_insert_eq.
  assert (Hmo : forall x n, m !! x = Some n ->
            x = r /\ n = mk_node NULL NULL NULL NGX_RADIX_NO_VALUE).
  { intros x n. unfold m. destruct (decide (x = r)) as [->|Hne].
    - rewrite lookup_insert_eq. intros H. by inversion H.
    - rewrite lookup_insert_ne by done. by rewrite lookup_empty. }
  assert (Hr0 : r <> NULL) by (unfold NULL; lia).
  assert (Hnode : forall path a, node_at m r path = Some a -> path = [] /\ a = r).
  { intros [|b path] a.
    - rewrite node_at_nil_inv. by intros (-> & _).
    - rewrite node_at_cons, (proj2 (load_done m r _) (conj Hr0 Hmr)).
      replace (child_of b _) with NULL by (by destruct b).
      by rewrite node_at_null. }
  assert (Hnil : node_at m r [] = Some r).
  { apply node_at_nil_inv. eauto. }
  unfold ngx_pagesize, sizeof_ngx_radix_node_t in *.
  split.
  - constructor; unfold st0; cbn [mem tree root free start size os pool]; fold m.
    + eexists. split; [apply load_done; split; [done|exact Hmr]|done].
    + intros path a n b Ha Hn Hc. apply Hmo in Hn as [_ ->]. by destruct b.
    + intros p1 p2 a H1 H2. apply Hnode in H1 as [-> _], H2 as [-> _]. done.
    + intros path b a n Ha. apply Hnode in Ha as [Ha _]. by destruct path.
    + intros path a Ha. apply Hnode in Ha as [-> _]. simpl. lia.
    + exists []. split; [done|]. split; [constructor|].
      intros a path Ha. by apply elem_of_nil in Ha.
    + intros a [n Hn]. apply Hmo in Hn as [-> _]. lia.
    + intros _. split; [lia|]. split; [lia|].
      intros a [n Hn]. apply Hmo in Hn as [-> _]. lia.
    + done.
  - unfold complete, st0; cbn [mem tree root]; fold m. split; [|split].
    + intros path. split.
      * intros [a Ha]. apply Hnode in Ha as [-> _]. simpl. lia.
      * intros Hl. destruct path; [|simpl in Hl; lia]. eauto.
    + intros path a n Ha Hn. by apply Hmo in Hn as [_ ->].
    + intros path a n _ Ha Hn. by apply Hmo in Hn as [_ ->].
Qed.

Lemma create_start fuel pl d w :
  pool_sane pl w ->
  (ngx_radix_tree_create (S (S (S fuel))) pl d w = Done None /\ limit w <> None) \/
  exists st0,
    tree_inv st0 /\ complete st0 0 /\ limit (os st0) = limit w /\
    ngx_radix_tree_create (S (S (S fuel))) pl d w =
      if d =? 0 then Done (Some st0)
      else prealloc_levels (S (S (S fuel))) (S (S (S fuel))) st0
             (if d =? -1 then 6 else d) 0 0x80000000.
Proof.
  intros Hsane. unfold ngx_radix_tree_create.
  destruct (palloc_sane fuel pl sizeof_ngx_radix_tree_t w Hsane)
    as (t & pl1 & w1 & Hpa & Hsane1 & Hbrk1 & Hlim1 & Hnn1).
  { unfold sizeof_ngx_radix_tree_t. lia. }
  rewrite Hpa. cbn.
  destruct (Z.eqb_spec t NULL) as [Et|Et].
  { left. split; [done|]. intros Hn. by apply Hnn1 in Hn. }
  unfold ngx_radix_alloc. cbn [tree free size negb Z.eqb NULL pool os].
  change (0 <? sizeof_ngx_radix_node_t) with true. cbn [negb].
  destruct (pmemalign_sane (S (S fuel)) pl1 w1 Hsane1)
    as (p & pl2 & w2 & Hpm & Hsane2 & Hbrk2 & Hlim2 & Hp & Hnn2).
  rewrite Hpm. cbn.
  destruct (Z.eqb_spec p NULL) as [Ep|Ep].
  { cbn. left. split; [done|]. intros Hn. rewrite <- Hlim1 in Hn. by apply Hnn2 in Hn. }
  cbn. destruct (p =? NULL) eqn:Ep'; [lia|].
  destruct (Hp Ep) as [Hp1 Hp2].
  destruct Hsane1 as (Hb1 & _).
  destruct (init_tree_inv p pl2 w2) as [Hinv Hcomp]; [lia|lia|done|].
  right. eexists. split; [exact Hinv|]. split; [exact Hcomp|].
  split; [cbn; congruence|]. reflexivity.
Qed.

(** ** Bits of keys and masks *)

Lemma bit_of_pow2 i : (i < 32)%nat -> bit_of i = 2 ^ (31 - Z.of_nat i).
Proof.
  intros Hi. unfold bit_of. rewrite Z.shiftr_div_pow2 by lia.
  change 2147483648 with (2 ^ 31).
  rewrite <- Z.pow_sub_r by lia. reflexivity.
Qed.

Lemma land_pow2_eqb k j :
  0 <= j -> (Z.land k (2 ^ j) =? 0) = negb (Z.testbit k j).
Proof.
  intros Hj. destruct (Z.testbit k j) eqn:Eb; simpl.
  - apply Z.eqb_neq. intros E. apply (f_equal (fun x => Z.testbit x j)) in E.
    rewrite Z.land_spec, Eb, Z.pow2_bits_true, Z.bits_0 in E by lia. discriminate.
  - apply Z.eqb_eq. apply Z.bits_inj'. intros t Ht.
    rewrite Z.land_spec, Z.bits_0.
    destruct (decide (t = j)) as [->|Hne].
    + by rewrite Eb.
    + rewrite Z.pow2_bits_false by lia. apply andb_false_r.
Qed.

Lemma key_bit_testbit k i :
  (i < 32)%nat -> key_bit k i = Z.testbit k (31 - Z.of_nat i).
Proof.
  intros Hi. unfold key_bit. rewrite bit_of_pow2 by lia.
  rewrite land_pow2_eqb by lia. apply negb_involutive.
Qed.

Lemma cidr_mask_testbit n t :
  (n <= 32)%nat -> 0 <= t ->
  Z.testbit (cidr_mask n) t = (32 - Z.of_nat n <=? t) && (t <? 32).
Proof.
  intros Hn Ht. unfold cidr_mask. rewrite Z.shiftl_spec by lia.
  destruct (Z.leb_spec (32 - Z.of_nat n) t) as [H1|H1]; simpl.
  - destruct (Z.ltb_spec t 32) as [H2|H2].
    + apply Z.ones_spec_low. lia.
    + apply Z.ones_spec_high. lia.
  - apply Z.testbit_neg_r. lia.
Qed.

Lemma key_path_eq_iff k p n :
  key_path k n = key_path p n <->
  forall i, (i < n)%nat -> key_bit k i = key_bit p i.
Proof.
  induction n as [|n IH].
  - split; [intros _ i Hi; lia|done].
  - rewrite !key_path_S. split.
    + intros H i Hi. apply app_inj_tail in H as [H1 H2].
      destruct (decide (i = n)) as [->|Hne]; [done|].
      apply IH; [done|lia].
    + intros H. f_equal.
      * apply IH. intros i Hi. apply H. lia.
      * f_equal. apply H. lia.
Qed.

(** [(k & m) == p] says that [k] runs along the path of the prefix. *)
Lemma matches_iff_path k p n :
  (n <= 32)%nat -> Z.land p (cidr_mask n) = p ->
  Z.land k (cidr_mask n) = p <-> key_path k n = key_path p n.
Proof.
  intros Hn Hp. rewrite key_path_eq_iff. split.
  - intros E i Hi. rewrite !key_bit_testbit by lia.
    apply (f_equal (fun x => Z.testbit x (31 - Z.of_nat i))) in E.
    rewrite Z.land_spec, cidr_mask_testbit in E by lia.
    destruct (Z.leb_spec (32 - Z.of_nat n) (31 - Z.of_nat i)); [|lia].
    destruct (Z.ltb_spec (31 - Z.of_nat i) 32); [|lia].
    by rewrite andb_true_r in E.
  - intros H. apply Z.bits_inj'. intros t Ht.
    rewrite <- Hp. rewrite !Z.land_spec, cidr_mask_testbit by lia.
    destruct (Z.leb_spec (32 - Z.of_nat n) t) as [H1|H1]; simpl;
      [|by rewrite !andb_false_r].
    destruct (Z.ltb_spec t 32) as [H2|H2]; [|by rewrite !andb_false_r].
    rewrite !andb_true_r.
    specialize (H (Z.to_nat (31 - t)) ltac:(lia)).
    rewrite !key_bit_testbit in H by lia.
    by replace (31 - Z.of_nat (Z.to_nat (31 - t))) with t in H by lia.
Qed.

Lemma cidr_path key mask :
  cidr key mask ->
  exists n, (n <= 32)%nat /\ mask = cidr_mask n /\ prefix_len mask = n /\
            prefix_path key mask = key_path key n /\
            Z.land key (cidr_mask n) = key.
Proof.
  intros ((n & Hn & ->) & Hr & Hl). exists n. unfold prefix_path.
  rewrite prefix_len_cidr_mask by done. done.
Qed.

(** Distinct prefixes have distinct paths. *)
Lemma prefix_path_inj k1 m1 k2 m2 :
  cidr k1 m1 -> cidr k2 m2 ->
  prefix_path k1 m1 = prefix_path k2 m2 -> k1 = k2 /\ m1 = m2.
Proof.
  intros H1 H2 E.
  destruct (cidr_path _ _ H1) as (n1 & Hn1 & -> & _ & Hp1 & Hl1).
  destruct (cidr_path _ _ H2) as (n2 & Hn2 & -> & _ & Hp2 & Hl2).
  rewrite Hp1, Hp2 in E.
  assert (n1 = n2) as ->.
  { apply (f_equal length) in E. by rewrite !key_path_length in E. }
  split; [|done]. symmetry in E.
  apply (matches_iff_path k2 k1 n2 Hn2 Hl1) in E. congruence.
Qed.

(** ** The prefixes a tree stores *)

Lemma cidr_mask_order_check :
  forallb (fun a => forallb (fun b =>
      Bool.eqb (cidr_mask a <? cidr_mask b) (a <? b)%nat)
    (seq 0 33)) (seq 0 33) = true.
Proof. vm_compute. reflexivity. Qed.

Lemma cidr_mask_ltb a b :
  (a <= 32)%nat -> (b <= 32)%nat ->
  (cidr_mask a <? cidr_mask b) = (a <? b)%nat.
Proof.
  intros Ha Hb. pose proof cidr_mask_order_check as H.
  rewrite List.forallb_forall in H.
  specialize (H a ltac:(apply in_seq; lia)).
  rewrite List.forallb_forall in H.
  specialize (H b ltac:(apply in_seq; lia)).
  by apply Bool.eqb_prop in H.
Qed.

Lemma value_of_nil path : value_of [] path = NGX_RADIX_NO_VALUE.
Proof. done. Qed.

Lemma value_of_cons e live path :
  value_of (e :: live) path =
  if decide (prefix_path (entry_key e) (entry_mask e) = path)
  then entry_value e else value_of live path.
Proof.
  unfold value_of. cbn [List.find].
  destruct (decide (prefix_path (entry_key e) (entry_mask e) = path)) as [E|E].
  - by rewrite bool_decide_eq_true_2.
  - by rewrite bool_decide_eq_false_2.
Qed.

Lemma value_of_some live path :
  value_of live path <> NGX_RADIX_NO_VALUE ->
  exists e, e ∈ live /\ prefix_path (entry_key e) (entry_mask e) = path /\
            entry_value e = value_of live path.
Proof.
  induction live as [|e live IH]; [done|].
  rewrite value_of_cons. destruct (decide _) as [E|E].
  - intros _. exists e. split; [left|done].
  - intros H. destruct (IH H) as (e' & Hin & Hp & Hv).
    exists e'. split; [by right|done].
Qed.

Lemma value_of_none live path :
  entries_ok live ->
  (forall e, e ∈ live -> prefix_path (entry_key e) (entry_mask e) <> path) ->
  value_of live path = NGX_RADIX_NO_VALUE.
Proof.
  intros Hok H. destruct (decide (value_of live path = NGX_RADIX_NO_VALUE)) as [|Hne];
    [done|].
  destruct (value_of_some _ _ Hne) as (e & Hin & Hp & _). by destruct (H e Hin).
Qed.

Lemma value_of_in live e :
  entries_ok live -> NoDup (map fst live) -> e ∈ live ->
  value_of live (prefix_path (entry_key e) (entry_mask e)) = entry_value e.
Proof.
  intros Hok Hnd Hin. induction live as [|e0 live IH]; [by apply elem_of_nil in Hin|].
  apply Forall_cons in Hok as [[Hc0 Hv0] Hok].
  apply NoDup_cons in Hnd as [Hnot Hnd].
  rewrite value_of_cons. apply elem_of_cons in Hin as [->|Hin].
  - by rewrite decide_True.
  - destruct (decide _) as [E|E]; [|by apply IH].
    exfalso. apply Hnot.
    rewrite Forall_forall in Hok. destruct (Hok e Hin) as [Hc _].
    destruct (prefix_path_inj _ _ _ _ Hc0 Hc E) as [Ek Em].
    replace e0.1 with e.1.
    + apply list_elem_of_In, in_map, list_elem_of_In, Hin.
    + destruct e as [[? ?] ?], e0 as [[? ?] ?].
      unfold entry_key, entry_mask in *. simpl in *. congruence.
Qed.

Lemma value_of_filter live key mask path :
  entries_ok live -> cidr key mask ->
  value_of (filter (fun e => ~ same_prefix_as key mask e) live) path =
  if decide (path = prefix_path key mask) then NGX_RADIX_NO_VALUE
  else value_of live path.
Proof.
  intros Hok Hc. induction live as [|e live IH].
  - rewrite filter_nil, value_of_nil. by destruct (decide _).
  - apply Forall_cons in Hok as [[Hce Hve] Hok]. specialize (IH Hok).
    rewrite filter_cons. destruct (decide (~ same_prefix_as key mask e)) as [Hn|Hy].
    + rewrite !value_of_cons, IH.
      destruct (decide (prefix_path (entry_key e) (entry_mask e) = path)) as [E|E];
        [|done].
      destruct (decide (path = prefix_path key mask)) as [E'|E']; [|done].
      destruct Hn. rewrite E' in E.
      by destruct (prefix_path_inj _ _ _ _ Hce Hc E).
    + apply dec_stable in Hy as [Hk Hm].
      rewrite IH, value_of_cons, Hk, Hm.
      destruct (decide (path = prefix_path key mask)) as [E'|E']; [done|].
      by rewrite decide_False.
Qed.

Lemma entries_ok_filter (P : Z * Z * Z -> Prop) `{!forall e, Decision (P e)} live :
  entries_ok live -> entries_ok (filter P live).
Proof.
  unfold entries_ok. rewrite !Forall_forall. intros Hall e He.
  apply list_elem_of_filter in He as [_ He]. by apply Hall.
Qed.

Lemma keys_filter (P : Z * Z * Z -> Prop) `{!forall e, Decision (P e)} live :
  NoDup (map fst live) -> NoDup (map fst (filter P live)).
Proof.
  induction live as [|e live IH]; [done|].
  cbn [map]. intros [Hnot Hnd]%NoDup_cons. rewrite filter_cons.
  destruct (decide (P e)); [|by apply IH].
  cbn [map]. apply NoDup_cons. split; [|by apply IH].
  intros Hin. apply Hnot.
  apply list_elem_of_In, in_map_iff in Hin as (x & Hx & Hin).
  apply list_elem_of_In, list_elem_of_filter in Hin as [_ Hin].
  rewrite <- Hx. by apply list_elem_of_In, in_map, list_elem_of_In.
Qed.

(** ** Sequences of insertions and deletions *)

Lemma value_of_absent live e :
  entries_ok live -> e ∈ live ->
  value_of live (prefix_path (entry_key e) (entry_mask e)) <> NGX_RADIX_NO_VALUE.
Proof.
  intros Hok Hin. induction live as [|e0 live IH]; [by apply elem_of_nil in Hin|].
  apply Forall_cons in Hok as [[Hc0 Hv0] Hok]. rewrite value_of_cons.
  destruct (decide _) as [E|E]; [done|].
  apply elem_of_cons in Hin as [->|Hin]; [done|by apply IH].
Qed.

(** The tree follows the list of stored prefixes through any sequence of
    calls that never deletes at a childless root. *)
Lemma run_spec fuel ops :
  (33 <= fuel)%nat ->
  forall st live,
    tree_inv st -> represents st live -> entries_ok live ->
    NoDup (map fst live) -> Forall op_ok ops -> guarded fuel st ops ->
    exists rcs st',
      run fuel st ops = Done (rcs, st') /\ length rcs = length ops /\
      tree_inv st' /\
      represents st' (stored ops rcs live) /\
      entries_ok (stored ops rcs live) /\
      NoDup (map fst (stored ops rcs live)).
Proof.
  intros Hfuel. induction ops as [|o ops IH]; intros st live Hinv Hrep Hok Hnd Hops Hg.
  - exists [], st. by cbn.
  - apply Forall_cons in Hops as [Ho Hops]. cbn [guarded] in Hg.
    destruct Hg as [Hg1 Hg2]. cbn [run]. destruct o as [key mask v|key mask].
    + destruct Ho as [Hc Hv]. cbn [step] in *.
      destruct (insert_spec fuel st key mask v Hinv Hfuel)
        as (rc & st1 & Hins & Hinv1 & Hroot1 & _ & Hrc).
      rewrite Hins in Hg2 |- *. cbn.
      set (live1 := if decide (rc = NGX_OK) then (key, mask, v) :: live else live).
      assert (Hlive1 : represents st1 live1 /\ entries_ok live1 /\
                       NoDup (map fst live1)).
      { subst live1. destruct rc; try done.
        - destruct Hrc as (Hno & Hval & _). rewrite decide_True by done.
          split; [|split].
          + intros path. rewrite Hroot1, Hval, value_of_cons.
            unfold entry_key, entry_mask, entry_value. cbn [fst snd].
            destruct (decide (path = prefix_path key mask)) as [->|E].
            * by rewrite decide_True.
            * rewrite decide_False by done. apply Hrep.
          + apply Forall_cons. split; [done|exact Hok].
          + cbn [map fst]. apply NoDup_cons. split; [|done].
            intros Hin. apply list_elem_of_In, in_map_iff in Hin as (e & He & Hin).
            apply list_elem_of_In in Hin.
            pose proof (value_of_absent live e Hok Hin) as Hne.
            rewrite <- Hrep in Hne. apply Hne.
            destruct e as [[k m] x]. simpl in He. injection He as -> ->.
            exact Hno.
        - destruct Hrc as (_ & Hval). rewrite decide_False by done.
          split; [|done]. intros path. rewrite Hroot1, Hval. apply Hrep.
        - destruct Hrc as (-> & _). by rewrite decide_False. }
      destruct Hlive1 as (Hrep1 & Hok1 & Hnd1).
      destruct (IH st1 live1 Hinv1 Hrep1 Hok1 Hnd1 Hops Hg2)
        as (rcs & st' & Hrun & Hlen & Hinv' & Hrep' & Hok' & Hnd').
      exists (rc :: rcs), st'. rewrite Hrun. cbn.
      split; [done|]. split; [by rewrite Hlen|]. done.
    + cbn [step] in *. cbn in Ho.
      destruct (delete_spec fuel st key mask Hinv Hfuel Hg1)
        as (rc & st1 & Hdel & Hinv1 & Hroot1 & _ & _ & Hval).
      rewrite Hdel in Hg2 |- *. cbn.
      set (live1 := filter (fun e => ~ same_prefix_as key mask e) live).
      assert (Hrep1 : represents st1 live1).
      { intros path. subst live1. rewrite Hroot1, Hval, value_of_filter by done.
        destruct (decide _); [done|apply Hrep]. }
      destruct (IH st1 live1 Hinv1 Hrep1 (entries_ok_filter _ _ Hok)
                  (keys_filter _ _ Hnd) Hops Hg2)
        as (rcs & st' & Hrun & Hlen & Hinv' & Hrep' & Hok' & Hnd').
      exists (rc :: rcs), st'. rewrite Hrun. cbn.
      split; [done|]. split; [by rewrite Hlen|]. done.
Qed.

(** ** The deepest value on the way is the longest matching prefix *)

Lemma deepest_value_last f key i n v j :
  (i <= j < i + n)%nat ->
  f (key_path key j) <> NGX_RADIX_NO_VALUE ->
  (forall j', (j < j' < i + n)%nat -> f (key_path key j') = NGX_RADIX_NO_VALUE) ->
  deepest_value f key i n v = f (key_path key j).
Proof.
  revert i v. induction n as [|n IH]; intros i v Hj Hv Hrest; [lia|].
  cbn [deepest_value]. destruct (decide (i = j)) as [->|Hne].
  - apply Z.eqb_neq in Hv. rewrite Hv.
    apply deepest_value_absent. intros j' Hj'. apply Hrest. lia.
  - apply IH; [lia|done|]. intros j' Hj'. apply Hrest. lia.
Qed.

Lemma longest_fold k live : forall acc,
  match fold_left (fun best e => if matches k e then longer best e else best)
          live acc with
  | None => acc = None /\ forall e, e ∈ live -> matches k e = false
  | Some b =>
      (acc = Some b \/ (b ∈ live /\ matches k b = true)) /\
      (forall a, acc = Some a -> entry_mask a <= entry_mask b) /\
      (forall e, e ∈ live -> matches k e = true -> entry_mask e <= entry_mask b)
  end.
Proof.
  induction live as [|e live IH]; intros acc.
  - cbn. destruct acc as [a|].
    + split; [by left|]. split; [intros ? [= ->]; lia|].
      intros e He. by apply elem_of_nil in He.
    + split; [done|]. intros e He. by apply elem_of_nil in He.
  - cbn [fold_left]. specialize (IH (if matches k e then longer acc e else acc)).
    destruct (fold_left _ live _) as [b|].
    + destruct IH as (Hb & Hacc & Hall).
      destruct (matches k e) eqn:Em.
      * assert (Heb : entry_mask e <= entry_mask b).
        { destruct acc as [a|]; cbn in Hacc.
          - destruct (Z.ltb_spec (entry_mask a) (entry_mask e)).
            + by apply Hacc.
            + specialize (Hacc a eq_refl). lia.
          - by apply Hacc. }
        split; [|split].
        -- destruct Hb as [Hb|[Hb Hm]]; [|right; split; [by right|done]].
           destruct acc as [a|]; cbn in Hb.
           ++ destruct (entry_mask a <? entry_mask e); injection Hb as <-.
              ** right. split; [left|done].
              ** by left.
           ++ injection Hb as <-. right. split; [left|done].
        -- intros a ->. cbn in Hacc.
           destruct (Z.ltb_spec (entry_mask a) (entry_mask e)).
           ++ lia.
           ++ by apply Hacc.
        -- intros e' [->|He']%elem_of_cons Hm'; [done|by apply Hall].
      * split; [|split].
        -- destruct Hb as [Hb|[Hb Hm]]; [by left|right; split; [by right|done]].
        -- done.
        -- intros e' [->|He']%elem_of_cons Hm'; [congruence|by apply Hall].
    + destruct IH as (Hacc & Hall). destruct (matches k e) eqn:Em.
      * destruct acc as [a|]; cbn in Hacc; [|done].
        by destruct (entry_mask a <? entry_mask e).
      * split; [done|]. intros e' [->|He']%elem_of_cons; [done|by apply Hall].
Qed.

Lemma entry_path k live e :
  entries_ok live -> e ∈ live ->
  exists n, (n <= 32)%nat /\ entry_mask e = cidr_mask n /\
            prefix_path (entry_key e) (entry_mask e) = key_path (entry_key e) n /\
            (matches k e = true <-> key_path k n = key_path (entry_key e) n).
Proof.
  intros Hok Hin. unfold entries_ok in Hok. rewrite Forall_forall in Hok.
  destruct (Hok e Hin) as [Hc _].
  destruct (cidr_path _ _ Hc) as (n & Hn & Hm & _ & Hp & Hl).
  exists n. split; [done|]. split; [done|]. split; [done|].
  unfold matches. rewrite Z.eqb_eq, Hm. by apply matches_iff_path.
Qed.

Lemma deepest_value_longest_match live k :
  entries_ok live -> NoDup (map fst live) ->
  deepest_value (value_of live) k 0 33 NGX_RADIX_NO_VALUE = longest_match live k.
Proof.
  intros Hok Hnd. unfold longest_match.
  pose proof (longest_fold k live None) as Hfold.
  destruct (fold_left _ live None) as [b|].
  - destruct Hfold as ([?|[Hb Hm]] & _ & Hmax); [done|].
    destruct (entry_path k live b Hok Hb) as (n & Hn & Hmask & Hpath & Hiff).
    apply Hiff in Hm.
    rewrite <- (value_of_in live b Hok Hnd Hb), Hpath, <- Hm.
    apply deepest_value_last; [lia| |].
    + rewrite Hm, <- Hpath. by apply value_of_absent.
    + intros j Hj. apply value_of_none; [done|].
      intros e He Hpe.
      destruct (entry_path k live e Hok He) as (n' & Hn' & Hmask' & Hpath' & Hiff').
      rewrite Hpath' in Hpe.
      assert (n' = j) as ->.
      { apply (f_equal length) in Hpe. by rewrite !key_path_length in Hpe. }
      symmetry in Hpe. apply Hiff' in Hpe. specialize (Hmax e He Hpe).
      rewrite Hmask, Hmask' in Hmax.
      pose proof (cidr_mask_ltb n j Hn Hn') as Hlt.
      destruct (Z.ltb_spec (cidr_mask n) (cidr_mask j)); [lia|].
      symmetry in Hlt. apply Nat.ltb_ge in Hlt. lia.
  - destruct Hfold as (_ & Hnone). apply deepest_value_absent.
    intros j Hj. apply value_of_none; [done|]. intros e He Hpe.
    destruct (entry_path k live e Hok He) as (n' & Hn' & Hmask' & Hpath' & Hiff').
    rewrite Hpath' in Hpe.
    assert (n' = j) as ->.
    { apply (f_equal length) in Hpe. by rewrite !key_path_length in Hpe. }
    symmetry in Hpe. apply Hiff' in Hpe. rewrite (Hnone e He) in Hpe. done.
Qed.

(** ** Trees as ngx_radix_tree_create returns them *)

Lemma prealloc_level_eq fuel n st key mask inc :
  prealloc_level fuel (S n) st key mask inc =
  '(rc, st) ← ngx_radix32tree_insert fuel st key mask NGX_RADIX_NO_VALUE;
  if negb (bool_decide (rc = NGX_OK)) then Done None
  else
    let key := (key + inc) mod 2 ^ 32 in
    if key =? 0 then Done (Some st)
    else prealloc_level fuel n st key mask inc.
Proof. reflexivity. Qed.

Lemma prealloc_levels_eq fuel n st preallocate mask inc :
  prealloc_levels fuel (S n) st preallocate mask inc =
  if preallocate =? 0 then Done (Some st)
  else
    r ← prealloc_level fuel fuel st 0 (Z.lor (Z.shiftr mask 1) 0x80000000) inc;
    match r with
    | None => Done None
    | Some st =>
        prealloc_levels fuel n st (preallocate - 1)
          (Z.lor (Z.shiftr mask 1) 0x80000000) (Z.shiftr inc 1)
    end.
Proof. reflexivity. Qed.

Lemma represents_nil_insert fuel st key mask st' :
  (33 <= fuel)%nat -> tree_inv st -> represents st [] ->
  ngx_radix32tree_insert fuel st key mask NGX_RADIX_NO_VALUE = Done (NGX_OK, st') ->
  tree_inv st' /\ represents st' [].
Proof.
  intros Hfuel Hinv Hrep Hins.
  destruct (insert_spec fuel st key mask NGX_RADIX_NO_VALUE Hinv Hfuel)
    as (rc & st1 & Hins1 & Hinv1 & Hroot1 & _ & Hrc).
  rewrite Hins in Hins1. injection Hins1 as <- <-.
  split; [done|]. destruct Hrc as (_ & Hval & _).
  intros path. rewrite Hroot1, Hval, value_of_nil.
  destruct (decide _); [done|]. by rewrite Hrep.
Qed.

Lemma prealloc_level_inv fuel n : forall st key mask inc st',
  (33 <= fuel)%nat -> tree_inv st -> represents st [] ->
  prealloc_level fuel n st key mask inc = Done (Some st') ->
  tree_inv st' /\ represents st' [].
Proof.
  induction n as [|n IH]; intros st key mask inc st' Hfuel Hinv Hrep H; [done|].
  rewrite prealloc_level_eq in H.
  apply res_bind_done in H as ([rc st1] & Hins & H).
  destruct (bool_decide (rc = NGX_OK)) eqn:Erc; [|done].
  apply bool_decide_eq_true in Erc as ->. cbn in H.
  destruct (represents_nil_insert _ _ _ _ _ Hfuel Hinv Hrep Hins) as [Hinv1 Hrep1].
  destruct (_ =? 0).
  - by injection H as <-.
  - by apply IH in H.
Qed.

Lemma prealloc_levels_inv fuel n : forall st d mask inc st',
  (33 <= fuel)%nat -> tree_inv st -> represents st [] ->
  prealloc_levels fuel n st d mask inc = Done (Some st') ->
  tree_inv st' /\ represents st' [].
Proof.
  induction n as [|n IH]; intros st d mask inc st' Hfuel Hinv Hrep H.
  - unfold prealloc_levels in H. destruct (d =? 0); [|done]. by injection H as <-.
  - rewrite prealloc_levels_eq in H. destruct (d =? 0); [by injection H as <-|].
    apply res_bind_done in H as (r & Hlev & H). destruct r as [st1|]; [|done].
    destruct (prealloc_level_inv _ _ _ _ _ _ _ Hfuel Hinv Hrep Hlev) as [Hinv1 Hrep1].
    by apply IH in H.
Qed.

Lemma complete_represents st d : complete st d -> represents st [].
Proof.
  intros (_ & Hval & _) path. rewrite value_of_nil. unfold value_at.
  destruct (node_at _ _ path) as [a|] eqn:Ha; [|done].
  destruct (mem st !! a) as [n|] eqn:Hn; [|done]. by apply (Hval path a n).
Qed.

(** A tree that ngx_radix_tree_create returns is well formed and stores
    no prefix, whatever was preallocated. *)
Lemma create_inv fuel pl d w st0 :
  pool_sane pl w -> (33 <= fuel)%nat ->
  ngx_radix_tree_create fuel pl d w = Done (Some st0) ->
  tree_inv st0 /\ represents st0 [].
Proof.
  intros Hsane Hfuel H.
  destruct fuel as [|[|[|fuel]]]; [lia|lia|lia|].
  destruct (create_start fuel pl d w Hsane) as [[E _]|(st1 & Hinv & Hc & _ & E)];
    [congruence|].
  rewrite E in H. apply complete_represents in Hc.
  destruct (d =? 0); [by injection H as <-|].
  by apply prealloc_levels_inv in H.
Qed.

(** ** Longest-prefix match (C1) *)

Lemma deepest_value_ext f g key i n v :
  (forall path, f path = g path) ->
  deepest_value f key i n v = deepest_value g key i n v.
Proof.
  intros H. revert i v. induction n as [|n IH]; intros i v; [done|].
  cbn [deepest_value]. rewrite H. apply IH.
Qed.




(** ** Preallocation (C8) *)

Lemma cidr_mask_next_check :
  forallb (fun l =>
      Z.lor (Z.shiftr (cidr_mask l) 1) 0x80000000 =? cidr_mask (Nat.min (S l) 32))
    (seq 0 33) = true.
Proof. vm_compute. reflexivity. Qed.

(** [mask >>= 1; mask |= 0x80000000] lengthens the mask by one bit, up
    to 32 bits. *)
Lemma cidr_mask_next l :
  (l <= 32)%nat ->
  Z.lor (Z.shiftr (cidr_mask l) 1) 0x80000000 = cidr_mask (Nat.min (S l) 32).
Proof.
  intros Hl. pose proof cidr_mask_next_check as H.
  rewrite List.forallb_forall in H.
  specialize (H l ltac:(apply in_seq; lia)). by apply Z.eqb_eq in H.
Qed.

(** The directions of the key [i * 2^(32-m)] are the low [m] bits of
    [i], from the top. *)
Lemma key_bit_scaled i m t :
  (t < m <= 32)%nat ->
  key_bit (i * 2 ^ (32 - Z.of_nat m)) t
  = Z.testbit i (Z.of_nat m - 1 - Z.of_nat t).
Proof.
  intros Ht. rewrite key_bit_testbit by lia.
  rewrite Z.mul_pow2_bits by lia. f_equal. lia.
Qed.

(** Every path of [m] directions is the path of one of the keys that one
    level of preallocation inserts. *)
Lemma every_path_is_a_key m : forall path,
  (m <= 32)%nat -> length path = m ->
  exists i, 0 <= i < 2 ^ Z.of_nat m /\
            path = key_path (i * 2 ^ (32 - Z.of_nat m)) m.
Proof.
  induction m as [|m IH]; intros path Hm Hlen.
  - destruct path; [|done]. exists 0. split; [simpl; lia|done].
  - destruct (decide (path = [])) as [->|Hne]; [done|].
    destruct (exists_last Hne) as (p & b & ->).
    rewrite length_app in Hlen. cbn in Hlen.
    destruct (IH p ltac:(lia) ltac:(lia)) as (i & Hi & Hp).
    exists (2 * i + Z.b2z b). split.
    + rewrite Nat2Z.inj_succ, Z.pow_succ_r by lia. destruct b; cbn; lia.
    + rewrite key_path_S. f_equal.
      * rewrite Hp. apply key_path_eq_iff. intros t Ht.
        rewrite !key_bit_scaled by lia.
        replace (Z.of_nat (S m) - 1 - Z.of_nat t)
          with (Z.succ (Z.of_nat m - 1 - Z.of_nat t)) by lia.
        by rewrite Z.testbit_succ_r by lia.
      * f_equal. rewrite key_bit_scaled by lia.
        replace (Z.of_nat (S m) - 1 - Z.of_nat m) with 0 by lia.
        by rewrite Z.testbit_0_r.
Qed.

(** The nodes of a complete tree, counted. *)
Lemma count_nodes_complete st d : forall r path a fuel,
  tree_inv st -> complete st d ->
  (length path + r = d)%nat ->
  node_at (mem st) (root (tree st)) path = Some a ->
  (r < fuel)%nat ->
  count_nodes fuel (mem st) a = 2 ^ (Z.of_nat r + 1) - 1.
Proof.
  induction r as [|r IH]; intros path a fuel Hinv Hc Hlen Ha Hf;
    (destruct fuel as [|fuel]; [lia|]);
    destruct (node_at_some_load _ _ _ _ Ha) as [n Hl];
    pose proof Hl as Hn; apply load_done in Hn as [_ Hn];
    cbn [count_nodes]; rewrite Hl.
  - destruct Hc as (_ & _ & Hleaf).
    destruct (Hleaf path a n ltac:(lia) Ha Hn) as [-> ->].
    assert (Hnull : count_nodes fuel (mem st) NULL = 0) by by destruct fuel.
    rewrite Hnull. reflexivity.
  - assert (Hchild : forall b,
      count_nodes fuel (mem st) (child_of b n) = 2 ^ (Z.of_nat r + 1) - 1).
    { intros b. pose proof Hc as (Hpaths & _ & _).
      destruct (proj2 (Hpaths (path ++ [b]))) as [c Hcn].
      { rewrite length_app. cbn. lia. }
      destruct (node_at_snoc_inv _ _ _ _ _ Hcn) as (a' & n' & Ha' & Hn' & Hch & _).
      rewrite Ha in Ha'. injection Ha' as <-. rewrite Hn in Hn'. injection Hn' as <-.
      rewrite Hch. apply (IH (path ++ [b])); [done|done| |done|lia].
      rewrite length_app. cbn. lia. }
    pose proof (Hchild false) as H0. pose proof (Hchild true) as H1.
    cbn [child_of] in H0, H1. rewrite H0, H1.
    replace (Z.of_nat (S r) + 1) with (Z.succ (Z.of_nat r + 1)) by lia.
    rewrite Z.pow_succ_r by lia. lia.
Qed.

Lemma bit_of_scale l :
  (l < 32)%nat ->
  bit_of l = 2 ^ (32 - Z.of_nat (S l)) /\
  0 < bit_of l /\ 2 ^ (Z.of_nat l + 1) * bit_of l = 2 ^ 32.
Proof.
  intros Hl. rewrite bit_of_pow2 by lia.
  replace (32 - Z.of_nat (S l)) with (31 - Z.of_nat l) by lia.
  split; [done|]. split; [apply Z.pow_pos_nonneg; lia|].
  rewrite <- Z.pow_add_r by lia. f_equal. lia.
Qed.

(** One level of preallocation, from the [j]-th key on. *)
Lemma prealloc_level_spec fuel l :
  (33 <= fuel)%nat -> (l < 32)%nat ->
  forall cnt j st,
    partial_level st l (bit_of l) j ->
    0 <= j < 2 ^ (Z.of_nat l + 1) ->
    2 ^ (Z.of_nat l + 1) - j <= Z.of_nat cnt ->
    exists st',
      prealloc_level fuel cnt st (j * bit_of l) (cidr_mask (S l)) (bit_of l)
        = Done (Some st') /\
      partial_level st' l (bit_of l) (2 ^ (Z.of_nat l + 1)).
Proof.
  intros Hfuel Hl. destruct (bit_of_scale l Hl) as (_ & Hinc & Hfull).
  set (inc := bit_of l) in *. set (P := 2 ^ (Z.of_nat l + 1)) in *.
  induction cnt as [|cnt IH]; intros j st (Hinv & Hlim & Hrep & Hpaths) Hj Hcnt; [lia|].
  rewrite prealloc_level_eq.
  destruct (insert_spec fuel st (j * inc) (cidr_mask (S l)) NGX_RADIX_NO_VALUE
              Hinv Hfuel) as (rc & st1 & Hins & Hinv1 & Hroot1 & Hlim1 & Hrc).
  rewrite Hins. cbn [res_bind mbind res_mbind].
  assert (Hpl : prefix_len (cidr_mask (S l)) = S l)
    by (apply prefix_len_cidr_mask; lia).
  unfold prefix_path in Hrc. rewrite Hpl in Hrc.
  destruct rc; [|by destruct Hrc as [Hne _]; congruence| |done].
  2: { destruct Hrc as (_ & Hv). by rewrite Hrep, value_of_nil in Hv. }
  destruct Hrc as (_ & Hval & Hnodes).
  rewrite bool_decide_eq_true_2 by done. cbn [negb]. cbv zeta.
  assert (Hnext : partial_level st1 l inc (j + 1)).
  { split; [done|]. split; [congruence|]. split.
    - intros path. rewrite Hroot1, Hval, value_of_nil.
      destruct (decide _); [done|]. by rewrite Hrep.
    - intros path. rewrite Hroot1, Hnodes, Hpaths. split.
      + intros [[Hlen|(i & Hi & ->)]|(t & Ht & ->)].
        * by left.
        * right. exists i. split; [lia|done].
        * destruct (decide (t = S l)) as [->|Hne].
          -- right. exists j. split; [lia|done].
          -- left. rewrite key_path_length. lia.
      + intros [Hlen|(i & Hi & ->)]; [by left; left|].
        destruct (decide (i = j)) as [->|Hne].
        * right. exists (S l). split; [lia|done].
        * left. right. exists i. split; [lia|done]. }
  replace (j * inc + inc) with ((j + 1) * inc) by lia.
  destruct (decide (j + 1 = P)) as [E|E].
  - rewrite E, Hfull, Z_mod_same_full. cbn [Z.eqb].
    exists st1. split; [done|]. by rewrite <- E.
  - rewrite Z.mod_small by nia.
    destruct (Z.eqb_spec ((j + 1) * inc) 0) as [E0|_]; [nia|].
    apply IH; [done|lia|lia].
Qed.

Lemma complete_intro st d :
  tree_inv st -> represents st [] ->
  (forall path,
      is_Some (node_at (mem st) (root (tree st)) path) <-> (length path <= d)%nat) ->
  complete st d.
Proof.
  intros Hinv Hrep Hpaths. split; [done|]. split.
  - intros path a n Ha Hn. specialize (Hrep path).
    unfold value_at in Hrep. by rewrite Ha, Hn, value_of_nil in Hrep.
  - intros path a n Hlen Ha Hn.
    assert (Hno : forall b, child_of b n = NULL).
    { intros b. destruct (decide (child_of b n = NULL)) as [|Hne]; [done|].
      pose proof (inv_closed st Hinv path a n b Ha Hn Hne) as Hin.
      pose proof (node_at_snoc_some _ _ _ b _ _ Ha Hn Hne Hin) as Hc.
      assert (Hs : is_Some (node_at (mem st) (root (tree st)) (path ++ [b])))
        by by rewrite Hc.
      apply Hpaths in Hs. rewrite length_app in Hs. cbn in Hs. lia. }
    split; [apply (Hno false)|apply (Hno true)].
Qed.

Lemma complete_partial st l inc :
  tree_inv st -> limit (os st) = None -> complete st l ->
  partial_level st l inc 0.
Proof.
  intros Hinv Hlim Hc. split; [done|]. split; [done|].
  split; [by apply (complete_represents st l)|].
  intros path. destruct Hc as (Hpaths & _). rewrite Hpaths. split; [by left|].
  intros [H|(i & Hi & _)]; [done|lia].
Qed.

Lemma partial_complete st l :
  (l < 32)%nat ->
  partial_level st l (bit_of l) (2 ^ (Z.of_nat l + 1)) ->
  tree_inv st /\ limit (os st) = None /\ complete st (S l).
Proof.
  intros Hl (Hinv & Hlim & Hrep & Hpaths). split; [done|]. split; [done|].
  apply complete_intro; [done|done|]. intros path. rewrite Hpaths. split.
  - intros [H|(i & _ & ->)]; [lia|by rewrite key_path_length].
  - intros Hlen. destruct (decide (length path = S l)) as [E|E]; [|left; lia].
    right. destruct (every_path_is_a_key (S l) path ltac:(lia) E) as (i & Hi & Hp).
    exists i. destruct (bit_of_scale l Hl) as (-> & _).
    split; [|done]. by rewrite Nat2Z.inj_succ, <- Z.add_1_r in Hi.
Qed.

(** A level past the 32nd: [inc] is 0 by then, the one insertion finds
    its node, and the tree stays as it is. *)
Lemma prealloc_level_full fuel cnt st :
  (33 <= fuel)%nat ->
  tree_inv st -> limit (os st) = None -> complete st 32 ->
  exists st',
    prealloc_level fuel (S cnt) st 0 (cidr_mask 32) 0 = Done (Some st') /\
    tree_inv st' /\ limit (os st') = None /\ complete st' 32.
Proof.
  intros Hfuel Hinv Hlim Hc. rewrite prealloc_level_eq.
  pose proof (complete_represents st 32 Hc) as Hrep.
  destruct (insert_spec fuel st 0 (cidr_mask 32) NGX_RADIX_NO_VALUE
              Hinv Hfuel) as (rc & st1 & Hins & Hinv1 & Hroot1 & Hlim1 & Hrc).
  rewrite Hins. cbn [res_bind mbind res_mbind].
  unfold prefix_path in Hrc. rewrite prefix_len_cidr_mask in Hrc by lia.
  destruct rc; [|by destruct Hrc as [Hne _]; congruence| |done].
  2: { destruct Hrc as (_ & Hv). by rewrite Hrep, value_of_nil in Hv. }
  destruct Hrc as (_ & Hval & Hnodes).
  rewrite bool_decide_eq_true_2 by done. cbn [negb]. cbv zeta.
  change ((0 + 0) mod 2 ^ 32 =? 0) with true. cbv iota.
  exists st1. split; [done|]. split; [done|]. split; [congruence|].
  apply complete_intro; [done| |].
  - intros path. rewrite Hroot1, Hval, value_of_nil.
    destruct (decide _); [done|]. by rewrite Hrep.
  - intros path. rewrite Hroot1, Hnodes. destruct Hc as (Hpaths & _).
    rewrite Hpaths. split; [|by left].
    intros [H|(t & Ht & ->)]; [done|]. by rewrite key_path_length.
Qed.

(** The levels from [l] on, [pre] of them left to do. *)
Lemma prealloc_levels_spec fuel :
  (33 <= fuel)%nat ->
  forall cnt l pre st,
    tree_inv st -> limit (os st) = None -> complete st (Nat.min l 32) ->
    0 <= pre <= Z.of_nat cnt ->
    2 ^ Z.min (Z.of_nat l + pre) 32 <= Z.of_nat fuel ->
    exists st',
      prealloc_levels fuel cnt st pre (cidr_mask (Nat.min l 32)) (bit_of l)
        = Done (Some st') /\
      tree_inv st' /\ limit (os st') = None /\
      complete st' (Nat.min (l + Z.to_nat pre) 32).
Proof.
  intros Hfuel.
  induction cnt as [|cnt IH]; intros l pre st Hinv Hlim Hc Hpre Hpow.
  - assert (pre = 0) as -> by lia. exists st.
    split; [done|]. rewrite Nat.add_0_r. done.
  - rewrite prealloc_levels_eq. destruct (Z.eqb_spec pre 0) as [->|Hne].
    { exists st. split; [done|]. rewrite Nat.add_0_r. done. }
    rewrite cidr_mask_next by lia. rewrite bit_of_S.
    assert (Hlev : exists st1,
      prealloc_level fuel fuel st 0 (cidr_mask (Nat.min (S (Nat.min l 32)) 32))
        (bit_of l) = Done (Some st1) /\
      tree_inv st1 /\ limit (os st1) = None /\ complete st1 (Nat.min (S l) 32)).
    { destruct (le_lt_dec 32 l) as [Hge|Hlt].
      - replace (Nat.min (S (Nat.min l 32)) 32) with 32%nat by lia.
        replace (Nat.min (S l) 32) with 32%nat by lia.
        replace (Nat.min l 32) with 32%nat in Hc by lia.
        rewrite bit_of_ge_32 by lia.
        destruct fuel as [|fuel']; [lia|].
        by apply prealloc_level_full.
      - replace (Nat.min (S (Nat.min l 32)) 32) with (S l) by lia.
        replace (Nat.min (S l) 32) with (S l) by lia.
        replace (Nat.min l 32) with l in Hc by lia.
        destruct (prealloc_level_spec fuel l Hfuel Hlt fuel 0 st) as (st1 & Hl1 & Hp1).
        + by apply complete_partial.
        + split; [lia|]. apply Z.pow_pos_nonneg; lia.
        + assert (2 ^ (Z.of_nat l + 1) <= 2 ^ Z.min (Z.of_nat l + pre) 32); [|lia].
          apply Z.pow_le_mono_r; lia.
        + exists st1. rewrite Z.mul_0_l in Hl1. split; [done|].
          by apply partial_complete. }
    destruct Hlev as (st1 & Hl1 & Hinv1 & Hlim1 & Hc1).
    rewrite Hl1. cbn [res_bind mbind res_mbind].
    replace (Nat.min (S (Nat.min l 32)) 32) with (Nat.min (S l) 32) by lia.
    destruct (IH (S l) (pre - 1) st1 Hinv1 Hlim1 Hc1 ltac:(lia)) as (st' & Hr & H').
    + replace (Z.of_nat (S l) + (pre - 1)) with (Z.of_nat l + pre) by lia. done.
    + exists st'. split; [done|].
      replace (l + Z.to_nat pre)%nat with (S l + Z.to_nat (pre - 1))%nat by lia.
      done.
Qed.

(** ngx_radix_tree_create with a depth to preallocate and memory without
    bound: the tree is complete down to that depth, or to depth 32 when
    more is asked. *)
Lemma create_complete fuel pl d w :
  pool_sane pl w -> limit w = None -> 0 < d ->
  (33 <= fuel)%nat -> d <= Z.of_nat fuel ->
  2 ^ Z.min d 32 <= Z.of_nat fuel ->
  exists st,
    ngx_radix_tree_create fuel pl d w = Done (Some st) /\
    tree_inv st /\ complete st (Nat.min (Z.to_nat d) 32).
Proof.
  intros Hsane Hlim Hd Hfuel Hcnt Hpow.
  destruct fuel as [|[|[|fuel]]]; [lia|lia|lia|].
  destruct (create_start fuel pl d w Hsane) as [[_ E]|(st0 & Hinv & Hc & Hlim0 & E)];
    [congruence|].
  rewrite E. destruct (Z.eqb_spec d 0) as [|_]; [lia|].
  destruct (Z.eqb_spec d (-1)) as [|_]; [lia|].
  destruct (prealloc_levels_spec (S (S (S fuel))) Hfuel (S (S (S fuel))) 0 d st0
              Hinv ltac:(congruence) Hc ltac:(lia) Hpow)
    as (st & Hr & Hinv' & _ & Hc').
  exists st. split; [exact Hr|]. split; [done|exact Hc'].
Qed.

Lemma fresh_pool_sane pl w :
  ngx_create_pool 1024 NULL world0 = (Some pl, w) ->
  pool_sane pl w /\ limit w = None.
Proof.
  intros H. vm_compute in H. injection H as <- <-.
  split; [|reflexivity].
  unfold pool_sane. cbn. split; [lia|]. split; [vm_compute; discriminate|].
  split; [lia|]. split; [apply elem_of_cons; by left|].
  unfold blocks. cbn. repeat constructor.
Qed.




End RadixFacts.

(** * Further properties of the pool *)

Section PoolMore.

Import Pool PoolSpec.

(** ** Blocks stay in address order *)

Lemma ascending_snoc l y :
  ascending (l ++ [y]) <-> ascending l /\ Forall (fun x => x.2 <= y.1) l.
Proof.
  induction l as [|x r IH]; simpl.
  - split; [done|]. intros _. split; [apply Forall_nil_2|done].
  - rewrite IH, Forall_app, Forall_singleton, Forall_cons. tauto.
Qed.

Lemma ascending_grow exts xs top :
  ascending exts -> (forall x, x ∈ exts -> x.2 <= top) ->
  (forall x, x ∈ xs -> top <= x.1) -> (length xs <= 1)%nat ->
  ascending (exts ++ xs).
Proof.
  intros Ha He Hx Hlen. destruct xs as [|y [|z r]]; [by rewrite app_nil_r| |simpl in Hlen; lia].
  apply ascending_snoc. split; [done|]. apply Forall_forall. intros x Hin.
  specialize (He x Hin). specialize (Hx y ltac:(apply elem_of_cons; by left)). lia.
Qed.

Lemma small_path_length aligned pool size w m pool' w' :
  small_path aligned pool size w = Done (m, pool', w') ->
  (length (blocks pool') <= S (length (blocks pool)))%nat.
Proof.
  unfold small_path. intros H.
  destruct (split_at (current pool) (blocks pool)) as [pre suf] eqn:Hs.
  pose proof (split_at_app _ _ _ _ Hs) as Happ.
  destruct suf as [|b suf]; [done|].
  destruct (palloc_search aligned size (b :: suf)) as [[m0 suf']|] eqn:Es.
  - injection H as <- <- <-.
    apply palloc_search_self in Es. apply (f_equal length) in Es.
    rewrite !length_map in Es.
    destruct (pre ++ suf') as [|x r] eqn:E.
    { apply (f_equal length) in E. rewrite length_app in E. simpl in *. lia. }
    rewrite blocks_set_blocks by done. rewrite <- E, Happ, !length_app. lia.
  - unfold ngx_palloc_block in H.
    destruct (ngx_memalign _ _ w) as [a w1]. destruct (a =? NULL).
    { injection H as <- <- <-. lia. }
    rewrite Hs in H.
    pose proof (block_walk_self (b :: suf) (current pool)) as [Hw _].
    destruct (block_walk (b :: suf) (current pool)) as [suf' c].
    injection H as <- <- <-. cbn [fst] in Hw.
    apply (f_equal length) in Hw. rewrite !length_map in Hw.
    change (blocks (set_current ?p _)) with (blocks p).
    rewrite blocks_set_blocks.
    2:{ intros E. apply (f_equal length) in E. rewrite !length_app in E.
        simpl in E. lia. }
    rewrite Happ, !length_app. simpl in *. lia.
Qed.

(** ** Failure *)

Lemma memalign_null k size w w1 :
  0 <= k -> 0 < brk w ->
  ngx_memalign (2 ^ k) size w = (NULL, w1) -> w1 = w /\ limit w <> None.
Proof.
  intros Hk Hb. unfold ngx_memalign, fits.
  pose proof (ngx_align_ptr_ge (brk w) k Hk) as Hge.
  destruct (limit w) as [l|].
  - destruct (_ <=? l); intros H.
    + injection H as E1 E2. unfold NULL in *. lia.
    + by injection H as <-.
  - intros H. injection H as E1 E2. unfold NULL in *. lia.
Qed.

Lemma memalign_trace alignment size w p w1 :
  ngx_memalign alignment size w = (p, w1) -> trace w1 = trace w.
Proof. unfold ngx_memalign. destruct (fits _ w); by intros [= <- <-]. Qed.

Lemma small_path_trace aligned pool size w m pool' w' :
  small_path aligned pool size w = Done (m, pool', w') -> trace w' = trace w.
Proof.
  unfold small_path. intros H.
  destruct (split_at (current pool) (blocks pool)) as [pre suf] eqn:Hs.
  destruct suf as [|b suf]; [done|].
  destruct (palloc_search aligned size (b :: suf)) as [[m0 suf']|].
  - by injection H as _ _ <-.
  - unfold ngx_palloc_block in H.
    destruct (ngx_memalign _ _ w) as [a w1] eqn:Ea.
    apply memalign_trace in Ea.
    destruct (a =? NULL); [by injection H as _ _ <-|].
    rewrite Hs in H. destruct (block_walk _ _). by injection H as _ _ <-.
Qed.

(** The small path returns NULL only when the allocator refused a new
    block, and then nothing has changed. *)
Lemma small_path_null aligned pool size w pool' w' :
  pool_sane pool w -> 0 <= size ->
  small_path aligned pool size w = Done (NULL, pool', w') ->
  pool' = pool /\ w' = w /\ limit w <> None.
Proof.
  intros (Hb & Hm & Hp & Hc & Hl) Hsize H. unfold small_path in H.
  destruct (split_at_found _ _ Hc) as (pre & b & suf & Hs & Hbc). rewrite Hs in H.
  pose proof (split_at_app _ _ _ _ Hs) as Happ.
  rewrite Happ in Hl. apply Forall_app in Hl as [_ Hl2].
  destruct (palloc_search aligned size (b :: suf)) as [[m0 suf']|] eqn:Es.
  - apply (palloc_search_last _ _ _ _ _ Hsize Hl2) in Es as (Hpos & _).
    injection H as -> _ _. unfold NULL in Hpos. lia.
  - unfold ngx_palloc_block in H.
    destruct (ngx_memalign NGX_POOL_ALIGNMENT _ w) as [a w1] eqn:Ea.
    destruct (Z.eqb_spec a NULL) as [->|Ez].
    + injection H as <- <-. by apply (memalign_null 4) in Ea as [-> ?].
    + rewrite Hs in H. destruct (block_walk _ _) as [suf' c].
      injection H as E _ _. exfalso.
      apply (memalign_spec 4) in Ea as (_ & _ & _ & _ & Hnn); [|lia|lia|lia].
      destruct (Hnn Ez) as [Hge _].
      pose proof (ngx_align_ptr_ge (a + sizeof_ngx_pool_data_t) 3 ltac:(lia)) as Hg.
      change (2 ^ 3) with NGX_ALIGNMENT in Hg.
      unfold sizeof_ngx_pool_data_t, NULL in *. lia.
Qed.

Lemma push_large_effect fuel pool p w m pool' w' :
  pool_ok pool w ->
  push_large fuel pool p w = Done (m, pool', w') ->
  (length (blocks pool') <= S (length (blocks pool)))%nat /\
  ((m = NULL /\ pool' = pool /\ w' = ngx_free p w /\ limit w <> None) \/
   (m = p /\ trace w' = trace w /\
    exists lg, large pool' = mk_large lg p :: large pool)).
Proof.
  intros Hok H. pose proof Hok as [Hsane _]. pose proof Hsane as (Hb & Hm & _).
  destruct fuel as [|fuel]; [done|]. unfold push_large in H.
  rewrite ngx_palloc_small in H by done.
  apply res_bind_done in H as ([[lg pool2] w2] & Hsm & H).
  pose proof (small_path_length _ _ _ _ _ _ _ Hsm) as Hlen.
  pose proof (small_path_trace _ _ _ _ _ _ _ Hsm) as Htr.
  assert (H16 : 0 <= sizeof_ngx_pool_large_t <= max pool)
    by (unfold sizeof_ngx_pool_large_t in *; lia).
  destruct (small_path_ok _ _ _ _ _ _ _ Hok H16 Hsm) as (_ & _ & Hlg2 & _).
  destruct (Z.eqb_spec lg NULL) as [->|El]; injection H as <- <- <-.
  - destruct (small_path_null _ _ _ _ _ _ Hsane (proj1 H16) Hsm) as (-> & -> & Hlim).
    split; [lia|]. by left.
  - split; [done|]. right. split; [done|]. split; [done|]. exists lg. cbn.
    by rewrite Hlg2.
Qed.

Lemma large_reuse_shape n l p l' :
  large_reuse n l p = Some l' ->
  exists l1 e l2, l = l1 ++ e :: l2 /\ l_alloc e = NULL /\
                  l' = l1 ++ set_alloc e p :: l2.
Proof.
  revert n l'. induction l as [|a r IH]; intros n l' H; simpl in H; [done|].
  destruct (Z.eqb_spec (l_alloc a) NULL) as [E|E].
  - injection H as <-. by exists [], a, r.
  - destruct (n >? 3); [done|].
    destruct (large_reuse (n + 1) r p) as [r'|] eqn:Er; [|done].
    injection H as <-. destruct (IH _ _ Er) as (l1 & e & l2 & -> & He & ->).
    by exists (a :: l1), e, l2.
Qed.

(** What a large allocation does to the pool. *)
Lemma palloc_large_effect fuel pool size w m pool' w' :
  pool_ok pool w -> max pool < size ->
  ngx_palloc_large fuel pool size w = Done (m, pool', w') ->
  (length (blocks pool') <= S (length (blocks pool)))%nat /\
  ((m = NULL /\ pool' = pool /\ limit w <> None /\
    (trace w' = trace w \/ exists p, trace w' = trace w ++ [EFree p])) \/
   (m <> NULL /\ brk w <= m /\ trace w' = trace w /\
    ((exists l1 e l2, large pool = l1 ++ e :: l2 /\ l_alloc e = NULL /\
                      large pool' = l1 ++ set_alloc e m :: l2) \/
     exists lg, large pool' = mk_large lg m :: large pool))).
Proof.
  intros Hok Hsize H. pose proof Hok as [(Hb & Hm & Hsane) Hapart].
  destruct fuel as [|fuel]; [done|]. rewrite ngx_palloc_large_eq in H.
  unfold ngx_alloc in H.
  destruct (ngx_memalign NGX_POOL_ALIGNMENT size w) as [p w1] eqn:Ea.
  unfold sizeof_ngx_pool_large_t in Hm.
  pose proof (memalign_trace _ _ _ _ _ Ea) as Htr1.
  destruct (Z.eqb_spec p NULL) as [->|Ez].
  { injection H as <- <- <-. apply (memalign_null 4) in Ea as [-> Hlim]; [|lia|done].
    split; [lia|]. left. split; [done|]. split; [done|]. split; [done|]. by left. }
  apply (memalign_spec 4) in Ea as (Hlim & _ & Hbrk & _ & Hnn); [|lia|lia|lia].
  destruct (Hnn Ez) as [Hge Hbrk'].
  assert (Hok1 : pool_ok pool w1) by by apply (pool_ok_world pool w).
  destruct (large_reuse 0 (large pool) p) as [l|] eqn:Er.
  - injection H as <- <- <-. split; [cbn; lia|]. right.
    split; [done|]. split; [done|]. split; [done|]. left.
    by apply large_reuse_shape in Er.
  - destruct (push_large_effect _ _ _ _ _ _ _ Hok1 H)
      as [Hlen [(-> & -> & -> & Hl)|(-> & Htr & lg & Hlg)]].
    + split; [done|]. left. split; [done|]. split; [done|].
      split; [by rewrite <- Hlim|]. right. exists p. cbn. by rewrite Htr1.
    + split; [done|]. right. split; [done|]. split; [done|].
      split; [by rewrite Htr|]. right. by exists lg.
Qed.

(** ** Pools in use stay tidy *)

Lemma live_allocs_below pool w x :
  pool_apart pool w -> x ∈ live_allocs pool -> 0 < x < brk w \/ x < 0.
Proof.
  intros (_ & _ & Hl) Hx. unfold live_allocs in Hx.
  apply list_elem_of_filter in Hx as [Hx0 Hx].
  apply list_elem_of_fmap in Hx as (e & -> & He).
  rewrite Forall_forall in Hl. destruct (Hl e He) as [E|[Hlt _]]; [done|].
  unfold NULL in Hx0. lia.
Qed.

Lemma live_allocs_reuse pool pool' l1 e l2 m :
  large pool = l1 ++ e :: l2 -> l_alloc e = NULL ->
  large pool' = l1 ++ set_alloc e m :: l2 -> m <> NULL ->
  live_allocs pool' ≡ₚ m :: live_allocs pool.
Proof.
  intros H1 He H2 Hm. unfold live_allocs. rewrite H1, H2, !map_app, !filter_app.
  cbn [map set_alloc l_alloc]. rewrite !filter_cons, He.
  rewrite decide_True by done. rewrite decide_False by (intros H; by apply H).
  symmetry. apply Permutation_middle.
Qed.

Lemma live_allocs_push pool pool' lg m :
  large pool' = mk_large lg m :: large pool -> m <> NULL ->
  live_allocs pool' = m :: live_allocs pool.
Proof.
  intros H Hm. unfold live_allocs. rewrite H. cbn [map l_alloc].
  by rewrite filter_cons, decide_True.
Qed.

Lemma tidy_after pool w pool' w' xs :
  pool_tidy pool w -> pool_ok pool' w' ->
  map extent (blocks pool') = map extent (blocks pool) ++ xs ->
  (forall x, x ∈ xs -> brk w <= x.1) ->
  (length (blocks pool') <= S (length (blocks pool)))%nat ->
  (live_allocs pool' = live_allocs pool \/
   exists m, brk w <= m /\ live_allocs pool' ≡ₚ m :: live_allocs pool) ->
  pool_tidy pool' w'.
Proof.
  intros ([Hsane Hapart] & Hasc & Hnd) Hok' Hext Hxs Hlen Hlive.
  split; [done|]. split.
  - rewrite Hext. apply (ascending_grow _ _ (brk w)); [done| |done|].
    + intros x Hx. by destruct (extent_below pool w x Hapart Hx).
    + apply (f_equal length) in Hext. rewrite length_app, !length_map in Hext. lia.
  - destruct Hlive as [->|(m & Hm & Hp)]; [done|]. rewrite Hp.
    apply NoDup_cons. split; [|done]. intros Hin.
    destruct (live_allocs_below pool w m Hapart Hin); destruct Hsane as (? & _); lia.
Qed.

Lemma palloc_large_tidy fuel pool size w m pool' w' :
  pool_tidy pool w -> max pool < size ->
  ngx_palloc_large fuel pool size w = Done (m, pool', w') ->
  pool_tidy pool' w'.
Proof.
  intros Htidy Hsize H. pose proof Htidy as (Hok & _).
  destruct (palloc_large_ok _ _ _ _ _ _ _ Hok Hsize H) as (Hok' & _ & _ & xs & Hxs & Hnew).
  destruct (palloc_large_effect _ _ _ _ _ _ _ Hok Hsize H) as [Hlen Hcase].
  apply (tidy_after pool w pool' w' xs); try done.
  destruct Hcase as [(_ & -> & _)|(Hm & Hge & _ & [(l1 & e & l2 & H1 & He & H2)|(lg & Hlg)])].
  - by left.
  - right. exists m. split; [done|]. by apply (live_allocs_reuse _ _ l1 e l2).
  - right. exists m. split; [done|]. by rewrite (live_allocs_push pool pool' lg m).
Qed.

Lemma small_path_tidy aligned pool size w m pool' w' :
  pool_tidy pool w -> 0 <= size <= max pool ->
  small_path aligned pool size w = Done (m, pool', w') ->
  pool_tidy pool' w'.
Proof.
  intros Htidy Hsize H. pose proof Htidy as (Hok & _).
  destruct (small_path_ok _ _ _ _ _ _ _ Hok Hsize H)
    as (Hok' & _ & Hlg & _ & (xs & Hxs & Hnew) & _).
  apply (tidy_after pool w pool' w' xs); try done.
  - by apply small_path_length in H.
  - left. unfold live_allocs. by rewrite Hlg.
Qed.

Lemma palloc_tidy fuel pool size w m pool' w' :
  pool_tidy pool w -> 0 <= size ->
  ngx_palloc fuel pool size w = Done (m, pool', w') -> pool_tidy pool' w'.
Proof.
  intros Htidy Hsize H. destruct fuel as [|fuel]; [done|].
  destruct (Z.leb_spec size (max pool)) as [Hle|Hgt].
  - rewrite ngx_palloc_small in H by done. by apply (small_path_tidy true pool size w m).
  - cbn [ngx_palloc] in H. destruct (Z.leb_spec size (max pool)); [lia|].
    by apply (palloc_large_tidy fuel pool size w m).
Qed.

Lemma pnalloc_tidy fuel pool size w m pool' w' :
  pool_tidy pool w -> 0 <= size ->
  ngx_pnalloc fuel pool size w = Done (m, pool', w') -> pool_tidy pool' w'.
Proof.
  intros Htidy Hsize H. rewrite ngx_pnalloc_eq in H.
  destruct (Z.leb_spec size (max pool)) as [Hle|Hgt].
  - by apply (small_path_tidy false pool size w m).
  - by apply (palloc_large_tidy fuel pool size w m).
Qed.

Lemma pmemalign_tidy fuel pool size k w m pool' w' :
  pool_tidy pool w -> 0 < size -> 0 <= k ->
  ngx_pmemalign fuel pool size (2 ^ k) w = Done (m, pool', w') ->
  pool_tidy pool' w'.
Proof.
  intros Htidy Hsize Hk H. pose proof Htidy as (Hok & _).
  destruct (pmemalign_ok _ _ _ _ _ _ _ _ Hok Hsize Hk H) as (Hok' & _ & _ & xs & Hxs & Hnew).
  assert (Heff : (length (blocks pool') <= S (length (blocks pool)))%nat /\
                 (live_allocs pool' = live_allocs pool \/
                  exists x, brk w <= x /\ live_allocs pool' ≡ₚ x :: live_allocs pool)).
  { rewrite ngx_pmemalign_eq in H.
    destruct (ngx_memalign (2 ^ k) size w) as [p w1] eqn:Ea.
    destruct Hok as [Hsane Hapart]. pose proof Hsane as (Hb & _).
    apply (memalign_spec k) in Ea as (_ & _ & Hbrk & _ & Hnn); [|lia|lia|lia].
    destruct (Z.eqb_spec p NULL) as [Ez|Ez].
    { injection H as _ <- _. split; [lia|by left]. }
    assert (Hok1 : pool_ok pool w1) by (by apply (pool_ok_world pool w)).
    destruct (push_large_effect _ _ _ _ _ _ _ Hok1 H)
      as [Hlen [(_ & -> & _)|(_ & _ & lg & Hlg)]].
    - split; [done|by left].
    - split; [done|]. right. exists p. destruct (Hnn Ez) as [Hge _].
      split; [done|]. by rewrite (live_allocs_push pool pool' lg p). }
  destruct Heff as [Hlen Hlive].
  by apply (tidy_after pool w pool' w' xs).
Qed.

Lemma pfree_tidy pool p w :
  pool_tidy pool w ->
  pool_tidy (ngx_pfree pool p w).1.2 (ngx_pfree pool p w).2.
Proof.
  intros (Hok & Hasc & Hnd). destruct (pfree_ok pool p w Hok) as (Hok' & Hbl & _).
  split; [done|]. split; [by rewrite Hbl|].
  unfold ngx_pfree, live_allocs in *.
  destruct (pfree_walk (large pool) p) as [l'|] eqn:E; cbn [fst snd]; [|done].
  apply pfree_walk_some in E as (l1 & e & l2 & Hl0 & _ & _ & ->).
  cbn [large set_large]. rewrite Hl0 in Hnd.
  rewrite !map_app, !filter_app in *. cbn [map l_alloc] in *.
  rewrite filter_cons in *. rewrite decide_False by (intros H; by apply H).
  apply NoDup_app in Hnd as (H1 & H2 & H3). apply NoDup_app.
  split; [done|]. split.
  - intros x Hx Hx2. apply (H2 x Hx). destruct (decide _); [by right|done].
  - destruct (decide _); [by apply NoDup_cons in H3 as [_ ?]|done].
Qed.

Lemma reset_pool_tidy pool w :
  pool_tidy pool w ->
  pool_tidy (ngx_reset_pool pool w).1 (ngx_reset_pool pool w).2.
Proof.
  intros (Hok & Hasc & _). split; [by apply reset_pool_ok|].
  unfold ngx_reset_pool, live_allocs, blocks in *. cbn. split; [|apply NoDup_nil_2].
  rewrite map_map. exact Hasc.
Qed.

Lemma pool_step_tidy fuel pool w c pool' w' :
  pool_tidy pool w -> call_ok c ->
  pool_step fuel pool w c = Done (pool', w') -> pool_tidy pool' w'.
Proof.
  intros Ht Hc H. destruct c as [size|size|size al|p|]; cbn [pool_step call_ok] in *.
  - apply res_bind_done in H as ([[m pool1] w1] & Hp & [= <- <-]).
    by apply (palloc_tidy fuel pool size w m).
  - apply res_bind_done in H as ([[m pool1] w1] & Hp & [= <- <-]).
    by apply (pnalloc_tidy fuel pool size w m).
  - destruct Hc as (Hsize & k & Hk & ->).
    apply res_bind_done in H as ([[m pool1] w1] & Hp & [= <- <-]).
    by apply (pmemalign_tidy fuel pool size k w m).
  - pose proof (pfree_tidy pool p w Ht) as Ht'.
    destruct (ngx_pfree pool p w) as [[rc pool1] w1]. by injection H as <- <-.
  - pose proof (reset_pool_tidy pool w Ht) as Ht'.
    destruct (ngx_reset_pool pool w) as [pool1 w1]. by injection H as <- <-.
Qed.

Lemma pool_run_tidy fuel cs : forall pool w pool' w',
  pool_tidy pool w -> Forall call_ok cs ->
  pool_run fuel pool w cs = Done (pool', w') -> pool_tidy pool' w'.
Proof.
  induction cs as [|c cs IH]; intros pool w pool' w' Ht Hcs H.
  - by injection H as <- <-.
  - apply Forall_cons in Hcs as [Hc Hcs]. cbn [pool_run] in H.
    apply res_bind_done in H as ([pool1 w1] & Hstep & H).
    apply (IH pool1 w1); [|done|done]. by apply (pool_step_tidy fuel pool w c).
Qed.

Lemma pool_tidy_set_cleanup pool w l :
  pool_tidy pool w -> pool_tidy (set_cleanup pool l) w.
Proof.
  intros ([(Hb & Hm & Hp & Hc & Hl) (Hmax & Hbl & Hlg)] & Hasc & Hnd).
  split; [split|]; [by split|by split|by split].
Qed.

Lemma pool_tidy_store pool w a v :
  pool_tidy pool w -> pool_tidy (store pool a v) w.
Proof.
  intros ([(Hb & Hm & Hp & Hc & Hl) (Hmax & Hbl & Hlg)] & Hasc & Hnd).
  split; [split|]; [by split|by split|by split].
Qed.

Lemma pool_tidy_push_cleanup pool w c :
  pool_tidy pool w -> pool_tidy (push_cleanup pool c) w.
Proof.
  intros H. unfold push_cleanup.
  by apply pool_tidy_set_cleanup, pool_tidy_store, pool_tidy_store.
Qed.

Lemma cleanup_add_tidy fuel pool size w c pool' w' :
  pool_tidy pool w -> 0 <= size ->
  ngx_pool_cleanup_add fuel pool size w = Done (c, pool', w') ->
  pool_tidy pool' w'.
Proof.
  intros Ht Hsize H. unfold ngx_pool_cleanup_add in H.
  apply res_bind_done in H as ([[c1 p1] w1] & Hp1 & H).
  apply palloc_tidy in Hp1; [|done|unfold sizeof_ngx_pool_cleanup_t; lia].
  destruct (c1 =? NULL); [by injection H as _ <- <-|].
  destruct (size =? 0).
  - injection H as _ <- <-. by apply pool_tidy_push_cleanup, pool_tidy_store.
  - apply res_bind_done in H as ([[data p2] w2] & Hp2 & H).
    apply palloc_tidy in Hp2; [|done|done].
    destruct (data =? NULL); injection H as _ <- <-; [by apply pool_tidy_store|].
    by apply pool_tidy_push_cleanup, pool_tidy_store.
Qed.

Lemma op_step_tidy fuel pool w o pool' w' :
  pool_tidy pool w -> pool_op_ok o ->
  op_step fuel pool w o = Done (pool', w') -> pool_tidy pool' w'.
Proof.
  intros Ht Ho H. destruct o as [c|size h]; cbn [op_step pool_op_ok] in *.
  - by apply (pool_step_tidy fuel pool w c).
  - apply res_bind_done in H as ([[c p1] w1] & Hr & [= <- <-]).
    unfold register in Hr. apply res_bind_done in Hr as ([[c1 p2] w2] & Ha & Hr).
    apply cleanup_add_tidy in Ha; [|done|done].
    destruct (c1 =? NULL); injection Hr as _ <- <-; [done|].
    by apply pool_tidy_store.
Qed.

Lemma pool_ops_tidy fuel os : forall pool w pool' w',
  pool_tidy pool w -> Forall pool_op_ok os ->
  pool_ops fuel pool w os = Done (pool', w') -> pool_tidy pool' w'.
Proof.
  induction os as [|o os IH]; intros pool w pool' w' Ht Hos H.
  - by injection H as <- <-.
  - apply Forall_cons in Hos as [Ho Hos]. cbn [pool_ops] in H.
    apply res_bind_done in H as ([pool1 w1] & Hstep & H).
    apply (IH pool1 w1); [|done|done]. by apply (op_step_tidy fuel pool w o).
Qed.

Lemma pool_reachable_tidy fuel pool w :
  pool_reachable fuel pool w -> pool_tidy pool w.
Proof.
  intros (size & lg & w0 & pool0 & w1 & os & Hb & Hsize & Hal & Hc & Hos & Hrun).
  apply (pool_ops_tidy fuel os pool0 w1); [|done|done].
  split; [by apply (create_pool_ok size lg w0)|].
  unfold ngx_create_pool in Hc. destruct (ngx_memalign _ size w0) as [p w2].
  destruct (p =? NULL); [done|]. injection Hc as <- <-.
  unfold live_allocs, blocks. cbn. split; [|apply NoDup_nil_2].
  split; [apply Forall_nil_2|done].
Qed.

(** ** Block headers are kept *)

Lemma palloc_search_headed aligned size l m l' :
  0 <= size ->
  Forall (fun b => d_self b + sizeof_ngx_pool_data_t <= d_last b) l ->
  palloc_search aligned size l = Some (m, l') ->
  Forall (fun b => d_self b + sizeof_ngx_pool_data_t <= d_last b) l'.
Proof.
  intros Hs. revert l'. induction l as [|a r IH]; simpl; intros l' Hl H; [discriminate|].
  apply Forall_cons in Hl as [Ha Hr].
  set (m0 := if aligned then ngx_align_ptr (d_last a) NGX_ALIGNMENT else d_last a) in *.
  assert (Hm0 : d_last a <= m0).
  { subst m0. destruct aligned; [|lia]. apply (ngx_align_ptr_ge _ 3). lia. }
  destruct (size <=? (d_end a - m0) mod size_max).
  - injection H as <- <-. apply Forall_cons. split; [|done].
    cbn [set_last d_self d_last]. lia.
  - destruct (palloc_search aligned size r) as [[x r']|]; [|discriminate].
    injection H as <- <-. apply Forall_cons. split; [done|by apply IH].
Qed.

Lemma block_walk_cursors l c :
  map (fun b => (d_self b, d_last b)) (block_walk l c).1
  = map (fun b => (d_self b, d_last b)) l.
Proof.
  revert c. induction l as [|a r IH]; intros c; [done|].
  destruct r as [|q t]; [done|].
  rewrite block_walk_cons. cbv zeta. cbn [fst].
  rewrite (map_cons _ (set_failed _ _)), IH. reflexivity.
Qed.

Lemma small_path_headed aligned pool size w m pool' w' :
  headed pool -> 0 <= size ->
  small_path aligned pool size w = Done (m, pool', w') -> headed pool'.
Proof.
  unfold headed, small_path. intros Hh Hsize H.
  destruct (split_at (current pool) (blocks pool)) as [pre suf] eqn:Hs.
  pose proof (split_at_app _ _ _ _ Hs) as Happ.
  destruct suf as [|b suf]; [done|].
  rewrite Happ in Hh. apply Forall_app in Hh as [H1 H2].
  destruct (palloc_search aligned size (b :: suf)) as [[m0 suf']|] eqn:Es.
  - injection H as <- <- <-.
    pose proof (palloc_search_self _ _ _ _ _ Es) as Hlen.
    apply (f_equal length) in Hlen. rewrite !length_map in Hlen.
    apply (palloc_search_headed _ _ _ _ _ Hsize H2) in Es.
    rewrite blocks_set_blocks.
    + by apply Forall_app.
    + intros E. apply (f_equal length) in E. rewrite length_app in E. simpl in *. lia.
  - unfold ngx_palloc_block in H.
    destruct (ngx_memalign _ _ w) as [a w1]. destruct (a =? NULL).
    { injection H as <- <- <-. rewrite Happ. by apply Forall_app. }
    rewrite Hs in H.
    pose proof (block_walk_cursors (b :: suf) (current pool)) as Hw.
    destruct (block_walk (b :: suf) (current pool)) as [suf' c].
    injection H as <- <- <-. cbn [fst] in Hw.
    change (blocks (set_current ?p _)) with (blocks p).
    rewrite blocks_set_blocks.
    2:{ intros E. apply (f_equal length) in E. rewrite !length_app in E.
        simpl in E. lia. }
    apply Forall_app. split; [done|]. apply Forall_app. split.
    + apply Forall_forall. intros x Hx.
      assert (Hin : (d_self x, d_last x) ∈ map (fun b => (d_self b, d_last b)) suf').
      { apply list_elem_of_fmap. by exists x. }
      rewrite Hw in Hin. apply list_elem_of_fmap in Hin as (y & [= E1 E2] & Hy).
      rewrite Forall_forall in H2. specialize (H2 y Hy). lia.
    + apply Forall_singleton. cbn [d_self d_last].
      pose proof (ngx_align_ptr_ge (a + sizeof_ngx_pool_data_t) 3 ltac:(lia)) as Hge.
      change (2 ^ 3) with NGX_ALIGNMENT in Hge. lia.
Qed.

Lemma palloc_headed fuel :
  (forall pool size w m pool' w',
      headed pool -> 0 <= size ->
      ngx_palloc fuel pool size w = Done (m, pool', w') -> headed pool') /\
  (forall pool size w m pool' w',
      headed pool ->
      ngx_palloc_large fuel pool size w = Done (m, pool', w') -> headed pool').
Proof.
  induction fuel as [|fuel [IH1 IH2]]; [by split|].
  split.
  - intros pool size w m pool' w' Hh Hsize H.
    destruct (Z.leb_spec size (max pool)) as [Hle|Hgt].
    + rewrite ngx_palloc_small in H by done.
      by apply (small_path_headed true pool size w m pool' w').
    + cbn [ngx_palloc] in H. destruct (Z.leb_spec size (max pool)); [lia|].
      by apply (IH2 pool size w m pool' w').
  - intros pool size w m pool' w' Hh H. rewrite ngx_palloc_large_eq in H.
    destruct (ngx_alloc size w) as [p w1]. destruct (p =? NULL).
    { by injection H as _ <- _. }
    destruct (large_reuse 0 (large pool) p) as [l|].
    { by injection H as _ <- _. }
    unfold push_large in H. apply res_bind_done in H as ([[lg p1] w2] & Hp & H).
    apply IH1 in Hp; [|done|unfold sizeof_ngx_pool_large_t; lia].
    destruct (lg =? NULL); by injection H as _ <- _.
Qed.

Lemma op_step_headed fuel pool w o pool' w' :
  headed pool -> pool_op_ok o ->
  op_step fuel pool w o = Done (pool', w') -> headed pool'.
Proof.
  intros Hh Ho H. destruct o as [[size|size|size al|p|]|size h];
    cbn [op_step pool_step pool_op_ok call_ok] in *.
  - apply res_bind_done in H as ([[m p1] w1] & Hr & [= <- <-]).
    by apply (proj1 (palloc_headed fuel)) in Hr.
  - apply res_bind_done in H as ([[m p1] w1] & Hr & [= <- <-]).
    rewrite ngx_pnalloc_eq in Hr. destruct (size <=? max pool).
    + by apply (small_path_headed false pool size w m p1 w1).
    + by apply (proj2 (palloc_headed fuel)) in Hr.
  - apply res_bind_done in H as ([[m p1] w1] & Hr & [= <- <-]).
    rewrite ngx_pmemalign_eq in Hr. destruct (ngx_memalign al size w) as [p w2].
    destruct (p =? NULL); [by injection Hr as _ <- _|].
    unfold push_large in Hr. apply res_bind_done in Hr as ([[lg p2] w3] & Hp & Hr).
    apply (proj1 (palloc_headed fuel)) in Hp; [|done|unfold sizeof_ngx_pool_large_t; lia].
    destruct (lg =? NULL); by injection Hr as _ <- _.
  - unfold ngx_pfree in H. destruct (pfree_walk (large pool) p); by injection H as <- _.
  - injection H as <- _. unfold headed, ngx_reset_pool, blocks in *. cbn [d d_next].
    rewrite <- map_cons. apply Forall_forall. intros x Hx.
    apply list_elem_of_fmap in Hx as (b & -> & _).
    unfold reset_block, sizeof_ngx_pool_t, sizeof_ngx_pool_data_t. simpl. lia.
  - apply res_bind_done in H as ([[c p1] w1] & Hr & [= <- <-]).
    unfold register in Hr. apply res_bind_done in Hr as ([[c1 p2] w2] & Ha & Hr).
    assert (Hp2 : headed p2).
    { unfold ngx_pool_cleanup_add in Ha.
      apply res_bind_done in Ha as ([[c0 p3] w3] & Hp & Ha).
      apply (proj1 (palloc_headed fuel)) in Hp; [|done|unfold sizeof_ngx_pool_cleanup_t; lia].
      destruct (c0 =? NULL); [by injection Ha as _ <- _|].
      destruct (size =? 0); [by injection Ha as _ <- _|].
      apply res_bind_done in Ha as ([[data p4] w4] & Hd & Ha).
      apply (proj1 (palloc_headed fuel)) in Hd; [|done|done].
      destruct (data =? NULL); by injection Ha as _ <- _. }
    destruct (c1 =? NULL); by injection Hr as _ <- _.
Qed.

Lemma pool_reachable_headed fuel pool w :
  pool_reachable fuel pool w -> headed pool.
Proof.
  intros (size & lg & w0 & pool0 & w1 & os & Hb & Hsize & Hal & Hc & Hos & Hrun).
  assert (H0 : headed pool0).
  { unfold ngx_create_pool in Hc. destruct (ngx_memalign _ size w0) as [p w2].
    destruct (p =? NULL); [done|]. injection Hc as <- <-.
    apply Forall_singleton. unfold sizeof_ngx_pool_t, sizeof_ngx_pool_data_t. simpl. lia. }
  clear Hc. revert pool0 w1 H0 Hrun. induction Hos as [|o os Ho Hos IH]; intros pool0 w1 H0 Hrun.
  - by injection Hrun as <- _.
  - cbn [pool_ops] in Hrun. apply res_bind_done in Hrun as ([p1 w2] & Hstep & Hrun).
    apply (IH p1 w2); [|done]. by apply (op_step_headed fuel pool0 w1 o p1 w2).
Qed.
(** ** Small allocations are fresh memory of one block *)

Lemma palloc_search_shape aligned top size l m l' :
  0 <= size -> Forall (block_ok top) l ->
  palloc_search aligned size l = Some (m, l') ->
  exists l1 b l2, l = l1 ++ b :: l2 /\ l' = l1 ++ set_last b (m + size) :: l2 /\
    d_last b <= m /\ m + size <= d_end b /\
    (aligned = true -> m mod NGX_ALIGNMENT = 0) /\
    (aligned = false -> m = d_last b).
Proof.
  intros Hs. revert l'. induction l as [|a r IH]; simpl; intros l' Hl H; [discriminate|].
  apply Forall_cons in Hl as [Ha Hr].
  set (m0 := if aligned then ngx_align_ptr (d_last a) NGX_ALIGNMENT else d_last a) in *.
  assert (Hm0 : d_last a <= m0 <= d_end a).
  { destruct Ha as (_ & He & _ & Hl & _). subst m0. destruct aligned; [|lia].
    split; [apply (ngx_align_ptr_ge _ 3); lia|].
    apply (ngx_align_ptr_le _ _ 3); [lia|lia|exact He]. }
  destruct (Z.leb_spec size ((d_end a - m0) mod size_max)) as [Hfit|_].
  - injection H as <- <-.
    assert (Hle : (d_end a - m0) mod size_max <= d_end a - m0).
    { apply Z.mod_le; [lia|done]. }
    exists [], a, r. split; [done|]. split; [done|]. split; [lia|]. split; [lia|].
    subst m0. split; intros ->; [|done]. by apply (ngx_align_ptr_mod _ 3).
  - destruct (palloc_search aligned size r) as [[x r']|]; [|discriminate].
    injection H as <- <-.
    destruct (IH r' Hr eq_refl) as (l1 & b & l2 & -> & -> & Hrest).
    by exists (a :: l1), b, l2.
Qed.

Lemma below_cursor_cursors pool q :
  below_cursor pool q <->
  exists x, x ∈ map (fun b => (d_self b, d_last b)) (blocks pool) /\ x.1 <= q < x.2.
Proof.
  split.
  - intros (b & Hb & Hq). exists (d_self b, d_last b).
    split; [|done]. apply list_elem_of_fmap. by exists b.
  - intros (x & Hx & Hq). apply list_elem_of_fmap in Hx as (b & -> & Hb). by exists b.
Qed.

Lemma ascending_split l1 x l2 :
  ascending (l1 ++ x :: l2) ->
  Forall (fun y => y.2 <= x.1) l1 /\ Forall (fun y => x.2 <= y.1) l2.
Proof.
  induction l1 as [|a r IH]; simpl.
  - intros [H _]. split; [apply Forall_nil_2|done].
  - intros [Ha Hr]. destruct (IH Hr) as [H1 H2]. split; [|done].
    apply Forall_cons. split; [|done].
    apply Forall_app in Ha as [_ Ha]. by apply Forall_cons in Ha as [? _].
Qed.

Lemma small_path_fresh aligned pool size w m pool' w' :
  pool_tidy pool w -> headed pool -> 0 <= size <= max pool ->
  small_path aligned pool size w = Done (m, pool', w') -> m <> NULL ->
  (aligned = true -> m mod NGX_ALIGNMENT = 0) /\
  (exists b, b ∈ blocks pool' /\ d_self b + sizeof_ngx_pool_data_t <= m /\
             m + size = d_last b /\ d_last b <= d_end b) /\
  (forall q, m <= q < m + size -> ~ below_cursor pool q) /\
  (forall q, below_cursor pool q -> below_cursor pool' q).
Proof.
  intros ([Hsane Hapart] & Hasc & _) Hhead Hsize H Hnn.
  pose proof Hsane as (Hb & Hm & Hp & Hc & Hl).
  pose proof Hapart as (Hmax & Hok & Hlg).
  unfold small_path in H. unfold headed in Hhead.
  destruct (split_at_found _ _ Hc) as (pre & b & suf & Hs & Hbc). rewrite Hs in H.
  pose proof (split_at_app _ _ _ _ Hs) as Happ.
  pose proof Hok as Hok0. rewrite Happ in Hok. apply Forall_app in Hok as [Hok1 Hok2].
  destruct (palloc_search aligned size (b :: suf)) as [[m0 suf']|] eqn:Es.
  - injection H as <- <- <-.
    destruct (palloc_search_shape _ _ _ _ _ _ (proj1 Hsize) Hok2 Es)
      as (l1 & hit & l2 & E1 & -> & Hlo & Hhi & Hal & Hna).
    assert (Hbl : blocks (set_blocks pool (pre ++ l1 ++ set_last hit (m0 + size) :: l2))
                  = (pre ++ l1) ++ set_last hit (m0 + size) :: l2).
    { rewrite blocks_set_blocks; [by rewrite app_assoc|].
      intros E. apply (f_equal length) in E. rewrite !length_app in E. simpl in E. lia. }
    assert (Hold : blocks pool = (pre ++ l1) ++ hit :: l2).
    { by rewrite Happ, E1, app_assoc. }
    rewrite Hold in Hok0, Hhead.
    assert (Hhit : block_ok (brk w) hit).
    { apply Forall_app in Hok0 as [_ Hx]. by apply Forall_cons in Hx as [? _]. }
    assert (Hhh : d_self hit + sizeof_ngx_pool_data_t <= d_last hit).
    { apply Forall_app in Hhead as [_ Hx]. by apply Forall_cons in Hx as [? _]. }
    split; [done|]. split; [|split].
    + exists (set_last hit (m0 + size)). rewrite Hbl.
      split; [apply elem_of_app; right; apply elem_of_cons; by left|].
      cbn [set_last d_self d_last d_end]. lia.
    + intros q Hq (blk & Hin & Hused). rewrite Hold in Hin, Hasc.
      rewrite map_app, map_cons in Hasc. apply ascending_split in Hasc as [Hlt Hgt].
      destruct Hhit as (_ & _ & _ & Hi & _).
      apply elem_of_app in Hin as [Hin|Hin].
      * rewrite Forall_forall in Hlt.
        assert (Hx : extent blk ∈ map extent (pre ++ l1)).
        { apply list_elem_of_fmap. by exists blk. }
        specialize (Hlt _ Hx). cbn in Hlt.
        rewrite Forall_forall in Hok0.
        destruct (Hok0 blk ltac:(apply elem_of_app; by left)) as (_ & _ & _ & ? & _).
        lia.
      * apply elem_of_cons in Hin as [->|Hin]; [lia|].
        rewrite Forall_forall in Hgt.
        assert (Hx : extent blk ∈ map extent l2).
        { apply list_elem_of_fmap. by exists blk. }
        specialize (Hgt _ Hx). cbn in Hgt. lia.
    + intros q (blk & Hin & Hused). rewrite Hold in Hin. unfold below_cursor. rewrite Hbl.
      apply elem_of_app in Hin as [Hin|Hin].
      * exists blk. split; [apply elem_of_app; by left|done].
      * apply elem_of_cons in Hin as [->|Hin].
        -- exists (set_last hit (m0 + size)).
           split; [apply elem_of_app; right; apply elem_of_cons; by left|].
           cbn [set_last d_self d_last]. lia.
        -- exists blk. split; [|done]. apply elem_of_app. right.
           apply elem_of_cons. by right.
  - unfold ngx_palloc_block in H.
    destruct (ngx_memalign NGX_POOL_ALIGNMENT _ w) as [a w1] eqn:Ea.
    pose proof (memalign_aligned 4 _ _ _ _ ltac:(lia) Ea) as Hal.
    apply (memalign_spec 4) in Ea as (Hlim & _ & Hbrk & Hnull & Hnz); [|lia|lia|lia].
    destruct (Z.eqb_spec a NULL) as [Ez|Ez]; [by injection H as <- _ _|].
    rewrite Hs in H. destruct (Hnz Ez) as [Hge Hbrk'].
    pose proof (block_walk_cursors (b :: suf) (current pool)) as Hw.
    destruct (block_walk (b :: suf) (current pool)) as [suf' c] eqn:Ew.
    cbn [fst snd] in *. injection H as <- <- <-.
    assert (Hfirst : block_ok (brk w) (d pool)).
    { unfold blocks in Hok0. by apply Forall_cons in Hok0 as [? _]. }
    destruct Hfirst as (Hf1 & Hf2 & Hf3 & Hf4 & Hf5 & Hf6).
    unfold NGX_ALIGNMENT, sizeof_ngx_pool_t in Hf1, Hf2, Hf6, Hmax.
    assert (Hm' : ngx_align_ptr (a + sizeof_ngx_pool_data_t) NGX_ALIGNMENT
                  = a + sizeof_ngx_pool_data_t).
    { apply (ngx_align_ptr_id _ 3); [lia|].
      unfold sizeof_ngx_pool_data_t. change (2 ^ 4) with 16 in Hal.
      change (2 ^ 3) with 8. clear -Hal. Z.to_euclidean_division_equations. lia. }
    rewrite Hm' in *. unfold sizeof_ngx_pool_data_t in *.
    set (psize := d_end (d pool) - d_self (d pool)) in *.
    set (new := mk_data a (a + 32 + size) (a + psize) 0).
    assert (Hbl : blocks (set_current (set_blocks pool (pre ++ suf' ++ [new]))
                            (if c =? NULL then a else c)) = pre ++ suf' ++ [new]).
    { change (blocks (set_current ?p _)) with (blocks p).
      apply blocks_set_blocks. intros E. apply (f_equal length) in E.
      rewrite !length_app in E. simpl in E. lia. }
    rewrite Hbl. split; [|split; [|split]].
    + intros _. unfold NGX_ALIGNMENT. change (2 ^ 4) with 16 in Hal.
      clear -Hal. Z.to_euclidean_division_equations. lia.
    + exists new. split.
      { apply elem_of_app. right. apply elem_of_app. right. by apply list_elem_of_singleton. }
      unfold new. simpl. lia.
    + intros q Hq (blk & Hin & Hused). rewrite Forall_forall in Hok0.
      destruct (Hok0 blk Hin) as (_ & _ & _ & ? & ? & _). lia.
    + intros q (blk & Hin & Hused). rewrite Happ in Hin. unfold below_cursor. rewrite Hbl.
      apply elem_of_app in Hin as [Hin|Hin].
      * exists blk. split; [apply elem_of_app; by left|done].
      * assert (Hx : (d_self blk, d_last blk) ∈ map (fun b => (d_self b, d_last b)) (b :: suf)).
        { apply list_elem_of_fmap. by exists blk. }
        rewrite <- Hw in Hx. apply list_elem_of_fmap in Hx as (y & [= E1 E2] & Hy).
        exists y. split; [|lia]. apply elem_of_app. right. apply elem_of_app. by left.
Qed.
(** ** Large allocations and ngx_pfree *)

Lemma pfree_twice pool p w :
  NoDup (live_allocs pool) -> p <> NULL -> p ∈ live_allocs pool ->
  exists pool2,
    ngx_pfree pool p w = (NGX_OK, pool2, ngx_free p w) /\
    blocks pool2 = blocks pool /\
    live_allocs pool ≡ₚ p :: live_allocs pool2 /\
    (p ∉ live_allocs pool2) /\
    forall w2, ngx_pfree pool2 p w2 = (NGX_DECLINED, pool2, w2).
Proof.
  intros Hnd Hp Hin. unfold ngx_pfree.
  destruct (pfree_walk (large pool) p) as [l'|] eqn:E.
  2:{ apply pfree_walk_none in E. unfold live_allocs in Hin.
      apply list_elem_of_filter in Hin as [_ Hin].
      apply list_elem_of_fmap in Hin as (e & He & Hel).
      rewrite Forall_forall in E. by destruct (E e Hel). }
  apply pfree_walk_some in E as (l1 & e & l2 & Hl & Hl1 & He & ->).
  assert (Hlive : live_allocs pool
                  = filter (fun x => x <> NULL) (map l_alloc l1) ++
                    p :: filter (fun x => x <> NULL) (map l_alloc l2)).
  { unfold live_allocs. rewrite Hl, map_app, filter_app. cbn [map].
    by rewrite filter_cons, He, decide_True. }
  assert (Hlive2 : live_allocs (set_large pool (l1 ++ mk_large (l_self e) NULL :: l2))
                   = filter (fun x => x <> NULL) (map l_alloc l1) ++
                     filter (fun x => x <> NULL) (map l_alloc l2)).
  { unfold live_allocs. cbn [large set_large]. rewrite map_app, filter_app. cbn [map l_alloc].
    rewrite filter_cons, decide_False; [done|]. intros H. by apply H. }
  rewrite Hlive in Hnd. apply NoDup_app in Hnd as (Hn1 & Hn12 & Hn2).
  apply NoDup_cons in Hn2 as [Hp2 Hn2].
  assert (Hp1 : p ∉ filter (fun x => x <> NULL) (map l_alloc l1)).
  { intros H1. apply (Hn12 p H1). apply elem_of_cons. by left. }
  exists (set_large pool (l1 ++ mk_large (l_self e) NULL :: l2)).
  split; [done|]. split; [done|]. split.
  { rewrite Hlive, Hlive2. symmetry. apply Permutation_middle. }
  split.
  { rewrite Hlive2. intros H. apply elem_of_app in H as [H|H]; [by apply Hp1|by apply Hp2]. }
  intros w2. cbn [large set_large].
  destruct (pfree_walk _ p) as [l'|] eqn:E; [|done]. exfalso.
  assert (Hnone : pfree_walk (l1 ++ mk_large (l_self e) NULL :: l2) p = None);
    [|by rewrite Hnone in E].
  apply pfree_walk_none. apply Forall_app. split; [done|].
  apply Forall_cons. split; [cbn; congruence|].
  apply Forall_forall. intros x Hx Hxp. apply Hp2.
  apply list_elem_of_filter. split; [done|]. apply list_elem_of_fmap. by exists x.
Qed.

Lemma large_entry_apart pool w p :
  pool_apart pool w -> p <> NULL -> p ∈ live_allocs pool -> ~ in_block pool p.
Proof.
  intros Ha Hp Hin Hb. apply (in_block_not_tracked pool w p Ha) in Hb.
  unfold live_allocs in Hin. apply list_elem_of_filter in Hin as [_ Hin].
  apply list_elem_of_fmap in Hin as (e & He & Hel).
  rewrite Forall_forall in Hb. by destruct (Hb e Hel).
Qed.

(** X2.  An allocation above [max] by ngx_palloc or ngx_pnalloc on a pool in use,
    when it does not fail: the pointer is fresh memory of the system
    allocator, outside the blocks and not among the large allocations the
    pool held, and the pool now holds it besides those.  ngx_pfree of it
    returns NGX_OK and frees it, leaving the pool with the large
    allocations it held before; a second ngx_pfree returns NGX_DECLINED
    and does nothing. *)
Theorem large_allocation_round_trip fuel pool w size p pool1 w1 :
  pool_reachable fuel pool w -> max pool < size ->
  ngx_palloc fuel pool size w = Done (p, pool1, w1) \/
  ngx_pnalloc fuel pool size w = Done (p, pool1, w1) ->
  p <> NULL ->
  brk w <= p /\ ~ in_block pool1 p /\ (p ∉ live_allocs pool) /\
  live_allocs pool1 ≡ₚ p :: live_allocs pool /\
  exists pool2,
    ngx_pfree pool1 p w1 = (NGX_OK, pool2, ngx_free p w1) /\
    blocks pool2 = blocks pool1 /\
    live_allocs pool2 ≡ₚ live_allocs pool /\
    ngx_pfree pool2 p (ngx_free p w1) = (NGX_DECLINED, pool2, ngx_free p w1).
Proof.
  intros Hr Hsize H Hnn.
  pose proof (pool_reachable_tidy _ _ _ Hr) as Ht.
  assert (Hl : exists f, ngx_palloc_large f pool size w = Done (p, pool1, w1)).
  { destruct H as [H|H].
    - destruct fuel as [|fuel]; [done|]. cbn [ngx_palloc] in H.
      destruct (Z.leb_spec size (max pool)); [lia|]. by exists fuel.
    - rewrite ngx_pnalloc_eq in H. destruct (Z.leb_spec size (max pool)); [lia|].
      by exists fuel. }
  destruct Hl as (f & Hl).
  pose proof (palloc_large_tidy _ _ _ _ _ _ _ Ht Hsize Hl) as ((_ & Ha1) & _ & Hnd1).
  pose proof Ht as ((Hsane & Hapart) & _ & _).
  destruct (palloc_large_effect _ _ _ _ _ _ _ (conj Hsane Hapart) Hsize Hl)
    as [_ [(Hz & _)|(_ & Hge & _ & Hshape)]]; [done|].
  assert (Hperm : live_allocs pool1 ≡ₚ p :: live_allocs pool).
  { destruct Hshape as [(l1 & e & l2 & H1 & He & H2)|(lg & Hlg)].
    - by apply (live_allocs_reuse _ _ l1 e l2).
    - by rewrite (live_allocs_push pool pool1 lg p). }
  assert (Hin : p ∈ live_allocs pool1).
  { rewrite Hperm. apply elem_of_cons. by left. }
  assert (Hold : p ∉ live_allocs pool).
  { intros Hx. destruct (live_allocs_below pool w p Hapart Hx); destruct Hsane as (? & _); lia. }
  split; [done|]. split; [by apply (large_entry_apart pool1 w1)|].
  split; [done|]. split; [done|].
  destruct (pfree_twice pool1 p w1 Hnd1 Hnn Hin) as (pool2 & H1 & H2 & H3 & _ & H5).
  exists pool2. split; [done|]. split; [done|]. split; [|done].
  rewrite Hperm in H3. by apply Permutation_cons_inv in H3.
Qed.

(** X3.  ngx_pmemalign on a pool in use, with a size above 0 and a power of two
    for the alignment, when it does not fail: the pointer is aligned as
    asked, is fresh memory outside the blocks, and joins the large
    allocations of the pool whatever its size.  ngx_pfree of it returns
    NGX_OK and frees it; a second ngx_pfree returns NGX_DECLINED. *)
Theorem pmemalign_round_trip fuel pool w size k p pool1 w1 :
  pool_reachable fuel pool w -> 0 < size -> 0 <= k ->
  ngx_pmemalign fuel pool size (2 ^ k) w = Done (p, pool1, w1) ->
  p <> NULL ->
  p mod 2 ^ k = 0 /\ brk w <= p /\ ~ in_block pool1 p /\
  live_allocs pool1 = p :: live_allocs pool /\
  exists pool2,
    ngx_pfree pool1 p w1 = (NGX_OK, pool2, ngx_free p w1) /\
    blocks pool2 = blocks pool1 /\
    live_allocs pool2 ≡ₚ live_allocs pool /\
    ngx_pfree pool2 p (ngx_free p w1) = (NGX_DECLINED, pool2, ngx_free p w1).
Proof.
  intros Hr Hsize Hk H Hnn.
  pose proof (pool_reachable_tidy _ _ _ Hr) as Ht.
  pose proof (pmemalign_tidy _ _ _ _ _ _ _ _ Ht Hsize Hk H) as ((_ & Ha1) & _ & Hnd1).
  pose proof Ht as ((Hsane & Hapart) & _ & _). pose proof Hsane as (Hb & _).
  rewrite ngx_pmemalign_eq in H.
  destruct (ngx_memalign (2 ^ k) size w) as [a w0] eqn:Ea.
  pose proof (memalign_aligned k _ _ _ _ Hk Ea) as Hal.
  apply (memalign_spec k) in Ea as (_ & _ & Hbrk & _ & Hnz); [|lia|lia|lia].
  destruct (Z.eqb_spec a NULL) as [Ez|Ez]; [by injection H as <- _ _|].
  assert (Hok0 : pool_ok pool w0) by (by apply (pool_ok_world pool w)).
  destruct (push_large_effect _ _ _ _ _ _ _ Hok0 H) as [_ [(Hz & _)|(Hpa & _ & lg & Hlg)]];
    [done|].
  subst a.
  destruct (Hnz Ez) as [Hge _].
  assert (Hlive : live_allocs pool1 = p :: live_allocs pool).
  { by rewrite (live_allocs_push pool pool1 lg p). }
  assert (Hin : p ∈ live_allocs pool1).
  { rewrite Hlive. apply elem_of_cons. by left. }
  split; [done|]. split; [done|]. split; [by apply (large_entry_apart pool1 w1)|].
  split; [done|].
  destruct (pfree_twice pool1 p w1 Hnd1 Hnn Hin) as (pool2 & H1 & H2 & H3 & _ & H5).
  exists pool2. split; [done|]. split; [done|]. split; [|done].
  rewrite Hlive in H3. by apply Permutation_cons_inv in H3.
Qed.

Lemma large_allocation_round_trip_witness :
  exists pool w p pool1 w1 pool2,
    pool_reachable 3 pool w /\ max pool < 5000 /\
    ngx_palloc 3 pool 5000 w = Done (p, pool1, w1) /\ p <> NULL /\
    length (large pool1) = length (large pool) /\
    live_allocs pool1 ≡ₚ p :: live_allocs pool /\
    ngx_pfree pool1 p w1 = (NGX_OK, pool2, ngx_free p w1) /\
    ngx_pfree pool2 p (ngx_free p w1) = (NGX_DECLINED, pool2, ngx_free p w1).
Proof.
  pose (ops := [Call (Palloc 4096); Call (Pmemalign 512 64); Call (Pfree 4352)]).
  let r := eval vm_compute in (ngx_create_pool 256 NULL world0) in
  match r with
  | (Some ?p0, ?w1) =>
      let r2 := eval vm_compute in (pool_ops 3 p0 w1 ops) in
      match r2 with
      | Done (?p, ?w) =>
          let r3 := eval vm_compute in (ngx_palloc 3 p 5000 w) in
          match r3 with
          | Done (?m, ?p', ?w') =>
              assert (Hr : pool_reachable 3 p w);
              [exists 256, NULL, world0, p0, w1, ops;
               split; [by vm_compute|]; split; [by vm_compute|];
               split; [by vm_compute|]; split; [by vm_compute|];
               split; [|by vm_compute];
               repeat apply Forall_cons_2; try apply Forall_nil_2; simpl;
               try lia; split; [lia|by exists 6]|];
              assert (Hs : max p < 5000) by (simpl; lia);
              assert (Hp : ngx_palloc 3 p 5000 w = Done (m, p', w')) by (by vm_compute);
              assert (Hnn : m <> NULL) by (by vm_compute);
              destruct (large_allocation_round_trip 3 p w 5000 m p' w' Hr Hs (or_introl Hp) Hnn)
                as (_ & _ & _ & Hperm & pool2 & H1 & _ & _ & H2);
              exists p, w, m, p', w', pool2
          end
      end
  end.
  split; [exact Hr|]. split; [exact Hs|]. split; [exact Hp|]. split; [exact Hnn|].
  split; [reflexivity|]. by split.
Defined.

Lemma pmemalign_round_trip_witness :
  exists pool w p pool1 w1 pool2,
    pool_reachable 3 pool w /\ 0 < 24 /\ 0 <= 6 /\
    ngx_pmemalign 3 pool 24 (2 ^ 6) w = Done (p, pool1, w1) /\ p <> NULL /\
    24 <= max pool /\ p mod 64 = 0 /\ ~ in_block pool1 p /\
    ngx_pfree pool1 p w1 = (NGX_OK, pool2, ngx_free p w1) /\
    ngx_pfree pool2 p (ngx_free p w1) = (NGX_DECLINED, pool2, ngx_free p w1).
Proof.
  pose (ops := [Call (Palloc 100); Call (Palloc 4096)]).
  let r := eval vm_compute in (ngx_create_pool 256 NULL world0) in
  match r with
  | (Some ?p0, ?w1) =>
      let r2 := eval vm_compute in (pool_ops 3 p0 w1 ops) in
      match r2 with
      | Done (?p, ?w) =>
          let r3 := eval vm_compute in (ngx_pmemalign 3 p 24 (2 ^ 6) w) in
          match r3 with
          | Done (?m, ?p', ?w') =>
              assert (Hr : pool_reachable 3 p w);
              [exists 256, NULL, world0, p0, w1, ops;
               split; [by vm_compute|]; split; [by vm_compute|];
               split; [by vm_compute|]; split; [by vm_compute|];
               split; [|by vm_compute];
               repeat apply Forall_cons_2; try apply Forall_nil_2; simpl; lia|];
              assert (Hs : 0 < 24) by lia;
              assert (Hk : 0 <= 6) by lia;
              assert (Hp : ngx_pmemalign 3 p 24 (2 ^ 6) w = Done (m, p', w')) by (by vm_compute);
              assert (Hnn : m <> NULL) by (by vm_compute);
              destruct (pmemalign_round_trip 3 p w 24 6 m p' w' Hr Hs Hk Hp Hnn)
                as (Hmod & _ & Hout & _ & pool2 & H1 & _ & _ & H2);
              exists p, w, m, p', w', pool2
          end
      end
  end.
  split; [exact Hr|]. split; [exact Hs|]. split; [exact Hk|]. split; [exact Hp|].
  split; [exact Hnn|]. split; [simpl; lia|]. split; [exact Hmod|]. by split.
Defined.
(** ** Allocation failure *)

(** X4.  When ngx_palloc, ngx_pnalloc or ngx_pmemalign returns NULL on a
    pool that was created with a size that is a multiple of NGX_ALIGNMENT
    and at least [sizeof(ngx_pool_t) + sizeof(ngx_pool_large_t)], so that
    an entry of the large list fits the small path, and then taken
    through any allocations, frees, resets and registrations
    ([pool_reachable]): the system allocator has refused memory (it has a
    limit), the pool is exactly as it was before the call, and the only
    thing that may have happened is that a block just obtained for a
    large allocation was given back with ngx_free. *)
Theorem failed_allocation_changes_nothing fuel pool w size alignment pool' w' :
  pool_reachable fuel pool w -> 0 <= size ->
  ngx_palloc fuel pool size w = Done (NULL, pool', w') \/
  ngx_pnalloc fuel pool size w = Done (NULL, pool', w') \/
  (exists k, 0 <= k /\ alignment = 2 ^ k) /\
  ngx_pmemalign fuel pool size alignment w = Done (NULL, pool', w') ->
  pool' = pool /\ limit w <> None /\
  (trace w' = trace w \/ exists p, trace w' = trace w ++ [EFree p]).
Proof.
  intros Hr Hsize H.
  pose proof (pool_reachable_tidy _ _ _ Hr) as ((Hsane & Hapart) & _).
  assert (Hsmall : forall aligned,
            small_path aligned pool size w = Done (NULL, pool', w') ->
            pool' = pool /\ limit w <> None /\
            (trace w' = trace w \/ exists p, trace w' = trace w ++ [EFree p])).
  { intros aligned Hs. apply small_path_null in Hs as (-> & -> & Hlim); [|done|done].
    split; [done|]. split; [done|by left]. }
  assert (Hlarge : forall f, max pool < size ->
            ngx_palloc_large f pool size w = Done (NULL, pool', w') ->
            pool' = pool /\ limit w <> None /\
            (trace w' = trace w \/ exists p, trace w' = trace w ++ [EFree p])).
  { intros f Hgt Hl.
    destruct (palloc_large_effect _ _ _ _ _ _ _ (conj Hsane Hapart) Hgt Hl)
      as [_ [(_ & Hp & Hlim & Htr)|(Hnz & _)]]; [done|done]. }
  destruct H as [H|[H|[(k & Hk & ->) H]]].
  - destruct fuel as [|fuel]; [done|].
    destruct (Z.leb_spec size (max pool)) as [Hle|Hgt].
    + rewrite ngx_palloc_small in H by done. by apply (Hsmall true).
    + cbn [ngx_palloc] in H. destruct (Z.leb_spec size (max pool)); [lia|].
      by apply (Hlarge fuel).
  - rewrite ngx_pnalloc_eq in H. destruct (Z.leb_spec size (max pool)) as [Hle|Hgt].
    + by apply (Hsmall false).
    + by apply (Hlarge fuel).
  - rewrite ngx_pmemalign_eq in H.
    destruct (ngx_memalign (2 ^ k) size w) as [a w0] eqn:Ea.
    pose proof Hsane as (Hb & _).
    destruct (Z.eqb_spec a NULL) as [Ez|Ez].
    + injection H as <- <-. subst a. apply memalign_null in Ea as [-> Hlim]; [|done|done].
      split; [done|]. split; [done|by left].
    + apply (memalign_spec k) in Ea as (Hlim0 & Htr0 & Hbrk & _ & _); [|lia|lia|lia].
      assert (Hok0 : pool_ok pool w0) by (by apply (pool_ok_world pool w)).
      destruct (push_large_effect _ _ _ _ _ _ _ Hok0 H)
        as [_ [(_ & -> & -> & Hlim)|(Hpa & _)]]; [|by destruct Ez].
      split; [done|]. split; [by rewrite <- Hlim0|]. right. exists a.
      cbn. by rewrite Htr0.
Qed.

Lemma failed_allocation_changes_nothing_witness :
  exists pool w pool' w',
    pool_reachable 3 pool w /\ 0 <= 4096 /\
    ngx_palloc 3 pool 4096 w = Done (NULL, pool', w') /\
    large pool <> [] /\ pool' = pool /\ limit w <> None /\
    trace w' = trace w ++ [EFree 9616].
Proof.
  pose (ops := [Call (Palloc 100); Call (Palloc 5000); Call (Palloc 48);
               Call (Palloc 72); Call (Palloc 150)]).
  pose (w0 := mk_world 4096 (Some 13800) []).
  let r := eval vm_compute in (ngx_create_pool 256 NULL w0) in
  match r with
  | (Some ?p0, ?w1) =>
      let r2 := eval vm_compute in (pool_ops 3 p0 w1 ops) in
      match r2 with
      | Done (?p, ?w) =>
          let r3 := eval vm_compute in (ngx_palloc 3 p 4096 w) in
          match r3 with
          | Done (?m, ?p', ?w') =>
              assert (Hr : pool_reachable 3 p w);
              [exists 256, NULL, w0, p0, w1, ops;
               split; [by vm_compute|]; split; [by vm_compute|];
               split; [by vm_compute|]; split; [by vm_compute|];
               split; [|by vm_compute];
               repeat apply Forall_cons_2; try apply Forall_nil_2; simpl; lia|];
              assert (Hs : 0 <= 4096) by lia;
              assert (Hp : ngx_palloc 3 p 4096 w = Done (NULL, p', w')) by (by vm_compute);
              destruct (failed_allocation_changes_nothing 3 p w 4096 0 p' w' Hr Hs (or_introl Hp))
                as (Hsame & Hlim & _);
              exists p, w, p', w'
          end
      end
  end.
  split; [exact Hr|]. split; [exact Hs|]. split; [exact Hp|]. split; [done|].
  split; [exact Hsame|]. split; [exact Hlim|]. reflexivity.
Defined.
(** ** The addresses that destruction frees *)

Lemma large_frees_live pool :
  large_frees (large pool) = map EFree (live_allocs pool).
Proof.
  unfold large_frees, live_allocs. induction (large pool) as [|e r IH]; [done|].
  cbn [map]. rewrite !filter_cons. destruct (decide (l_alloc e <> NULL)); [|done].
  cbn [map]. by rewrite IH.
Qed.

Lemma ascending_nodup exts :
  ascending exts -> Forall (fun x => x.1 < x.2) exts -> NoDup (map fst exts).
Proof.
  induction exts as [|x r IH]; simpl; intros Ha Hp; [apply NoDup_nil_2|].
  destruct Ha as [Hx Ha]. apply Forall_cons in Hp as [Hpx Hp].
  apply NoDup_cons. split; [|by apply IH].
  intros Hin. apply list_elem_of_fmap in Hin as (y & Hy & Hyr).
  rewrite Forall_forall in Hx. specialize (Hx y Hyr). lia.
Qed.

Lemma pool_addresses_distinct pool w :
  pool_tidy pool w ->
  NoDup (live_allocs pool ++ map d_self (blocks pool)) /\
  NULL ∉ (live_allocs pool ++ map d_self (blocks pool)).
Proof.
  intros ((Hsane & Hapart) & Hasc & Hnd). pose proof Hapart as (_ & Hok & _).
  assert (Hself : forall x, x ∈ map d_self (blocks pool) -> x <> NULL /\ in_block pool x).
  { intros x Hx. apply list_elem_of_fmap in Hx as (b & -> & Hb).
    rewrite Forall_forall in Hok. destruct (Hok b Hb) as (_ & _ & H0 & _ & _ & Hlen).
    unfold NULL, sizeof_ngx_pool_t in *. split; [lia|]. exists (extent b).
    split; [apply list_elem_of_fmap; by exists b|]. cbn. lia. }
  assert (Hlive : forall x, x ∈ live_allocs pool -> x <> NULL).
  { intros x Hx. unfold live_allocs in Hx. by apply list_elem_of_filter in Hx as [? _]. }
  split.
  - apply NoDup_app. split; [done|]. split.
    + intros x Hx Hb. destruct (Hself x Hb) as [_ Hin].
      by apply (large_entry_apart pool w x Hapart (Hlive x Hx) Hx).
    + replace (map d_self (blocks pool)) with (map fst (map extent (blocks pool))).
      2:{ rewrite map_map. reflexivity. }
      apply ascending_nodup; [done|]. apply Forall_forall. intros x Hx.
      apply list_elem_of_fmap in Hx as (b & -> & Hb).
      rewrite Forall_forall in Hok. destruct (Hok b Hb) as (_ & _ & _ & _ & _ & Hlen).
      unfold sizeof_ngx_pool_t in Hlen. cbn. lia.
  - intros Hin. apply elem_of_app in Hin as [Hin|Hin].
    + by apply (Hlive NULL).
    + by destruct (Hself NULL Hin).
Qed.

(** ** A pool smaller than its own header *)

(** X7.  ngx_create_pool does not check [size] against the size of the pool
    header.  With a size below [sizeof(ngx_pool_t)] the unsigned
    subtraction wraps, [max] becomes NGX_MAX_ALLOC_FROM_POOL, and the
    cursor starts past the end of the block; the unsigned comparison of
    ngx_palloc then lets every request up to [max] through, and the
    pointer it returns lies past the memory the pool obtained. *)
Theorem undersized_pool_allocates_past_its_end fuel size lg w pool w1 n :
  0 < brk w -> 0 <= size < sizeof_ngx_pool_t ->
  ngx_create_pool size lg w = (Some pool, w1) ->
  0 <= n <= NGX_MAX_ALLOC_FROM_POOL ->
  max pool = NGX_MAX_ALLOC_FROM_POOL /\
  d_end (d pool) < d_last (d pool) /\
  exists pool',
    ngx_palloc (S fuel) pool n w1
      = Done (d_self (d pool) + sizeof_ngx_pool_t, pool', w1) /\
    d_last (d pool') = d_self (d pool) + sizeof_ngx_pool_t + n /\
    brk w1 < d_self (d pool) + sizeof_ngx_pool_t.
Proof.
  intros Hb Hsize Hc Hn. unfold ngx_create_pool in Hc.
  destruct (ngx_memalign NGX_POOL_ALIGNMENT size w) as [p w0] eqn:Ea.
  pose proof (memalign_aligned 4 _ _ _ _ ltac:(lia) Ea) as Hal.
  apply (memalign_spec 4) in Ea as (_ & _ & _ & _ & Hnz); [|lia|lia|lia].
  destruct (Z.eqb_spec p NULL) as [Ez|Ez]; [done|]. destruct (Hnz Ez) as [Hge Hbrk].
  unfold sizeof_ngx_pool_t, NGX_MAX_ALLOC_FROM_POOL, ngx_pagesize, size_max in *.
  assert (Hrest : (size - 80) mod 2 ^ 64 = size - 80 + 2 ^ 64).
  { symmetry. apply (Z.mod_unique _ _ (-1)); lia. }
  rewrite Hrest in Hc. destruct (Z.ltb_spec (size - 80 + 2 ^ 64) (4096 - 1)); [lia|].
  injection Hc as <- <-. cbn [max d d_self d_last d_end].
  split; [done|]. split; [lia|].
  assert (Hm : ngx_align_ptr (p + 80) NGX_ALIGNMENT = p + 80).
  { apply (ngx_align_ptr_id _ 3); [lia|]. change (2 ^ 4) with 16 in Hal.
    change (2 ^ 3) with 8. clear -Hal. Z.to_euclidean_division_equations. lia. }
  assert (Hfit : (p + size - (p + 80)) mod 2 ^ 64 = size - 80 + 2 ^ 64).
  { symmetry. apply (Z.mod_unique _ _ (-1)); lia. }
  eexists. split; [|split; [|lia]].
  - cbn [ngx_palloc max current blocks d d_next split_at d_self].
    destruct (Z.leb_spec n (4096 - 1)); [|lia].
    rewrite Z.eqb_refl. cbn [palloc_search d_last d_end]. rewrite Hm.
    unfold size_max. rewrite Hfit.
    destruct (Z.leb_spec n (size - 80 + 2 ^ 64)); [|lia]. reflexivity.
  - cbn. lia.
Qed.

Lemma undersized_pool_allocates_past_its_end_witness :
  exists pool w1 pool',
    0 < brk world0 /\ 0 <= 64 < sizeof_ngx_pool_t /\
    ngx_create_pool 64 NULL world0 = (Some pool, w1) /\
    0 <= 1000 <= NGX_MAX_ALLOC_FROM_POOL /\
    brk w1 = 4160 /\
    ngx_palloc 1 pool 1000 w1 = Done (4176, pool', w1).
Proof.
  assert (Hb : 0 < brk world0) by (by vm_compute).
  assert (Hs : 0 <= 64 < sizeof_ngx_pool_t) by (by vm_compute).
  assert (Hn : 0 <= 1000 <= NGX_MAX_ALLOC_FROM_POOL) by (by vm_compute).
  let r := eval vm_compute in (ngx_create_pool 64 NULL world0) in
  match r with
  | (Some ?p0, ?w1) =>
      assert (Hc : ngx_create_pool 64 NULL world0 = (Some p0, w1)) by (by vm_compute);
      destruct (undersized_pool_allocates_past_its_end 0 64 NULL world0 p0 w1 1000 Hb Hs Hc Hn)
        as (_ & _ & pool' & Hp & _ & _);
      exists p0, w1, pool'
  end.
  split; [exact Hb|]. split; [exact Hs|]. split; [exact Hc|]. split; [exact Hn|].
  split; [reflexivity|]. exact Hp.
Defined.
(** ** The limit of the allocator stays what it was *)

Lemma memalign_limit a size w : limit (ngx_memalign a size w).2 = limit w.
Proof. unfold ngx_memalign. by destruct (fits _ w). Qed.

Lemma small_path_limit aligned pool size w m pool' w' :
  small_path aligned pool size w = Done (m, pool', w') -> limit w' = limit w.
Proof.
  unfold small_path. destruct (split_at _ _) as [pre [|b suf]]; [done|].
  destruct (palloc_search _ _ _) as [[m0 suf']|]; [by intros [= _ _ <-]|].
  unfold ngx_palloc_block.
  pose proof (memalign_limit NGX_POOL_ALIGNMENT (d_end (d pool) - d_self (d pool)) w) as Hl.
  destruct (ngx_memalign _ _ w) as [a w1]. cbn [snd] in Hl.
  destruct (a =? NULL); [by intros [= _ _ <-]|].
  destruct (split_at _ _) as [pre' [|b' suf'']]; [done|].
  destruct (block_walk _ _). by intros [= _ _ <-].
Qed.

Lemma palloc_limit fuel :
  (forall pool size w m pool' w',
      ngx_palloc fuel pool size w = Done (m, pool', w') -> limit w' = limit w) /\
  (forall pool size w m pool' w',
      ngx_palloc_large fuel pool size w = Done (m, pool', w') -> limit w' = limit w).
Proof.
  induction fuel as [|fuel [IH1 IH2]]; [by split|].
  split.
  - intros pool size w m pool' w' H.
    destruct (Z.leb_spec size (max pool)) as [Hle|Hgt].
    + rewrite ngx_palloc_small in H by done. by apply small_path_limit in H.
    + cbn [ngx_palloc] in H. destruct (Z.leb_spec size (max pool)); [lia|].
      by apply IH2 in H.
  - intros pool size w m pool' w' H. rewrite ngx_palloc_large_eq in H.
    pose proof (memalign_limit NGX_POOL_ALIGNMENT size w) as Hl. unfold ngx_alloc in H.
    destruct (ngx_memalign _ size w) as [p w1]. cbn [snd] in Hl. destruct (p =? NULL).
    { by injection H as _ _ <-. }
    destruct (large_reuse 0 (large pool) p) as [l|].
    { by injection H as _ _ <-. }
    unfold push_large in H. apply res_bind_done in H as ([[lg p1] w2] & Hp & H).
    apply IH1 in Hp. destruct (lg =? NULL); injection H as _ _ <-; [|congruence].
    cbn. congruence.
Qed.

(** ** The cleanup stack in memory *)

Lemma palloc_block_words pool size w m pool' w' :
  ngx_palloc_block pool size w = Done (m, pool', w') -> words pool' = words pool.
Proof.
  unfold ngx_palloc_block. destruct (ngx_memalign _ _ w) as [a w1].
  destruct (a =? NULL); [intros H; by inversion H|].
  destruct (split_at _ _) as [pre suf]. destruct suf as [|x t]; [discriminate|].
  destruct (block_walk _ _) as [suf' c]. intros H; inversion H; subst.
  unfold set_current, set_blocks. by destruct (pre ++ suf' ++ _).
Qed.

Lemma small_path_words aligned pool size w m pool' w' :
  small_path aligned pool size w = Done (m, pool', w') ->
  words pool' = words pool /\ cleanup pool' = cleanup pool.
Proof.
  unfold small_path. destruct (split_at _ _) as [pre suf].
  destruct suf as [|x t]; [discriminate|].
  destruct (palloc_search _ _ _) as [[a suf']|].
  - intros H; inversion H; subst. unfold set_blocks. by destruct (pre ++ suf').
  - intros H. split; [by apply palloc_block_words in H|].
    by apply palloc_block_frame in H as (? & _).
Qed.

(** The allocation functions write no field of a cleanup entry. *)
Lemma palloc_words fuel :
  (forall pool size w m pool' w',
      ngx_palloc fuel pool size w = Done (m, pool', w') ->
      words pool' = words pool) /\
  (forall pool size w m pool' w',
      ngx_palloc_large fuel pool size w = Done (m, pool', w') ->
      words pool' = words pool).
Proof.
  induction fuel as [|fuel [IH1 IH2]]; [split; intros; discriminate|].
  split.
  - intros pool size w m pool' w'. cbn [ngx_palloc].
    destruct (size <=? max pool) eqn:E.
    + intros H. by apply (small_path_words true pool size w m pool' w') in H as [? _].
    + intros H. by apply IH2 in H.
  - intros pool size w m pool' w'. cbn [ngx_palloc_large].
    destruct (ngx_alloc size w) as [p w1].
    destruct (p =? NULL); [intros H; by inversion H|].
    destruct (large_reuse 0 (large pool) p).
    + intros H; by inversion H.
    + intros H. apply res_bind_done in H as ([[lg pl] w2] & Hp & H).
      apply IH1 in Hp. destruct (lg =? NULL); inversion H; subst; done.
Qed.

Lemma holds_spec pool c :
  holds pool c = true <->
  in_block pool c \/ exists e, e ∈ large pool /\ l_alloc e = c.
Proof.
  unfold holds, in_block. rewrite orb_true_iff, !existsb_exists. split.
  - intros [(b & Hb & H)|(e & He & H)].
    + left. exists (extent b). split.
      * apply list_elem_of_fmap. exists b. split; [done|]. by apply list_elem_of_In.
      * apply andb_true_iff in H as [H1 H2]. cbn. lia.
    + right. exists e. split; [by apply list_elem_of_In|lia].
  - intros [(x & Hx & H)|(e & He & H)].
    + apply list_elem_of_fmap in Hx as (b & -> & Hb). left. exists b.
      split; [by apply list_elem_of_In|]. cbn in H. apply andb_true_iff. lia.
    + right. exists e. split; [by apply list_elem_of_In|lia].
Qed.

Lemma below_cursor_holds pool w c :
  pool_ok pool w -> below_cursor pool c -> holds pool c = true.
Proof.
  intros (_ & _ & Hbl & _) (b & Hb & Hc). apply holds_spec. left.
  rewrite Forall_forall in Hbl. destruct (Hbl b Hb) as (_ & _ & _ & Hl & _).
  exists (extent b). split; [apply list_elem_of_fmap; by exists b|]. cbn. lia.
Qed.

Lemma allotted_holds pool w c :
  pool_ok pool w -> allotted pool c -> holds pool c = true.
Proof.
  intros Hok Ha. apply (below_cursor_holds pool w); [done|]. apply Ha.
  unfold sizeof_ngx_pool_cleanup_t. lia.
Qed.

(** Entries that share no byte share no field. *)
Lemma apart_fields c a :
  apart c a ->
  forall x y, x ∈ [c_handler c; c_data c; c_next c] ->
              y ∈ [c_handler a; c_data a; c_next a] -> x <> y.
Proof.
  unfold apart, sizeof_ngx_pool_cleanup_t, c_handler, c_data, c_next.
  intros H x y Hx Hy. rewrite !elem_of_cons, elem_of_nil in Hx, Hy. lia.
Qed.

(** A list of entries is the same list after a write outside its fields,
    and in a pool that holds the same memory. *)
Lemma listed_store pool a v l : forall c,
  Forall (fun e => a ∉ [c_handler (e_self e); c_data (e_self e); c_next (e_self e)]) l ->
  listed pool c l -> listed (store pool a v) c l.
Proof.
  induction l as [|e r IH]; intros c Hl H; [done|].
  apply Forall_cons in Hl as [He Hl].
  destruct H as (Hc & Hs & Hh & H1 & H2 & n & H3 & Hr). subst c.
  rewrite !not_elem_of_cons in He. destruct He as (E1 & E2 & E3 & _).
  split; [done|]. split; [done|]. split; [done|]. cbn [words store].
  rewrite !lookup_insert_ne by done.
  split; [done|]. split; [done|]. exists n. split; [done|by apply IH].
Qed.

Lemma listed_frame pool pool' l : forall c,
  words pool' = words pool ->
  Forall (fun e => holds pool' (e_self e) = true) l ->
  listed pool c l -> listed pool' c l.
Proof.
  induction l as [|e r IH]; intros c Hw Hl H; [done|].
  apply Forall_cons in Hl as [He Hl].
  destruct H as (Hc & Hs & Hh & H1 & H2 & n & H3 & Hr). subst c.
  split; [done|]. split; [done|]. split; [done|]. rewrite Hw.
  split; [done|]. split; [done|]. exists n. split; [done|by apply IH].
Qed.

(** The handler loop of ngx_destroy_pool over a list of entries. *)
Lemma run_cleanups_listed pool l : forall c w (fuel : nat),
  listed pool c l -> (length l < fuel)%nat ->
  run_cleanups fuel pool c w
  = Done (mk_world (brk w) (limit w) (trace w ++ handler_runs l)).
Proof.
  induction l as [|e r IH]; intros c w fuel Hl Hf;
    (destruct fuel as [|fuel]; [simpl in Hf; lia|]).
  - cbn in Hl. subst c. cbn. rewrite app_nil_r. by destruct w.
  - destruct Hl as (Hc & Hs & Hh & H1 & H2 & n & H3 & Hr).
    cbn [run_cleanups]. destruct (Z.eqb_spec c NULL) as [|_]; [done|].
    unfold load. rewrite Hh, H1, H2, H3. cbn [mbind res_mbind res_bind].
    unfold handler_runs. rewrite filter_cons.
    destruct (Z.eqb_spec (e_handler e) NULL) as [E|E]; cbn [mbind res_mbind res_bind].
    + rewrite decide_False by (intros H; by apply H).
      apply IH; [done|]. simpl in Hf. lia.
    + rewrite decide_True by done.
      rewrite (IH n _ fuel Hr) by (simpl in Hf; lia). cbn. by rewrite <- app_assoc.
Qed.

(** What ngx_destroy_pool does on a pool whose cleanup stack is the list
    [l], in order: the handlers of the stack from its top, the large
    allocations in list order, the blocks in chain order. *)
Lemma destroy_pool_trace pool l (fuel : nat) w :
  listed pool (cleanup pool) l -> (length l < fuel)%nat ->
  exists w',
    ngx_destroy_pool fuel pool w = Done w' /\
    trace w' = trace w ++ handler_runs l ++ large_frees (large pool)
                 ++ block_frees (blocks pool).
Proof.
  intros Hl Hf. unfold ngx_destroy_pool.
  rewrite (run_cleanups_listed pool l _ w fuel Hl Hf). cbn [mbind res_mbind res_bind].
  eexists. split; [reflexivity|].
  rewrite free_blocks_trace, free_large_trace. simpl.
  by rewrite <- !app_assoc.
Qed.

Lemma handler_runs_app l1 l2 :
  handler_runs (l1 ++ l2) = handler_runs l1 ++ handler_runs l2.
Proof. unfold handler_runs. by rewrite filter_app, map_app. Qed.

(** ** The cursors move forward *)

Lemma pool_tidy_world pool w w' :
  pool_tidy pool w -> brk w <= brk w' -> pool_tidy pool w'.
Proof.
  intros (Hok & Hasc & Hnd) Hb. split; [by apply (pool_ok_world pool w)|done].
Qed.

Lemma small_path_below aligned pool size w m pool' w' :
  pool_tidy pool w -> headed pool -> 0 <= size <= max pool ->
  small_path aligned pool size w = Done (m, pool', w') ->
  forall q, below_cursor pool q -> below_cursor pool' q.
Proof.
  intros Ht Hh Hs H. destruct (Z.eq_dec m NULL) as [->|Hm].
  - pose proof Ht as ((Hsane & _) & _).
    by apply small_path_null in H as (-> & _ & _); [|done|lia].
  - by destruct (small_path_fresh _ _ _ _ _ _ _ Ht Hh Hs H Hm) as (_ & _ & _ & ?).
Qed.

Lemma push_large_below fuel pool p w m pool' w' :
  pool_tidy pool w -> headed pool ->
  push_large fuel pool p w = Done (m, pool', w') ->
  forall q, below_cursor pool q -> below_cursor pool' q.
Proof.
  intros Ht Hh H. pose proof Ht as (((Hb & Hm & _) & _) & _).
  destruct fuel as [|fuel]; [done|]. unfold push_large in H.
  rewrite ngx_palloc_small in H by done.
  apply res_bind_done in H as ([[lg pool2] w2] & Hsm & H).
  assert (H16 : 0 <= sizeof_ngx_pool_large_t <= max pool)
    by (unfold sizeof_ngx_pool_large_t in *; lia).
  pose proof (small_path_below _ _ _ _ _ _ _ Ht Hh H16 Hsm) as Hmono.
  destruct (lg =? NULL); injection H as _ <- _; exact Hmono.
Qed.

Lemma palloc_large_below fuel pool size w m pool' w' :
  pool_tidy pool w -> headed pool -> 0 <= size ->
  ngx_palloc_large fuel pool size w = Done (m, pool', w') ->
  forall q, below_cursor pool q -> below_cursor pool' q.
Proof.
  intros Ht Hh Hs H. pose proof Ht as (((Hb & _) & _) & _).
  destruct fuel as [|fuel]; [done|]. rewrite ngx_palloc_large_eq in H.
  unfold ngx_alloc in H.
  destruct (ngx_memalign NGX_POOL_ALIGNMENT size w) as [p w1] eqn:Ea.
  apply (memalign_spec 4) in Ea as (_ & _ & Hbrk & _); [|lia|lia|lia].
  destruct (p =? NULL); [by injection H as _ <- _|].
  destruct (large_reuse 0 (large pool) p) as [l|]; [by injection H as _ <- _|].
  apply (push_large_below fuel pool p w1 m pool' w'); [|done|done].
  by apply (pool_tidy_world pool w).
Qed.

(** A call other than ngx_reset_pool writes no field of a cleanup entry and
    leaves below the cursors what was below them. *)
Lemma pool_step_keeps fuel pool w c pool' w' :
  pool_tidy pool w -> headed pool -> call_ok c -> c <> Preset ->
  pool_step fuel pool w c = Done (pool', w') ->
  words pool' = words pool /\ cleanup pool' = cleanup pool /\
  max pool' = max pool /\
  forall q, below_cursor pool q -> below_cursor pool' q.
Proof.
  intros Ht Hh Hc Hnr H. pose proof Ht as (Hok & _). pose proof Hok as ((Hb & _) & _).
  destruct c as [size|size|size al|p|]; cbn [pool_step call_ok] in *; [| | | |done].
  - apply res_bind_done in H as ([[m pool1] w1] & Hp & [= <- <-]).
    split; [by apply (proj1 (palloc_words fuel)) in Hp|].
    destruct (proj1 (palloc_frame fuel) _ _ _ _ _ _ Hp) as (Hcl & Hmax & _).
    split; [done|]. split; [done|].
    destruct fuel as [|fuel]; [done|].
    destruct (Z.leb_spec size (max pool)) as [Hle|Hgt].
    + rewrite ngx_palloc_small in Hp by done.
      by apply (small_path_below true pool size w m pool1 w1).
    + cbn [ngx_palloc] in Hp. destruct (Z.leb_spec size (max pool)); [lia|].
      by apply (palloc_large_below fuel pool size w m pool1 w1).
  - apply res_bind_done in H as ([[m pool1] w1] & Hp & [= <- <-]).
    rewrite ngx_pnalloc_eq in Hp.
    destruct (Z.leb_spec size (max pool)) as [Hle|Hgt].
    + destruct (small_path_words _ _ _ _ _ _ _ Hp) as [Hw Hcl].
      split; [done|]. split; [done|].
      split; [|by apply (small_path_below false pool size w m pool1 w1)].
      destruct (small_path_ok _ _ _ _ _ _ _ Hok (conj Hc Hle) Hp) as (_ & _ & _ & ? & _).
      done.
    + split; [by apply (proj2 (palloc_words fuel)) in Hp|].
      destruct (proj2 (palloc_frame fuel) _ _ _ _ _ _ Hp) as (Hcl & Hmax).
      split; [done|]. split; [done|].
      by apply (palloc_large_below fuel pool size w m pool1 w1).
  - destruct Hc as (Hsize & k & Hk & ->).
    apply res_bind_done in H as ([[m pool1] w1] & Hp & [= <- <-]).
    destruct (pmemalign_ok _ _ _ _ _ _ _ _ Hok Hsize Hk Hp) as (_ & _ & Hmax & _).
    rewrite ngx_pmemalign_eq in Hp.
    destruct (ngx_memalign (2 ^ k) size w) as [p w2] eqn:Ea.
    apply (memalign_spec k) in Ea as (_ & _ & Hbrk & _); [|lia|lia|lia].
    destruct (p =? NULL); [by injection Hp as _ <- _|].
    assert (Ht2 : pool_tidy pool w2) by (by apply (pool_tidy_world pool w)).
    pose proof (push_large_below _ _ _ _ _ _ _ Ht2 Hh Hp) as Hmono.
    unfold push_large in Hp. apply res_bind_done in Hp as ([[lg p2] w3] & Hq & Hp).
    pose proof (proj1 (palloc_words fuel) _ _ _ _ _ _ Hq) as Hw.
    destruct (proj1 (palloc_frame fuel) _ _ _ _ _ _ Hq) as (Hcl & _).
    destruct (lg =? NULL); injection Hp as _ <- _; done.
  - unfold ngx_pfree in H. destruct (pfree_walk (large pool) p); by injection H as <- _.
Qed.

(** ** Small allocations between two resets *)

Lemma palloc_below fuel pool size w m pool' w' :
  pool_tidy pool w -> headed pool -> 0 <= size ->
  ngx_palloc fuel pool size w = Done (m, pool', w') ->
  pool_tidy pool' w' /\ headed pool' /\
  forall q, below_cursor pool q -> below_cursor pool' q.
Proof.
  intros Ht Hh Hs H.
  split; [by apply (palloc_tidy fuel pool size w m)|].
  split; [by apply (proj1 (palloc_headed fuel) pool size w m pool' w')|].
  assert (Hstep : pool_step fuel pool w (Palloc size) = Done (pool', w'))
    by (cbn [pool_step]; by rewrite H).
  assert (Hnr : Palloc size <> Preset) by done.
  by destruct (pool_step_keeps fuel pool w (Palloc size) pool' w' Ht Hh Hs Hnr Hstep)
    as (_ & _ & _ & ?).
Qed.

Lemma op_step_below fuel pool w o pool' w' :
  pool_tidy pool w -> headed pool -> pool_op_ok o -> o <> Call Preset ->
  op_step fuel pool w o = Done (pool', w') ->
  pool_tidy pool' w' /\ headed pool' /\
  forall q, below_cursor pool q -> below_cursor pool' q.
Proof.
  intros Ht Hh Ho Hnr H.
  split; [by apply (op_step_tidy fuel pool w o)|].
  split; [by apply (op_step_headed fuel pool w o pool' w')|].
  destruct o as [c|size h]; cbn [op_step pool_op_ok] in *.
  - assert (Hc : c <> Preset) by congruence.
    by destruct (pool_step_keeps fuel pool w c pool' w' Ht Hh Ho Hc H) as (_ & _ & _ & ?).
  - apply res_bind_done in H as ([[c p1] w1] & Hr & [= <- <-]).
    unfold register in Hr. apply res_bind_done in Hr as ([[c1 p2] w2] & Ha & Hr).
    assert (Hm : forall q, below_cursor pool q -> below_cursor p2 q).
    { unfold ngx_pool_cleanup_add in Ha.
      apply res_bind_done in Ha as ([[c0 p3] w3] & Hp & Ha).
      assert (H24 : 0 <= sizeof_ngx_pool_cleanup_t)
        by (unfold sizeof_ngx_pool_cleanup_t; lia).
      destruct (palloc_below _ _ _ _ _ _ _ Ht Hh H24 Hp) as (Ht3 & Hh3 & Hm3).
      destruct (c0 =? NULL); [by injection Ha as _ <- _|].
      destruct (size =? 0); [injection Ha as _ <- _; exact Hm3|].
      apply res_bind_done in Ha as ([[data p4] w4] & Hd & Ha).
      destruct (palloc_below _ _ _ _ _ _ _ Ht3 Hh3 Ho Hd) as (_ & _ & Hm4).
      destruct (data =? NULL); injection Ha as _ <- _; intros q Hq; apply Hm4, Hm3, Hq. }
    destruct (c1 =? NULL); injection Hr as _ <- _; exact Hm.
Qed.

Lemma pool_ops_below fuel os : forall pool w pool' w',
  pool_tidy pool w -> headed pool -> Forall pool_op_ok os -> (Call Preset ∉ os) ->
  pool_ops fuel pool w os = Done (pool', w') ->
  pool_tidy pool' w' /\ headed pool' /\
  forall q, below_cursor pool q -> below_cursor pool' q.
Proof.
  induction os as [|o os IH]; intros pool w pool' w' Ht Hh Hos Hnr H.
  - by injection H as <- <-.
  - apply Forall_cons in Hos as [Ho Hos]. cbn [pool_ops] in H.
    apply res_bind_done in H as ([pool1 w1] & Hstep & H).
    apply not_elem_of_cons in Hnr as [Hn1 Hnr].
    assert (Hno : o <> Call Preset) by congruence.
    destruct (op_step_below fuel pool w o pool1 w1 Ht Hh Ho Hno Hstep)
      as (Ht1 & Hh1 & Hm1).
    destruct (IH pool1 w1 pool' w' Ht1 Hh1 Hos Hnr H) as (Ht2 & Hh2 & Hm2).
    split; [done|]. split; [done|]. intros q Hq. by apply Hm2, Hm1.
Qed.

(** What ngx_palloc and ngx_pnalloc return for a size of at most [max]
    was above the cursors. *)
Lemma small_allocation_above fuel pool w size m pool' w' :
  pool_tidy pool w -> headed pool -> 0 <= size <= max pool ->
  ngx_palloc fuel pool size w = Done (m, pool', w') \/
  ngx_pnalloc fuel pool size w = Done (m, pool', w') ->
  m <> NULL ->
  forall q, m <= q < m + size -> ~ below_cursor pool q.
Proof.
  intros Ht Hh Hs H Hnn.
  assert (exists aligned, small_path aligned pool size w = Done (m, pool', w'))
    as [aligned Hp].
  { destruct H as [H|H].
    - exists true. destruct fuel as [|fuel]; [done|].
      by rewrite ngx_palloc_small in H by lia.
    - exists false. rewrite ngx_pnalloc_eq in H.
      by destruct (Z.leb_spec size (max pool)); [|lia]. }
  by destruct (small_path_fresh aligned pool size w m pool' w' Ht Hh Hs Hp Hnn)
    as (_ & _ & ? & _).
Qed.

(** X1.  Small allocations: ngx_palloc and ngx_pnalloc with a size above 0
    and of at most [max], on a pool that was created with a size that is
    a multiple of NGX_ALIGNMENT and at least
    [sizeof(ngx_pool_t) + sizeof(ngx_pool_large_t)], and then taken
    through any allocations, frees, resets and registrations
    ([pool_reachable]).  What comes back, when it is not NULL, is [size]
    bytes inside one block, after the block's header and ending at its
    cursor.  All of these bytes were above the cursors before the call
    and are below them after it, and what was below a cursor stays below.
    Until the next ngx_reset_pool no byte is given out twice: after any
    further calls but a reset, what a small allocation returns shares no
    byte with these.  ngx_reset_pool rewinds the cursors, and what was
    given out before it, the cleanup entries still on the stack among
    it, is given out again.  ngx_palloc's pointer is aligned to
    NGX_ALIGNMENT.  The large list is left alone. *)
Theorem small_allocation_is_fresh fuel pool w size m pool' w' :
  pool_reachable fuel pool w -> 0 < size <= max pool ->
  ngx_palloc fuel pool size w = Done (m, pool', w') \/
  ngx_pnalloc fuel pool size w = Done (m, pool', w') ->
  m <> NULL ->
  (ngx_palloc fuel pool size w = Done (m, pool', w') -> m mod NGX_ALIGNMENT = 0) /\
  (exists b, b ∈ blocks pool' /\ d_self b + sizeof_ngx_pool_data_t <= m /\
             m + size = d_last b /\ d_last b <= d_end b) /\
  (forall q, m <= q < m + size -> ~ below_cursor pool q /\ below_cursor pool' q) /\
  (forall q, below_cursor pool q -> below_cursor pool' q) /\
  large pool' = large pool /\
  (forall os pool2 w2 size2 m2 pool3 w3,
     Forall pool_op_ok os -> (Call Preset ∉ os) ->
     pool_ops fuel pool' w' os = Done (pool2, w2) ->
     0 < size2 <= max pool2 ->
     ngx_palloc fuel pool2 size2 w2 = Done (m2, pool3, w3) \/
     ngx_pnalloc fuel pool2 size2 w2 = Done (m2, pool3, w3) ->
     m2 <> NULL ->
     m2 + size2 <= m \/ m + size <= m2).
Proof.
  intros Hr Hsize H Hnn.
  pose proof (pool_reachable_tidy _ _ _ Hr) as Ht.
  pose proof (pool_reachable_headed _ _ _ Hr) as Hh.
  assert (Hgen : forall aligned,
    small_path aligned pool size w = Done (m, pool', w') ->
    (aligned = true -> m mod NGX_ALIGNMENT = 0) /\
    (exists b, b ∈ blocks pool' /\ d_self b + sizeof_ngx_pool_data_t <= m /\
               m + size = d_last b /\ d_last b <= d_end b) /\
    (forall q, m <= q < m + size -> ~ below_cursor pool q /\ below_cursor pool' q) /\
    (forall q, below_cursor pool q -> below_cursor pool' q) /\
    large pool' = large pool).
  { intros aligned Hs.
    assert (Hsz : 0 <= size <= max pool) by lia.
    destruct (small_path_fresh aligned pool size w m pool' w' Ht Hh Hsz Hs Hnn)
      as (Hmod & (b & Hb & Hb1 & Hb2 & Hb3) & Hfresh & Hkeep).
    destruct Ht as (Hok & _).
    destruct (small_path_ok _ _ _ _ _ _ _ Hok Hsz Hs) as (_ & _ & Hlg & _).
    split; [done|]. split; [by exists b|]. split; [|done].
    intros q Hq. split; [by apply Hfresh|]. exists b. split; [done|].
    unfold sizeof_ngx_pool_data_t in Hb1. lia. }
  assert (Hpal : ngx_palloc fuel pool size w = Done (m, pool', w') ->
                 small_path true pool size w = Done (m, pool', w')).
  { intros Hp. destruct fuel as [|fuel]; [done|]. by rewrite ngx_palloc_small in Hp by lia. }
  assert (Hall : exists aligned, small_path aligned pool size w = Done (m, pool', w')).
  { destruct H as [H|H]; [exists true; by apply Hpal|]. exists false.
    rewrite ngx_pnalloc_eq in H. by destruct (Z.leb_spec size (max pool)); [|lia]. }
  destruct Hall as (aligned & Hsp).
  destruct (Hgen aligned Hsp) as (_ & Hblock & Hfresh & Hkeep & Hlarge).
  split; [intros Hp; by apply (Hgen true (Hpal Hp))|].
  split; [done|]. split; [done|]. split; [done|]. split; [done|].
  intros os pool2 w2 size2 m2 pool3 w3 Hos Hnr Hrun Hs2 H2 Hnn2.
  assert (Hsz : 0 <= size <= max pool) by lia.
  assert (Ht' : pool_tidy pool' w') by (by apply (small_path_tidy aligned pool size w m)).
  assert (Hh' : headed pool') by (apply (small_path_headed aligned pool size w m pool' w'); [done|lia|done]).
  destruct (pool_ops_below fuel os pool' w' pool2 w2 Ht' Hh' Hos Hnr Hrun)
    as (Ht2 & Hh2 & Hm2).
  assert (Hsz2 : 0 <= size2 <= max pool2) by lia.
  pose proof (small_allocation_above fuel pool2 w2 size2 m2 pool3 w3 Ht2 Hh2 Hsz2 H2 Hnn2)
    as Hab.
  destruct (Z.le_gt_cases (m2 + size2) m) as [|G1]; [by left|].
  destruct (Z.le_gt_cases (m + size) m2) as [|G2]; [by right|]. exfalso.
  apply (Hab (Z.max m m2)); [lia|]. apply Hm2, Hfresh. lia.
Qed.

(** The theorem on a pool of 256 bytes with a second block: the 40 bytes
    that ngx_palloc returns, and the 24 bytes it returns after a large
    allocation and a registration. *)
Lemma small_allocation_is_fresh_witness :
  exists pool w m pool' w' pool2 w2 m2 pool3 w3,
    pool_reachable 3 pool w /\ 0 < 40 <= max pool /\
    ngx_palloc 3 pool 40 w = Done (m, pool', w') /\ m <> NULL /\
    length (blocks pool') = S (length (blocks pool)) /\
    m mod NGX_ALIGNMENT = 0 /\
    (forall q, m <= q < m + 40 -> ~ below_cursor pool q /\ below_cursor pool' q) /\
    (forall q, below_cursor pool q -> below_cursor pool' q) /\
    pool_ops 3 pool' w' [Call (Palloc 5000); Register 0 56] = Done (pool2, w2) /\
    ngx_palloc 3 pool2 24 w2 = Done (m2, pool3, w3) /\
    (m2 + 24 <= m \/ m + 40 <= m2).
Proof.
  pose (ops := [Call (Palloc 100); Call (Palloc 4096); Register 8 55]).
  pose (ops2 := [Call (Palloc 5000); Register 0 56]).
  let r := eval vm_compute in (ngx_create_pool 256 NULL world0) in
  match r with
  | (Some ?p0, ?w1) =>
      let r2 := eval vm_compute in (pool_ops 3 p0 w1 ops) in
      match r2 with
      | Done (?p, ?w) =>
          let r3 := eval vm_compute in (ngx_palloc 3 p 40 w) in
          match r3 with
          | Done (?m, ?p', ?w') =>
              let r4 := eval vm_compute in (pool_ops 3 p' w' ops2) in
              match r4 with
              | Done (?p2, ?w2) =>
                  let r5 := eval vm_compute in (ngx_palloc 3 p2 24 w2) in
                  match r5 with
                  | Done (?m2, ?p3, ?w3) =>
                      exists p, w, m, p', w', p2, w2, m2, p3, w3;
                      assert (Hr : pool_reachable 3 p w);
                      [exists 256, NULL, world0, p0, w1, ops;
                       split; [by vm_compute|]; split; [by vm_compute|];
                       split; [by vm_compute|]; split; [by vm_compute|];
                       split; [|by vm_compute];
                       repeat apply Forall_cons_2; try apply Forall_nil_2; simpl; lia|];
                      assert (Hs : 0 < 40 <= max p) by (simpl; lia);
                      assert (Hp : ngx_palloc 3 p 40 w = Done (m, p', w'))
                        by (by vm_compute);
                      assert (Hnn : m <> NULL) by (by vm_compute);
                      assert (Hrun : pool_ops 3 p' w' ops2 = Done (p2, w2))
                        by (by vm_compute);
                      assert (Hp2 : ngx_palloc 3 p2 24 w2 = Done (m2, p3, w3))
                        by (by vm_compute);
                      destruct (small_allocation_is_fresh 3 p w 40 m p' w' Hr Hs
                                  (or_introl Hp) Hnn)
                        as (Hmod & _ & Hf & Hk & _ & Hlater);
                      pose proof (Hlater ops2 p2 w2 24 m2 p3 w3) as Hdis
                  end
              end
          end
      end
  end.
  split; [exact Hr|]. split; [exact Hs|]. split; [exact Hp|]. split; [exact Hnn|].
  split; [reflexivity|]. split; [by apply Hmod|]. split; [exact Hf|].
  split; [exact Hk|]. split; [exact Hrun|]. split; [exact Hp2|].
  apply Hdis.
  - repeat apply Forall_cons_2; try apply Forall_nil_2; simpl; lia.
  - unfold ops2. rewrite !not_elem_of_cons. repeat split; try discriminate.
    apply not_elem_of_nil.
  - exact Hrun.
  - simpl. lia.
  - left. exact Hp2.
  - discriminate.
Defined.

(** ** Registering a cleanup on a pool that keeps its stack *)

Lemma palloc_null_limit fuel pool size w pool' w' :
  pool_ok pool w -> 0 <= size ->
  ngx_palloc fuel pool size w = Done (NULL, pool', w') ->
  pool' = pool /\ limit w <> None.
Proof.
  intros Hok Hs H. pose proof Hok as (Hsane & _).
  destruct fuel as [|fuel]; [done|].
  destruct (Z.leb_spec size (max pool)) as [Hle|Hgt].
  - rewrite ngx_palloc_small in H by done.
    by apply small_path_null in H as (? & _ & ?).
  - cbn [ngx_palloc] in H. destruct (Z.leb_spec size (max pool)); [lia|].
    by destruct (palloc_large_effect _ _ _ _ _ _ _ Hok Hgt H)
      as [_ [(_ & ? & ? & _)|(? & _)]].
Qed.

Lemma stack_ok_frame pool w l pool' w' :
  stack_ok pool w l -> pool_tidy pool' w' -> headed pool' ->
  words pool' = words pool -> cleanup pool' = cleanup pool ->
  max pool' = max pool ->
  (forall q, below_cursor pool q -> below_cursor pool' q) ->
  stack_ok pool' w' l.
Proof.
  intros (Ht & Hh & Hmax & Hl & Ha & Hsep) Ht' Hh' Hw Hc Hm Hmono.
  assert (Ha' : Forall (fun e => allotted pool' (e_self e)) l).
  { eapply Forall_impl; [exact Ha|]. intros e He q Hq. by apply Hmono, He. }
  split; [done|]. split; [done|]. split; [lia|]. split; [|done].
  rewrite Hc. apply (listed_frame pool); [done| |done].
  eapply Forall_impl; [exact Ha'|]. intros e He.
  apply (allotted_holds pool' w'); [by destruct Ht'|done].
Qed.

(** A small allocation of the size of a cleanup entry is apart from every
    entry that is allotted. *)
Lemma fresh_entry_apart pool c a :
  (forall q, c <= q < c + sizeof_ngx_pool_cleanup_t -> ~ below_cursor pool q) ->
  allotted pool a -> apart c a.
Proof.
  unfold allotted, apart, sizeof_ngx_pool_cleanup_t. intros Hf Ha.
  destruct (Z.le_gt_cases (c + 24) a) as [|H1]; [by left|].
  destruct (Z.le_gt_cases (a + 24) c) as [|H2]; [by right|]. exfalso.
  destruct (Z.le_gt_cases a c).
  - apply (Hf c); [lia|]. apply Ha. lia.
  - apply (Hf a); [lia|]. apply Ha. lia.
Qed.

Lemma stack_ok_store pool w l a v :
  stack_ok pool w l ->
  Forall (fun e => a ∉ [c_handler (e_self e); c_data (e_self e); c_next (e_self e)]) l ->
  stack_ok (store pool a v) w l.
Proof.
  intros (Ht & Hh & Hmax & Hl & Ha & Hsep) Hout.
  split; [by apply pool_tidy_store|]. split; [done|]. split; [done|].
  split; [|done]. by apply listed_store.
Qed.

Lemma apart_not_field c f l :
  f ∈ [c_handler c; c_data c; c_next c] ->
  Forall (fun e => apart c (e_self e)) l ->
  Forall (fun e => f ∉ [c_handler (e_self e); c_data (e_self e); c_next (e_self e)]) l.
Proof.
  intros Hf Hl. eapply Forall_impl; [exact Hl|]. intros e He Hin.
  by apply (apart_fields c (e_self e) He f f).
Qed.

Lemma listed_set_cleanup pool x l : forall c,
  listed pool c l -> listed (set_cleanup pool x) c l.
Proof.
  induction l as [|e r IH]; intros c H; [done|].
  destruct H as (Hc & Hs & Hh & H1 & H2 & n & H3 & Hr).
  split; [done|]. split; [done|]. split; [done|].
  split; [done|]. split; [done|]. exists n. split; [done|by apply IH].
Qed.

(** Pushing the entry at [c], whose [data] field holds [data], on a
    stack it is apart from. *)
Lemma stack_ok_push pool w l c data :
  stack_ok pool w l -> c <> NULL -> allotted pool c ->
  Forall (fun e => apart c (e_self e)) l ->
  words pool !! c_data c = Some data ->
  stack_ok (push_cleanup pool c) w (mk_entry c NULL data :: l) /\
  cleanup (push_cleanup pool c) = c.
Proof.
  intros (Ht & Hh & Hmax & Hl & Ha & Hsep) Hc Hal Hap Hd. split; [|done].
  split; [by apply pool_tidy_push_cleanup|]. split; [done|]. split; [done|].
  split.
  2:{ split; [by apply Forall_cons|]. cbn [map separate e_self].
      split; [|done]. by apply Forall_fmap. }
  cbn [listed cleanup push_cleanup set_cleanup e_self e_handler e_data].
  split; [done|]. split; [done|].
  split; [apply (allotted_holds pool w); [by destruct Ht|done]|].
  unfold push_cleanup. cbn [words store set_cleanup cleanup].
  assert (c_handler c <> c_next c /\ c_data c <> c_next c /\ c_data c <> c_handler c)
    as (E1 & E2 & E3) by (unfold c_handler, c_data, c_next; lia).
  split; [by rewrite lookup_insert_ne, lookup_insert_eq|].
  split; [by rewrite !lookup_insert_ne|].
  exists (cleanup pool). split; [by rewrite lookup_insert_eq|].
  apply listed_set_cleanup.
  apply (listed_store _ (c_next c)); [apply (apart_not_field c); [|done]|].
  { rewrite !elem_of_cons. tauto. }
  apply (listed_store _ (c_handler c)); [apply (apart_not_field c); [|done]|done].
  rewrite !elem_of_cons. tauto.
Qed.

(** ngx_pool_cleanup_add on a pool that keeps its stack: a new entry is
    memory that no entry of the stack lies in. *)
Lemma cleanup_add_stack fuel pool w l size c pool' w' :
  stack_ok pool w l -> 0 <= size ->
  ngx_pool_cleanup_add fuel pool size w = Done (c, pool', w') ->
  (c = NULL -> stack_ok pool' w' l /\ cleanup pool' = cleanup pool /\
               limit w <> None) /\
  (c <> NULL ->
     exists data,
       stack_ok pool' w' (mk_entry c NULL data :: l) /\ cleanup pool' = c /\
       Forall (fun e => apart c (e_self e)) l /\ (data = NULL <-> size = 0)).
Proof.
  intros Hst Hsize H. pose proof Hst as (Ht & Hh & Hmax & Hl & Ha & Hsep).
  pose proof Ht as (Hok & _). pose proof Hok as (Hsane & _).
  unfold ngx_pool_cleanup_add in H.
  apply res_bind_done in H as ([[c1 p1] w1] & Hp1 & H).
  assert (H24 : 0 <= sizeof_ngx_pool_cleanup_t <= max pool)
    by (unfold sizeof_ngx_pool_cleanup_t in *; lia).
  pose proof (proj1 (palloc_limit fuel) _ _ _ _ _ _ Hp1) as Hl1.
  destruct (Z.eqb_spec c1 NULL) as [Ez|Ez].
  { injection H as <- <- <-. subst c1. split; [|done]. intros _.
    destruct fuel as [|fuel]; [done|]. rewrite ngx_palloc_small in Hp1 by lia.
    by apply small_path_null in Hp1 as (-> & -> & ?); [|done|lia]. }
  pose proof (palloc_tidy _ _ _ _ _ _ _ Ht (proj1 H24) Hp1) as Ht1.
  pose proof (proj1 (palloc_headed fuel) _ _ _ _ _ _ Hh (proj1 H24) Hp1) as Hh1.
  pose proof (proj1 (palloc_words fuel) _ _ _ _ _ _ Hp1) as Hw1.
  destruct (proj1 (palloc_frame fuel) _ _ _ _ _ _ Hp1) as (Hc1 & Hm1 & _).
  assert (Hfresh : (forall q, c1 <= q < c1 + sizeof_ngx_pool_cleanup_t ->
                              ~ below_cursor pool q /\ below_cursor p1 q) /\
                   forall q, below_cursor pool q -> below_cursor p1 q).
  { destruct fuel as [|fuel]; [done|]. rewrite ngx_palloc_small in Hp1 by lia.
    destruct (small_path_fresh _ _ _ _ _ _ _ Ht Hh H24 Hp1 Ez)
      as (_ & (b & Hb & Hb1 & Hb2 & _) & Hf & Hmono).
    split; [|done]. intros q Hq. split; [by apply Hf|].
    exists b. split; [done|]. unfold sizeof_ngx_pool_data_t in Hb1. lia. }
  destruct Hfresh as [Hf Hmono1].
  assert (Hst1 : stack_ok p1 w1 l) by (apply (stack_ok_frame pool w); done).
  assert (Hap : Forall (fun e => apart c1 (e_self e)) l).
  { eapply Forall_impl; [exact Ha|]. intros e He.
    apply (fresh_entry_apart pool); [|done]. intros q Hq. by apply Hf. }
  assert (Hal1 : allotted p1 c1) by (intros q Hq; by apply Hf).
  assert (Hdata : Forall (fun e => c_data c1 ∉
             [c_handler (e_self e); c_data (e_self e); c_next (e_self e)]) l).
  { apply (apart_not_field c1); [|done]. rewrite !elem_of_cons. tauto. }
  destruct (Z.eqb_spec size 0) as [E0|E0].
  - injection H as <- <- <-. split; [done|]. intros _. exists NULL.
    destruct (stack_ok_push (store p1 (c_data c1) NULL) w1 l c1 NULL) as [H1 H2];
      try done.
    + apply stack_ok_store; [done|exact Hdata].
    + cbn [words store]. by rewrite lookup_insert_eq.
  - apply res_bind_done in H as ([[data p2] w2] & Hp2 & H).
    pose proof (palloc_tidy _ _ _ _ _ _ _ Ht1 Hsize Hp2) as Ht2.
    pose proof (proj1 (palloc_headed fuel) _ _ _ _ _ _ Hh1 Hsize Hp2) as Hh2.
    pose proof (proj1 (palloc_words fuel) _ _ _ _ _ _ Hp2) as Hw2.
    destruct (proj1 (palloc_frame fuel) _ _ _ _ _ _ Hp2) as (Hc2 & Hm2 & _).
    assert (Hmono2 : forall q, below_cursor p1 q -> below_cursor p2 q).
    { assert (Hstep : pool_step fuel p1 w1 (Palloc size) = Done (p2, w2))
        by (cbn [pool_step]; by rewrite Hp2).
      assert (Hnr : Palloc size <> Preset) by done.
      by destruct (pool_step_keeps fuel p1 w1 (Palloc size) p2 w2 Ht1 Hh1 Hsize Hnr Hstep)
        as (_ & _ & _ & ?). }
    assert (Hst2 : stack_ok p2 w2 l) by (apply (stack_ok_frame p1 w1); done).
    assert (Hal2 : allotted p2 c1) by (intros q Hq; by apply Hmono2, Hal1).
    destruct (Z.eqb_spec data NULL) as [Ed|Ed].
    + injection H as <- <- <-. split; [|done]. intros _. subst data.
      split; [apply stack_ok_store; [done|exact Hdata]|].
      split; [cbn [cleanup store]; congruence|].
      rewrite <- Hl1. pose proof Ht1 as (Hok1 & _).
      by apply palloc_null_limit in Hp2 as [_ ?].
    + injection H as <- <- <-. split; [done|]. intros _. exists data.
      destruct (stack_ok_push (store p2 (c_data c1) data) w2 l c1 data) as [H1 H2];
        try done.
      * apply stack_ok_store; [done|exact Hdata].
      * cbn [words store]. by rewrite lookup_insert_eq.
Qed.

(** The entry after the caller has installed its handler. *)
Lemma register_stack fuel pool w l size h c pool' w' :
  stack_ok pool w l -> 0 <= size ->
  register fuel pool size h w = Done (c, pool', w') ->
  (c = NULL -> stack_ok pool' w' l /\ cleanup pool' = cleanup pool /\
               limit w <> None) /\
  (c <> NULL ->
     exists data,
       stack_ok pool' w' (mk_entry c h data :: l) /\ cleanup pool' = c /\
       Forall (fun e => apart c (e_self e)) l /\ (data = NULL <-> size = 0)).
Proof.
  intros Hst Hsize H. unfold register in H.
  apply res_bind_done in H as ([[c1 p1] w1] & Ha & H).
  destruct (cleanup_add_stack _ _ _ _ _ _ _ _ Hst Hsize Ha) as [Hn Hs].
  destruct (Z.eqb_spec c1 NULL) as [Ez|Ez]; injection H as <- <- <-.
  { split; [|done]. intros _. by apply Hn. }
  split; [done|]. intros _. destruct (Hs Ez) as (data & Hst1 & Hc & Hap & Hd).
  exists data. split; [|done]. unfold set_handler.
  destruct Hst1 as (Ht & Hh & Hmax & Hl & Hal & Hsep).
  split; [by apply pool_tidy_store|]. split; [done|]. split; [done|].
  split.
  2:{ split; [|exact Hsep]. apply Forall_cons in Hal as [Ha1 Ha2]. apply Forall_cons.
      split; [exact Ha1|exact Ha2]. }
  cbn [cleanup store]. rewrite Hc in Hl |- *.
  destruct Hl as (Hc1 & _ & Hho & H1 & H2 & n & H3 & Hr).
  cbn [e_self e_handler e_data] in *.
  assert (c_handler c1 <> c_next c1 /\ c_data c1 <> c_handler c1)
    as (E1 & E2) by (unfold c_handler, c_data, c_next; lia).
  split; [done|]. split; [done|]. split; [done|]. cbn [words store].
  split; [by rewrite lookup_insert_eq|]. split; [by rewrite lookup_insert_ne|].
  exists n. split; [by rewrite lookup_insert_ne|].
  apply listed_store; [|done]. apply (apart_not_field c1); [|done].
  rewrite !elem_of_cons. tauto.
Qed.

Lemma op_step_stack fuel pool w l o pool' w' :
  stack_ok pool w l -> pool_op_ok o -> o <> Call Preset ->
  op_step fuel pool w o = Done (pool', w') ->
  exists l', stack_ok pool' w' l'.
Proof.
  intros Hst Ho Hnr H. pose proof Hst as (Ht & Hh & _).
  destruct o as [c|size h].
  - exists l. cbn [op_step pool_op_ok] in *.
    assert (Hc : c <> Preset) by congruence.
    destruct (pool_step_keeps _ _ _ _ _ _ Ht Hh Ho Hc H) as (Hw & Hcl & Hm & Hmono).
    apply (stack_ok_frame pool w); try done.
    + by apply (pool_step_tidy fuel pool w c).
    + by apply (op_step_headed fuel pool w (Call c) pool' w').
  - cbn [op_step pool_op_ok] in *.
    apply res_bind_done in H as ([[c p1] w1] & Hr & [= <- <-]).
    destruct (register_stack _ _ _ _ _ _ _ _ _ Hst Ho Hr) as [Hn Hs].
    destruct (Z.eq_dec c NULL) as [Ez|Ez].
    + exists l. by apply Hn.
    + destruct (Hs Ez) as (data & ? & _). by eexists.
Qed.

Lemma pool_ops_stack fuel os : forall pool w l pool' w',
  stack_ok pool w l -> Forall pool_op_ok os -> (Call Preset ∉ os) ->
  pool_ops fuel pool w os = Done (pool', w') ->
  exists l', stack_ok pool' w' l'.
Proof.
  induction os as [|o os IH]; intros pool w l pool' w' Hst Hos Hnr H.
  - injection H as <- <-. by exists l.
  - apply Forall_cons in Hos as [Ho Hos]. cbn [pool_ops] in H.
    apply res_bind_done in H as ([pool1 w1] & Hstep & H).
    apply not_elem_of_cons in Hnr as [Hn1 Hnr].
    destruct (op_step_stack _ _ _ _ _ _ _ Hst Ho ltac:(congruence) Hstep) as (l1 & Hst1).
    by apply (IH pool1 w1 l1).
Qed.

Lemma pool_unreset_reachable fuel pool w :
  pool_unreset fuel pool w -> pool_reachable fuel pool w.
Proof.
  intros (size & lg & w0 & pool0 & w1 & os & Hb & Hsize & Hal & Hc & Hos & _ & Hrun).
  exists size, lg, w0, pool0, w1, os.
  unfold sizeof_ngx_pool_cleanup_t, sizeof_ngx_pool_large_t in *.
  repeat split; try done; lia.
Qed.

(** A pool that was not reset keeps its cleanup stack. *)
Lemma pool_unreset_stack fuel pool w :
  pool_unreset fuel pool w -> exists l, stack_ok pool w l.
Proof.
  intros (size & lg & w0 & pool0 & w1 & os & Hb & Hsize & Hal & Hc & Hos & Hnr & Hrun).
  apply (pool_ops_stack fuel os pool0 w1 [] pool w); try done.
  assert (Hr : pool_reachable fuel pool0 w1).
  { exists size, lg, w0, pool0, w1, [].
    unfold sizeof_ngx_pool_cleanup_t, sizeof_ngx_pool_large_t in *.
    repeat split; try done; lia. }
  split; [by apply (pool_reachable_tidy fuel)|].
  split; [by apply (pool_reachable_headed fuel pool0 w1)|].
  unfold ngx_create_pool in Hc. destruct (ngx_memalign _ size w0) as [p w2].
  destruct (p =? NULL); [done|]. injection Hc as <- <-. cbn.
  split; [|split; [done|split; [apply Forall_nil_2|done]]].
  unfold sizeof_ngx_pool_t, sizeof_ngx_pool_cleanup_t, size_max, NGX_MAX_ALLOC_FROM_POOL,
    ngx_pagesize in *.
  rewrite Z.mod_small by lia. destruct (Z.ltb_spec (size - 80) (4096 - 1)); lia.
Qed.

(** ** Destruction runs the cleanup stack from its top *)

Lemma listed_unique pool l1 : forall c l2,
  listed pool c l1 -> listed pool c l2 -> l1 = l2.
Proof.
  induction l1 as [|e1 r1 IH]; intros c [|e2 r2] H1 H2; [done| | |].
  - cbn in H1. subst c. by destruct H2 as (? & _).
  - cbn in H2. subst c. by destruct H1 as (? & _).
  - destruct H1 as (_ & Hs1 & _ & Hh1 & Hd1 & n1 & Hn1 & Hr1).
    destruct H2 as (_ & Hs2 & _ & Hh2 & Hd2 & n2 & Hn2 & Hr2).
    rewrite Hh1 in Hh2. rewrite Hd1 in Hd2. rewrite Hn1 in Hn2.
    injection Hh2 as Hh. injection Hd2 as Hd. injection Hn2 as <-.
    rewrite (IH n1 r2 Hr1 Hr2). f_equal.
    destruct e1, e2. cbn in *. congruence.
Qed.

(** A pool just created has the empty cleanup stack. *)
Lemma create_pool_stack fuel size lg w0 pool w :
  0 < brk w0 ->
  sizeof_ngx_pool_t + sizeof_ngx_pool_cleanup_t <= size < size_max ->
  size mod NGX_ALIGNMENT = 0 ->
  ngx_create_pool size lg w0 = (Some pool, w) ->
  pool_unreset fuel pool w /\ stack_ok pool w [].
Proof.
  intros Hb Hsize Hal Hc.
  assert (Hu : pool_unreset fuel pool w).
  { exists size, lg, w0, pool, w, [].
    split; [done|]. split; [done|]. split; [done|]. split; [done|].
    split; [apply Forall_nil_2|]. split; [apply not_elem_of_nil|done]. }
  split; [done|].
  pose proof (pool_unreset_reachable _ _ _ Hu) as Hr.
  split; [by apply (pool_reachable_tidy fuel)|].
  split; [by apply (pool_reachable_headed fuel pool w)|].
  unfold ngx_create_pool in Hc. destruct (ngx_memalign _ size w0) as [p w2].
  destruct (p =? NULL); [done|]. injection Hc as <- <-. cbn.
  split; [|split; [done|split; [apply Forall_nil_2|done]]].
  unfold sizeof_ngx_pool_t, sizeof_ngx_pool_cleanup_t, size_max, NGX_MAX_ALLOC_FROM_POOL,
    ngx_pagesize in *.
  rewrite Z.mod_small by lia. destruct (Z.ltb_spec (size - 80) (4096 - 1)); lia.
Qed.



(** One pass of the handler loop of ngx_destroy_pool. *)
Lemma run_cleanups_step (fuel : nat) pool c w h data n :
  c <> NULL -> holds pool c = true ->
  words pool !! c_handler c = Some h ->
  words pool !! c_data c = Some data ->
  words pool !! c_next c = Some n ->
  run_cleanups (S fuel) pool c w
  = run_cleanups fuel pool n (if h =? NULL then w else run_handler h data w).
Proof.
  intros Hc Hh H1 H2 H3. cbn [run_cleanups].
  destruct (Z.eqb_spec c NULL) as [|_]; [done|].
  unfold load. rewrite Hh, H1, H2, H3. cbn [mbind res_mbind res_bind].
  by destruct (h =? NULL).
Qed.

(** Two entries that link to each other: the loop does not end. *)
Lemma run_cleanups_cycle pool a b ha da hb db :
  a <> NULL -> b <> NULL -> holds pool a = true -> holds pool b = true ->
  words pool !! c_handler a = Some ha -> words pool !! c_data a = Some da ->
  words pool !! c_next a = Some b ->
  words pool !! c_handler b = Some hb -> words pool !! c_data b = Some db ->
  words pool !! c_next b = Some a ->
  forall (fuel : nat) w,
    run_cleanups fuel pool a w = OutOfFuel /\ run_cleanups fuel pool b w = OutOfFuel.
Proof.
  intros Ha Hb Hoa Hob A1 A2 A3 B1 B2 B3.
  induction fuel as [|fuel IH]; intros w; [done|].
  rewrite (run_cleanups_step fuel pool a w ha da b) by done.
  rewrite (run_cleanups_step fuel pool b w hb db a) by done.
  split; apply IH.
Qed.


(** ** Destruction of a pool that was not reset *)

Ltac solve_listed :=
  repeat match goal with
  | |- listed _ _ [] => reflexivity
  | |- listed _ _ (_ :: _) => cbn [listed e_self e_handler e_data]
  | |- _ /\ _ => split
  | |- exists n, ?m !! ?a = Some n /\ _ =>
      let v := eval vm_compute in (m !! a) in
      match v with Some ?x => exists x end
  | |- _ <> _ => discriminate
  | |- _ = _ => vm_compute; reflexivity
  end.

(** X5.  ngx_destroy_pool on a pool that was created with room for a cleanup
    entry in the small path and was not reset.  The cleanup stack is a
    finite list of entries that share no byte; the call returns, having
    run the handlers that are set, from the entry registered last to the
    first, then freed each live large allocation, then each block, and
    nothing else; the freed addresses are pairwise distinct and none is
    NULL, so nothing is freed twice whatever allocations, frees and
    registrations came before. *)
Theorem destroy_frees_each_address_once fuel pool w :
  pool_unreset fuel pool w ->
  exists l,
    listed pool (cleanup pool) l /\ separate (map e_self l) /\
    (forall n : nat, (length l < n)%nat ->
       exists w',
         ngx_destroy_pool n pool w = Done w' /\
         trace w' =
           trace w ++ handler_runs l ++ map EFree (live_allocs pool)
             ++ map EFree (map d_self (blocks pool))) /\
    NoDup (live_allocs pool ++ map d_self (blocks pool)) /\
    (NULL ∉ live_allocs pool ++ map d_self (blocks pool)).
Proof.
  intros Hu. destruct (pool_unreset_stack _ _ _ Hu) as (l & Ht & _ & _ & Hl & _ & Hsep).
  exists l. split; [done|]. split; [done|].
  split; [|by apply (pool_addresses_distinct pool w)].
  intros n Hn. destruct (destroy_pool_trace pool l n w Hl Hn) as (w' & Hd & Htr).
  exists w'. split; [done|]. rewrite Htr, large_frees_live. unfold block_frees.
  by rewrite map_map.
Qed.

Lemma reset_pool_listed pool w l :
  pool_ok pool w -> Forall (fun e => allotted pool (e_self e)) l ->
  listed pool (cleanup pool) l ->
  listed (ngx_reset_pool pool w).1 (cleanup (ngx_reset_pool pool w).1) l.
Proof.
  intros Hok Ha Hl. apply (listed_frame pool); [done| |done].
  eapply Forall_impl; [exact Ha|]. intros e He.
  assert (Hb : below_cursor pool (e_self e)).
  { apply He. unfold sizeof_ngx_pool_cleanup_t. lia. }
  destruct Hb as (b & Hb & Hc). destruct Hok as (_ & _ & Hbl & _).
  rewrite Forall_forall in Hbl. destruct (Hbl b Hb) as (_ & _ & _ & Hlast & _).
  apply holds_spec. left. exists (extent b). split; [|cbn; lia].
  unfold ngx_reset_pool, blocks in *. cbn [fst d d_next].
  rewrite <- map_cons, map_map. apply list_elem_of_fmap. by exists b.
Qed.

(** X6.  ngx_reset_pool followed by ngx_destroy_pool, on a pool that was
    created with room for a cleanup entry in the small path and was not
    reset before: the reset frees the large allocations and runs no
    cleanup handler; the destruction right after it returns, having run
    the handlers and freed the blocks, and frees no large allocation
    again.  Over both calls every address is freed once. *)
Theorem reset_then_destroy_frees_once fuel pool w :
  pool_unreset fuel pool w ->
  exists l,
    listed pool (cleanup pool) l /\
    trace (ngx_reset_pool pool w).2 = trace w ++ map EFree (live_allocs pool) /\
    (forall n : nat, (length l < n)%nat ->
       exists w',
         ngx_destroy_pool n (ngx_reset_pool pool w).1 (ngx_reset_pool pool w).2
           = Done w' /\
         trace w' =
           trace w ++ map EFree (live_allocs pool) ++ handler_runs l
             ++ map EFree (map d_self (blocks pool))) /\
    NoDup (live_allocs pool ++ map d_self (blocks pool)).
Proof.
  intros Hu. destruct (pool_unreset_stack _ _ _ Hu) as (l & Ht & _ & _ & Hl & Ha & _).
  exists l. split; [done|].
  assert (Hreset : trace (ngx_reset_pool pool w).2
                   = trace w ++ map EFree (live_allocs pool)).
  { unfold ngx_reset_pool. cbn [snd]. by rewrite free_large_trace, large_frees_live. }
  split; [done|]. split; [|by apply (pool_addresses_distinct pool w)].
  intros n Hn. pose proof Ht as (Hok & _).
  pose proof (reset_pool_listed pool w l Hok Ha Hl) as Hl'.
  destruct (destroy_pool_trace _ l n (ngx_reset_pool pool w).2 Hl' Hn)
    as (w' & Hd & Htr).
  exists w'. split; [done|]. rewrite Htr, Hreset.
  unfold ngx_reset_pool. cbn [fst large].
  unfold large_frees, block_frees, blocks. cbn [d d_next filter map].
  rewrite <- !app_assoc. do 3 f_equal.
  rewrite filter_nil, !map_map. cbn [map app reset_block d_self]. f_equal.
Qed.

Lemma destroy_frees_each_address_once_witness :
  exists pool w w',
    pool_unreset 3 pool w /\
    trace w = [EFree 4352] /\
    listed pool (cleanup pool) [mk_entry 4240 56 0; mk_entry 4176 55 4200] /\
    ngx_destroy_pool 3 pool w = Done w' /\
    trace w' =
      [EFree 4352; ERun 56 0; ERun 55 4200; EFree 8448; EFree 4096; EFree 8560] /\
    NoDup (live_allocs pool ++ map d_self (blocks pool)).
Proof.
  pose (ops := [Register 8 55; Call (Palloc 4096); Call (Pmemalign 100 32);
                Call (Palloc 150); Call (Pfree 4352); Register 0 56]).
  let r := eval vm_compute in (ngx_create_pool 256 NULL world0) in
  match r with
  | (Some ?p0, ?w1) =>
      let r2 := eval vm_compute in (pool_ops 3 p0 w1 ops) in
      match r2 with
      | Done (?p, ?w) =>
          assert (Hr : pool_unreset 3 p w);
          [exists 256, NULL, world0, p0, w1, ops;
           split; [by vm_compute|]; split; [by vm_compute|];
           split; [by vm_compute|]; split; [by vm_compute|];
           split; [|split; [|by vm_compute]];
           [repeat apply Forall_cons_2; try apply Forall_nil_2; simpl;
            try lia; split; [lia|by exists 5]
           |unfold ops; rewrite !not_elem_of_cons; repeat split; try discriminate;
            apply not_elem_of_nil]
          |];
          assert (Hlit : listed p (cleanup p)
                           [mk_entry 4240 56 0; mk_entry 4176 55 4200])
            by solve_listed;
          destruct (destroy_frees_each_address_once 3 p w Hr)
            as (l & Hl & _ & Hd & Hnd & _);
          pose proof (listed_unique _ _ _ _ Hl Hlit); subst l;
          destruct (Hd 3%nat) as (w' & Hdest & Htr); [cbn [length]; lia|];
          exists p, w, w'
      end
  end.
  split; [exact Hr|]. split; [reflexivity|]. split; [exact Hlit|].
  split; [exact Hdest|]. split; [|exact Hnd].
  rewrite Htr. reflexivity.
Defined.

Lemma reset_then_destroy_frees_once_witness :
  exists pool w w',
    pool_unreset 3 pool w /\
    trace w = [EFree 4352] /\
    ngx_destroy_pool 3 (ngx_reset_pool pool w).1 (ngx_reset_pool pool w).2
      = Done w' /\
    trace w' =
      [EFree 4352; EFree 8448; ERun 56 0; ERun 55 4200; EFree 4096; EFree 8560].
Proof.
  pose (ops := [Register 8 55; Call (Palloc 4096); Call (Pmemalign 100 32);
                Call (Palloc 150); Call (Pfree 4352); Register 0 56]).
  let r := eval vm_compute in (ngx_create_pool 256 NULL world0) in
  match r with
  | (Some ?p0, ?w1) =>
      let r2 := eval vm_compute in (pool_ops 3 p0 w1 ops) in
      match r2 with
      | Done (?p, ?w) =>
          assert (Hr : pool_unreset 3 p w);
          [exists 256, NULL, world0, p0, w1, ops;
           split; [by vm_compute|]; split; [by vm_compute|];
           split; [by vm_compute|]; split; [by vm_compute|];
           split; [|split; [|by vm_compute]];
           [repeat apply Forall_cons_2; try apply Forall_nil_2; simpl;
            try lia; split; [lia|by exists 5]
           |unfold ops; rewrite !not_elem_of_cons; repeat split; try discriminate;
            apply not_elem_of_nil]
          |];
          assert (Hlit : listed p (cleanup p)
                           [mk_entry 4240 56 0; mk_entry 4176 55 4200])
            by solve_listed;
          destruct (reset_then_destroy_frees_once 3 p w Hr)
            as (l & Hl & _ & Hd & _);
          pose proof (listed_unique _ _ _ _ Hl Hlit); subst l;
          destruct (Hd 3%nat) as (w' & Hdest & Htr); [cbn [length]; lia|];
          exists p, w, w'
      end
  end.
  split; [exact Hr|]. split; [reflexivity|]. split; [exact Hdest|].
  rewrite Htr. reflexivity.
Defined.

(** ** Registering a cleanup *)

(** X8.  ngx_pool_cleanup_add on a pool that was created with room for a
    cleanup entry in the small path and was not reset, the cleanup stack
    being the list [l].  When it returns an entry, the entry is memory
    that shares no byte with an entry of the stack, it is the new head of
    the stack, in front of [l], with no handler, and its data pointer is
    NULL exactly when [size] is 0.  When it returns NULL, the stack is
    [l] as it was, and the system allocator has refused memory. *)
Theorem cleanup_add_entry_or_nothing fuel pool w size c pool' w' :
  pool_unreset fuel pool w -> 0 <= size ->
  ngx_pool_cleanup_add fuel pool size w = Done (c, pool', w') ->
  exists l,
    listed pool (cleanup pool) l /\
    (c = NULL ->
       cleanup pool' = cleanup pool /\ listed pool' (cleanup pool') l /\
       limit w <> None) /\
    (c <> NULL ->
       exists data,
         cleanup pool' = c /\ listed pool' c (mk_entry c NULL data :: l) /\
         Forall (fun e => apart c (e_self e)) l /\
         (data = NULL <-> size = 0)).
Proof.
  intros Hu Hsize H. destruct (pool_unreset_stack _ _ _ Hu) as (l & Hst).
  exists l. split; [by destruct Hst as (_ & _ & _ & ? & _)|].
  destruct (cleanup_add_stack _ _ _ _ _ _ _ _ Hst Hsize H) as [Hn Hs]. split.
  - intros Hc. destruct (Hn Hc) as ((_ & _ & _ & Hl & _) & Hcl & Hlim). done.
  - intros Hc. destruct (Hs Hc) as (data & (_ & _ & _ & Hl & _) & Hcl & Hap & Hd).
    exists data. rewrite Hcl in Hl. done.
Qed.

Lemma cleanup_add_entry_or_nothing_witness :
  exists pool w pool' w',
    pool_unreset 3 pool w /\ 0 <= 200 /\
    ngx_pool_cleanup_add 3 pool 200 w = Done (NULL, pool', w') /\
    cleanup pool' = cleanup pool /\
    listed pool (cleanup pool) [mk_entry 4280 55 0] /\
    listed pool' (cleanup pool') [mk_entry 4280 55 0] /\
    limit w <> None /\
    d_last (d pool') = d_last (d pool) + sizeof_ngx_pool_cleanup_t.
Proof.
  pose (ops := [Call (Palloc 100); Register 0 55]).
  pose (w0 := mk_world 4096 (Some 4400) []).
  let r := eval vm_compute in (ngx_create_pool 256 NULL w0) in
  match r with
  | (Some ?p0, ?w1) =>
      let r2 := eval vm_compute in (pool_ops 3 p0 w1 ops) in
      match r2 with
      | Done (?p, ?w) =>
          let r3 := eval vm_compute in (ngx_pool_cleanup_add 3 p 200 w) in
          match r3 with
          | Done (?m, ?p', ?w') =>
              assert (Hr : pool_unreset 3 p w);
              [exists 256, NULL, w0, p0, w1, ops;
               split; [by vm_compute|]; split; [by vm_compute|];
               split; [by vm_compute|]; split; [by vm_compute|];
               split; [|split; [|by vm_compute]];
               [repeat apply Forall_cons_2; try apply Forall_nil_2; simpl; lia
               |unfold ops; rewrite !not_elem_of_cons; repeat split; try discriminate;
                apply not_elem_of_nil]
              |];
              assert (Hs : 0 <= 200) by lia;
              assert (Hp : ngx_pool_cleanup_add 3 p 200 w = Done (NULL, p', w'))
                by (by vm_compute);
              assert (Hlit : listed p (cleanup p) [mk_entry 4280 55 0])
                by solve_listed;
              destruct (cleanup_add_entry_or_nothing 3 p w 200 NULL p' w' Hr Hs Hp)
                as (l & Hl & Hnull & _);
              pose proof (listed_unique _ _ _ _ Hl Hlit); subst l;
              destruct (Hnull eq_refl) as (Hsame & Hl' & Hlim);
              exists p, w, p', w'
          end
      end
  end.
  split; [exact Hr|]. split; [exact Hs|]. split; [exact Hp|].
  split; [exact Hsame|]. split; [exact Hlit|]. split; [exact Hl'|].
  split; [exact Hlim|]. reflexivity.
Defined.

(** ** Running the cleanup of one file early *)

Lemma run_cleanup_file_walk_skip fh fds pool fd w l1 : forall c0 r (n : nat),
  listed pool c0 (l1 ++ r) ->
  Forall (fun e => e_handler e = fh ->
                   exists f, fds !! e_data e = Some f /\ f <> fd) l1 ->
  exists c,
    listed pool c r /\
    run_cleanup_file_walk (length l1 + n) fh fds pool c0 fd w
    = run_cleanup_file_walk n fh fds pool c fd w.
Proof.
  induction l1 as [|e l1 IH]; intros c0 r n Hl Hno.
  - exists c0. by split.
  - apply Forall_cons in Hno as [He Hno].
    destruct Hl as (Hc & Hs & Hh & H1 & H2 & m & H3 & Hr).
    destruct (IH m r n Hr Hno) as (c & Hlc & Hw). exists c. split; [done|].
    cbn [length Nat.add run_cleanup_file_walk].
    destruct (Z.eqb_spec c0 NULL) as [|_]; [done|].
    unfold load. rewrite Hh, H1, H2, H3. cbn [mbind res_mbind res_bind].
    destruct (Z.eqb_spec (e_handler e) fh) as [Eh|Eh]; [|exact Hw].
    cbn [mbind res_mbind res_bind]. destruct (He Eh) as (f & -> & Hf).
    destruct (Z.eqb_spec f fd) as [|_]; [done|]. exact Hw.
Qed.

Lemma listed_store_handler pool v l1 : forall c0 e l2,
  listed pool c0 (l1 ++ e :: l2) ->
  Forall (fun x => apart (e_self e) (e_self x)) (l1 ++ l2) ->
  listed (store pool (c_handler (e_self e)) v) c0
    (l1 ++ mk_entry (e_self e) v (e_data e) :: l2).
Proof.
  induction l1 as [|x l1 IH]; intros c0 e l2 Hl Hap; cbn [app] in *.
  - destruct Hl as (Hc & Hs & Hh & H1 & H2 & m & H3 & Hr). subst c0.
    cbn [listed e_self e_handler e_data].
    split; [done|]. split; [done|]. split; [done|]. cbn [words store].
    assert (c_handler (e_self e) <> c_data (e_self e) /\
            c_handler (e_self e) <> c_next (e_self e)) as [E1 E2]
      by (unfold c_handler, c_data, c_next; lia).
    split; [by rewrite lookup_insert_eq|]. split; [by rewrite lookup_insert_ne|].
    exists m. split; [by rewrite lookup_insert_ne|].
    apply listed_store; [|done]. apply (apart_not_field (e_self e)); [|done].
    rewrite !elem_of_cons. tauto.
  - apply Forall_cons in Hap as [Hx Hap].
    destruct Hl as (Hc & Hs & Hh & H1 & H2 & m & H3 & Hr). subst c0.
    pose proof (apart_fields _ _ Hx) as Hf.
    assert (Hin : c_handler (e_self e)
                  ∈ [c_handler (e_self e); c_data (e_self e); c_next (e_self e)])
      by (rewrite !elem_of_cons; tauto).
    split; [done|]. split; [done|]. split; [done|]. cbn [words store].
    rewrite !lookup_insert_ne by (apply Hf; [done|rewrite !elem_of_cons; tauto]).
    split; [done|]. split; [done|]. exists m. split; [done|]. by apply IH.
Qed.

(** X9.  ngx_pool_run_cleanup_file with the file handler at [fh], on a pool
    whose cleanup stack is the list [l], from the entry registered last.
    With no entry for [fd] in the stack, nothing happens.  Otherwise the
    first entry for [fd] has its handler run once and its handler field
    set to NULL, and nothing else is written.  When that entry shares no
    byte with another entry of the stack, the other entries are as they
    were even when they are for the same [fd], and ngx_destroy_pool
    afterwards runs the handlers that are left and not that one again. *)
Theorem run_cleanup_file_first_match_once fh fds pool fd w l (n : nat) :
  listed pool (cleanup pool) l -> (length l < n)%nat ->
  (Forall (fun e => e_handler e = fh ->
                    exists f, fds !! e_data e = Some f /\ f <> fd) l ->
   ngx_pool_run_cleanup_file n fh fds pool fd w = Done (pool, w)) /\
  (forall l1 c l2,
     l = l1 ++ c :: l2 ->
     Forall (fun e => e_handler e = fh ->
                      exists f, fds !! e_data e = Some f /\ f <> fd) l1 ->
     e_handler c = fh -> fds !! e_data c = Some fd ->
     exists pool' w',
       ngx_pool_run_cleanup_file n fh fds pool fd w = Done (pool', w') /\
       pool' = store pool (c_handler (e_self c)) NULL /\
       trace w' = trace w ++ [ERun fh (e_data c)] /\
       (Forall (fun e => apart (e_self c) (e_self e)) (l1 ++ l2) ->
        listed pool' (cleanup pool')
          (l1 ++ mk_entry (e_self c) NULL (e_data c) :: l2) /\
        exists w'',
          ngx_destroy_pool n pool' w' = Done w'' /\
          trace w'' =
            trace w ++ [ERun fh (e_data c)] ++ handler_runs l1 ++ handler_runs l2
              ++ large_frees (large pool) ++ block_frees (blocks pool))).
Proof.
  intros Hl Hn. unfold ngx_pool_run_cleanup_file. split.
  - intros Hno.
    assert (exists k, n = (length l + S k)%nat) as [k ->]
      by (exists (n - S (length l))%nat; lia).
    rewrite <- (app_nil_r l) in Hl.
    destruct (run_cleanup_file_walk_skip fh fds pool fd w l _ [] (S k) Hl Hno)
      as (c & Hc & ->).
    cbn in Hc. subst c. reflexivity.
  - intros l1 c l2 -> Hno Hc Hfd.
    assert (exists k, n = (length l1 + S k)%nat) as [k Hk].
    { exists (n - S (length l1))%nat. rewrite length_app in Hn. cbn [length] in Hn. lia. }
    destruct (run_cleanup_file_walk_skip fh fds pool fd w l1 _ (c :: l2) (S k) Hl Hno)
      as (c' & Hc' & Hw).
    pose proof Hc' as (Hnz & Hs & Hh & H1 & H2 & m & H3 & Hr). subst c'.
    exists (store pool (c_handler (e_self c)) NULL), (run_handler fh (e_data c) w).
    split.
    { rewrite Hk, Hw. cbn [run_cleanup_file_walk].
      destruct (Z.eqb_spec (e_self c) NULL) as [|_]; [done|].
      unfold load. rewrite Hh, H1, H2. cbn [mbind res_mbind res_bind].
      by rewrite Hc, Z.eqb_refl, Hfd, Z.eqb_refl. }
    split; [done|]. split; [done|]. intros Hap.
    assert (Hl' : listed (store pool (c_handler (e_self c)) NULL)
                    (cleanup (store pool (c_handler (e_self c)) NULL))
                    (l1 ++ mk_entry (e_self c) NULL (e_data c) :: l2))
      by (by apply listed_store_handler).
    split; [done|].
    destruct (destroy_pool_trace _ _ n (run_handler fh (e_data c) w) Hl')
      as (w'' & Hd & Htr).
    { rewrite length_app in Hn |- *. exact Hn. }
    exists w''. split; [done|].
    rewrite Htr. cbn [trace run_handler large blocks store d d_next].
    rewrite handler_runs_app. unfold handler_runs at 2. rewrite filter_cons.
    cbn [e_handler]. rewrite decide_False by (intros Hx; by apply Hx).
    fold (handler_runs l2). by rewrite <- !app_assoc.
Qed.

Lemma run_cleanup_file_first_match_once_witness :
  exists pool w pool' w' w'',
    pool_unreset 3 pool w /\
    listed pool (cleanup pool)
      [mk_entry 4296 700 4320; mk_entry 4248 700 4272; mk_entry 4224 55 0;
       mk_entry 4176 700 4200] /\
    ngx_pool_run_cleanup_file 5 700 (<[4320:=7]> (<[4272:=9]> (<[4200:=9]> ∅)))
      pool 9 w = Done (pool', w') /\
    trace w' = [ERun 700 4272] /\
    listed pool' (cleanup pool')
      [mk_entry 4296 700 4320; mk_entry 4248 NULL 4272; mk_entry 4224 55 0;
       mk_entry 4176 700 4200] /\
    ngx_destroy_pool 5 pool' w' = Done w'' /\
    trace w'' =
      [ERun 700 4272; ERun 700 4320; ERun 55 0; ERun 700 4200; EFree 4096].
Proof.
  pose (ops := [Register 24 700; Register 0 55; Register 24 700; Register 24 700]).
  pose (fds := <[4320:=7]> (<[4272:=9]> (<[4200:=9]> (∅ : gmap Z Z)))).
  let r := eval vm_compute in (ngx_create_pool 512 NULL world0) in
  match r with
  | (Some ?p0, ?w1) =>
      let r2 := eval vm_compute in (pool_ops 3 p0 w1 ops) in
      match r2 with
      | Done (?p, ?w) =>
          assert (Hr : pool_unreset 3 p w);
          [exists 512, NULL, world0, p0, w1, ops;
           split; [by vm_compute|]; split; [by vm_compute|];
           split; [by vm_compute|]; split; [by vm_compute|];
           split; [|split; [|by vm_compute]];
           [repeat apply Forall_cons_2; try apply Forall_nil_2; simpl; lia
           |unfold ops; rewrite !not_elem_of_cons; repeat split; try discriminate;
            apply not_elem_of_nil]
          |];
          assert (Hlit : listed p (cleanup p)
                    [mk_entry 4296 700 4320; mk_entry 4248 700 4272;
                     mk_entry 4224 55 0; mk_entry 4176 700 4200])
            by solve_listed;
          destruct (run_cleanup_file_first_match_once 700 fds p 9 w _ 5 Hlit)
            as [_ Hm]; [cbn [length]; lia|];
          destruct (Hm [mk_entry 4296 700 4320] (mk_entry 4248 700 4272)
                       [mk_entry 4224 55 0; mk_entry 4176 700 4200])
            as (pool' & w' & Hrun & _ & Htr & Hrest);
          [reflexivity
          |apply Forall_cons_2; [|apply Forall_nil_2];
           intros _; exists 7; split; [by vm_compute|lia]
          |reflexivity
          |by vm_compute
          |destruct Hrest as (Hl' & w'' & Hd & Htr');
           [repeat apply Forall_cons_2; try apply Forall_nil_2;
            unfold apart, sizeof_ngx_pool_cleanup_t; cbn [e_self]; lia
           |exists p, w, pool', w', w'']]
      end
  end.
  split; [exact Hr|]. split; [exact Hlit|]. split; [exact Hrun|].
  split; [exact Htr|]. split; [exact Hl'|]. split; [exact Hd|].
  rewrite Htr'. reflexivity.
Defined.

(** ** Pointers of the small path that ngx_pfree frees *)

(** C7 fails for two kinds of pointers that come from the small path.  On
    a pool of 256 bytes whose first block is full, a large allocation
    lies right after the block, at 4352; ngx_pnalloc of 0 bytes returns
    the cursor of the block, which is that address, and ngx_pfree of it
    returns NGX_OK and frees the large allocation.  On a pool created
    with 1001 bytes, a size that is no multiple of the alignment,
    ngx_palloc of 8 bytes with the cursor at the end of the block returns
    5104, past the end of the block (the room left, computed unsigned,
    wraps around); the system allocator places the next large allocation
    there, and ngx_pfree of the pointer returns NGX_OK. *)
Lemma pfree_frees_small_path_pointer :
  (exists pool0 w0 pool1 w1 p pool w,
     ngx_create_pool 256 NULL world0 = (Some pool0, w0) /\
     pool_ok pool0 w0 /\
     pool_run 3 pool0 w0 [Palloc 176; Palloc 4096] = Done (pool1, w1) /\
     0 <= max pool1 /\
     ngx_pnalloc 3 pool1 0 w1 = Done (p, pool, w) /\ p <> NULL /\
     (exists e, e ∈ large pool /\ l_alloc e = p) /\
     ngx_pfree pool p w = (NGX_OK, set_large pool [mk_large 8480 NULL], ngx_free p w)) /\
  (exists pool0 w0 pool1 w1 p pool2 w2 pool w,
     ngx_create_pool 1001 NULL world0 = (Some pool0, w0) /\
     pool_run 3 pool0 w0 [Pnalloc 921] = Done (pool1, w1) /\
     0 < 8 <= max pool1 /\
     ngx_palloc 3 pool1 8 w1 = Done (p, pool2, w2) /\ p <> NULL /\
     d_end (d pool2) < p /\
     pool_run 3 pool2 w2 [Palloc 4096] = Done (pool, w) /\
     (ngx_pfree pool p w).1.1 = NGX_OK).
Proof.
  split.
  - let r0 := eval vm_compute in (ngx_create_pool 256 NULL world0) in
    match r0 with
    | (Some ?pool0, ?w0) =>
      let r1 := eval vm_compute in (pool_run 3 pool0 w0 [Palloc 176; Palloc 4096]) in
      match r1 with
      | Done (?pool1, ?w1) =>
        let r2 := eval vm_compute in (ngx_pnalloc 3 pool1 0 w1) in
        match r2 with
        | Done (?p, ?pool, ?w) =>
          exists pool0, w0, pool1, w1, p, pool, w;
          assert (Hc : ngx_create_pool 256 NULL world0 = (Some pool0, w0))
            by (vm_compute; reflexivity);
          split; [exact Hc|]; split;
          [apply (create_pool_ok 256 NULL world0 pool0 w0);
           [ vm_compute; reflexivity | vm_compute; split; [discriminate|reflexivity]
           | reflexivity | exact Hc ]|]
        end
      end
    end.
    split; [vm_compute; reflexivity|]. split; [vm_compute; discriminate|].
    split; [vm_compute; reflexivity|]. split; [discriminate|].
    split; [|vm_compute; reflexivity].
    exists (mk_large 8480 4352). split; [|reflexivity].
    apply elem_of_cons. by left.
  - let r0 := eval vm_compute in (ngx_create_pool 1001 NULL world0) in
    match r0 with
    | (Some ?pool0, ?w0) =>
      let r1 := eval vm_compute in (pool_run 3 pool0 w0 [Pnalloc 921]) in
      match r1 with
      | Done (?pool1, ?w1) =>
        let r2 := eval vm_compute in (ngx_palloc 3 pool1 8 w1) in
        match r2 with
        | Done (?p, ?pool2, ?w2) =>
          let r3 := eval vm_compute in (pool_run 3 pool2 w2 [Palloc 4096]) in
          match r3 with
          | Done (?pool, ?w) => exists pool0, w0, pool1, w1, p, pool2, w2, pool, w
          end
        end
      end
    end.
    split; [vm_compute; reflexivity|]. split; [vm_compute; reflexivity|].
    split; [vm_compute; split; [reflexivity|discriminate]|].
    split; [vm_compute; reflexivity|]. split; [discriminate|].
    split; [vm_compute; reflexivity|]. split; [vm_compute; reflexivity|].
    vm_compute. reflexivity.
Qed.

(** ** A pool with no room for an entry of the large list *)

Lemma palloc_no_room (fuel : nat) : forall pool size w,
  max pool < sizeof_ngx_pool_large_t -> max pool < size -> 0 <= size ->
  large pool = [] -> limit w = None -> 0 < brk w ->
  ngx_palloc fuel pool size w = OutOfFuel /\
  ngx_palloc_large fuel pool size w = OutOfFuel.
Proof.
  induction fuel as [|fuel IH]; intros pool size w Hmax Hsize H0 Hl Hlim Hb; [done|].
  assert (Hlarge : ngx_palloc_large (S fuel) pool size w = OutOfFuel).
  { rewrite ngx_palloc_large_eq. unfold ngx_alloc.
    destruct (ngx_memalign NGX_POOL_ALIGNMENT size w) as [p w1] eqn:Ea.
    apply (memalign_spec 4) in Ea as (Hlim1 & _ & Hbrk & Hnull & _); [|lia|lia|lia].
    destruct (Z.eqb_spec p NULL) as [Ez|_]; [by destruct (Hnull Ez)|].
    rewrite Hl. cbn [large_reuse]. unfold push_large.
    destruct (IH pool sizeof_ngx_pool_large_t w1) as [-> _]; try done.
    - by rewrite Hlim1.
    - lia. }
  split; [|done].
  destruct fuel as [|fuel]; cbn [ngx_palloc];
    (destruct (Z.leb_spec size (max pool)); [lia|]); [done|].
  by destruct (IH pool size w).
Qed.

(** X23.  ngx_create_pool does not check that an entry of the large list
    fits the small path.  On a pool created with at least
    [sizeof(ngx_pool_t)] and less than
    [sizeof(ngx_pool_t) + sizeof(ngx_pool_large_t)] bytes, [max] is below
    the size of such an entry: an allocation above [max] takes a block
    from the system allocator and asks ngx_palloc for the entry, which is
    above [max] again and takes the same path.  While the system
    allocator gives memory, ngx_palloc, ngx_pnalloc and ngx_pmemalign do
    not return, whatever the depth allowed to the recursion. *)
Theorem small_pool_large_allocation_never_returns size lg w0 pool w n :
  0 < brk w0 -> limit w0 = None ->
  sizeof_ngx_pool_t <= size < sizeof_ngx_pool_t + sizeof_ngx_pool_large_t ->
  ngx_create_pool size lg w0 = (Some pool, w) ->
  max pool < n ->
  max pool = size - sizeof_ngx_pool_t /\
  forall fuel : nat,
    ngx_palloc fuel pool n w = OutOfFuel /\
    ngx_pnalloc fuel pool n w = OutOfFuel /\
    forall k, 0 <= k -> ngx_pmemalign fuel pool n (2 ^ k) w = OutOfFuel.
Proof.
  intros Hb Hlim Hsize Hc Hn.
  unfold ngx_create_pool in Hc.
  destruct (ngx_memalign NGX_POOL_ALIGNMENT size w0) as [p w1] eqn:Ea.
  apply (memalign_spec 4) in Ea as (Hlim1 & _ & Hbrk & _); [|lia|unfold sizeof_ngx_pool_t in *; lia|lia].
  destruct (p =? NULL); [done|]. injection Hc as <- <-.
  assert (Hmax : (if (size - sizeof_ngx_pool_t) mod size_max <? NGX_MAX_ALLOC_FROM_POOL
                  then (size - sizeof_ngx_pool_t) mod size_max
                  else NGX_MAX_ALLOC_FROM_POOL) = size - sizeof_ngx_pool_t).
  { unfold sizeof_ngx_pool_t, sizeof_ngx_pool_large_t, size_max,
      NGX_MAX_ALLOC_FROM_POOL, ngx_pagesize in *.
    rewrite Z.mod_small by lia. destruct (Z.ltb_spec (size - 80) (4096 - 1)); lia. }
  set (pool := mk_pool _ _ _ _ _ _ _ _ _) in *.
  assert (Hpm : max pool = size - sizeof_ngx_pool_t) by exact Hmax.
  split; [done|]. intros fuel.
  assert (H16 : max pool < sizeof_ngx_pool_large_t) by lia.
  assert (Hnn : max pool < n) by lia.
  assert (Hn0 : 0 <= n) by (unfold sizeof_ngx_pool_t in *; lia).
  assert (Hw1 : limit w1 = None) by (by rewrite Hlim1).
  assert (Hb1 : 0 < brk w1) by lia.
  destruct (palloc_no_room fuel pool n w1 H16 Hnn Hn0 eq_refl Hw1 Hb1) as [Hp Hpl].
  split; [done|]. split.
  - rewrite ngx_pnalloc_eq. by destruct (Z.leb_spec n (max pool)); [lia|].
  - intros k Hk. rewrite ngx_pmemalign_eq.
    destruct (ngx_memalign (2 ^ k) n w1) as [q w2] eqn:Eq.
    apply (memalign_spec k) in Eq as (Hlim2 & _ & Hbrk2 & Hnull & _); [|lia|lia|lia].
    destruct (Z.eqb_spec q NULL) as [Ez|_]; [by destruct (Hnull Ez)|].
    unfold push_large.
    destruct (palloc_no_room fuel pool sizeof_ngx_pool_large_t w2) as [-> _];
      try done; [by rewrite Hlim2|lia].
Qed.

Lemma small_pool_large_allocation_never_returns_witness :
  exists pool w,
    0 < brk world0 /\ limit world0 = None /\
    sizeof_ngx_pool_t <= 88 < sizeof_ngx_pool_t + sizeof_ngx_pool_large_t /\
    ngx_create_pool 88 NULL world0 = (Some pool, w) /\
    max pool = 8 /\
    ngx_palloc 30 pool 100 w = OutOfFuel /\
    ngx_pnalloc 30 pool 100 w = OutOfFuel /\
    ngx_pmemalign 30 pool 8 (2 ^ 4) w = OutOfFuel.
Proof.
  let r0 := eval vm_compute in (ngx_create_pool 88 NULL world0) in
  match r0 with
  | (Some ?p, ?w) =>
      exists p, w;
      assert (Hb : 0 < brk world0) by (by vm_compute);
      assert (Hl : limit world0 = None) by reflexivity;
      assert (Hs : sizeof_ngx_pool_t <= 88 < sizeof_ngx_pool_t + sizeof_ngx_pool_large_t)
        by (by vm_compute);
      assert (Hc : ngx_create_pool 88 NULL world0 = (Some p, w)) by (by vm_compute);
      assert (H1 : max p < 100) by (by vm_compute);
      destruct (small_pool_large_allocation_never_returns 88 NULL world0 p w 100
                  Hb Hl Hs Hc H1) as [Hm Hf];
      destruct (Hf 30%nat) as (Hp & Hpn & _)
  end.
  split; [exact Hb|]. split; [exact Hl|]. split; [exact Hs|]. split; [exact Hc|].
  split; [reflexivity|]. split; [exact Hp|]. split; [exact Hpn|].
  by vm_compute.
Defined.

(** ** A reset hands out the memory of the cleanup entries again *)

(** X24.  ngx_reset_pool rewinds the cursors and keeps the cleanup stack.
    On a pool of 256 bytes with one cleanup registered (handler 101 and 8
    bytes of data), the entry lies at 4176, right behind the pool header,
    and its data at 4200.  After ngx_reset_pool, ngx_palloc of 32 bytes
    returns 4176: the caller is given the bytes of an entry that is still
    on the stack, and of its data. *)
Lemma reset_hands_out_listed_cleanup_entry :
  exists pool0 w0 c pool1 w1 m pool2 w2,
    ngx_create_pool 256 NULL world0 = (Some pool0, w0) /\
    register 2 pool0 8 101 w0 = Done (c, pool1, w1) /\ c = 4176 /\
    listed pool1 (cleanup pool1) [mk_entry c 101 (c + 24)] /\
    ngx_palloc 1 (ngx_reset_pool pool1 w1).1 32 (ngx_reset_pool pool1 w1).2
      = Done (m, pool2, w2) /\
    m = c /\
    listed pool2 (cleanup pool2) [mk_entry c 101 (c + 24)].
Proof.
  let r0 := eval vm_compute in (ngx_create_pool 256 NULL world0) in
  match r0 with
  | (Some ?p0, ?w0) =>
    let r1 := eval vm_compute in (register 2 p0 8 101 w0) in
    match r1 with
    | Done (?c, ?p1, ?w1) =>
      let r2 := eval vm_compute in
        (ngx_palloc 1 (ngx_reset_pool p1 w1).1 32 (ngx_reset_pool p1 w1).2) in
      match r2 with
      | Done (?m, ?p2, ?w2) => exists p0, w0, c, p1, w1, m, p2, w2
      end
    end
  end.
  split; [by vm_compute|]. split; [by vm_compute|]. split; [done|].
  split; [solve_listed|]. split; [by vm_compute|]. split; [done|].
  solve_listed.
Qed.

(** X25.  With [max] below the size of a cleanup entry, the entry is a
    large allocation.  On a pool of 96 bytes ([max] is 16) with one
    cleanup registered, the entry is on the large list; ngx_reset_pool
    frees it and keeps pool->cleanup, which points to it; ngx_destroy_pool
    then reads the handler of the entry from memory that was freed. *)
Lemma reset_frees_listed_cleanup_entry :
  exists pool0 w0 c pool1 w1,
    ngx_create_pool 96 NULL world0 = (Some pool0, w0) /\ max pool0 = 16 /\
    register 3 pool0 0 101 w0 = Done (c, pool1, w1) /\ c <> NULL /\
    c ∈ live_allocs pool1 /\
    listed pool1 (cleanup pool1) [mk_entry c 101 NULL] /\
    trace (ngx_reset_pool pool1 w1).2 = trace w1 ++ [EFree c] /\
    cleanup (ngx_reset_pool pool1 w1).1 = c /\
    forall (fuel : nat) w,
      ngx_destroy_pool (S fuel) (ngx_reset_pool pool1 w1).1 w = Segv c.
Proof.
  let r0 := eval vm_compute in (ngx_create_pool 96 NULL world0) in
  match r0 with
  | (Some ?p0, ?w0) =>
    let r1 := eval vm_compute in (register 3 p0 0 101 w0) in
    match r1 with
    | Done (?c, ?p1, ?w1) => exists p0, w0, c, p1, w1
    end
  end.
  split; [by vm_compute|]. split; [by vm_compute|]. split; [by vm_compute|].
  split; [done|]. split; [vm_compute; apply elem_of_cons; by left|].
  split; [solve_listed|]. split; [by vm_compute|]. split; [by vm_compute|].
  intros fuel w. by vm_compute.
Qed.

(** ** The block size stays what it was *)

Lemma sized_after pool pool' xs :
  map extent (blocks pool') = map extent (blocks pool) ++ xs ->
  sized pool -> sized pool'.
Proof.
  unfold sized, blocks. cbn [map app]. intros [= E1 E2 _] H. by rewrite E1, E2.
Qed.

Lemma op_step_sized fuel pool w o pool' w' :
  pool_tidy pool w -> sized pool -> pool_op_ok o ->
  op_step fuel pool w o = Done (pool', w') -> sized pool'.
Proof.
  intros (Hok & _) Hs Ho H. destruct o as [[size|size|size al|p|]|size h];
    cbn [op_step pool_step pool_op_ok call_ok] in *.
  - apply res_bind_done in H as ([[m p1] w1] & Hr & [= <- <-]).
    destruct (palloc_ok _ _ _ _ _ _ _ Hok Ho Hr) as (_ & _ & _ & (xs & Hx & _) & _).
    by apply (sized_after pool p1 xs).
  - apply res_bind_done in H as ([[m p1] w1] & Hr & [= <- <-]).
    destruct (pnalloc_ok _ _ _ _ _ _ _ Hok Ho Hr) as (_ & _ & _ & (xs & Hx & _) & _).
    by apply (sized_after pool p1 xs).
  - apply res_bind_done in H as ([[m p1] w1] & Hr & [= <- <-]).
    destruct Ho as (Hsz & k & Hk & ->).
    destruct (pmemalign_ok _ _ _ _ _ _ _ _ Hok Hsz Hk Hr) as (_ & _ & _ & xs & Hx & _).
    by apply (sized_after pool p1 xs).
  - unfold ngx_pfree in H. destruct (pfree_walk (large pool) p); by injection H as <- _.
  - by injection H as <- _.
  - apply res_bind_done in H as ([[c p1] w1] & Hr & [= <- <-]).
    unfold register in Hr. apply res_bind_done in Hr as ([[c1 p2] w2] & Ha & Hr).
    assert (Hp2 : sized p2).
    { unfold ngx_pool_cleanup_add in Ha.
      apply res_bind_done in Ha as ([[c0 p3] w3] & Hp & Ha).
      assert (H24 : 0 <= sizeof_ngx_pool_cleanup_t)
        by (unfold sizeof_ngx_pool_cleanup_t; lia).
      destruct (palloc_ok _ _ _ _ _ _ _ Hok H24 Hp) as (Hok3 & _ & _ & (xs & Hx & _) & _).
      apply (sized_after pool p3 xs Hx) in Hs.
      destruct (c0 =? NULL); [by injection Ha as _ <- _|].
      destruct (size =? 0); [by injection Ha as _ <- _|].
      apply res_bind_done in Ha as ([[data p4] w4] & Hd & Ha).
      destruct (palloc_ok _ _ _ _ _ _ _ Hok3 Ho Hd) as (_ & _ & _ & (ys & Hy & _) & _).
      apply (sized_after p3 p4 ys Hy) in Hs.
      destruct (data =? NULL); by injection Ha as _ <- _. }
    destruct (c1 =? NULL); by injection Hr as _ <- _.
Qed.

Lemma pool_reachable_sized fuel pool w :
  pool_reachable fuel pool w -> sized pool.
Proof.
  intros (size & lg & w0 & pool0 & w1 & os & Hb & Hsize & Hal & Hc & Hos & Hrun).
  assert (Ht0 : pool_tidy pool0 w1).
  { apply (pool_reachable_tidy fuel). exists size, lg, w0, pool0, w1, [].
    split; [done|]. split; [done|]. split; [done|]. split; [done|].
    split; [apply Forall_nil_2|done]. }
  assert (H0 : sized pool0).
  { unfold ngx_create_pool in Hc. destruct (ngx_memalign _ size w0) as [p w2].
    destruct (p =? NULL); [done|]. injection Hc as <- <-.
    unfold sized. simpl. lia. }
  clear Hc. revert pool0 w1 Ht0 H0 Hrun.
  induction Hos as [|o os Ho Hos IH]; intros pool0 w1 Ht0 H0 Hrun.
  - by injection Hrun as <- _.
  - cbn [pool_ops] in Hrun. apply res_bind_done in Hrun as ([p1 w2] & Hstep & Hrun).
    apply (IH p1 w2); [|by apply (op_step_sized fuel pool0 w1 o p1 w2)|done].
    by apply (op_step_tidy fuel pool0 w1 o).
Qed.

(** ** Allocation after a reset *)

(** X10.  After ngx_reset_pool on a pool in use, a small allocation of any size
    up to [max] is served from the first block, right behind the pool
    header, without a call to the system allocator and without a new
    block: the memory that was handed out before the reset is handed out
    again. *)
Theorem reset_recycles_first_block f pool w fuel size :
  pool_reachable f pool w -> 0 <= size <= max pool ->
  exists pool2,
    ngx_palloc (S fuel) (ngx_reset_pool pool w).1 size (ngx_reset_pool pool w).2
      = Done (d_self (d pool) + sizeof_ngx_pool_t, pool2, (ngx_reset_pool pool w).2) /\
    length (blocks pool2) = length (blocks pool) /\
    d_last (d pool2) = d_self (d pool) + sizeof_ngx_pool_t + size.
Proof.
  intros Hr Hsize.
  pose proof (pool_reachable_sized _ _ _ Hr) as Hsz.
  pose proof (pool_reachable_tidy _ _ _ Hr) as ((Hsane & Hapart) & _).
  destruct Hapart as (Hmax & Hok & _).
  assert (Hfirst : block_ok (brk w) (d pool)).
  { unfold blocks in Hok. by apply Forall_cons in Hok as [? _]. }
  destruct Hfirst as (Hf1 & Hf2 & Hf3 & Hf4 & Hf5 & Hf6).
  unfold sized in Hsz. unfold ngx_reset_pool. cbn [fst snd].
  cbn [ngx_palloc max current blocks d d_next split_at reset_block d_self].
  destruct (Z.leb_spec size (max pool)); [|lia].
  rewrite Z.eqb_refl. cbn [palloc_search d_last d_end app].
  assert (Hm : ngx_align_ptr (d_self (d pool) + sizeof_ngx_pool_t) NGX_ALIGNMENT
               = d_self (d pool) + sizeof_ngx_pool_t).
  { apply (ngx_align_ptr_id _ 3); [lia|]. unfold NGX_ALIGNMENT, sizeof_ngx_pool_t in *.
    change (2 ^ 3) with 8. clear -Hf1. Z.to_euclidean_division_equations. lia. }
  change (d_last (reset_block (d pool))) with (d_self (d pool) + sizeof_ngx_pool_t).
  change (d_end (reset_block (d pool))) with (d_end (d pool)).
  rewrite Hm.
  assert (Hfit : (d_end (d pool) - (d_self (d pool) + sizeof_ngx_pool_t)) mod size_max
                 = d_end (d pool) - (d_self (d pool) + sizeof_ngx_pool_t)).
  { apply Z.mod_small. unfold sizeof_ngx_pool_t, size_max in *. lia. }
  rewrite Hfit. unfold sizeof_ngx_pool_t in *.
  destruct (Z.leb_spec size (d_end (d pool) - (d_self (d pool) + 80))); [|lia].
  eexists. split; [reflexivity|]. unfold blocks. cbn. by rewrite length_map.
Qed.

Lemma reset_recycles_first_block_witness :
  exists pool w p1 pool1 w1 pool2,
    pool_reachable 3 pool w /\ 0 <= 64 <= max pool /\
    ngx_create_pool 256 NULL world0 = (Some pool1, w1) /\
    ngx_palloc 3 pool1 100 w1 = Done (p1, pool, w) /\
    ngx_palloc 1 (ngx_reset_pool pool w).1 64 (ngx_reset_pool pool w).2
      = Done (p1, pool2, (ngx_reset_pool pool w).2).
Proof.
  pose (ops := [Call (Palloc 100)]).
  let r := eval vm_compute in (ngx_create_pool 256 NULL world0) in
  match r with
  | (Some ?p0, ?w1) =>
      let r2 := eval vm_compute in (ngx_palloc 3 p0 100 w1) in
      match r2 with
      | Done (?m, ?p, ?w) =>
          assert (Hr : pool_reachable 3 p w);
          [exists 256, NULL, world0, p0, w1, ops;
           split; [by vm_compute|]; split; [by vm_compute|];
           split; [by vm_compute|]; split; [by vm_compute|];
           split; [|by vm_compute];
           repeat apply Forall_cons_2; try apply Forall_nil_2; simpl; lia|];
          assert (Hs : 0 <= 64 <= max p) by (simpl; lia);
          destruct (reset_recycles_first_block 3 p w 0 64 Hr Hs) as (pool2 & Hp & _);
          exists p, w, m, p0, w1, pool2
      end
  end.
  split; [exact Hr|]. split; [exact Hs|]. split; [by vm_compute|].
  split; [by vm_compute|]. exact Hp.
Defined.
(** ** Allocation always returns *)

Lemma pmemalign_returns fuel pool size k w :
  pool_sane pool w -> 0 <= size -> 0 <= k ->
  exists p pool' w',
    ngx_pmemalign (S fuel) pool size (2 ^ k) w = Done (p, pool', w') /\
    (limit w = None -> p <> NULL).
Proof.
  intros Hsane Hsize Hk. pose proof Hsane as (Hb & Hm & Hp & Hc & Hl).
  unfold ngx_pmemalign.
  destruct (ngx_memalign (2 ^ k) size w) as [p w1] eqn:Ea.
  apply (memalign_spec k) in Ea as (Hlim & _ & Hbrk & Hnull & Hnn); [|lia|lia|lia].
  destruct (Z.eqb_spec p NULL) as [Ez|Ez].
  - eexists _, _, _. split; [reflexivity|]. intros Hn. by apply Hnull in Hn.
  - assert (Hsane1 : pool_sane pool w1).
    { unfold pool_sane. repeat split; try done; lia. }
    destruct (palloc_small_sane fuel pool sizeof_ngx_pool_large_t w1 Hsane1)
      as (lg & pool2 & w2 & Hpa & Hsane2 & Hbrk2 & Hlim2 & Hnn2).
    { unfold sizeof_ngx_pool_large_t in *. lia. }
    rewrite Hpa. cbn.
    destruct (Z.eqb_spec lg NULL) as [El|El].
    + eexists _, _, _. split; [reflexivity|].
      intros Hn. rewrite <- Hlim in Hn. by apply Hnn2 in Hn.
    + eexists _, _, _. split; [reflexivity|done].
Qed.

(** X11.  On a pool that was created with a size that is a multiple of
    NGX_ALIGNMENT and at least
    [sizeof(ngx_pool_t) + sizeof(ngx_pool_large_t)], so that an entry of
    the large list fits the small path, and then taken through any
    allocations, frees, resets and registrations ([pool_reachable]), no
    allocation call goes wrong: ngx_palloc, ngx_pnalloc and ngx_pmemalign
    with any size that is not negative return, they never reach through
    a [current] that is not a block of the pool, the calls between
    ngx_palloc and ngx_palloc_large nest three deep at most, and what
    they return is not NULL when the system allocator does not fail.  The
    code does not check the size given to ngx_create_pool; below that
    bound the calls do not return (X23). *)
Theorem allocation_always_returns f pool w fuel size :
  pool_reachable f pool w -> 0 <= size ->
  (exists m pool' w',
     ngx_palloc (S (S (S fuel))) pool size w = Done (m, pool', w') /\
     (limit w = None -> m <> NULL)) /\
  (exists m pool' w',
     ngx_pnalloc (S (S fuel)) pool size w = Done (m, pool', w') /\
     (limit w = None -> m <> NULL)) /\
  (forall k, 0 <= k ->
     exists m pool' w',
       ngx_pmemalign (S fuel) pool size (2 ^ k) w = Done (m, pool', w') /\
       (limit w = None -> m <> NULL)).
Proof.
  intros Hr Hsize.
  pose proof (pool_reachable_tidy _ _ _ Hr) as ((Hsane & _) & _).
  destruct (palloc_sane fuel pool size w Hsane Hsize)
    as (m & pool' & w' & Hp & _ & _ & _ & Hnn).
  split; [by exists m, pool', w'|]. split.
  - rewrite ngx_pnalloc_eq. destruct (Z.leb_spec size (max pool)) as [Hle|Hgt].
    + destruct (small_path_sane false pool size w Hsane Hsize)
        as (m1 & p1 & w1 & H1 & _ & _ & _ & Hnn1).
      by exists m1, p1, w1.
    + cbn [ngx_palloc] in Hp. destruct (Z.leb_spec size (max pool)); [lia|].
      by exists m, pool', w'.
  - intros k Hk. by apply pmemalign_returns.
Qed.

Lemma allocation_always_returns_witness :
  exists pool w m pool' w',
    pool_reachable 3 pool w /\ 0 <= 5000 /\
    ngx_pnalloc 2 pool 5000 w = Done (m, pool', w') /\ m <> NULL.
Proof.
  pose (ops := [Call (Palloc 100); Call (Palloc 4096); Call (Pfree 4352)]).
  let r := eval vm_compute in (ngx_create_pool 256 NULL world0) in
  match r with
  | (Some ?p0, ?w1) =>
      let r2 := eval vm_compute in (pool_ops 3 p0 w1 ops) in
      match r2 with
      | Done (?p, ?w) =>
          assert (Hr : pool_reachable 3 p w);
          [exists 256, NULL, world0, p0, w1, ops;
           split; [by vm_compute|]; split; [by vm_compute|];
           split; [by vm_compute|]; split; [by vm_compute|];
           split; [|by vm_compute];
           repeat apply Forall_cons_2; try apply Forall_nil_2; simpl; lia|];
          assert (Hs : 0 <= 5000) by lia;
          destruct (allocation_always_returns 3 p w 0 5000 Hr Hs)
            as (_ & (m & pool' & w' & Hp & Hnn) & _);
          exists p, w, m, pool', w'
      end
  end.
  split; [exact Hr|]. split; [exact Hs|]. split; [exact Hp|]. by apply Hnn.
Defined.

End PoolMore.

(** * Further properties of the radix tree *)

Section RadixMore.

Import Pool PoolSpec Radix RadixSpec.

Lemma reachable_inv fuel st :
  (33 <= fuel)%nat -> reachable fuel st ->
  tree_inv st /\
  exists live, represents st live /\ entries_ok live /\ NoDup (map fst live).
Proof.
  intros Hfuel (pl & d & w & st0 & ops & rcs & Hsane & Hcr & Hops & Hg & Hrun).
  destruct (create_inv fuel pl d w st0 Hsane Hfuel Hcr) as [Hinv Hrep].
  destruct (run_spec fuel ops Hfuel st0 [] Hinv Hrep (Forall_nil_2 _)
              (NoDup_nil_2 : NoDup (map fst [])) Hops Hg)
    as (rcs' & st' & Hrun' & _ & Hinv' & Hrep' & Hok' & Hnd').
  rewrite Hrun in Hrun'. injection Hrun' as <- <-.
  split; [done|]. by exists (stored ops rcs []).
Qed.

Lemma find_same_values fuel st st' k :
  (33 <= fuel)%nat -> tree_inv st -> tree_inv st' ->
  (forall path, value_at (mem st') (root (tree st')) path =
                value_at (mem st) (root (tree st)) path) ->
  ngx_radix32tree_find fuel st' k = ngx_radix32tree_find fuel st k.
Proof.
  intros Hfuel Hinv Hinv' Hv.
  rewrite (find_spec st' k fuel Hinv' Hfuel), (find_spec st k fuel Hinv Hfuel).
  f_equal. by apply deepest_value_ext.
Qed.





Lemma cidr_intro key n :
  (n <= 32)%nat -> 0 <= key < 2 ^ 32 -> Z.land key (cidr_mask n) = key ->
  cidr key (cidr_mask n).
Proof. intros Hn Hk Hl. split; [by exists n|done]. Qed.


(** ** What deletion does to the nodes and to the free list *)

Lemma free_chain_unique st l :
  tree_inv st -> free_chain (mem st) (free (tree st)) l ->
  NoDup l /\ forall a path, a ∈ l -> node_at (mem st) (root (tree st)) path <> Some a.
Proof.
  intros Hinv Hl. destruct (inv_free st Hinv) as (l0 & Hl0 & Hnd & Hout).
  by rewrite (free_chain_fun _ _ _ _ Hl Hl0).
Qed.

(** The pruning loop of deletion: it unlinks the leaf and its ancestors
    without child or value, [j] nodes in all, puts them on the free list
    and touches neither the pool nor the page. *)
Lemma delete_prune_nodes fuel st pa b a na l :
  tree_inv st ->
  node_at (mem st) (root (tree st)) (pa ++ [b]) = Some a ->
  mem st !! a = Some na -> n_left na = NULL -> n_right na = NULL ->
  (length pa < fuel)%nat ->
  free_chain (mem st) (free (tree st)) l ->
  exists st' j lnew,
    delete_prune fuel st a = Done st' /\
    (1 <= j <= S (length pa))%nat /\ length lnew = j /\
    free_chain (mem st') (free (tree st')) (lnew ++ l) /\
    pool st' = pool st /\ os st' = os st /\
    start (tree st') = start (tree st) /\ size (tree st') = size (tree st) /\
    forall path c,
      node_at (mem st') (root (tree st)) path = Some c <->
      node_at (mem st) (root (tree st)) path = Some c /\
      ~ exists d, (S (length pa) - j < d <= S (length pa))%nat /\
                  path = take d (pa ++ [b]).
Proof.
  revert st pa b a na l.
  induction fuel as [|fuel IH]; intros st pa b a na l Hinv Hpa Hna Hl0 Hr0 Hf Hfree; [lia|].
  rewrite delete_prune_eq.
  destruct (node_at_some_mem _ _ _ _ Hpa) as [Ha0 _].
  rewrite (proj2 (load_done _ _ na) (conj Ha0 Hna)). cbn.
  pose proof (inv_parent st Hinv pa b a na Hpa Hna) as Hq.
  set (q := n_parent na) in *.
  destruct (node_at_some_load _ _ _ _ Hq) as [nq Hlq]. rewrite Hlq. cbn.
  pose proof Hlq as Hlq'. apply load_done in Hlq' as [Hq0 Hnq].
  assert (Hqa : q <> a).
  { intros E. rewrite E in Hq. pose proof (inv_inj st Hinv _ _ _ Hpa Hq) as E2.
    apply (f_equal length) in E2. rewrite length_app in E2. simpl in E2. lia. }
  assert (Hchild : child_of b nq = a).
  { pose proof Hpa as H. apply node_at_snoc_inv in H as (a0 & n0 & Ha0' & Hn0 & Hc0 & _).
    rewrite Hq in Ha0'. inversion Ha0'; subst a0.
    rewrite Hnq in Hn0. by inversion Hn0; subst n0. }
  assert (Hstore1 :
    (if n_right nq =? a then store_right (mem st) q NULL
     else store_left (mem st) q NULL) =
    Done (<[q := with_child b NULL nq]> (mem st))).
  { unfold store_right, store_left. rewrite Hlq. cbn.
    destruct b; simpl in Hchild.
    - rewrite Hchild, Z.eqb_refl. reflexivity.
    - destruct (Z.eqb_spec (n_right nq) a) as [E|E]; [|reflexivity].
      exfalso.
      assert (node_at (mem st) (root (tree st)) (pa ++ [true]) = Some a) as H.
      { rewrite <- E. apply (node_at_snoc_some _ _ _ true q nq); try done.
        - simpl. congruence.
        - simpl. rewrite E. eauto. }
      pose proof (inv_inj st Hinv _ _ _ Hpa H) as E2.
      by apply app_inj_tail in E2 as [_ ?]. }
  rewrite Hstore1. cbn.
  set (m1 := <[q := with_child b NULL nq]> (mem st)).
  assert (Hstore2 : store_right m1 a (free (tree st)) =
    Done (<[a := mk_node (free (tree st)) (n_left na) (n_parent na) (n_value na)]> m1)).
  { unfold store_right.
    rewrite (proj2 (load_done m1 a na)); [reflexivity|].
    split; [done|]. unfold m1. by rewrite lookup_insert_ne. }
  rewrite Hstore2. cbn.
  destruct (detach_leaf st pa b a na q nq Hinv Hpa Hna Hl0 Hr0 Hq Hnq)
    as (Hinv1 & Hchar & _ & Hmq & Hmo).
  fold m1 in Hinv1, Hchar, Hmq, Hmo.
  set (m2 := <[a := mk_node (free (tree st)) (n_left na) (n_parent na) (n_value na)]> m1) in *.
  set (st1 := mk_state (set_free (tree st) a) m2 (pool st) (os st)) in *.
  assert (Hla : load m2 a =
    Done (mk_node (free (tree st)) (n_left na) (n_parent na) (n_value na))).
  { apply load_done. split; [done|]. apply lookup_insert_eq. }
  rewrite Hla. cbn. fold q.
  rewrite (proj2 (load_done m2 q _) (conj Hq0 Hmq)). cbn.
  destruct (free_chain_unique st l Hinv Hfree) as [Hnd Hout].
  assert (Hfree1 : free_chain m2 a (a :: l)).
  { split; [done|]. split; [done|]. eexists. split; [apply lookup_insert_eq|].
    cbn [n_right]. apply (free_chain_agree (mem st)); [|done].
    intros x Hx. apply Hmo.
    - intros ->. by apply (Hout a (pa ++ [b])).
    - intros ->. by apply (Hout q pa). }
  assert (Hdone : exists st' j lnew,
    Done st1 = Done st' /\
    (1 <= j <= S (length pa))%nat /\ length lnew = j /\
    free_chain (mem st') (free (tree st')) (lnew ++ l) /\
    pool st' = pool st /\ os st' = os st /\
    start (tree st') = start (tree st) /\ size (tree st') = size (tree st) /\
    forall path c,
      node_at (mem st') (root (tree st)) path = Some c <->
      node_at (mem st) (root (tree st)) path = Some c /\
      ~ exists d, (S (length pa) - j < d <= S (length pa))%nat /\
                  path = take d (pa ++ [b])).
  { exists st1, 1%nat, [a]. split; [done|]. split; [lia|]. split; [done|].
    split; [exact Hfree1|]. split; [done|]. split; [done|]. split; [done|].
    split; [done|]. intros path c. change (mem st1) with m2. rewrite Hchar.
    split; intros [H1 H2]; (split; [done|]).
    - intros (d & Hd & ->). apply H2.
      assert (d = S (length pa)) as -> by lia.
      apply take_ge. rewrite length_app. simpl. lia.
    - intros ->. apply H2. exists (S (length pa)). split; [lia|].
      symmetry. apply take_ge. rewrite length_app. simpl. lia. }
  destruct (negb (n_right (with_child b NULL nq) =? NULL)
            || negb (n_left (with_child b NULL nq) =? NULL)) eqn:Ech; [exact Hdone|].
  destruct (negb (n_value (with_child b NULL nq) =? NGX_RADIX_NO_VALUE)) eqn:Ev;
    [exact Hdone|].
  destruct (Z.eqb_spec (n_parent (with_child b NULL nq)) NULL) as [Ep|Ep]; [exact Hdone|].
  clear Hdone.
  apply orb_false_iff in Ech as [Ech1 Ech2].
  apply negb_false_iff, Z.eqb_eq in Ech1, Ech2, Ev.
  assert (Hpq : n_parent nq <> NULL) by (by destruct b).
  destruct pa as [|b0 pa0 _] using rev_ind.
  { exfalso. destruct (inv_root st Hinv) as (nr & Hlr & Hpr).
    rewrite node_at_nil, Hlr in Hq. inversion Hq as [E]. rewrite <- E in Hnq.
    apply load_done in Hlr as [_ Hlr]. rewrite Hlr in Hnq. by inversion Hnq; subst. }
  rewrite length_app in Hf. simpl in Hf.
  destruct (IH st1 pa0 b0 q (with_child b NULL nq) (a :: l) Hinv1)
    as (st' & j & lnew & Hp' & Hj & Hlen & Hfree' & Hpool' & Hos' & Hst' & Hsz' & Hchar');
    try done.
  { change (mem st1) with m2. change (root (tree st1)) with (root (tree st)).
    apply Hchar. split; [done|]. intros E.
    apply (f_equal length) in E. rewrite !length_app in E. simpl in E. lia. }
  { lia. }
  exists st', (S j), (lnew ++ [a]). split; [exact Hp'|].
  rewrite !length_app in *. cbn [length] in *.
  split; [lia|]. split; [lia|]. split; [by rewrite <- app_assoc|].
  split; [done|]. split; [done|]. split; [done|]. split; [done|].
  intros path c. change (mem st1) with m2 in Hchar'.
  change (root (tree st1)) with (root (tree st)) in Hchar'.
  rewrite Hchar', Hchar.
  replace (length pa0 + 1 + 1)%nat with (S (S (length pa0))) by lia.
  replace (length pa0 + 1)%nat with (S (length pa0)) by lia.
  split.
  - intros [[H1 H2] H3]. split; [done|]. intros (d & Hd & ->).
    destruct (decide (d = S (S (length pa0)))) as [->|Hne].
    + apply H2. apply take_ge. rewrite !length_app. simpl. lia.
    + apply H3. exists d. split; [lia|].
      rewrite (take_app_le (pa0 ++ [b0])); [done|]. rewrite length_app. simpl. lia.
  - intros [H1 H2]. split; [split; [done|]|].
    + intros ->. apply H2. exists (S (S (length pa0))). split; [lia|].
      symmetry. apply take_ge. rewrite !length_app. simpl. lia.
    + intros (d & Hd & ->). apply H2. exists d. split; [lia|].
      rewrite (take_app_le (pa0 ++ [b0])); [done|]. rewrite length_app. simpl. lia.
Qed.

Lemma take_key_path key n d : (d <= n)%nat -> take d (key_path key n) = key_path key d.
Proof.
  intros Hd. replace n with (d + (n - d))%nat by lia.
  rewrite key_path_app. apply take_app_length'. by rewrite key_path_length.
Qed.

(** ngx_radix32tree_delete, case by case. *)
Lemma delete_cases fuel st key mask l :
  tree_inv st -> (33 <= fuel)%nat ->
  free_chain (mem st) (free (tree st)) l ->
  match node_at (mem st) (root (tree st)) (prefix_path key mask) with
  | None => ngx_radix32tree_delete fuel st key mask = Done (NGX_ERROR, st)
  | Some a =>
      exists na, mem st !! a = Some na /\
        ((n_left na <> NULL \/ n_right na <> NULL) ->
         ngx_radix32tree_delete fuel st key mask =
           if decide (n_value na = NGX_RADIX_NO_VALUE) then Done (NGX_ERROR, st)
           else Done (NGX_OK,
                      set_mem st (<[a := mk_node (n_right na) (n_left na) (n_parent na)
                                            NGX_RADIX_NO_VALUE]> (mem st)))) /\
        (n_left na = NULL -> n_right na = NULL -> prefix_len mask <> 0%nat ->
         exists st' j lnew,
           ngx_radix32tree_delete fuel st key mask = Done (NGX_OK, st') /\
           (1 <= j <= prefix_len mask)%nat /\ length lnew = j /\
           free_chain (mem st') (free (tree st')) (lnew ++ l) /\
           pool st' = pool st /\ os st' = os st /\
           start (tree st') = start (tree st) /\ size (tree st') = size (tree st) /\
           forall path c,
             node_at (mem st') (root (tree st)) path = Some c <->
             node_at (mem st) (root (tree st)) path = Some c /\
             ~ exists d, (prefix_len mask - j < d <= prefix_len mask)%nat /\
                         path = key_path key d)
  end.
Proof.
  intros Hinv Hfuel Hfree. pose proof (prefix_len_le mask) as Hle.
  destruct (inv_root st Hinv) as (nr & Hlr & Hpr).
  assert (Hroot0 : node_at (mem st) (root (tree st)) (key_path key 0) = Some (root (tree st))).
  { unfold key_path, key_seg. simpl seq. simpl map. by rewrite node_at_nil, Hlr. }
  unfold ngx_radix32tree_delete. change 2147483648 with (bit_of 0).
  rewrite (delete_descend_spec st key mask fuel 0 (root (tree st)) Hinv);
    [|by left|lia|lia].
  fold (prefix_path key mask).
  destruct (node_at (mem st) (root (tree st)) (prefix_path key mask)) as [a|] eqn:Ha;
    [|done].
  destruct (node_at_some_load _ _ _ _ Ha) as [na Hla].
  pose proof Hla as Hla'. apply load_done in Hla' as [Ha0 Hna].
  exists na. split; [done|]. cbn.
  destruct (Z.eqb_spec a NULL) as [E|_]; [done|]. rewrite Hla. cbn. split.
  - intros Hch.
    assert (negb (n_right na =? NULL) || negb (n_left na =? NULL) = true) as ->.
    { apply orb_true_iff. destruct Hch as [Hch|Hch].
      - right. apply negb_true_iff. by apply Z.eqb_neq.
      - left. apply negb_true_iff. by apply Z.eqb_neq. }
    destruct (Z.eqb_spec (n_value na) NGX_RADIX_NO_VALUE) as [Ev|Ev]; cbn [negb].
    + by rewrite decide_True.
    + rewrite decide_False by done. unfold store_value. by rewrite Hla.
  - intros Hl0 Hr0 Hn0. rewrite Hl0, Hr0. cbn.
    assert (exists n, prefix_len mask = S n) as [n En].
    { exists (pred (prefix_len mask)). lia. }
    unfold prefix_path in Ha. rewrite En, key_path_S in Ha.
    destruct (delete_prune_nodes fuel st (key_path key n) (key_bit key n) a na l
                Hinv Ha Hna Hl0 Hr0) as (st' & j & lnew & Hp & Hj & Hlen & Hfree' & Hrest);
      [rewrite key_path_length; lia|done|].
    rewrite key_path_length in *. rewrite <- key_path_S, <- En in *.
    rewrite Hp. cbn. exists st', j, lnew. split; [done|]. split; [lia|].
    split; [done|]. split; [done|].
    destruct Hrest as (Hpo & Hos & Hsta & Hsz & Hchar).
    split; [done|]. split; [done|]. split; [done|]. split; [done|].
    intros path c. rewrite Hchar. split; intros [Hc1 Hc2]; (split; [done|]).
    + intros (d & Hd & ->). apply Hc2. exists d. split; [done|].
      by rewrite take_key_path by lia.
    + intros (d & Hd & ->). apply Hc2. exists d. split; [done|].
      by rewrite take_key_path by lia.
Qed.


Lemma reachable_one_prefix :
  exists st, one_prefix = Done (NGX_OK, st) /\ reachable 33 st.
Proof.
  let r := eval vm_compute in (ngx_create_pool 1024 NULL world0) in
  match r with
  | (Some ?pl, ?w) =>
    let r2 := eval vm_compute in (ngx_radix_tree_create 33 pl 0 w) in
    match r2 with
    | Done (Some ?st0) =>
      let r3 := eval vm_compute in one_prefix in
      match r3 with
      | Done (_, ?st) =>
          exists st; split; [vm_compute; reflexivity|];
          exists pl, 0, w, st0, [Insert 0xC0A80000 0xFFFF0000 42], [NGX_OK];
          split; [apply (fresh_pool_sane pl w); vm_compute; reflexivity|];
          split; [vm_compute; reflexivity|]
      end
    end
  end.
  split.
  { apply Forall_cons. split; [|apply Forall_nil_2].
    split; [apply (cidr_intro _ 16); [lia|lia|reflexivity]|vm_compute; discriminate]. }
  split; [vm_compute; repeat split|vm_compute; reflexivity].
Defined.




(** ** Nodes from the free list *)

Lemma radix_alloc_from_free_list fuel st x l :
  free_chain (mem st) (free (tree st)) (x :: l) ->
  exists nx,
    mem st !! x = Some nx /\ free_chain (mem st) (n_right nx) l /\
    ngx_radix_alloc fuel st =
      Done (x, set_tree st (set_free (tree st) (n_right nx))).
Proof.
  intros (Ef & Hx & nx & Hnx & Hl). exists nx. split; [done|]. split; [done|].
  unfold ngx_radix_alloc. rewrite Ef.
  destruct (Z.eqb_spec x NULL) as [|_]; [done|]. cbn [negb].
  by rewrite (proj2 (load_done (mem st) x nx) (conj Hx Hnx)).
Qed.

(** The second loop of insertion takes its nodes from the free list as
    long as there are any: with enough of them, the pool and the page
    are left alone. *)
Lemma insert_extend_reuse fuel st key mask n i node nn l :
  tree_inv st ->
  node_at (mem st) (root (tree st)) (key_path key i) = Some node ->
  mem st !! node = Some nn ->
  ((i < prefix_len mask)%nat -> child_of (key_bit key i) nn = NULL) ->
  (i <= prefix_len mask)%nat -> (prefix_len mask - i <= n)%nat ->
  free_chain (mem st) (free (tree st)) l ->
  (prefix_len mask - i <= length l)%nat ->
  exists node' st',
    insert_extend (S fuel) n st key mask (bit_of i) node = Done (Some node', st') /\
    pool st' = pool st /\ os st' = os st /\
    start (tree st') = start (tree st) /\ size (tree st') = size (tree st) /\
    free_chain (mem st') (free (tree st')) (drop (prefix_len mask - i) l).
Proof.
  revert st i node nn l.
  induction n as [|n IH]; intros st i node nn l Hinv Hn Hnn Hc Hi Hf Hfree Hlen;
    rewrite insert_extend_eq.
  - assert (i = prefix_len mask) as -> by lia. rewrite prefix_len_clear.
    exists node, st. rewrite Nat.sub_diag. by rewrite drop_0.
  - destruct (decide (i = prefix_len mask)) as [->|Hne].
    { rewrite prefix_len_clear. exists node, st. rewrite Nat.sub_diag.
      by rewrite drop_0. }
    rewrite prefix_len_set by lia.
    destruct l as [|x l]; [simpl in Hlen; lia|].
    destruct (free_chain_unique st (x :: l) Hinv Hfree) as [Hnd Hout].
    apply NoDup_cons in Hnd as [Hxl Hnd].
    destruct (radix_alloc_from_free_list (S fuel) st x l Hfree) as (nx & Hnx & Hl & Ha).
    destruct (radix_alloc_spec fuel st Hinv)
      as (x' & st1 & Ha' & Hm1 & Hr1 & Hl1 & Hinv1 & Hnull & Hfresh).
    rewrite Ha in Ha'. injection Ha' as <- <-.
    rewrite Ha. cbn [mbind res_mbind res_bind].
    assert (Ex : x <> NULL) by (by destruct Hfree as (_ & ? & _)).
    destruct (Z.eqb_spec x NULL) as [|_]; [done|].
    set (st1 := set_tree st (set_free (tree st) (n_right nx))) in *.
    destruct (Hfresh Ex) as (Hun & Hfl & Hbrk & Hsl).
    assert (node <> x) as Hnx' by (intros ->; by apply (Hun _) in Hn).
    assert (node <> NULL) as Hn0 by (by apply node_at_some_mem in Hn as [? _]).
    change (mem st1) with (mem st) in *.
    set (m1 := <[x := mk_node NULL NULL node NGX_RADIX_NO_VALUE]> (mem st)).
    assert (Hload : load m1 node = Done nn).
    { apply load_done. split; [done|]. unfold m1. by rewrite lookup_insert_ne. }
    assert (Hstore :
      (if negb (Z.land key (bit_of i) =? 0) then store_right m1 node x
       else store_left m1 node x) =
      Done (<[node := with_child (key_bit key i) x nn]> m1)).
    { unfold key_bit, store_right, store_left.
      destruct (negb (Z.land key (bit_of i) =? 0)); rewrite Hload; reflexivity. }
    fold m1. rewrite Hstore. cbn [mbind res_mbind res_bind]. rewrite bit_of_S.
    assert (Hlen32 : (length (key_path key i) < 32)%nat).
    { rewrite key_path_length. pose proof (prefix_len_le mask). lia. }
    pose proof (attach_leaf st1 (key_path key i) (key_bit key i) node nn x Hinv1)
      as Hat.
    change (mem st1) with (mem st) in Hat.
    change (root (tree st1)) with (root (tree st)) in Hat.
    destruct (Hat Hn Hnn (Hc ltac:(lia)) Hlen32 Ex Hun Hfl Hbrk Hsl)
      as (Hinv2 & Hchar & _).
    clear Hat. fold m1 in Hchar, Hinv2.
    set (m2 := <[node := with_child (key_bit key i) x nn]> m1) in *.
    set (st2 := set_mem st1 m2) in *.
    destruct (IH st2 (S i) x (mk_node NULL NULL node NGX_RADIX_NO_VALUE) l)
      as (node' & st' & He & Hpo & Hos & Hsta & Hsz & Hfree'); try done.
    { change (mem st2) with m2. change (root (tree st2)) with (root (tree st)).
      apply Hchar. right. by rewrite key_path_S. }
    { change (mem st2) with m2. unfold m2, m1.
      rewrite lookup_insert_ne by done. apply lookup_insert_eq. }
    { intros _. by destruct (key_bit key (S i)). }
    { lia. }
    { lia. }
    { change (mem st2) with m2. change (free (tree st2)) with (n_right nx).
      apply (free_chain_agree (mem st)); [|done].
      intros y Hy.
      assert (Hyx : x <> y) by (intros ->; done).
      assert (Hyn : node <> y).
      { intros E. apply (Hout y (key_path key i)); [|by rewrite <- E].
        apply elem_of_cons. by right. }
      unfold m2, m1. by rewrite !lookup_insert_ne. }
    { simpl in Hlen. lia. }
    exists node', st'. split; [exact He|].
    split; [done|]. split; [done|]. split; [done|]. split; [done|].
    replace (prefix_len mask - i)%nat with (S (prefix_len mask - S i)) by lia.
    exact Hfree'.
Qed.

Lemma insert_reuse fuel st key mask v l :
  tree_inv st -> (33 <= fuel)%nat ->
  free_chain (mem st) (free (tree st)) l ->
  value_at (mem st) (root (tree st)) (prefix_path key mask) = NGX_RADIX_NO_VALUE ->
  (forall j, (j < prefix_len mask)%nat ->
     is_Some (node_at (mem st) (root (tree st)) (key_path key j)) ->
     node_at (mem st) (root (tree st)) (key_path key (S j)) = None ->
     (prefix_len mask - j <= length l)%nat) ->
  exists st',
    ngx_radix32tree_insert fuel st key mask v = Done (NGX_OK, st') /\
    pool st' = pool st /\ os st' = os st /\
    start (tree st') = start (tree st) /\ size (tree st') = size (tree st).
Proof.
  intros Hinv Hfuel Hfree Hno Henough. pose proof (prefix_len_le mask) as Hle.
  destruct fuel as [|fuel]; [lia|].
  destruct (inv_root st Hinv) as (nr & Hlr & Hpr).
  assert (Hroot0 : node_at (mem st) (root (tree st)) (key_path key 0) = Some (root (tree st))).
  { unfold key_path, key_seg. simpl seq. simpl map. by rewrite node_at_nil, Hlr. }
  assert (Hrn : root (tree st) <> NULL) by (by apply load_done in Hlr as [? _]).
  destruct (insert_descend_stops st key mask (S fuel) 0 (root (tree st))
              (root (tree st)) Hinv Hroot0)
    as (j & node & next & Hd & Hj & Hnode & Hcase); [lia|lia|done|].
  change (bit_of 0) with 2147483648 in Hd.
  rewrite (insert_after_descend _ _ _ _ _ _ _ _ Hd).
  destruct (node_at_some_load _ _ _ _ Hnode) as [nn Hln].
  pose proof Hln as Hln'. apply load_done in Hln' as [Hnode0 Hnn].
  destruct Hcase as [[Hnx ->]|(-> & Hjl & n' & Hn' & Hchild)].
  - destruct (next =? NULL) eqn:E; [lia|]. cbn [negb]. rewrite Hln. cbn.
    assert (Hv : n_value nn = NGX_RADIX_NO_VALUE).
    { unfold value_at, prefix_path in Hno. by rewrite Hnode, Hnn in Hno. }
    rewrite Hv, Z.eqb_refl. cbn [negb]. unfold store_value. rewrite Hln. cbn.
    eexists. split; [reflexivity|]. done.
  - cbn [Z.eqb negb NULL].
    rewrite Hnn in Hn'. injection Hn' as <-.
    assert (Hlen : (prefix_len mask - j <= length l)%nat).
    { apply Henough; [done|by rewrite Hnode|].
      rewrite key_path_S.
      destruct (node_at _ _ (key_path key j ++ _)) as [c|] eqn:Ec; [|done].
      apply node_at_snoc_inv in Ec as (a0 & n0 & Ha0 & Hn0 & Hc0 & Hcn & _).
      rewrite Hnode in Ha0. injection Ha0 as <-.
      rewrite Hnn in Hn0. injection Hn0 as <-. congruence. }
    destruct (insert_extend_reuse fuel st key mask (S fuel) j node nn l Hinv Hnode Hnn)
      as (node' & st1 & He & Hpo & Hos & Hsta & Hsz & _); [done|lia|lia|done|done|].
    destruct (insert_extend_spec fuel st key mask (S fuel) j node nn Hinv Hnode Hnn)
      as (res & st1' & He' & _ & _ & _ & _ & _ & Hsome); [done|lia|lia|].
    rewrite He in He'. injection He' as <- <-.
    destruct (Hsome node' eq_refl) as [Hnode' _].
    destruct (node_at_some_load _ _ _ _ Hnode') as [nn' Hln'].
    rewrite He. cbn. unfold store_value. rewrite Hln'. cbn.
    eexists. split; [reflexivity|]. done.
Qed.

Lemma delete_at_bare_root fuel st key mask nr :
  prefix_len mask = 0%nat ->
  load (mem st) (root (tree st)) = Done nr ->
  n_left nr = NULL -> n_right nr = NULL -> n_parent nr = NULL ->
  ngx_radix32tree_delete (S fuel) st key mask = Segv NULL.
Proof.
  intros Hp Hload Hl Hr Hpar. pose proof (prefix_len_clear mask) as Hc.
  rewrite Hp in Hc. unfold ngx_radix32tree_delete.
  change 2147483648 with (bit_of 0). rewrite delete_descend_eq, Hc, orb_true_r.
  cbn. apply load_done in Hload as Hl'. destruct Hl' as [Hr0 _].
  destruct (Z.eqb_spec (root (tree st)) NULL) as [|_]; [done|].
  rewrite Hload. cbn. rewrite Hl, Hr. cbn. by rewrite Hpar.
Qed.




(** ** Nodes from the current page *)

Lemma radix_alloc_from_page fuel st p c :
  in_page st p c -> 0 <= c < 128 ->
  ngx_radix_alloc fuel st =
    Done (p + c * sizeof_ngx_radix_node_t,
          set_tree st (mk_tree (root (tree st)) NULL
                         (p + (c + 1) * sizeof_ngx_radix_node_t)
                         (ngx_pagesize - (c + 1) * sizeof_ngx_radix_node_t))).
Proof.
  intros (Hf & Hs & Hz & _) Hc. unfold ngx_radix_alloc. rewrite Hf, Hs, Hz.
  cbn [negb Z.eqb NULL]. unfold ngx_pagesize, sizeof_ngx_radix_node_t.
  destruct (Z.ltb_spec (4096 - c * 32) 32); [lia|].
  replace (p + c * 32 + 32) with (p + (c + 1) * 32) by lia.
  by replace (4096 - c * 32 - 32) with (4096 - (c + 1) * 32) by lia.
Qed.

(** The second loop of insertion takes its nodes from the page while the
    page has room for them. *)
Lemma insert_extend_page fuel st key mask n i node nn p c :
  tree_inv st ->
  node_at (mem st) (root (tree st)) (key_path key i) = Some node ->
  mem st !! node = Some nn ->
  ((i < prefix_len mask)%nat -> child_of (key_bit key i) nn = NULL) ->
  (i <= prefix_len mask)%nat -> (prefix_len mask - i <= n)%nat ->
  in_page st p c -> 0 <= c -> c + Z.of_nat (prefix_len mask - i) <= 128 ->
  exists node' st',
    insert_extend (S fuel) n st key mask (bit_of i) node = Done (Some node', st') /\
    pool st' = pool st /\ os st' = os st /\
    in_page st' p (c + Z.of_nat (prefix_len mask - i)).
Proof.
  revert st i node nn c.
  induction n as [|n IH]; intros st i node nn c Hinv Hn Hnn Hc Hi Hf Hpage Hc0 Hroom;
    rewrite insert_extend_eq.
  - assert (i = prefix_len mask) as -> by lia. rewrite prefix_len_clear.
    exists node, st. rewrite Nat.sub_diag, Z.add_0_r. done.
  - destruct (decide (i = prefix_len mask)) as [->|Hne].
    { rewrite prefix_len_clear. exists node, st. rewrite Nat.sub_diag, Z.add_0_r. done. }
    rewrite prefix_len_set by lia.
    assert (Hc128 : 0 <= c < 128) by lia.
    pose proof (radix_alloc_from_page (S fuel) st p c Hpage Hc128) as Ha.
    destruct (radix_alloc_spec fuel st Hinv)
      as (x' & st1' & Ha' & Hm1 & Hr1 & Hl1 & Hinv1 & Hnull & Hfresh).
    rewrite Ha in Ha'. injection Ha' as <- <-.
    rewrite Ha. cbn [mbind res_mbind res_bind].
    set (x := p + c * sizeof_ngx_radix_node_t) in *.
    set (st1 := set_tree st _) in *.
    assert (Hdom : ~ is_Some (mem st !! x)).
    { destruct Hpage as (_ & _ & _ & Hd). intros Hx. apply Hd in Hx as (k & Hk & Hxk).
      subst x. unfold sizeof_ngx_radix_node_t in Hxk. lia. }
    assert (Ex : x <> NULL).
    { intros E. destruct Hpage as (_ & _ & _ & Hd).
      assert (Hin : is_Some (mem st !! node)) by (by rewrite Hnn).
      apply Hd in Hin as (k & Hk & Hnk).
      assert (Hp : is_Some (mem st !! p)).
      { apply Hd. exists 0. split; lia. }
      apply (inv_dom st Hinv) in Hp. subst x.
      unfold NULL, sizeof_ngx_radix_node_t in *. lia. }
    destruct (Z.eqb_spec x NULL) as [|_]; [done|].
    destruct (Hfresh Ex) as (Hun & Hfl & Hbrk & Hsl).
    assert (node <> x) as Hnx' by (intros ->; by apply (Hun _) in Hn).
    assert (node <> NULL) as Hn0 by (by apply node_at_some_mem in Hn as [? _]).
    change (mem st1) with (mem st) in *.
    set (m1 := <[x := mk_node NULL NULL node NGX_RADIX_NO_VALUE]> (mem st)).
    assert (Hload : load m1 node = Done nn).
    { apply load_done. split; [done|]. unfold m1. by rewrite lookup_insert_ne. }
    assert (Hstore :
      (if negb (Z.land key (bit_of i) =? 0) then store_right m1 node x
       else store_left m1 node x) =
      Done (<[node := with_child (key_bit key i) x nn]> m1)).
    { unfold key_bit, store_right, store_left.
      destruct (negb (Z.land key (bit_of i) =? 0)); rewrite Hload; reflexivity. }
    fold m1. rewrite Hstore. cbn [mbind res_mbind res_bind]. rewrite bit_of_S.
    assert (Hlen32 : (length (key_path key i) < 32)%nat).
    { rewrite key_path_length. pose proof (prefix_len_le mask). lia. }
    pose proof (attach_leaf st1 (key_path key i) (key_bit key i) node nn x Hinv1)
      as Hat.
    change (mem st1) with (mem st) in Hat.
    change (root (tree st1)) with (root (tree st)) in Hat.
    destruct (Hat Hn Hnn (Hc ltac:(lia)) Hlen32 Ex Hun Hfl Hbrk Hsl)
      as (Hinv2 & Hchar & _).
    clear Hat. fold m1 in Hchar, Hinv2.
    set (m2 := <[node := with_child (key_bit key i) x nn]> m1) in *.
    set (st2 := set_mem st1 m2) in *.
    assert (Hpage2 : in_page st2 p (c + 1)).
    { destruct Hpage as (_ & _ & _ & Hd). split; [done|]. split; [done|]. split; [done|].
      intros a. change (mem st2) with m2. unfold m2, m1.
      destruct (decide (a = node)) as [->|Han].
      - rewrite lookup_insert_eq. split; [intros _|by eauto].
        assert (Hin : is_Some (mem st !! node)) by (by rewrite Hnn).
        apply Hd in Hin as (k & Hk & Hnk). exists k. split; [lia|done].
      - rewrite lookup_insert_ne by done.
        destruct (decide (a = x)) as [->|Hax].
        + rewrite lookup_insert_eq. split; [intros _|by eauto].
          exists c. split; [lia|done].
        + rewrite lookup_insert_ne by done. rewrite Hd. split.
          * intros (k & Hk & Hak). exists k. split; [lia|done].
          * intros (k & Hk & Hak). exists k. split; [|done].
            destruct (decide (k = c)) as [->|]; [by destruct Hax|lia]. }
    destruct (IH st2 (S i) x (mk_node NULL NULL node NGX_RADIX_NO_VALUE) (c + 1))
      as (node' & st' & He & Hpo & Hos & Hpage'); try done.
    { change (mem st2) with m2. change (root (tree st2)) with (root (tree st)).
      apply Hchar. right. by rewrite key_path_S. }
    { change (mem st2) with m2. unfold m2, m1.
      rewrite lookup_insert_ne by done. apply lookup_insert_eq. }
    { intros _. by destruct (key_bit key (S i)). }
    { lia. }
    { lia. }
    { lia. }
    { lia. }
    exists node', st'. split; [exact He|].
    split; [done|]. split; [done|].
    replace (c + Z.of_nat (prefix_len mask - i))
      with (c + 1 + Z.of_nat (prefix_len mask - S i)) by lia.
    exact Hpage'.
Qed.
Lemma in_page_store st p c a n' :
  in_page st p c -> is_Some (mem st !! a) ->
  in_page (set_mem st (<[a := n']> (mem st))) p c.
Proof.
  intros (Hf & Hs & Hz & Hd) Ha. split; [done|]. split; [done|]. split; [done|].
  intros b. cbn [mem set_mem]. destruct (decide (b = a)) as [->|Hne].
  - rewrite lookup_insert_eq. split; [intros _; by apply Hd|by eauto].
  - by rewrite lookup_insert_ne.
Qed.

(** The insertion of a prefix whose parent is in the tree and which is
    not: one node, taken from the page. *)
Lemma insert_leaf_page fuel st key mask v p c l :
  tree_inv st -> (33 <= fuel)%nat -> in_page st p c -> 0 <= c < 128 ->
  prefix_len mask = S l ->
  is_Some (node_at (mem st) (root (tree st)) (key_path key l)) ->
  node_at (mem st) (root (tree st)) (key_path key (S l)) = None ->
  exists st',
    ngx_radix32tree_insert fuel st key mask v = Done (NGX_OK, st') /\
    pool st' = pool st /\ os st' = os st /\ in_page st' p (c + 1) /\
    root (tree st') = root (tree st).
Proof.
  intros Hinv Hfuel Hpage Hc Hpl Hpar Hnone. pose proof (prefix_len_le mask) as Hle.
  destruct (insert_spec fuel st key mask v Hinv Hfuel)
    as (rc0 & st0 & Hins0 & _ & Hroot0' & _).
  destruct fuel as [|fuel]; [lia|].
  destruct (inv_root st Hinv) as (nr & Hlr & Hpr).
  assert (Hroot0 : node_at (mem st) (root (tree st)) (key_path key 0) = Some (root (tree st))).
  { unfold key_path, key_seg. simpl seq. simpl map. by rewrite node_at_nil, Hlr. }
  assert (Hrn : root (tree st) <> NULL) by (by apply load_done in Hlr as [? _]).
  destruct (insert_descend_stops st key mask (S fuel) 0 (root (tree st))
              (root (tree st)) Hinv Hroot0)
    as (j & node & next & Hd & Hj & Hnode & Hcase); [lia|lia|done|].
  change (bit_of 0) with 2147483648 in Hd.
  rewrite (insert_after_descend _ _ _ _ _ _ _ _ Hd).
  destruct (node_at_some_load _ _ _ _ Hnode) as [nn Hln].
  pose proof Hln as Hln'. apply load_done in Hln' as [Hnode0 Hnn].
  destruct Hcase as [[Hnx ->]|(-> & Hjl & n' & Hn' & Hchild)].
  { rewrite Hpl in Hnode. by rewrite Hnode in Hnone. }
  cbn [Z.eqb negb NULL].
  rewrite Hnn in Hn'. injection Hn' as <-.
  assert (Hjl' : j = l).
  { destruct (decide (j = l)) as [|Hne]; [done|]. exfalso.
    destruct Hpar as [a Ha].
    destruct (node_at_prefix _ _ key l (S j) a Ha ltac:(lia)) as [c' Hc'].
    rewrite key_path_S in Hc'.
    apply node_at_snoc_inv in Hc' as (a0 & n0 & Ha0 & Hn0 & Hc0 & Hcn & _).
    rewrite Hnode in Ha0. injection Ha0 as <-.
    rewrite Hnn in Hn0. injection Hn0 as <-. congruence. }
  subst j.
  assert (Hroom : c + Z.of_nat (prefix_len mask - l) <= 128) by lia.
  assert (Hc0 : 0 <= c) by lia.
  destruct (insert_extend_page fuel st key mask (S fuel) l node nn p c Hinv Hnode Hnn)
    as (node' & st1 & He & Hpo & Hos & Hpage1); [done|lia|lia|done|done|done|].
  destruct (insert_extend_spec fuel st key mask (S fuel) l node nn Hinv Hnode Hnn)
    as (res & st1' & He' & _ & _ & _ & _ & _ & Hsome); [done|lia|lia|].
  rewrite He in He'. injection He' as <- <-.
  destruct (Hsome node' eq_refl) as [Hnode' _].
  destruct (node_at_some_load _ _ _ _ Hnode') as [nn' Hln'].
  rewrite He. cbn. unfold store_value. rewrite Hln'. cbn.
  rewrite (insert_after_descend _ _ _ _ _ _ _ _ Hd) in Hins0.
  cbn [Z.eqb negb NULL] in Hins0. rewrite He in Hins0. cbn in Hins0.
  unfold store_value in Hins0. rewrite Hln' in Hins0. cbn in Hins0.
  injection Hins0 as _ <-.
  eexists. split; [reflexivity|]. split; [done|]. split; [done|]. split; [|done].
  replace (c + 1) with (c + Z.of_nat (prefix_len mask - l)) by lia.
  apply in_page_store; [done|]. apply load_done in Hln' as [_ ->]. by eauto.
Qed.

Lemma scaled_key_path_inj m i j :
  (m <= 32)%nat -> 0 <= i < 2 ^ Z.of_nat m -> 0 <= j < 2 ^ Z.of_nat m ->
  key_path (i * 2 ^ (32 - Z.of_nat m)) m = key_path (j * 2 ^ (32 - Z.of_nat m)) m ->
  i = j.
Proof.
  intros Hm Hi Hj H. rewrite key_path_eq_iff in H.
  apply Z.bits_inj'. intros n Hn.
  destruct (Z.lt_ge_cases n (Z.of_nat m)) as [Hlt|Hge].
  - specialize (H (Z.to_nat (Z.of_nat m - 1 - n)) ltac:(lia)).
    rewrite !key_bit_scaled in H by lia.
    by replace (Z.of_nat m - 1 - Z.of_nat (Z.to_nat (Z.of_nat m - 1 - n))) with n in H by lia.
  - assert (Hhigh : forall x, 0 <= x < 2 ^ Z.of_nat m -> Z.testbit x n = false).
    { intros x Hx. destruct (Z.eq_dec x 0) as [->|Hz]; [apply Z.bits_0|].
      apply Z.bits_above_log2; [lia|].
      assert (Z.log2 x < Z.of_nat m); [|lia]. apply Z.log2_lt_pow2; lia. }
    by rewrite !Hhigh.
Qed.

(** One level of preallocation on a page with room for it. *)
Lemma prealloc_level_page fuel l p :
  (33 <= fuel)%nat -> (l < 32)%nat ->
  forall cnt j st c,
    partial_level st l (bit_of l) j ->
    0 <= j < 2 ^ (Z.of_nat l + 1) ->
    2 ^ (Z.of_nat l + 1) - j <= Z.of_nat cnt ->
    in_page st p c -> 0 <= c -> c + (2 ^ (Z.of_nat l + 1) - j) <= 128 ->
    exists st',
      prealloc_level fuel cnt st (j * bit_of l) (cidr_mask (S l)) (bit_of l)
        = Done (Some st') /\
      partial_level st' l (bit_of l) (2 ^ (Z.of_nat l + 1)) /\
      pool st' = pool st /\ os st' = os st /\
      in_page st' p (c + (2 ^ (Z.of_nat l + 1) - j)) /\
      root (tree st') = root (tree st).
Proof.
  intros Hfuel Hl. destruct (bit_of_scale l Hl) as (_ & Hinc & Hfull).
  set (inc := bit_of l) in *. set (P := 2 ^ (Z.of_nat l + 1)) in *.
  induction cnt as [|cnt IH];
    intros j st c (Hinv & Hlim & Hrep & Hpaths) Hj Hcnt Hpage Hc0 Hroom; [lia|].
  rewrite prealloc_level_eq.
  assert (Hpl : prefix_len (cidr_mask (S l)) = S l)
    by (apply prefix_len_cidr_mask; lia).
  assert (Hpar : is_Some (node_at (mem st) (root (tree st)) (key_path (j * inc) l))).
  { apply Hpaths. left. by rewrite key_path_length. }
  assert (Hnone : node_at (mem st) (root (tree st)) (key_path (j * inc) (S l)) = None).
  { destruct (node_at _ _ (key_path (j * inc) (S l))) as [a|] eqn:E; [|done]. exfalso.
    assert (Hs : is_Some (node_at (mem st) (root (tree st)) (key_path (j * inc) (S l))))
      by (by rewrite E).
    apply Hpaths in Hs as [Hlen|(i & Hi & Hpath)].
    - rewrite key_path_length in Hlen. lia.
    - assert (i = j); [|lia].
      destruct (bit_of_scale l Hl) as (Hb & _). fold inc in Hb. rewrite Hb in Hpath.
      symmetry. apply (scaled_key_path_inj (S l)); [lia| | |done].
      + replace (Z.of_nat (S l)) with (Z.of_nat l + 1) by lia. fold P. lia.
      + replace (Z.of_nat (S l)) with (Z.of_nat l + 1) by lia. fold P. lia. }
  destruct (insert_leaf_page fuel st (j * inc) (cidr_mask (S l)) NGX_RADIX_NO_VALUE
              p c l Hinv Hfuel Hpage ltac:(lia) Hpl Hpar Hnone)
    as (st1 & Hins & Hpo1 & Hos1 & Hpage1 & Hrt1).
  destruct (insert_spec fuel st (j * inc) (cidr_mask (S l)) NGX_RADIX_NO_VALUE
              Hinv Hfuel) as (rc & st1' & Hins' & Hinv1 & Hroot1 & Hlim1 & Hrc).
  rewrite Hins in Hins'. injection Hins' as <- <-.
  rewrite Hins. cbn [res_bind mbind res_mbind].
  unfold prefix_path in Hrc. rewrite Hpl in Hrc.
  destruct Hrc as (_ & Hval & Hnodes).
  rewrite bool_decide_eq_true_2 by done. cbn [negb]. cbv zeta.
  assert (Hnext : partial_level st1 l inc (j + 1)).
  { split; [done|]. split; [congruence|]. split.
    - intros path. rewrite Hroot1, Hval, value_of_nil.
      destruct (decide _); [done|]. by rewrite Hrep.
    - intros path. rewrite Hroot1, Hnodes, Hpaths. split.
      + intros [[Hlen|(i & Hi & ->)]|(t & Ht & ->)].
        * by left.
        * right. exists i. split; [lia|done].
        * destruct (decide (t = S l)) as [->|Hne].
          -- right. exists j. split; [lia|done].
          -- left. rewrite key_path_length. lia.
      + intros [Hlen|(i & Hi & ->)]; [by left; left|].
        destruct (decide (i = j)) as [->|Hne].
        * right. exists (S l). split; [lia|done].
        * left. right. exists i. split; [lia|done]. }
  replace (j * inc + inc) with ((j + 1) * inc) by lia.
  destruct (decide (j + 1 = P)) as [E|E].
  - rewrite E, Hfull, Z_mod_same_full. cbn [Z.eqb].
    exists st1. split; [done|]. rewrite <- E at 1. split; [done|].
    split; [done|]. split; [done|]. split; [|done].
    by replace (c + (P - j)) with (c + 1) by lia.
  - rewrite Z.mod_small by nia.
    destruct (Z.eqb_spec ((j + 1) * inc) 0) as [E0|_]; [nia|].
    destruct (IH (j + 1) st1 (c + 1) Hnext) as (st' & Hr & Hp' & Hpo & Hos & Hpg & Hrt);
      [lia|lia|done|lia|lia|].
    exists st'. split; [done|]. split; [done|].
    split; [congruence|]. split; [congruence|]. split; [|congruence].
    by replace (c + (P - j)) with (c + 1 + (P - (j + 1))) by lia.
Qed.
(** The levels from [l] on, [pre] of them, on a page that holds the
    complete tree of depth [l] and has room for the rest. *)
Lemma prealloc_levels_page fuel p :
  (64 <= fuel)%nat ->
  forall cnt l pre st,
    tree_inv st -> limit (os st) = None -> complete st l ->
    0 <= pre <= Z.of_nat cnt -> Z.of_nat l + pre <= 6 ->
    in_page st p (2 ^ (Z.of_nat l + 1) - 1) ->
    exists st',
      prealloc_levels fuel cnt st pre (cidr_mask l) (bit_of l) = Done (Some st') /\
      tree_inv st' /\ complete st' (l + Z.to_nat pre) /\
      pool st' = pool st /\ os st' = os st /\
      in_page st' p (2 ^ (Z.of_nat l + pre + 1) - 1) /\
      root (tree st') = root (tree st).
Proof.
  intros Hfuel.
  induction cnt as [|cnt IH]; intros l pre st Hinv Hlim Hc Hpre Hsix Hpage.
  - assert (pre = 0) as -> by lia. exists st.
    split; [done|]. rewrite Nat.add_0_r, Z.add_0_r. done.
  - rewrite prealloc_levels_eq. destruct (Z.eqb_spec pre 0) as [->|Hne].
    { exists st. split; [done|]. rewrite Nat.add_0_r, Z.add_0_r. done. }
    assert (Hl : (l < 32)%nat) by lia.
    replace (cidr_mask l) with (cidr_mask (Nat.min l 32)) by (f_equal; lia).
    rewrite cidr_mask_next by lia. rewrite bit_of_S.
    replace (Nat.min (S (Nat.min l 32)) 32) with (S l) by lia.
    assert (Hpow : 0 < 2 ^ (Z.of_nat l + 1) <= 64).
    { split; [apply Z.pow_pos_nonneg; lia|].
      change 64 with (2 ^ 6). apply Z.pow_le_mono_r; lia. }
    assert (Hpow2 : 2 ^ (Z.of_nat l + 1 + 1) = 2 * 2 ^ (Z.of_nat l + 1)).
    { rewrite (Z.pow_add_r _ _ 1) by lia. lia. }
    destruct (prealloc_level_page fuel l p ltac:(lia) Hl fuel 0 st
                (2 ^ (Z.of_nat l + 1) - 1))
      as (st1 & Hl1 & Hp1 & Hpo1 & Hos1 & Hpg1 & Hrt1);
      [by apply complete_partial|lia|lia|done|lia|lia|].
    rewrite Z.mul_0_l in Hl1. rewrite Hl1. cbn [res_bind mbind res_mbind].
    destruct (partial_complete st1 l Hl Hp1) as (Hinv1 & Hlim1 & Hc1).
    destruct (IH (S l) (pre - 1) st1 Hinv1 Hlim1 Hc1) as (st' & Hr & Hinv' & Hc' & Hpo & Hos & Hpg & Hrt).
    + lia.
    + lia.
    + replace (Z.of_nat (S l) + 1) with (Z.of_nat l + 1 + 1) by lia.
      rewrite Hpow2.
      by replace (2 * 2 ^ (Z.of_nat l + 1) - 1)
        with (2 ^ (Z.of_nat l + 1) - 1 + (2 ^ (Z.of_nat l + 1) - 0)) by lia.
    + exists st'. split; [done|]. split; [done|].
      split; [by replace (l + Z.to_nat pre)%nat with (S l + Z.to_nat (pre - 1))%nat by lia|].
      split; [congruence|]. split; [congruence|]. split; [|congruence].
      by replace (Z.of_nat l + pre + 1) with (Z.of_nat (S l) + (pre - 1) + 1) by lia.
Qed.

Lemma pmemalign_aligned fuel pl size k w p pl' w' :
  0 <= k -> ngx_pmemalign fuel pl size (2 ^ k) w = Done (p, pl', w') ->
  p mod 2 ^ k = 0.
Proof.
  intros Hk H. rewrite ngx_pmemalign_eq in H.
  destruct (ngx_memalign (2 ^ k) size w) as [a w0] eqn:Ea.
  apply memalign_aligned in Ea; [|done].
  destruct (a =? NULL); [by injection H as <- _ _|].
  unfold push_large in H. apply res_bind_done in H as ([[lg p1] w1] & _ & H).
  destruct (lg =? NULL); injection H as <- _ _; [|done].
  apply Z.mod_0_l. apply Z.pow_nonzero; lia.
Qed.

Lemma create_start_page fuel pl d w :
  pool_sane pl w -> limit w = None ->
  exists st0,
    tree_inv st0 /\ complete st0 0 /\ limit (os st0) = None /\
    in_page st0 (root (tree st0)) 1 /\ root (tree st0) mod ngx_pagesize = 0 /\
    ngx_radix_tree_create (S (S (S fuel))) pl d w =
      if d =? 0 then Done (Some st0)
      else prealloc_levels (S (S (S fuel))) (S (S (S fuel))) st0
             (if d =? -1 then 6 else d) 0 0x80000000.
Proof.
  intros Hsane Hlim. unfold ngx_radix_tree_create.
  destruct (palloc_sane fuel pl sizeof_ngx_radix_tree_t w Hsane)
    as (t & pl1 & w1 & Hpa & Hsane1 & Hbrk1 & Hlim1 & Hnn1).
  { unfold sizeof_ngx_radix_tree_t. lia. }
  rewrite Hpa. cbn.
  destruct (Z.eqb_spec t NULL) as [Et|Et]; [by apply Hnn1 in Hlim|].
  unfold ngx_radix_alloc. cbn [tree free size negb Z.eqb NULL pool os].
  change (0 <? sizeof_ngx_radix_node_t) with true. cbn [negb].
  destruct (pmemalign_sane (S (S fuel)) pl1 w1 Hsane1)
    as (p & pl2 & w2 & Hpm & Hsane2 & Hbrk2 & Hlim2 & Hp & Hnn2).
  pose proof (pmemalign_aligned _ _ _ 12 _ _ _ _ ltac:(lia) Hpm) as Hal.
  rewrite Hpm. cbn.
  destruct (Z.eqb_spec p NULL) as [Ep|Ep].
  { rewrite <- Hlim1 in Hlim. by apply Hnn2 in Hlim. }
  cbn. destruct (p =? NULL) eqn:Ep'; [lia|].
  destruct (Hp Ep) as [Hp1 Hp2].
  destruct Hsane1 as (Hb1 & _).
  destruct (init_tree_inv p pl2 w2) as [Hinv Hcomp]; [lia|lia|done|].
  eexists. split; [exact Hinv|]. split; [exact Hcomp|].
  split; [cbn; congruence|]. split; [|split; [exact Hal|reflexivity]].
  split; [done|]. split; [cbn; lia|]. split; [cbn; lia|].
  intros a. cbn [mem root tree]. destruct (decide (a = p)) as [->|Hne].
  - rewrite lookup_insert_eq. split; [intros _|by eauto]. exists 0. split; lia.
  - rewrite lookup_insert_ne by done. rewrite lookup_empty. split.
    + by intros [? ?].
    + intros (i & Hi & ->). assert (i = 0) as -> by lia. by destruct Hne; lia.
Qed.



(** ** No call on a tree goes wrong *)

Lemma run_never_faults fuel ops : forall st,
  (33 <= fuel)%nat -> tree_inv st -> guarded fuel st ops ->
  exists rcs st',
    run fuel st ops = Done (rcs, st') /\ tree_inv st' /\
    length rcs = length ops /\
    Forall (fun rc => rc = NGX_OK \/ rc = NGX_BUSY \/ rc = NGX_ERROR) rcs.
Proof.
  induction ops as [|o ops IH]; intros st Hfuel Hinv Hg.
  - exists [], st. split; [done|]. split; [done|]. split; [done|]. apply Forall_nil_2.
  - cbn [guarded] in Hg. destruct Hg as [Hg1 Hg2].
    assert (Hstep : exists rc st1,
              step fuel st o = Done (rc, st1) /\ tree_inv st1 /\
              (rc = NGX_OK \/ rc = NGX_BUSY \/ rc = NGX_ERROR)).
    { destruct o as [key mask value|key mask]; cbn [step].
      - destruct (insert_spec fuel st key mask value Hinv Hfuel)
          as (rc & st1 & Hi & Hinv1 & _ & _ & Hrc).
        exists rc, st1. split; [done|]. split; [done|].
        destruct rc; [by left|by right; right|by right; left|done].
      - destruct (delete_spec fuel st key mask Hinv Hfuel Hg1)
          as (rc & st1 & Hd & Hinv1 & _ & _ & Hrc & _).
        exists rc, st1. split; [done|]. split; [done|].
        destruct Hrc as [->|[-> _]]; [by left|by right; right]. }
    destruct Hstep as (rc & st1 & Hs & Hinv1 & Hrc).
    rewrite Hs in Hg2.
    destruct (IH st1 Hfuel Hinv1 Hg2) as (rcs & st' & Hr & Hinv' & Hlen & Hall).
    exists (rc :: rcs), st'. cbn [run]. rewrite Hs. cbn [mbind res_mbind res_bind].
    rewrite Hr. cbn [mbind res_mbind res_bind].
    split; [done|]. split; [done|]. split; [simpl; lia|]. by apply Forall_cons.
Qed.



End RadixMore.

(** * Properties of the 128-bit functions *)

Section Radix128Facts.

Import Pool PoolSpec Radix RadixSpec Radix128 Radix128Spec.

(** ** Bytes and words *)

Lemma byte_high x n : 0 <= x < 256 -> 8 <= n -> Z.testbit x n = false.
Proof.
  intros Hx Hn. destruct (Z.eq_dec x 0) as [->|Hz]; [apply Z.bits_0|].
  apply Z.bits_above_log2; [lia|].
  assert (Z.log2 x < 8); [|lia]. apply Z.log2_lt_pow2; lia.
Qed.

Lemma word32_testbit b i t :
  bytes16 b -> (i < 4)%nat -> 0 <= t < 8 ->
  Z.testbit (word32 b) (t + 8 * (3 - Z.of_nat i)) = Z.testbit (nth i (b_bytes b) 0) t.
Proof.
  intros [Hlen Hall] Hi Ht. unfold word32.
  destruct (b_bytes b) as [|b0 [|b1 [|b2 [|b3 r]]]]; try (simpl in Hlen; lia).
  apply Forall_cons in Hall as [H0 Hall]. apply Forall_cons in Hall as [H1 Hall].
  apply Forall_cons in Hall as [H2 Hall]. apply Forall_cons in Hall as [H3 _].
  cbn [nth].
  rewrite !Z.lor_spec.
  assert (Hpos : 0 <= t + 8 * (3 - Z.of_nat i)) by lia.
  rewrite (Z.shiftl_spec b0), (Z.shiftl_spec b1), (Z.shiftl_spec b2) by exact Hpos.
  destruct i as [|[|[|[|i]]]]. 5:{ exfalso. clear -Hi. lia. } all: cbn [nth].
  - replace (t + 8 * (3 - Z.of_nat 0) - 24) with t by lia.
    rewrite (byte_high b1), (byte_high b2), (byte_high b3) by lia.
    by rewrite !orb_false_r.
  - replace (t + 8 * (3 - Z.of_nat 1) - 16) with t by lia.
    rewrite (Z.testbit_neg_r b0) by lia.
    rewrite (byte_high b2), (byte_high b3) by lia.
    by rewrite !orb_false_r.
  - replace (t + 8 * (3 - Z.of_nat 2) - 8) with t by lia.
    rewrite (Z.testbit_neg_r b0), (Z.testbit_neg_r b1) by lia.
    rewrite (byte_high b3) by lia.
    by rewrite !orb_false_r.
  - replace (t + 8 * (3 - Z.of_nat 3)) with t by lia.
    rewrite (Z.testbit_neg_r b0), (Z.testbit_neg_r b1), (Z.testbit_neg_r b2) by lia.
    done.
Qed.

Lemma bit8_pow2 j : (j < 8)%nat -> Z.shiftr 0x80 (Z.of_nat j) = 2 ^ (7 - Z.of_nat j).
Proof. intros Hj. do 8 (destruct j as [|j]; [reflexivity|]). lia. Qed.

Lemma bit8_scaled i j :
  (i < 4)%nat -> (j < 8)%nat ->
  Z.shiftl (Z.shiftr 0x80 (Z.of_nat j)) (24 - 8 * Z.of_nat i)
  = 2 ^ (7 - Z.of_nat j + 8 * (3 - Z.of_nat i)).
Proof.
  intros Hi Hj. rewrite bit8_pow2 by done. rewrite Z.shiftl_mul_pow2 by lia.
  rewrite <- Z.pow_add_r by lia. f_equal. lia.
Qed.

(** The test of a byte against [bit] is the test of the word against the
    bit at the same place. *)
Lemma byte_test_word b i j :
  bytes16 b -> (i < 4)%nat -> (j < 8)%nat ->
  (Z.land (nth i (b_bytes b) 0) (Z.shiftr 0x80 (Z.of_nat j)) =? 0)
  = (Z.land (word32 b)
       (Z.shiftl (Z.shiftr 0x80 (Z.of_nat j)) (24 - 8 * Z.of_nat i)) =? 0).
Proof.
  intros Hb Hi Hj. rewrite bit8_scaled, bit8_pow2 by done.
  rewrite !land_pow2_eqb by lia. f_equal. symmetry.
  apply word32_testbit; [done|done|lia].
Qed.

Lemma byte_at_in b i :
  bytes16 b -> (i < 16)%nat -> byte_at b i = Done (nth i (b_bytes b) 0).
Proof.
  intros [Hlen _] Hi. unfold byte_at.
  destruct (b_bytes b !! i) as [x|] eqn:E.
  - by rewrite (nth_lookup_Some _ _ 0 _ E).
  - apply lookup_ge_None in E. lia.
Qed.

Lemma short_mask_fifth mask : short_mask mask -> nth 4 (b_bytes mask) 0 = 0.
Proof.
  intros [[Hlen _] Hz].
  destruct (b_bytes mask) as [|b0 [|b1 [|b2 [|b3 [|b4 r]]]]]; try (simpl in Hlen; lia).
  cbn in Hz. by apply Forall_cons in Hz as [-> _].
Qed.
(** ** The 128-bit loops on prefixes of at most 32 bits *)

Lemma pos_next i j :
  (i < 4)%nat -> (j < 8)%nat ->
  exists i' j',
    next_bit i (Z.shiftr (Z.shiftr 0x80 (Z.of_nat j)) 1)
      = Some (i', Z.shiftr 0x80 (Z.of_nat j')) /\
    pos_ok i' j' /\
    Z.shiftr (Z.shiftl (Z.shiftr 0x80 (Z.of_nat j)) (24 - 8 * Z.of_nat i)) 1
      = Z.shiftl (Z.shiftr 0x80 (Z.of_nat j')) (24 - 8 * Z.of_nat i').
Proof.
  intros Hi Hj. unfold pos_ok.
  destruct (decide (j = 7%nat)) as [->|Hj7].
  - exists (S i), 0%nat.
    do 4 (destruct i as [|i]; [split; [reflexivity|split; [lia|reflexivity]]|]). lia.
  - exists i, (S j).
    do 4 (destruct i as [|i];
          [do 7 (destruct j as [|j]; [split; [reflexivity|split; [lia|reflexivity]]|]);
           lia|]).
    lia.
Qed.

Lemma mask_test_word mask i j :
  short_mask mask -> pos_ok i j ->
  byte_at mask i = Done (nth i (b_bytes mask) 0) /\
  (Z.land (Z.shiftr 0x80 (Z.of_nat j)) (nth i (b_bytes mask) 0) =? 0)
  = (Z.land (Z.shiftl (Z.shiftr 0x80 (Z.of_nat j)) (24 - 8 * Z.of_nat i))
       (word32 mask) =? 0) /\
  ((Z.land (Z.shiftr 0x80 (Z.of_nat j)) (nth i (b_bytes mask) 0) =? 0) = false ->
   (i < 4)%nat).
Proof.
  intros Hm [Hj Hi]. pose proof Hm as [Hb _].
  split; [apply byte_at_in; [done|lia]|].
  destruct Hi as [Hi|[-> ->]].
  - split; [|done]. rewrite (Z.land_comm _ (nth i _ 0)), (Z.land_comm _ (word32 mask)).
    by apply byte_test_word.
  - rewrite (short_mask_fifth mask Hm). split; [reflexivity|]. intros H. discriminate.
Qed.

Lemma key_child_word key i j n :
  bytes16 key -> (i < 4)%nat -> (j < 8)%nat ->
  child (nth i (b_bytes key) 0) (Z.shiftr 0x80 (Z.of_nat j)) n
  = child (word32 key)
      (Z.shiftl (Z.shiftr 0x80 (Z.of_nat j)) (24 - 8 * Z.of_nat i)) n.
Proof. intros Hk Hi Hj. unfold child. by rewrite byte_test_word. Qed.

Lemma insert128_descend_word fuel m key mask : forall i j node next,
  bytes16 key -> short_mask mask -> pos_ok i j ->
  insert_descend fuel m (word32 key) (word32 mask)
    (Z.shiftl (Z.shiftr 0x80 (Z.of_nat j)) (24 - 8 * Z.of_nat i)) node next
  = '(i', b, n, x) ←
      insert128_descend fuel m key mask i (Z.shiftr 0x80 (Z.of_nat j)) node next;
    Done (Z.shiftl b (24 - 8 * Z.of_nat i'), n, x).
Proof.
  induction fuel as [|fuel IH]; intros i j node next Hk Hm Hp;
    destruct (mask_test_word mask i j Hm Hp) as (Hread & Htest & Hlt);
    rewrite insert_descend_eq; cbn [insert128_descend];
    rewrite Hread; cbn [mbind res_mbind res_bind]; rewrite <- Htest;
    destruct (Z.land _ (nth i (b_bytes mask) 0) =? 0) eqn:E; cbn [mbind res_mbind res_bind]; try done.
  specialize (Hlt eq_refl). destruct Hp as [Hj _].
  rewrite (byte_at_in key i Hk) by lia. cbn [mbind res_mbind res_bind].
  destruct (load m node) as [n| |]; cbn [mbind res_mbind res_bind]; [|done|done].
  rewrite <- key_child_word by done.
  destruct (child _ _ n =? NULL); [done|].
  destruct (pos_next i j Hlt Hj) as (i' & j' & -> & Hp' & ->).
  by apply IH.
Qed.

Lemma insert128_descend_pos fuel m key mask : forall i j node next i' b n x,
  bytes16 key -> short_mask mask -> pos_ok i j ->
  insert128_descend fuel m key mask i (Z.shiftr 0x80 (Z.of_nat j)) node next
    = Done (i', b, n, x) ->
  exists j', b = Z.shiftr 0x80 (Z.of_nat j') /\ pos_ok i' j'.
Proof.
  induction fuel as [|fuel IH]; intros i j node next i' b n x Hk Hm Hp;
    destruct (mask_test_word mask i j Hm Hp) as (Hread & Htest & Hlt);
    cbn [insert128_descend]; rewrite Hread; cbn [mbind res_mbind res_bind];
    destruct (Z.land _ (nth i (b_bytes mask) 0) =? 0) eqn:E;
    try (intros [= <- <- <- <-]; by exists j); try done.
  specialize (Hlt eq_refl). pose proof Hp as [Hj _].
  rewrite (byte_at_in key i Hk) by lia. cbn [mbind res_mbind res_bind].
  destruct (load m node) as [n0| |]; cbn [mbind res_mbind res_bind]; [|done|done].
  destruct (child _ _ n0 =? NULL); [intros [= <- <- <- <-]; by exists j|].
  destruct (pos_next i j Hlt Hj) as (i1 & j1 & -> & Hp' & _).
  by apply IH.
Qed.

Lemma insert128_extend_word fuel n key mask : forall st i j node,
  bytes16 key -> short_mask mask -> pos_ok i j ->
  insert128_extend fuel n st key mask i (Z.shiftr 0x80 (Z.of_nat j)) node
  = insert_extend fuel n st (word32 key) (word32 mask)
      (Z.shiftl (Z.shiftr 0x80 (Z.of_nat j)) (24 - 8 * Z.of_nat i)) node.
Proof.
  induction n as [|n IH]; intros st i j node Hk Hm Hp;
    destruct (mask_test_word mask i j Hm Hp) as (Hread & Htest & Hlt);
    rewrite insert_extend_eq; cbn [insert128_extend];
    rewrite Hread; cbn [mbind res_mbind res_bind]; rewrite <- Htest;
    destruct (Z.land _ (nth i (b_bytes mask) 0) =? 0) eqn:E; cbn [mbind res_mbind res_bind]; try done.
  specialize (Hlt eq_refl). destruct Hp as [Hj _].
  destruct (ngx_radix_alloc fuel st) as [[next st1]| |]; cbn [mbind res_mbind res_bind]; [|done|done].
  destruct (next =? NULL); [done|].
  rewrite (byte_at_in key i Hk) by lia. cbn [mbind res_mbind res_bind].
  rewrite <- byte_test_word by done.
  destruct (if negb _ then store_right _ node next else store_left _ node next)
    as [m1| |]; cbn [mbind res_mbind res_bind]; [|done|done].
  destruct (pos_next i j Hlt Hj) as (i' & j' & -> & Hp' & ->).
  by apply IH.
Qed.

Lemma delete128_descend_word fuel m key mask : forall i j node,
  bytes16 key -> short_mask mask -> pos_ok i j ->
  delete128_descend fuel m key mask i (Z.shiftr 0x80 (Z.of_nat j)) node
  = delete_descend fuel m (word32 key) (word32 mask)
      (Z.shiftl (Z.shiftr 0x80 (Z.of_nat j)) (24 - 8 * Z.of_nat i)) node.
Proof.
  induction fuel as [|fuel IH]; intros i j node Hk Hm Hp;
    destruct (mask_test_word mask i j Hm Hp) as (Hread & Htest & Hlt);
    rewrite delete_descend_eq; cbn [delete128_descend];
    (destruct (node =? NULL); [done|]); cbn [orb];
    rewrite Hread; cbn [mbind res_mbind res_bind]; rewrite <- Htest;
    destruct (Z.land _ (nth i (b_bytes mask) 0) =? 0) eqn:E; cbn [mbind res_mbind res_bind]; try done.
  specialize (Hlt eq_refl). destruct Hp as [Hj _].
  rewrite (byte_at_in key i Hk) by lia. cbn [mbind res_mbind res_bind].
  destruct (load m node) as [n| |]; cbn [mbind res_mbind res_bind]; [|done|done].
  rewrite <- key_child_word by done.
  destruct (pos_next i j Hlt Hj) as (i' & j' & -> & Hp' & ->).
  by apply IH.
Qed.
(** X20.  For a prefix of at most 32 bits (a mask with nothing set from its
    fifth byte on) ngx_radix128tree_insert and ngx_radix128tree_delete do
    exactly what ngx_radix32tree_insert and ngx_radix32tree_delete do with
    the words that the first four bytes of key and mask spell, most
    significant byte first: the same return code and the same tree, node
    for node, on every tree. *)
Theorem radix128_short_prefix_as_radix32 fuel st key mask value :
  bytes16 key -> short_mask mask ->
  ngx_radix128tree_insert fuel st key mask value
    = ngx_radix32tree_insert fuel st (word32 key) (word32 mask) value /\
  ngx_radix128tree_delete fuel st key mask
    = ngx_radix32tree_delete fuel st (word32 key) (word32 mask).
Proof.
  intros Hk Hm. assert (Hp : pos_ok 0 0) by (split; [lia|left; lia]). split.
  - unfold ngx_radix128tree_insert, ngx_radix32tree_insert.
    pose proof (insert128_descend_word fuel (mem st) key mask 0 0
                  (root (tree st)) (root (tree st)) Hk Hm Hp) as Hd.
    change (Z.shiftl (Z.shiftr 0x80 (Z.of_nat 0)) (24 - 8 * Z.of_nat 0))
      with 0x80000000 in Hd.
    change (Z.shiftr 0x80 (Z.of_nat 0)) with 0x80 in Hd. rewrite Hd.
    destruct (insert128_descend fuel (mem st) key mask 0 0x80 _ _)
      as [[[[i b] node] next]| |] eqn:E; cbn [mbind res_mbind res_bind]; [|done|done].
    destruct (negb (next =? NULL)); [done|].
    destruct (insert128_descend_pos fuel (mem st) key mask 0 0 _ _ _ _ _ _ Hk Hm Hp E)
      as (j & -> & Hp').
    by rewrite (insert128_extend_word fuel fuel key mask st i j node).
  - unfold ngx_radix128tree_delete, ngx_radix32tree_delete.
    pose proof (delete128_descend_word fuel (mem st) key mask 0 0
                  (root (tree st)) Hk Hm Hp) as Hd.
    change (Z.shiftl (Z.shiftr 0x80 (Z.of_nat 0)) (24 - 8 * Z.of_nat 0))
      with 0x80000000 in Hd.
    change (Z.shiftr 0x80 (Z.of_nat 0)) with 0x80 in Hd. by rewrite Hd.
Qed.

Lemma radix128_short_prefix_as_radix32_witness :
  exists st key mask st1 st2,
    empty_tree = Done (Some st) /\ bytes16 key /\ short_mask mask /\
    word32 key = 0xC0A80000 /\ word32 mask = 0xFFFF0000 /\
    ngx_radix32tree_insert 40 st 0xC0A80000 0xFFFF0000 7 = Done (NGX_OK, st1) /\
    ngx_radix128tree_insert 40 st key mask 7 = Done (NGX_OK, st1) /\
    ngx_radix128tree_delete 40 st1 key mask = Done (NGX_OK, st2) /\
    ngx_radix32tree_delete 40 st1 0xC0A80000 0xFFFF0000 = Done (NGX_OK, st2).
Proof.
  pose (key := mk_bytes 600 [192; 168; 0; 0; 0; 0; 0; 0; 0; 0; 0; 0; 0; 0; 0; 0]).
  pose (mask := mk_bytes 700 [255; 255; 0; 0; 0; 0; 0; 0; 0; 0; 0; 0; 0; 0; 0; 0]).
  assert (Hk : bytes16 key).
  { split; [reflexivity|]. repeat apply Forall_cons_2; try apply Forall_nil_2; lia. }
  assert (Hm : short_mask mask).
  { split; [split; [reflexivity|]|];
      repeat apply Forall_cons_2; try apply Forall_nil_2; lia. }
  assert (Hwk : word32 key = 0xC0A80000) by reflexivity.
  assert (Hwm : word32 mask = 0xFFFF0000) by reflexivity.
  let r := eval vm_compute in empty_tree in
  match r with
  | Done (Some ?st) =>
      let r1 := eval vm_compute in (ngx_radix32tree_insert 40 st 0xC0A80000 0xFFFF0000 7) in
      match r1 with
      | Done (_, ?st1) =>
          let r2 := eval vm_compute in (ngx_radix32tree_delete 40 st1 0xC0A80000 0xFFFF0000) in
          match r2 with
          | Done (_, ?st2) =>
              exists st, key, mask, st1, st2;
              assert (Hi32 : ngx_radix32tree_insert 40 st 0xC0A80000 0xFFFF0000 7
                             = Done (NGX_OK, st1)) by (by vm_compute);
              assert (Hd32 : ngx_radix32tree_delete 40 st1 0xC0A80000 0xFFFF0000
                             = Done (NGX_OK, st2)) by (by vm_compute);
              destruct (radix128_short_prefix_as_radix32 40 st key mask 7 Hk Hm) as [Hi _];
              destruct (radix128_short_prefix_as_radix32 40 st1 key mask 7 Hk Hm) as [_ Hd]
          end
      end
  end.
  rewrite Hwk, Hwm in Hi, Hd.
  split; [by vm_compute|]. split; [exact Hk|]. split; [exact Hm|].
  split; [exact Hwk|]. split; [exact Hwm|].
  split; [exact Hi32|]. split; [rewrite Hi; exact Hi32|].
  split; [rewrite Hd; exact Hd32|exact Hd32].
Defined.
(** ** Lookups with 128-bit keys *)

Lemma find128_loop_eq fuel m key i bit value node :
  find128_loop fuel m key i bit value node =
  if node =? NULL then Done value
  else
    match fuel with
    | O => OutOfFuel
    | S fuel =>
        n ← load m node;
        let value :=
          if negb (n_value n =? NGX_RADIX_NO_VALUE) then n_value n else value in
        ki ← byte_at key i;
        let node := child ki bit n in
        let bit := Z.shiftr bit 1 in
        if bit =? 0 then find128_loop fuel m key (S i) 0x80 value node
        else find128_loop fuel m key i bit value node
    end.
Proof. by destruct fuel. Qed.

Lemma pos_next_find i j :
  (i < 4)%nat -> (j < 8)%nat ->
  exists i' j',
    (if Z.shiftr (Z.shiftr 0x80 (Z.of_nat j)) 1 =? 0
     then (S i, 0x80) else (i, Z.shiftr (Z.shiftr 0x80 (Z.of_nat j)) 1))
      = (i', Z.shiftr 0x80 (Z.of_nat j')) /\
    pos_ok i' j' /\ (8 * i' + j' = S (8 * i + j))%nat /\
    Z.shiftr (Z.shiftl (Z.shiftr 0x80 (Z.of_nat j)) (24 - 8 * Z.of_nat i)) 1
      = Z.shiftl (Z.shiftr 0x80 (Z.of_nat j')) (24 - 8 * Z.of_nat i').
Proof.
  intros Hi Hj. unfold pos_ok.
  destruct (decide (j = 7%nat)) as [->|Hj7].
  - exists (S i), 0%nat.
    do 4 (destruct i as [|i];
          [split; [reflexivity|split; [lia|split; [lia|reflexivity]]]|]). lia.
  - exists i, (S j).
    do 4 (destruct i as [|i];
          [do 7 (destruct j as [|j];
                 [split; [reflexivity|split; [lia|split; [lia|reflexivity]]]|]);
           lia|]).
    lia.
Qed.

Lemma find128_advance fuel m key i j v c i' j' :
  (if Z.shiftr (Z.shiftr 0x80 (Z.of_nat j)) 1 =? 0
   then (S i, 0x80) else (i, Z.shiftr (Z.shiftr 0x80 (Z.of_nat j)) 1))
    = (i', Z.shiftr 0x80 (Z.of_nat j')) ->
  (if Z.shiftr (Z.shiftr 0x80 (Z.of_nat j)) 1 =? 0
   then find128_loop fuel m key (S i) 0x80 v c
   else find128_loop fuel m key i (Z.shiftr (Z.shiftr 0x80 (Z.of_nat j)) 1) v c)
  = find128_loop fuel m key i' (Z.shiftr 0x80 (Z.of_nat j')) v c.
Proof.
  intros H. destruct (Z.shiftr (Z.shiftr 0x80 (Z.of_nat j)) 1 =? 0);
    injection H as <- <-; reflexivity.
Qed.

Lemma find128_loop_word st key :
  tree_inv st -> bytes16 key ->
  forall fuel i j value node path,
    pos_ok i j ->
    node = NULL \/
    (node_at (mem st) (root (tree st)) path = Some node /\
     length path = (8 * i + j)%nat) ->
    find128_loop fuel (mem st) key i (Z.shiftr 0x80 (Z.of_nat j)) value node
    = find_loop fuel (mem st) (word32 key)
        (Z.shiftl (Z.shiftr 0x80 (Z.of_nat j)) (24 - 8 * Z.of_nat i)) value node.
Proof.
  intros Hinv Hk. induction fuel as [|fuel IH]; intros i j value node path Hp Hnode;
    rewrite find128_loop_eq, find_loop_eq.
  - by destruct (node =? NULL).
  - destruct Hnode as [->|[Hat Hlen]]; [done|].
    destruct (node_at_some_mem _ _ _ _ Hat) as [Hnz [n Hn]].
    destruct (Z.eqb_spec node NULL) as [|_]; [done|].
    assert (Hload : load (mem st) node = Done n) by (by apply load_done).
    rewrite Hload. cbn [mbind res_mbind res_bind].
    destruct Hp as [Hj Hi].
    rewrite (byte_at_in key i Hk) by lia. cbn [mbind res_mbind res_bind].
    assert (Hstep : forall b, child_of b n <> NULL ->
              node_at (mem st) (root (tree st)) (path ++ [b]) = Some (child_of b n)).
    { intros b Hb. apply (node_at_snoc_some _ _ path b node n); [done|done|done|].
      by apply (inv_closed st Hinv path node n b). }
    destruct Hi as [Hi|[-> ->]].
    + rewrite <- key_child_word by done.
      set (c := child (nth i (b_bytes key) 0) (Z.shiftr 0x80 (Z.of_nat j)) n).
      destruct (pos_next_find i j Hi Hj) as (i' & j' & Hnext & Hp' & Hd & ->).
      assert (Hc : c = NULL \/
                (node_at (mem st) (root (tree st))
                   (path ++ [negb (Z.land (nth i (b_bytes key) 0)
                                      (Z.shiftr 0x80 (Z.of_nat j)) =? 0)]) = Some c /\
                 length (path ++ [negb (Z.land (nth i (b_bytes key) 0)
                                      (Z.shiftr 0x80 (Z.of_nat j)) =? 0)])
                 = (8 * i' + j')%nat)).
      { destruct (Z.eq_dec c NULL) as [Hz|Hz]; [by left|]. right.
        split; [|rewrite length_app; simpl; lia].
        subst c. unfold child in *.
        destruct (Z.land _ _ =? 0); cbn [negb];
          [apply (Hstep false)|apply (Hstep true)]; exact Hz. }
      rewrite (find128_advance fuel (mem st) key i j _ c i' j' Hnext).
      by apply (IH _ _ _ _ _ Hp' Hc).
    + assert (Hleaf : forall b, child_of b n = NULL).
      { intros b. destruct (Z.eq_dec (child_of b n) NULL) as [|Hb]; [done|].
        apply Hstep in Hb. apply (inv_depth st Hinv) in Hb.
        rewrite length_app in Hb. simpl in Hb. lia. }
      assert (Hc : forall k bit, child k bit n = NULL).
      { intros k bit. unfold child. destruct (Z.land k bit =? 0).
        - apply (Hleaf false).
        - apply (Hleaf true). }
      rewrite !Hc. change (Z.shiftr (Z.shiftr 0x80 (Z.of_nat 0)) 1 =? 0) with false.
      cbv iota. by rewrite find128_loop_eq, find_loop_eq.
Qed.


(** ** The key is read past its end *)

Lemma find128_step fuel m key i x bit value node p a :
  byte_at key i = Done x ->
  node_at m node (negb (Z.land x bit =? 0) :: p) = Some a ->
  exists n v,
    node_at m (child x bit n) p = Some a /\
    find128_loop (S fuel) m key i bit value node =
    (if Z.shiftr bit 1 =? 0 then find128_loop fuel m key (S i) 0x80 v (child x bit n)
     else find128_loop fuel m key i (Z.shiftr bit 1) v (child x bit n)).
Proof.
  intros Hx Hat. rewrite node_at_cons in Hat.
  destruct (load m node) as [n| |] eqn:Hl; [|done|done].
  apply load_done in Hl as Hnz. destruct Hnz as [Hnz _].
  exists n, (if negb (n_value n =? NGX_RADIX_NO_VALUE) then n_value n else value).
  split.
  - unfold child. by destruct (Z.land x bit =? 0).
  - rewrite find128_loop_eq. destruct (Z.eqb_spec node NULL); [done|].
    rewrite Hl. cbn [mbind res_mbind res_bind]. rewrite Hx. reflexivity.
Qed.

Lemma find128_loop_bytes m key : forall rest done fuel value node a,
  b_bytes key = done ++ rest ->
  node_at m node (flat_map byte_dirs rest) = Some a ->
  (8 * length rest < fuel)%nat ->
  find128_loop fuel m key (length done) 0x80 value node
  = Segv (b_addr key + Z.of_nat (length (b_bytes key))).
Proof.
  induction rest as [|x rest IH]; intros done fuel value node a Hkey Hat Hfuel.
  - cbn [flat_map] in Hat. rewrite node_at_nil in Hat.
    destruct (load m node) as [n| |] eqn:Hl; [|done|done].
    apply load_done in Hl as Hnz. destruct Hnz as [Hnz _].
    destruct fuel as [|fuel]; [simpl in Hfuel; lia|].
    rewrite find128_loop_eq. destruct (Z.eqb_spec node NULL); [done|].
    rewrite Hl. cbn [mbind res_mbind res_bind]. unfold byte_at.
    rewrite Hkey, app_nil_r. rewrite lookup_ge_None_2 by lia. reflexivity.
  - assert (Hx : byte_at key (length done) = Done x).
    { unfold byte_at. rewrite Hkey. by rewrite list_lookup_middle. }
    cbn [flat_map] in Hat. cbn [length] in Hfuel.
    do 8 (destruct fuel as [|fuel]; [lia|]).
    change (byte_dirs x) with
      [negb (Z.land x 128 =? 0); negb (Z.land x 64 =? 0); negb (Z.land x 32 =? 0);
       negb (Z.land x 16 =? 0); negb (Z.land x 8 =? 0); negb (Z.land x 4 =? 0);
       negb (Z.land x 2 =? 0); negb (Z.land x 1 =? 0)] in Hat.
    cbn [app] in Hat.
    destruct (find128_step (S (S (S (S (S (S (S fuel))))))) m key (length done) x 128 value node _ a Hx Hat)
      as (n1 & v1 & Hat1 & E1).
    rewrite E1. change (Z.shiftr 128 1 =? 0) with false. cbv iota.
    change (Z.shiftr 128 1) with 64.
    destruct (find128_step (S (S (S (S (S (S fuel)))))) m key (length done) x 64 v1 _ _ a Hx Hat1)
      as (n2 & v2 & Hat2 & E2).
    rewrite E2. change (Z.shiftr 64 1 =? 0) with false. cbv iota.
    change (Z.shiftr 64 1) with 32.
    destruct (find128_step (S (S (S (S (S fuel))))) m key (length done) x 32 v2 _ _ a Hx Hat2)
      as (n3 & v3 & Hat3 & E3).
    rewrite E3. change (Z.shiftr 32 1 =? 0) with false. cbv iota.
    change (Z.shiftr 32 1) with 16.
    destruct (find128_step (S (S (S (S fuel)))) m key (length done) x 16 v3 _ _ a Hx Hat3)
      as (n4 & v4 & Hat4 & E4).
    rewrite E4. change (Z.shiftr 16 1 =? 0) with false. cbv iota.
    change (Z.shiftr 16 1) with 8.
    destruct (find128_step (S (S (S fuel))) m key (length done) x 8 v4 _ _ a Hx Hat4)
      as (n5 & v5 & Hat5 & E5).
    rewrite E5. change (Z.shiftr 8 1 =? 0) with false. cbv iota.
    change (Z.shiftr 8 1) with 4.
    destruct (find128_step (S (S fuel)) m key (length done) x 4 v5 _ _ a Hx Hat5)
      as (n6 & v6 & Hat6 & E6).
    rewrite E6. change (Z.shiftr 4 1 =? 0) with false. cbv iota.
    change (Z.shiftr 4 1) with 2.
    destruct (find128_step (S fuel) m key (length done) x 2 v6 _ _ a Hx Hat6)
      as (n7 & v7 & Hat7 & E7).
    rewrite E7. change (Z.shiftr 2 1 =? 0) with false. cbv iota.
    change (Z.shiftr 2 1) with 1.
    destruct (find128_step fuel m key (length done) x 1 v7 _ _ a Hx Hat7)
      as (n8 & v8 & Hat8 & E8).
    rewrite E8. change (Z.shiftr 1 1 =? 0) with true. cbv iota.
    replace (S (length done)) with (length (done ++ [x])) by (rewrite length_app; simpl; lia).
    apply (IH (done ++ [x]) fuel v8 _ a); [by rewrite <- app_assoc|done|lia].
Qed.

(** X22.  ngx_radix128tree_find tests no byte index against 16, unlike insert
    and delete.  When the tree holds a node at depth 128 on the path of a
    16-byte key, as it does after that address was inserted with a full
    mask, the lookup reads [key[16]], one byte past the key, before it
    sees that the node has no child. *)
Theorem find128_reads_past_the_key fuel st key a :
  (128 < fuel)%nat -> length (b_bytes key) = 16%nat ->
  node_at (mem st) (root (tree st)) (key_dirs key) = Some a ->
  ngx_radix128tree_find fuel st key = Segv (b_addr key + 16).
Proof.
  intros Hfuel Hlen Hat. unfold ngx_radix128tree_find.
  rewrite (find128_loop_bytes (mem st) key (b_bytes key) [] fuel _ _ a); [|done|done|lia].
  by rewrite Hlen.
Qed.

Lemma find128_reads_past_the_key_witness :
  exists st st1 a,
    empty_tree = Done (Some st) /\
    ngx_radix128tree_insert 129 st loopback6 host_mask6 42 = Done (NGX_OK, st1) /\
    (128 < 129)%nat /\ length (b_bytes loopback6) = 16%nat /\
    node_at (mem st1) (root (tree st1)) (key_dirs loopback6) = Some a /\
    ngx_radix128tree_find 129 st1 loopback6 = Segv 616.
Proof.
  let r := eval vm_compute in empty_tree in
  match r with
  | Done (Some ?st) =>
      let r1 := eval vm_compute in (ngx_radix128tree_insert 129 st loopback6 host_mask6 42) in
      match r1 with
      | Done (_, ?st1) =>
          let r2 := eval vm_compute in
                      (node_at (mem st1) (root (tree st1)) (key_dirs loopback6)) in
          match r2 with
          | Some ?a =>
              exists st, st1, a;
              assert (Hf : (128 < 129)%nat) by lia;
              assert (Hl : length (b_bytes loopback6) = 16%nat) by reflexivity;
              assert (Ha : node_at (mem st1) (root (tree st1)) (key_dirs loopback6) = Some a)
                by (by vm_compute);
              pose proof (find128_reads_past_the_key 129 st1 loopback6 a Hf Hl Ha) as H
          end
      end
  end.
  split; [by vm_compute|]. split; [by vm_compute|]. split; [exact Hf|].
  split; [exact Hl|]. split; [exact Ha|]. exact H.
Defined.

End Radix128Facts.
